(** * Version chains of the vDriver storage engine

    A verification development for [src/backend/storage/vcluster/vchain.c]:
    [VChainLookupLocator], [VChainAppendLocator] and [VChainFixUpOne].

    The three functions are embedded as one small-step machine.  A backend
    that executes one of them is a [Thread]: a program point of the C
    function together with the local variables that are live there.  Every
    C statement that touches shared memory is one step, and every step
    reports the shared-memory operations it performed as [Event]s, so that
    ordering properties are statements about traces and concurrency is
    interleaving of steps. *)

From stdpp Require Import gmap list.

Open Scope Z_scope.

(** ** Data model *)

(** [dsa_pointer] is an unsigned 64-bit offset into the shared area,
    [TransactionId] an unsigned 32-bit counter, [PrimaryKey] an opaque
    fixed-size identifier.  All three are carried as [Z]. *)
Abbreviation dsa_pointer := Z (only parsing).
Abbreviation TransactionId := Z (only parsing).
Abbreviation PrimaryKey := Z (only parsing).
Abbreviation TimestampTz := Z (only parsing).

Definition wrap64 (x : Z) : Z := x mod 2 ^ 64.

(** Modelled from the spec: the declaration of [VLocatorFlag] lives in a
    header that is not part of the sources; the spec fixes it as a tri-state
    in which the winner value is the idle value. *)
Inductive VLocatorFlag := VL_WINNER | VL_APPEND | VL_DELETE.

Definition flag_eqb (a b : VLocatorFlag) : bool :=
  match a, b with
  | VL_WINNER, VL_WINNER | VL_APPEND, VL_APPEND | VL_DELETE, VL_DELETE => true
  | _, _ => false
  end.

(** The fields of [VLocator] that vchain.c reads or writes. *)
Record VLocator := {
  dsap : dsa_pointer;
  dsap_prev : dsa_pointer;
  dsap_next : dsa_pointer;
  xmin : TransactionId;
  flag : VLocatorFlag;
  timestamp : TimestampTz;
}.

Definition set_dsap_prev (v : dsa_pointer) (n : VLocator) : VLocator :=
  {| dsap := dsap n; dsap_prev := v; dsap_next := dsap_next n;
     xmin := xmin n; flag := flag n; timestamp := timestamp n |}.

Definition set_dsap_next (v : dsa_pointer) (n : VLocator) : VLocator :=
  {| dsap := dsap n; dsap_prev := dsap_prev n; dsap_next := v;
     xmin := xmin n; flag := flag n; timestamp := timestamp n |}.

Definition set_flag (v : VLocatorFlag) (n : VLocator) : VLocator :=
  {| dsap := dsap n; dsap_prev := dsap_prev n; dsap_next := dsap_next n;
     xmin := xmin n; flag := v; timestamp := timestamp n |}.

Definition set_timestamp (v : TimestampTz) (n : VLocator) : VLocator :=
  {| dsap := dsap n; dsap_prev := dsap_prev n; dsap_next := dsap_next n;
     xmin := xmin n; flag := flag n; timestamp := v |}.

(** Lightweight locks guarding the partitions of the vchain hash. *)
Inductive LWLockMode := LW_EXCLUSIVE | LW_SHARED.

Record LWLock := { lw_exclusive : bool; lw_shared : nat }.

Definition lw_free : LWLock := {| lw_exclusive := false; lw_shared := 0 |}.

(** Everything the backends share: the vchain hash (an association list, so
    that two entries for one key are representable), the partition locks,
    the shared area holding the nodes, the table of published epochs (one
    slot per backend) and the clock read by [GetCurrentTimestamp]. *)
Record Shared := {
  vchain_hash : list (PrimaryKey * dsa_pointer);
  lwlocks : gmap nat LWLock;
  dsa_vcluster : gmap Z VLocator;
  thread_table : gmap nat TimestampTz;
  clock : TimestampTz;
}.

Definition with_hash (x : list (PrimaryKey * dsa_pointer)) (g : Shared) : Shared :=
  {| vchain_hash := x; lwlocks := lwlocks g; dsa_vcluster := dsa_vcluster g;
     thread_table := thread_table g; clock := clock g |}.

Definition with_locks (x : gmap nat LWLock) (g : Shared) : Shared :=
  {| vchain_hash := vchain_hash g; lwlocks := x; dsa_vcluster := dsa_vcluster g;
     thread_table := thread_table g; clock := clock g |}.

Definition with_dsa (x : gmap Z VLocator) (g : Shared) : Shared :=
  {| vchain_hash := vchain_hash g; lwlocks := lwlocks g; dsa_vcluster := x;
     thread_table := thread_table g; clock := clock g |}.

Definition with_thread_table (x : gmap nat TimestampTz) (g : Shared) : Shared :=
  {| vchain_hash := vchain_hash g; lwlocks := lwlocks g; dsa_vcluster := dsa_vcluster g;
     thread_table := x; clock := clock g |}.

(** ** Collaborators outside vchain.c *)

(** The snapshot predicate, the hash function and the mapping from hash
    codes to partition locks are declared in headers that are not part of
    the sources; they are parameters of the development. *)
Class Collaborators := {
  Snapshot : Type;
  XidInMVCCSnapshot : TransactionId -> Snapshot -> bool;
  VChainHashCode : PrimaryKey -> Z;
  VChainMappingPartitionLock : Z -> nat;
}.

(** Modelled from the spec: [LWLockAcquire] of lwlock.c, which is not part
    of the sources.  Shared mode is granted unless the lock is held
    exclusively, exclusive mode only when nobody holds the lock; [None] means
    that the caller has to wait. *)
Definition lock_state (g : Shared) (l : nat) : LWLock :=
  default lw_free (lwlocks g !! l).

Definition LWLockAcquire (l : nat) (m : LWLockMode) (g : Shared) : option Shared :=
  let s := lock_state g l in
  match m with
  | LW_SHARED =>
      if lw_exclusive s then None
      else Some (with_locks (<[l := {| lw_exclusive := false; lw_shared := S (lw_shared s) |}]> (lwlocks g)) g)
  | LW_EXCLUSIVE =>
      if lw_exclusive s || negb (Nat.eqb (lw_shared s) 0) then None
      else Some (with_locks (<[l := {| lw_exclusive := true; lw_shared := 0 |}]> (lwlocks g)) g)
  end.

(** Modelled from the spec: [LWLockRelease] of lwlock.c.  The C function
    finds the mode in the backend's list of held locks; here the mode is the
    one the releasing program point is known to hold. *)
Definition LWLockRelease (l : nat) (m : LWLockMode) (g : Shared) : Shared :=
  let s := lock_state g l in
  match m with
  | LW_SHARED =>
      with_locks (<[l := {| lw_exclusive := lw_exclusive s; lw_shared := Nat.pred (lw_shared s) |}]> (lwlocks g)) g
  | LW_EXCLUSIVE =>
      with_locks (<[l := {| lw_exclusive := false; lw_shared := lw_shared s |}]> (lwlocks g)) g
  end.

(** Modelled from the spec: [VChainHashLookup] of vchain_hash.c, which is
    not part of the sources: the anchor offset stored for the key, or a
    miss. *)
Fixpoint VChainHashLookup (pk : PrimaryKey) (tbl : list (PrimaryKey * dsa_pointer))
  : option dsa_pointer :=
  match tbl with
  | [] => None
  | (k, d) :: tbl' => if k =? pk then Some d else VChainHashLookup pk tbl'
  end.

(** Modelled from the spec: the anchor (dummy node) of an empty chain,
    [anchor.prev == anchor.self], with an idle flag. *)
Definition dummy_node (d : dsa_pointer) : VLocator :=
  {| dsap := d; dsap_prev := d; dsap_next := d; xmin := 0;
     flag := VL_WINNER; timestamp := 0 |}.

(** Modelled from the spec: [VChainHashInsert] of vchain_hash.c, which is
    not part of the sources: an idempotent get-or-create.  It re-checks the
    table and hands back the existing anchor; only when the key is still
    absent does it allocate a dummy node at an unused offset and enter it. *)
Definition VChainHashInsert (pk : PrimaryKey) (g : Shared) : dsa_pointer * Shared :=
  match VChainHashLookup pk (vchain_hash g) with
  | Some d => (d, g)
  | None =>
      let d := fresh (dom (dsa_vcluster g)) in
      (d, with_hash (vchain_hash g ++ [(pk, d)])
            (with_dsa (<[d := dummy_node d]> (dsa_vcluster g)) g))
  end.

(** Modelled from the spec: [SetTimestamp] and [ClearTimestamp] of the
    thread table, which is not part of the sources: publish the calling
    backend's epoch in its own slot, and retract it. *)
Definition SetTimestamp (me : nat) (g : Shared) : Shared :=
  with_thread_table (<[me := clock g]> (thread_table g)) g.

Definition ClearTimestamp (me : nat) (g : Shared) : Shared :=
  with_thread_table (delete me (thread_table g)) g.

Definition published (me : nat) (g : Shared) : bool :=
  bool_decide (is_Some (thread_table g !! me)).

Arguments LWLockAcquire : simpl never.
Arguments LWLockRelease : simpl never.
Arguments VChainHashInsert : simpl never.
Arguments SetTimestamp : simpl never.
Arguments ClearTimestamp : simpl never.

(** ** Events *)

Inductive Field := F_dsap | F_prev | F_next | F_xmin | F_flag | F_timestamp.

Inductive Result :=
| RVoid
| RNotFound
| RFound (locator : dsa_pointer).

Inductive Event :=
| EvLWLockAcquire (l : nat) (m : LWLockMode)
| EvLWLockRelease (l : nat)
| EvHashLookup (pk : PrimaryKey) (r : option dsa_pointer)
| EvHashInsert (pk : PrimaryKey) (r : dsa_pointer)
| EvSetTimestamp
| EvClearTimestamp
| EvLoad (p : dsa_pointer) (f : Field) (v : Z)
| EvStore (p : dsa_pointer) (f : Field) (v : Z)
| EvExchange (p : dsa_pointer) (new old : VLocatorFlag)
| EvFetchAdd (p : dsa_pointer) (f : Field) (delta old : Z)
| EvBarrier
| EvGetCurrentTimestamp (v : TimestampTz)
| EvFixUp (mid : dsa_pointer)
| EvAssertFail
| EvSegv (p : dsa_pointer)
| EvReturn (r : Result).

(** ** The machine *)

Section Machine.
Context `{Collaborators}.

(** Program points.  The comment after each one gives the lines of vchain.c
    it stands for; the arguments are the C locals that are live there.  A
    [VLocator *] obtained from [dsa_get_address] is carried as the offset it
    was computed from. *)
Inductive Thread :=
(* VChainLookupLocator(primary_key, snapshot, ret_locator) *)
| LkAcquire (primary_key : PrimaryKey) (snapshot : Snapshot)      (* 77-81 *)
| LkProbe (primary_key : PrimaryKey) (snapshot : Snapshot)        (* 82 *)
| LkMissRelease (primary_key : PrimaryKey)                        (* 85-86 *)
| LkHitRelease (primary_key : PrimaryKey) (snapshot : Snapshot)
               (dsap_chain : dsa_pointer)                         (* 88 *)
| LkSetEpoch (snapshot : Snapshot) (dsap_chain : dsa_pointer)     (* 91 *)
| LkEmptyTest (snapshot : Snapshot) (dsap_chain : dsa_pointer)    (* 93-94 *)
| LkEmptyClear                                                    (* 99-101 *)
| LkLoadTail (snapshot : Snapshot) (chain : dsa_pointer)          (* 109 *)
| LkLoopTest (snapshot : Snapshot) (chain locator : dsa_pointer)  (* 110 *)
| LkVisTest (snapshot : Snapshot) (chain locator : dsa_pointer)   (* 112 *)
| LkFoundClear (locator : dsa_pointer)                            (* 115-120 *)
| LkAdvance (snapshot : Snapshot) (chain locator : dsa_pointer)   (* 122-123 *)
| LkNotFoundClear                                                 (* 128-130 *)
(* VChainAppendLocator(primary_key, locator) *)
| ApAcquire (primary_key : PrimaryKey) (locator : dsa_pointer)    (* 150-154 *)
| ApProbe (primary_key : PrimaryKey) (locator : dsa_pointer)      (* 155 *)
| ApHitRelease (primary_key : PrimaryKey) (locator dsap_chain : dsa_pointer) (* 158 *)
| ApMissRelease (primary_key : PrimaryKey) (locator : dsa_pointer) (* 163 *)
| ApAcquireExclusive (primary_key : PrimaryKey) (locator : dsa_pointer) (* 164 *)
| ApInsert (primary_key : PrimaryKey) (locator : dsa_pointer)     (* 167 *)
| ApInsertRelease (primary_key : PrimaryKey) (locator dsap_chain : dsa_pointer) (* 168 *)
| ApRetry (locator chain : dsa_pointer)                           (* 177-184 *)
| ApExchange (locator chain tail_prev : dsa_pointer)              (* 187 *)
| ApJudge (locator chain tail_prev : dsa_pointer) (flag : VLocatorFlag) (* 189, 201 *)
| ApSpin (locator chain tail_prev : dsa_pointer)                  (* 191-197 *)
| ApLink1 (locator chain tail_prev : dsa_pointer)                 (* 203 *)
| ApLink2 (locator chain tail_prev : dsa_pointer)                 (* 204 *)
| ApLink3 (locator chain tail_prev : dsa_pointer)                 (* 205 *)
| ApLink4 (locator chain tail_prev : dsa_pointer)                 (* 206 *)
| ApExchangeBack (tail_prev : dsa_pointer)                        (* 209 *)
| ApJudgeBack (tail_prev : dsa_pointer) (flag : VLocatorFlag)     (* 211-217 *)
(* VChainFixUpOne(mid) *)
| FxReadPrev (mid : dsa_pointer)                                  (* 234 *)
| FxReadNext (mid dsap_prev : dsa_pointer)                        (* 235 *)
| FxStoreNext (mid dsap_prev dsap_next : dsa_pointer)             (* 237-241 *)
| FxStorePrev (mid dsap_prev dsap_next : dsa_pointer)             (* 242 *)
| FxBarrier (mid : dsa_pointer)                                   (* 245 *)
| FxStamp (mid : dsa_pointer)                                     (* 248 *)
(* leaving a function *)
| Ret (r : Result)
| Done (r : Result)
| Aborted
| Faulted.

Definition outcome : Type := list Event * Shared * Thread.

(** Reading or writing through an offset that names no node is a fault of
    the process. *)
Definition deref (g : Shared) (p : dsa_pointer) (k : VLocator -> outcome) : option outcome :=
  match dsa_vcluster g !! p with
  | Some n => Some (k n)
  | None => Some ([EvSegv p], g, Faulted)
  end.

Definition deref2 (g : Shared) (p q : dsa_pointer) (k : VLocator -> VLocator -> outcome)
  : option outcome :=
  match dsa_vcluster g !! p with
  | Some n =>
      match dsa_vcluster g !! q with
      | Some m => Some (k n m)
      | None => Some ([EvSegv q], g, Faulted)
      end
  | None => Some ([EvSegv p], g, Faulted)
  end.

Definition poke (p : dsa_pointer) (n : VLocator) (g : Shared) : Shared :=
  with_dsa (<[p := n]> (dsa_vcluster g)) g.

Definition partition_lock (primary_key : PrimaryKey) : nat :=
  VChainMappingPartitionLock (VChainHashCode primary_key).

(** One step of backend [me].  [None]: the thread has left its function,
    or waits for a lock. *)
Definition step (me : nat) (g : Shared) (t : Thread) : option outcome :=
  match t with
  (* ---- VChainLookupLocator ---- *)
  | LkAcquire pk snapshot =>
      g' ← LWLockAcquire (partition_lock pk) LW_SHARED g;
      Some ([EvLWLockAcquire (partition_lock pk) LW_SHARED], g', LkProbe pk snapshot)
  | LkProbe pk snapshot =>
      let r := VChainHashLookup pk (vchain_hash g) in
      Some ([EvHashLookup pk r], g,
            match r with
            | None => LkMissRelease pk
            | Some dsap_chain => LkHitRelease pk snapshot dsap_chain
            end)
  | LkMissRelease pk =>
      Some ([EvLWLockRelease (partition_lock pk)],
            LWLockRelease (partition_lock pk) LW_SHARED g, Ret RNotFound)
  | LkHitRelease pk snapshot dsap_chain =>
      Some ([EvLWLockRelease (partition_lock pk)],
            LWLockRelease (partition_lock pk) LW_SHARED g, LkSetEpoch snapshot dsap_chain)
  | LkSetEpoch snapshot dsap_chain =>
      Some ([EvSetTimestamp], SetTimestamp me g, LkEmptyTest snapshot dsap_chain)
  | LkEmptyTest snapshot chain =>
      deref g chain (fun c =>
        ([EvLoad chain F_prev (dsap_prev c); EvLoad chain F_dsap (dsap c)], g,
         if dsap_prev c =? dsap c then LkEmptyClear else LkLoadTail snapshot chain))
  | LkEmptyClear =>
      Some ([EvClearTimestamp], ClearTimestamp me g, Ret RNotFound)
  | LkLoadTail snapshot chain =>
      deref g chain (fun c =>
        ([EvLoad chain F_prev (dsap_prev c)], g, LkLoopTest snapshot chain (dsap_prev c)))
  | LkLoopTest snapshot chain locator =>
      deref2 g locator chain (fun l c =>
        ([EvLoad locator F_dsap (dsap l); EvLoad chain F_dsap (dsap c)], g,
         if negb (dsap l =? dsap c) then LkVisTest snapshot chain locator
         else LkNotFoundClear))
  | LkVisTest snapshot chain locator =>
      deref g locator (fun l =>
        ([EvLoad locator F_xmin (xmin l)], g,
         if negb (XidInMVCCSnapshot (xmin l) snapshot) then LkFoundClear locator
         else LkAdvance snapshot chain locator))
  | LkFoundClear locator =>
      Some ([EvClearTimestamp], ClearTimestamp me g, Ret (RFound locator))
  | LkAdvance snapshot chain locator =>
      deref g locator (fun l =>
        ([EvLoad locator F_prev (dsap_prev l)], g, LkLoopTest snapshot chain (dsap_prev l)))
  | LkNotFoundClear =>
      Some ([EvClearTimestamp], ClearTimestamp me g, Ret RNotFound)
  (* ---- VChainAppendLocator ---- *)
  | ApAcquire pk locator =>
      g' ← LWLockAcquire (partition_lock pk) LW_SHARED g;
      Some ([EvLWLockAcquire (partition_lock pk) LW_SHARED], g', ApProbe pk locator)
  | ApProbe pk locator =>
      let r := VChainHashLookup pk (vchain_hash g) in
      Some ([EvHashLookup pk r], g,
            match r with
            | Some dsap_chain => ApHitRelease pk locator dsap_chain
            | None => ApMissRelease pk locator
            end)
  | ApHitRelease pk locator dsap_chain =>
      Some ([EvLWLockRelease (partition_lock pk)],
            LWLockRelease (partition_lock pk) LW_SHARED g, ApRetry locator dsap_chain)
  | ApMissRelease pk locator =>
      Some ([EvLWLockRelease (partition_lock pk)],
            LWLockRelease (partition_lock pk) LW_SHARED g, ApAcquireExclusive pk locator)
  | ApAcquireExclusive pk locator =>
      g' ← LWLockAcquire (partition_lock pk) LW_EXCLUSIVE g;
      Some ([EvLWLockAcquire (partition_lock pk) LW_EXCLUSIVE], g', ApInsert pk locator)
  | ApInsert pk locator =>
      let '(dsap_chain, g') := VChainHashInsert pk g in
      Some ([EvHashInsert pk dsap_chain], g', ApInsertRelease pk locator dsap_chain)
  | ApInsertRelease pk locator dsap_chain =>
      Some ([EvLWLockRelease (partition_lock pk)],
            LWLockRelease (partition_lock pk) LW_EXCLUSIVE g, ApRetry locator dsap_chain)
  | ApRetry locator chain =>
      deref g chain (fun c =>
        ([EvLoad chain F_prev (dsap_prev c)], g, ApExchange locator chain (dsap_prev c)))
  | ApExchange locator chain tail_prev =>
      deref g tail_prev (fun tp =>
        ([EvExchange tail_prev VL_APPEND (flag tp)],
         poke tail_prev (set_flag VL_APPEND tp) g,
         ApJudge locator chain tail_prev (flag tp)))
  | ApJudge locator chain tail_prev flag =>
      if flag_eqb flag VL_DELETE then Some ([], g, ApSpin locator chain tail_prev)
      else if flag_eqb flag VL_WINNER then Some ([], g, ApLink1 locator chain tail_prev)
      else Some ([EvAssertFail], g, Aborted)
  | ApSpin locator chain tail_prev =>
      deref g chain (fun c =>
        ([EvFetchAdd chain F_prev 0 (dsap_prev c)],
         poke chain (set_dsap_prev (wrap64 (dsap_prev c + 0)) c) g,
         if tail_prev =? dsap_prev c then ApSpin locator chain tail_prev
         else ApRetry locator chain))
  | ApLink1 locator chain tail_prev =>
      deref g locator (fun l =>
        ([EvStore locator F_prev tail_prev],
         poke locator (set_dsap_prev tail_prev l) g,
         ApLink2 locator chain tail_prev))
  | ApLink2 locator chain tail_prev =>
      deref2 g chain locator (fun c l =>
        ([EvLoad chain F_dsap (dsap c); EvStore locator F_next (dsap c)],
         poke locator (set_dsap_next (dsap c) l) g,
         ApLink3 locator chain tail_prev))
  | ApLink3 locator chain tail_prev =>
      deref2 g locator tail_prev (fun l tp =>
        ([EvLoad locator F_dsap (dsap l); EvStore tail_prev F_next (dsap l)],
         poke tail_prev (set_dsap_next (dsap l) tp) g,
         ApLink4 locator chain tail_prev))
  | ApLink4 locator chain tail_prev =>
      deref2 g locator chain (fun l c =>
        ([EvLoad locator F_dsap (dsap l); EvStore chain F_prev (dsap l)],
         poke chain (set_dsap_prev (dsap l) c) g,
         ApExchangeBack tail_prev))
  | ApExchangeBack tail_prev =>
      deref g tail_prev (fun tp =>
        ([EvExchange tail_prev VL_WINNER (flag tp)],
         poke tail_prev (set_flag VL_WINNER tp) g,
         ApJudgeBack tail_prev (flag tp)))
  | ApJudgeBack tail_prev flag =>
      (* the call is the last statement of the function: when
         VChainFixUpOne returns, VChainAppendLocator returns *)
      if flag_eqb flag VL_DELETE then Some ([EvFixUp tail_prev], g, FxReadPrev tail_prev)
      else Some ([], g, Ret RVoid)
  (* ---- VChainFixUpOne ---- *)
  | FxReadPrev mid =>
      deref g mid (fun m =>
        ([EvLoad mid F_prev (dsap_prev m)], g, FxReadNext mid (dsap_prev m)))
  | FxReadNext mid dsap_prev =>
      deref g mid (fun m =>
        ([EvLoad mid F_next (dsap_next m)], g, FxStoreNext mid dsap_prev (dsap_next m)))
  | FxStoreNext mid dsap_prev dsap_next =>
      deref g dsap_prev (fun prev =>
        ([EvStore dsap_prev F_next dsap_next],
         poke dsap_prev (set_dsap_next dsap_next prev) g,
         FxStorePrev mid dsap_prev dsap_next))
  | FxStorePrev mid dsap_prev dsap_next =>
      deref g dsap_next (fun next =>
        ([EvStore dsap_next F_prev dsap_prev],
         poke dsap_next (set_dsap_prev dsap_prev next) g,
         FxBarrier mid))
  | FxBarrier mid =>
      Some ([EvBarrier], g, FxStamp mid)
  | FxStamp mid =>
      deref g mid (fun m =>
        ([EvGetCurrentTimestamp (clock g); EvStore mid F_timestamp (clock g)],
         poke mid (set_timestamp (clock g) m) g,
         Ret RVoid))
  (* ---- leaving ---- *)
  | Ret r => Some ([EvReturn r], g, Done r)
  | Done _ | Aborted | Faulted => None
  end.

(** Running one backend alone for at most [fuel] steps. *)
Fixpoint run (fuel : nat) (me : nat) (g : Shared) (t : Thread) : outcome :=
  match fuel with
  | O => ([], g, t)
  | S fuel' =>
      match step me g t with
      | None => ([], g, t)
      | Some (evs, g1, t1) =>
          let '(tr, g2, t2) := run fuel' me g1 t1 in (evs ++ tr, g2, t2)
      end
  end.

(** Executions of one backend in an environment: between two of its steps
    the other participants may change the shared state by [rely]. *)
Inductive exec (rely : Shared -> Shared -> Prop) (me : nat)
  : Shared -> Thread -> list Event -> Shared -> Thread -> Prop :=
| exec_here g t : exec rely me g t [] g t
| exec_step g t evs g1 t1 tr g2 t2 :
    step me g t = Some (evs, g1, t1) ->
    exec rely me g1 t1 tr g2 t2 ->
    exec rely me g t (evs ++ tr) g2 t2
| exec_env g g1 t tr g2 t2 :
    rely g g1 ->
    exec rely me g1 t tr g2 t2 ->
    exec rely me g t tr g2 t2.

(** Nobody else runs. *)
Definition alone : Shared -> Shared -> Prop := fun _ _ => False.

(** Anything may happen to the shared state between two steps. *)
Definition anything : Shared -> Shared -> Prop := fun _ _ => True.

(** Several backends: a schedule names the backend that takes each step. *)
Record Config := { shared : Shared; threads : list Thread }.

Definition sched_step (i : nat) (c : Config) : option (list (nat * Event) * Config) :=
  t ← threads c !! i;
  '(evs, g', t') ← step i (shared c) t;
  Some (map (pair i) evs, {| shared := g'; threads := <[i := t']> (threads c) |}).

Fixpoint sched_run (sch : list nat) (c : Config) : option (list (nat * Event) * Config) :=
  match sch with
  | [] => Some ([], c)
  | i :: sch' =>
      '(tr1, c1) ← sched_step i c;
      '(tr2, c2) ← sched_run sch' c1;
      Some (tr1 ++ tr2, c2)
  end.

End Machine.

(** ** Vocabulary of the specification *)

Section Vocabulary.
Context `{Collaborators}.

(** A call returns [r]: run alone, the backend reaches the end of the
    function with that result, after trace [tr] and in state [g']. *)
Definition returns (me : nat) (g : Shared) (t : Thread) (tr : list Event)
    (g' : Shared) (r : Result) : Prop :=
  exec alone me g t tr g' (Done r).

(** The backward walk: following [dsap_prev] from offset [p] one meets the
    nodes [vs] in this order, none of which carries the anchor's own offset,
    and then a node that does. *)
Fixpoint prev_walk (h : gmap Z VLocator) (stop p : dsa_pointer) (vs : list dsa_pointer) : Prop :=
  match vs with
  | [] => exists n, h !! p = Some n /\ dsap n = stop
  | v :: vs' =>
      p = v /\ exists n, h !! v = Some n /\ dsap n <> stop /\ prev_walk h stop (dsap_prev n) vs'
  end.

(** The chain anchored at [d] holds the versions [vs], newest first. *)
Definition chain_versions (g : Shared) (d : dsa_pointer) (vs : list dsa_pointer) : Prop :=
  exists c, dsa_vcluster g !! d = Some c /\ dsap c = d /\
            prev_walk (dsa_vcluster g) d (dsap_prev c) vs.

(** SnapshotOracle.IsVisible of the node at [v]: line 112 tests
    [!XidInMVCCSnapshot(locator->xmin, snapshot)]. *)
Definition visible (g : Shared) (snapshot : Snapshot) (v : dsa_pointer) : bool :=
  match dsa_vcluster g !! v with
  | Some n => negb (XidInMVCCSnapshot (xmin n) snapshot)
  | None => false
  end.

Fixpoint first_visible (g : Shared) (snapshot : Snapshot) (vs : list dsa_pointer)
  : Result :=
  match vs with
  | [] => RNotFound
  | v :: vs' => if visible g snapshot v then RFound v else first_visible g snapshot vs'
  end.

(** Versions counted the way the spec counts them: [ws] lists the versions
    oldest first, version 1 is the oldest and version [length ws] the
    newest; there is no version 0. *)
Definition version (ws : list dsa_pointer) (j : nat) : option dsa_pointer :=
  match j with
  | O => None
  | S i => ws !! i
  end.

Definition found (o : option dsa_pointer) : Result :=
  match o with
  | Some v => RFound v
  | None => RNotFound
  end.

(** *** Shapes of traces *)

Definition is_load (e : Event) : Prop :=
  match e with
  | EvLoad _ _ _ => True
  | _ => False
  end.

(** Whether the next step of the thread reads a node reached through the
    chain (lines 93-123 of VChainLookupLocator). *)
Definition dereferences (t : Thread) : bool :=
  match t with
  | LkEmptyTest _ _ | LkLoadTail _ _ | LkLoopTest _ _ _ | LkVisTest _ _ _
  | LkAdvance _ _ _ => true
  | _ => false
  end.

(** What VChainLookupLocator does before it looks at the chain. *)
Definition lookup_prefix (pk : PrimaryKey) (r : option dsa_pointer) : list Event :=
  [EvLWLockAcquire (partition_lock pk) LW_SHARED; EvHashLookup pk r;
   EvLWLockRelease (partition_lock pk)].

(** The traces of a call of VChainLookupLocator that has returned [r]:
    either the hash had no entry, or the epoch was published, then came
    loads only, then the epoch was retracted, then the return. *)
Definition lookup_trace (pk : PrimaryKey) (r : Result) (tr : list Event) : Prop :=
  (r = RNotFound /\ tr = lookup_prefix pk None ++ [EvReturn RNotFound])
  \/
  (exists d loads, Forall is_load loads /\
     tr = lookup_prefix pk (Some d) ++ [EvSetTimestamp] ++ loads
          ++ [EvClearTimestamp; EvReturn r]).

(** The trace so far at each program point of VChainLookupLocator, together
    with a condition on the shared state: [A] before the epoch is
    published, [B] while it is, [C] once it is retracted. *)
Definition lookup_inv (pk : PrimaryKey) (A B C : Prop) (t : Thread) (tr : list Event) : Prop :=
  match t with
  | LkAcquire pk' _ => pk' = pk /\ tr = [] /\ A
  | LkProbe pk' _ =>
      pk' = pk /\ tr = [EvLWLockAcquire (partition_lock pk) LW_SHARED] /\ A
  | LkMissRelease pk' =>
      pk' = pk /\
      tr = [EvLWLockAcquire (partition_lock pk) LW_SHARED; EvHashLookup pk None] /\ A
  | LkHitRelease pk' _ d =>
      pk' = pk /\
      tr = [EvLWLockAcquire (partition_lock pk) LW_SHARED; EvHashLookup pk (Some d)] /\ A
  | LkSetEpoch _ d => tr = lookup_prefix pk (Some d) /\ A
  | LkEmptyTest _ _ | LkLoadTail _ _ | LkLoopTest _ _ _ | LkVisTest _ _ _
  | LkAdvance _ _ _ | LkEmptyClear | LkNotFoundClear | LkFoundClear _ =>
      (exists d loads, Forall is_load loads /\
         tr = lookup_prefix pk (Some d) ++ [EvSetTimestamp] ++ loads) /\ B
  | Ret r =>
      (r = RNotFound /\ tr = lookup_prefix pk None /\ A)
      \/
      ((exists d loads, Forall is_load loads /\
          tr = lookup_prefix pk (Some d) ++ [EvSetTimestamp] ++ loads ++ [EvClearTimestamp])
       /\ C)
  | Done r =>
      (r = RNotFound /\ tr = lookup_prefix pk None ++ [EvReturn RNotFound] /\ A)
      \/
      ((exists d loads, Forall is_load loads /\
          tr = lookup_prefix pk (Some d) ++ [EvSetTimestamp] ++ loads
               ++ [EvClearTimestamp; EvReturn r])
       /\ C)
  | Faulted => True
  | _ => False
  end.

(** What VChainFixUpOne(mid) does, with the values it read: the two loads
    of [mid]'s links, the two unlink stores, the barrier, the clock, the
    stamp, the return. *)
Definition fixup_trace (mid p n : dsa_pointer) (ts : TimestampTz) : list Event :=
  [EvLoad mid F_prev p; EvLoad mid F_next n;
   EvStore p F_next n; EvStore n F_prev p;
   EvBarrier;
   EvGetCurrentTimestamp ts; EvStore mid F_timestamp ts;
   EvReturn RVoid].

(** The trace so far at each program point of VChainFixUpOne(mid), entered
    after [base]. *)
Definition fixup_inv (mid : dsa_pointer) (base : list Event) (t : Thread)
    (tr : list Event) : Prop :=
  match t with
  | FxReadPrev m => m = mid /\ tr = base
  | FxReadNext m p => m = mid /\ tr = base ++ take 1 (fixup_trace mid p 0 0)
  | FxStoreNext m p n => m = mid /\ tr = base ++ take 2 (fixup_trace mid p n 0)
  | FxStorePrev m p n => m = mid /\ tr = base ++ take 3 (fixup_trace mid p n 0)
  | FxBarrier m => m = mid /\ exists p n, tr = base ++ take 4 (fixup_trace mid p n 0)
  | FxStamp m => m = mid /\ exists p n, tr = base ++ take 5 (fixup_trace mid p n 0)
  | Ret r => r = RVoid /\ exists p n ts, tr = base ++ take 7 (fixup_trace mid p n ts)
  | Done r => r = RVoid /\ exists p n ts, tr = base ++ fixup_trace mid p n ts
  | Faulted => True
  | _ => False
  end.

(** Events of VChainAppendLocator before it has won the exchange: locking
    and probing the hash, reading [chain->dsap_prev], exchanges that
    captured VL_DELETE and the reads of the spin loop. *)
Definition prelude_event (e : Event) : Prop :=
  match e with
  | EvLWLockAcquire _ _ | EvLWLockRelease _ | EvHashLookup _ _ | EvHashInsert _ _ => True
  | EvLoad _ F_prev _ => True
  | EvExchange _ VL_APPEND VL_DELETE => True
  | EvFetchAdd _ F_prev 0 _ => True
  | _ => False
  end.

(** Lines 203-206 with the values read: [a] is [chain->dsap], [l] and [l']
    are [locator->dsap]. *)
Definition link_trace (loc d tp a l l' : dsa_pointer) : list Event :=
  [EvStore loc F_prev tp;
   EvLoad d F_dsap a; EvStore loc F_next a;
   EvLoad loc F_dsap l; EvStore tp F_next l;
   EvLoad loc F_dsap l'; EvStore d F_prev l'].

(** The trace up to and including the exchange back, which captured [f]:
    a prelude, the exchange that captured VL_WINNER, the link stores, the
    exchange back. *)
Definition linked (loc tp : dsa_pointer) (f : VLocatorFlag) (tr : list Event) : Prop :=
  exists pre d a l l',
    tr = pre ++ EvExchange tp VL_APPEND VL_WINNER
             :: link_trace loc d tp a l l' ++ [EvExchange tp VL_WINNER f] /\
    Forall prelude_event pre.

(** The trace so far at each program point of
    VChainAppendLocator(primary_key, loc). *)
Definition append_inv (loc : dsa_pointer) (t : Thread) (tr : list Event) : Prop :=
  match t with
  | ApAcquire _ l | ApProbe _ l | ApHitRelease _ l _ | ApMissRelease _ l
  | ApAcquireExclusive _ l | ApInsert _ l | ApInsertRelease _ l _
  | ApRetry l _ | ApExchange l _ _ | ApSpin l _ _ =>
      l = loc /\ Forall prelude_event tr
  | ApJudge l _ tp f =>
      l = loc /\ exists pre, tr = pre ++ [EvExchange tp VL_APPEND f] /\ Forall prelude_event pre
  | ApLink1 l d tp =>
      l = loc /\ exists pre,
        tr = pre ++ [EvExchange tp VL_APPEND VL_WINNER] /\
        Forall prelude_event pre
  | ApLink2 l d tp =>
      l = loc /\ exists pre,
        tr = pre ++ EvExchange tp VL_APPEND VL_WINNER :: take 1 (link_trace loc d tp 0 0 0) /\
        Forall prelude_event pre
  | ApLink3 l d tp =>
      l = loc /\ exists pre a,
        tr = pre ++ EvExchange tp VL_APPEND VL_WINNER :: take 3 (link_trace loc d tp a 0 0) /\
        Forall prelude_event pre
  | ApLink4 l d tp =>
      l = loc /\ exists pre a l0,
        tr = pre ++ EvExchange tp VL_APPEND VL_WINNER :: take 5 (link_trace loc d tp a l0 0) /\
        Forall prelude_event pre
  | ApExchangeBack tp =>
      exists pre d a l l',
        tr = pre ++ EvExchange tp VL_APPEND VL_WINNER :: link_trace loc d tp a l l' /\
        Forall prelude_event pre
  | ApJudgeBack tp f => linked loc tp f tr
  | FxReadPrev _ | FxReadNext _ _ | FxStoreNext _ _ _ | FxStorePrev _ _ _
  | FxBarrier _ | FxStamp _ =>
      exists base tp, fixup_inv tp (base ++ [EvFixUp tp]) t tr /\ linked loc tp VL_DELETE base
  | Ret r =>
      (r = RVoid /\ exists tp f, f <> VL_DELETE /\ linked loc tp f tr)
      \/
      (exists base tp, fixup_inv tp (base ++ [EvFixUp tp]) t tr /\ linked loc tp VL_DELETE base)
  | Done r =>
      (r = RVoid /\ exists tp f tr0,
         tr = tr0 ++ [EvReturn RVoid] /\ f <> VL_DELETE /\ linked loc tp f tr0)
      \/
      (exists base tp, fixup_inv tp (base ++ [EvFixUp tp]) t tr /\ linked loc tp VL_DELETE base)
  | Aborted =>
      exists pre tp,
        tr = pre ++ [EvExchange tp VL_APPEND VL_APPEND; EvAssertFail] /\
        Forall prelude_event pre
  | Faulted => True
  | _ => False
  end.

Definition is_store (e : Event) : bool :=
  match e with
  | EvStore _ _ _ => true
  | _ => false
  end.

(** The stores of a trace, in order. *)
Definition stores (tr : list Event) : list Event := List.filter is_store tr.

Definition flag_at (g : Shared) (p : dsa_pointer) : option VLocatorFlag :=
  flag <$> dsa_vcluster g !! p.

(** The environment does not write [p->flag]. *)
Definition keeps_flag (p : dsa_pointer) (rely : Shared -> Shared -> Prop) : Prop :=
  forall a b, rely a b -> flag_at b p = flag_at a p.

(** What VChainFixUpOne leaves alone: the hash, the locks, the epochs, the
    clock and the set of allocated offsets. *)
Definition same_frame (a b : Shared) : Prop :=
  vchain_hash b = vchain_hash a /\ lwlocks b = lwlocks a /\
  thread_table b = thread_table a /\ clock b = clock a /\
  dom (dsa_vcluster b) = dom (dsa_vcluster a).

Definition in_fixup (t : Thread) : bool :=
  match t with
  | FxReadPrev _ | FxReadNext _ _ | FxStoreNext _ _ _ | FxStorePrev _ _ _
  | FxBarrier _ | FxStamp _ | Ret RVoid | Done RVoid | Faulted => true
  | _ => false
  end.


(** Traces in which every exchange back captured VL_APPEND and
    VChainFixUpOne is never called. *)
Definition unvisited_event (e : Event) : Prop :=
  match e with
  | EvExchange _ VL_WINNER f => f = VL_APPEND
  | EvFixUp _ => False
  | _ => True
  end.

Definition no_fixup (tr : list Event) : Prop := Forall unvisited_event tr.

(** While VChainAppendLocator holds its mark on [tail_prev], the flag there
    is VL_APPEND, as long as nobody else writes it; the exchange back then
    captures VL_APPEND and VChainFixUpOne is not called. *)
Definition append_mark_inv (g : Shared) (t : Thread) (tr : list Event) : Prop :=
  no_fixup tr /\
  match t with
  | ApJudge _ _ tp _ | ApSpin _ _ tp | ApLink1 _ _ tp | ApLink2 _ _ tp
  | ApLink3 _ _ tp | ApLink4 _ _ tp | ApExchangeBack tp =>
      flag_at g tp = Some VL_APPEND
  | ApJudgeBack _ f => f = VL_APPEND
  | FxReadPrev _ | FxReadNext _ _ | FxStoreNext _ _ _ | FxStorePrev _ _ _
  | FxBarrier _ | FxStamp _ => False
  | _ => True
  end.


(** One round of the consensus protocol, from the exchange on [tp] (line
    187) on.  [rest] is what the backend did after an exchange that captured
    [f]; [t] is where it stands; [Fl] is a condition on the shared state that
    holds while it spins.
    - VL_WINNER: nothing yet, or the first link store and whatever follows;
    - VL_APPEND: nothing yet, or the failed assertion;
    - VL_DELETE: reads of [chain->dsap_prev] that all returned [tp]; then one
      that returned something else; then the restart, which reads
      [chain->dsap_prev] again. *)
Definition after_exchange (loc d tp : dsa_pointer) (Fl : Prop) (f : VLocatorFlag)
    (t : Thread) (rest : list Event) : Prop :=
  match f with
  | VL_WINNER =>
      (rest = [] /\ (t = ApJudge loc d tp VL_WINNER \/ t = ApLink1 loc d tp))
      \/ (exists rest', rest = EvStore loc F_prev tp :: rest')
  | VL_APPEND =>
      (rest = [] /\ t = ApJudge loc d tp VL_APPEND)
      \/ (rest = [EvAssertFail] /\ t = Aborted)
  | VL_DELETE =>
      exists spins, Forall (eq (EvFetchAdd d F_prev 0 tp)) spins /\
        ((rest = spins /\ Fl /\
          ((t = ApJudge loc d tp VL_DELETE /\ spins = []) \/ t = ApSpin loc d tp))
         \/
         (exists old, old <> tp /\ rest = spins ++ [EvFetchAdd d F_prev 0 old] /\ Fl /\
                      t = ApRetry loc d)
         \/
         (exists old v rest', old <> tp /\
            rest = spins ++ EvFetchAdd d F_prev 0 old :: EvLoad d F_prev v :: rest'))
  end.

Definition round_inv (loc d tp : dsa_pointer) (Fl : Prop) (t : Thread) (tr : list Event)
  : Prop :=
  t = Faulted
  \/ (t = ApExchange loc d tp /\ tr = [])
  \/ (exists f rest, tr = EvExchange tp VL_APPEND f :: rest /\ after_exchange loc d tp Fl f t rest).


(** *** The anchor of a key *)




(** Lines 154-168: the shared lookup misses, the lock is released and taken
    again in exclusive mode, the entry is inserted, the lock is released. *)
Definition resolve_miss (pk : PrimaryKey) (d : dsa_pointer) : list Event :=
  [EvLWLockAcquire (partition_lock pk) LW_SHARED; EvHashLookup pk None;
   EvLWLockRelease (partition_lock pk);
   EvLWLockAcquire (partition_lock pk) LW_EXCLUSIVE; EvHashInsert pk d;
   EvLWLockRelease (partition_lock pk)].



(** *** Well-formed chains *)

(** A stretch of the chain: the nodes [vs], newest first; the newest one has
    [nx] as its next, every node has the following one as its prev, the
    oldest one the anchor [a].  Every node sits at the offset it carries and
    its flag is idle. *)
Fixpoint dll (h : gmap Z VLocator) (nx : dsa_pointer) (vs : list dsa_pointer)
    (a : dsa_pointer) : Prop :=
  match vs with
  | [] => True
  | v :: vs' =>
      exists n, h !! v = Some n /\ dsap n = v /\ dsap_next n = nx /\
                dsap_prev n = hd a vs' /\ flag n = VL_WINNER /\ dll h v vs' a
  end.

(** The circular list anchor <-> oldest <-> ... <-> newest <-> anchor,
    [vs] being the versions, newest first. *)
Definition chain_ok (g : Shared) (d : dsa_pointer) (vs : list dsa_pointer) : Prop :=
  NoDup (d :: vs) /\
  exists c, dsa_vcluster g !! d = Some c /\ dsap c = d /\
            dsap_prev c = hd d vs /\ dsap_next c = default d (last vs) /\
            flag c = VL_WINNER /\ dll (dsa_vcluster g) d vs d.

(** Both links of the node at [x] are answered: its prev points back to it
    with next, its next points back to it with prev. *)
Definition mutual (g : Shared) (x : dsa_pointer) : Prop :=
  exists n p q,
    dsa_vcluster g !! x = Some n /\
    dsa_vcluster g !! dsap_prev n = Some p /\ dsap_next p = x /\
    dsa_vcluster g !! dsap_next n = Some q /\ dsap_prev q = x.

(** A node as the writer hands it to VChainAppendLocator: allocated at the
    offset it carries, with an idle flag. *)
Definition fresh_node (g : Shared) (l : dsa_pointer) : Prop :=
  exists n, dsa_vcluster g !! l = Some n /\ dsap n = l /\ flag n = VL_WINNER.


Definition all_done (c : Config) : Prop :=
  Forall (fun t => exists r, t = Done r) (threads c).


(** *** What a backward walk sees *)

(** What the backward walk reads of the node at [q]: the offset it
    carries and its prev link. *)
Definition prev_view (h : gmap Z VLocator) (q : dsa_pointer) : option (Z * Z) :=
  (fun n => (dsap n, dsap_prev n)) <$> h !! q.

(** The versions [vs], newest first, as the prev links present them. *)
Fixpoint back (h : gmap Z VLocator) (vs : list dsa_pointer) (a : dsa_pointer) : Prop :=
  match vs with
  | [] => True
  | v :: vs' => v <> a /\ prev_view h v = Some (v, hd a vs') /\ back h vs' a
  end.

Definition chain_back (g : Shared) (d : dsa_pointer) (vs : list dsa_pointer) : Prop :=
  prev_view (dsa_vcluster g) d = Some (d, hd d vs) /\ back (dsa_vcluster g) vs d.

(** Where a call VChainAppendLocator(pk, loc), run alone on the chain [vs]
    anchored at [d] of the heap [h0], can stand, and what the prev links
    present there: the chain as it was up to line 206, and the chain with
    [loc] as its newest version from then on. *)
Definition old_view (h0 : gmap Z VLocator) (loc : dsa_pointer) (g : Shared) : Prop :=
  (forall q, q <> loc -> prev_view (dsa_vcluster g) q = prev_view h0 q) /\
  (exists n, dsa_vcluster g !! loc = Some n /\ dsap n = loc).

Definition new_view (h0 : gmap Z VLocator) (loc d tp : dsa_pointer) (g : Shared) : Prop :=
  prev_view (dsa_vcluster g) d = Some (d, loc) /\
  prev_view (dsa_vcluster g) loc = Some (loc, tp) /\
  (forall q, q <> loc -> q <> d -> prev_view (dsa_vcluster g) q = prev_view h0 q).

Definition lin_inv (h0 : gmap Z VLocator) (pk : PrimaryKey) (loc d tp0 : dsa_pointer)
    (g : Shared) (t : Thread) : Prop :=
  VChainHashLookup pk (vchain_hash g) = Some d /\
  match t with
  | ApAcquire pk' l | ApProbe pk' l =>
      pk' = pk /\ l = loc /\ old_view h0 loc g /\ flag_at g tp0 = Some VL_WINNER
  | ApHitRelease pk' l d' =>
      pk' = pk /\ l = loc /\ d' = d /\ old_view h0 loc g /\ flag_at g tp0 = Some VL_WINNER
  | ApRetry l d' =>
      l = loc /\ d' = d /\ old_view h0 loc g /\ flag_at g tp0 = Some VL_WINNER
  | ApExchange l d' tp =>
      l = loc /\ d' = d /\ tp = tp0 /\ old_view h0 loc g /\ flag_at g tp0 = Some VL_WINNER
  | ApJudge l d' tp f =>
      l = loc /\ d' = d /\ tp = tp0 /\ f = VL_WINNER /\ old_view h0 loc g /\
      flag_at g tp0 = Some VL_APPEND
  | ApLink1 l d' tp =>
      l = loc /\ d' = d /\ tp = tp0 /\ old_view h0 loc g /\ flag_at g tp0 = Some VL_APPEND
  | ApLink2 l d' tp | ApLink3 l d' tp | ApLink4 l d' tp =>
      l = loc /\ d' = d /\ tp = tp0 /\ old_view h0 loc g /\ flag_at g tp0 = Some VL_APPEND /\
      prev_view (dsa_vcluster g) loc = Some (loc, tp0)
  | ApExchangeBack tp =>
      tp = tp0 /\ new_view h0 loc d tp0 g /\ flag_at g tp0 = Some VL_APPEND
  | ApJudgeBack tp f => f = VL_APPEND /\ new_view h0 loc d tp0 g
  | Ret r | Done r => new_view h0 loc d tp0 g
  | _ => False
  end.

(** The program points up to and including line 206. *)
Definition before_link4 (t : Thread) : bool :=
  match t with
  | ApExchangeBack _ | ApJudgeBack _ _ | Ret _ | Done _ => false
  | _ => true
  end.


(** The states met while calls of Append for one key run one after the
    other: the calls before the current one have returned, the current one
    stands anywhere between its entry and its return; [seen] lists, newest
    first, the nodes of the calls that have passed line 206. *)
Inductive appending (pk : PrimaryKey)
  : list (nat * dsa_pointer) -> Shared -> Shared -> list dsa_pointer -> Prop :=
| appending_now me l calls g tr g1 t1 :
    exec alone me g (ApAcquire pk l) tr g1 t1 ->
    appending pk ((me, l) :: calls) g g1 (if before_link4 t1 then [] else [l])
| appending_later me l calls g tr g1 g2 seen :
    returns me g (ApAcquire pk l) tr g1 RVoid ->
    appending pk calls g1 g2 seen ->
    appending pk ((me, l) :: calls) g g2 (seen ++ [l]).


(** *** Further properties of the three functions *)

(** Every node of [a] is still allocated in [b], at the offset it names
    itself by and with the creator stamp it carried. *)
Definition keeps_nodes (a b : Shared) : Prop :=
  forall p n, dsa_vcluster a !! p = Some n ->
    exists n', dsa_vcluster b !! p = Some n' /\ dsap n' = dsap n /\ xmin n' = xmin n.

(** What a call VChainLookupLocator(pk, _) by backend [me], started in
    [g], has done to the shared state when it stands at [t] in [g1]: the
    hash, the nodes and the clock are as they were, the partition lock of
    the key is held in shared mode between lines 81 and 88 and is as it was
    otherwise, and the epoch slot of the backend is filled between lines 91
    and the ClearTimestamp before the return. *)
Definition lookup_frame_inv (me : nat) (pk : PrimaryKey) (g g1 : Shared) (t : Thread) : Prop :=
  let l := partition_lock pk in
  let held :=
    lw_exclusive (lock_state g l) = false /\
    lock_state g1 l = {| lw_exclusive := false; lw_shared := S (lw_shared (lock_state g l)) |} in
  let free := lock_state g1 l = lock_state g l in
  let hit := VChainHashLookup pk (vchain_hash g) in
  dsa_vcluster g1 = dsa_vcluster g /\ vchain_hash g1 = vchain_hash g /\
  clock g1 = clock g /\
  (forall l', l' <> l -> lock_state g1 l' = lock_state g l') /\
  match t with
  | LkAcquire pk' _ => pk' = pk /\ free /\ thread_table g1 = thread_table g
  | LkProbe pk' _ => pk' = pk /\ held /\ thread_table g1 = thread_table g
  | LkMissRelease pk' => pk' = pk /\ held /\ thread_table g1 = thread_table g /\ hit = None
  | LkHitRelease pk' _ _ =>
      pk' = pk /\ held /\ thread_table g1 = thread_table g /\ is_Some hit
  | LkSetEpoch _ _ => free /\ thread_table g1 = thread_table g /\ is_Some hit
  | LkEmptyTest _ _ | LkLoadTail _ _ | LkLoopTest _ _ _ | LkVisTest _ _ _
  | LkAdvance _ _ _ | LkEmptyClear | LkFoundClear _ | LkNotFoundClear =>
      free /\ thread_table g1 = <[me := clock g]> (thread_table g) /\ is_Some hit
  | Ret _ | Done _ =>
      free /\
      thread_table g1 = match hit with
                        | Some _ => delete me (thread_table g)
                        | None => thread_table g
                        end
  | Faulted => True
  | _ => False
  end.

(** Where a call VChainAppendLocator(pk, _) can stand when it runs alone on
    a chain whose tail [tp] is marked VL_DELETE: before its exchange, with
    the mark still there, or right after it, having captured the mark, or
    in the loop of lines 191-194; the anchor's prev is [tp] throughout. *)
Definition spin_inv (pk : PrimaryKey) (d tp : dsa_pointer) (g : Shared) (t : Thread)
    (tr : list Event) : Prop :=
  stores tr = [] /\
  VChainHashLookup pk (vchain_hash g) = Some d /\
  prev_view (dsa_vcluster g) d = Some (d, tp) /\
  match t with
  | ApAcquire k _ | ApProbe k _ => k = pk /\ flag_at g tp = Some VL_DELETE
  | ApHitRelease k _ d' => k = pk /\ d' = d /\ flag_at g tp = Some VL_DELETE
  | ApRetry _ d' => d' = d /\ flag_at g tp = Some VL_DELETE
  | ApExchange _ d' tp' => d' = d /\ tp' = tp /\ flag_at g tp = Some VL_DELETE
  | ApJudge _ d' tp' f => d' = d /\ tp' = tp /\ f = VL_DELETE
  | ApSpin _ d' tp' => d' = d /\ tp' = tp
  | _ => False
  end.

(** *** Readers beside one writer *)

(** Where a call VChainLookupLocator(pk, s) stands, in terms of what it
    may still return ([Res]) and of the versions that lie ahead of it on its
    backward walk ([W ws]: the walk has reached [hd d ws] and will meet
    [ws]); [Hid x]: the snapshot does not see the node at [x]. *)
Definition reader_inv (pk : PrimaryKey) (s : Snapshot) (d : dsa_pointer)
    (Res : Result -> Prop) (W : list dsa_pointer -> Prop) (Hid : dsa_pointer -> Prop)
    (t : Thread) : Prop :=
  match t with
  | LkAcquire k s' | LkProbe k s' => k = pk /\ s' = s
  | LkHitRelease k s' d' => k = pk /\ s' = s /\ d' = d
  | LkSetEpoch s' d' | LkEmptyTest s' d' | LkLoadTail s' d' => s' = s /\ d' = d
  | LkLoopTest s' d' x => s' = s /\ d' = d /\ exists ws, x = hd d ws /\ W ws
  | LkVisTest s' d' x => s' = s /\ d' = d /\ exists ws, W (x :: ws)
  | LkAdvance s' d' x => s' = s /\ d' = d /\ Hid x /\ exists ws, W (x :: ws)
  | LkEmptyClear | LkNotFoundClear => Res RNotFound
  | LkFoundClear x => Res (RFound x)
  | Ret r | Done r => Res r
  | _ => False
  end.

(** What the shared state has to offer for such a walk to go on: the key
    resolves to the anchor, the anchor's prev starts a walk, and every node
    on a walk sits at the offset it carries, is a result when the snapshot
    sees it and leads on by its prev when it does not. *)
Definition presents (g : Shared) (pk : PrimaryKey) (s : Snapshot) (d : dsa_pointer)
    (Res : Result -> Prop) (W : list dsa_pointer -> Prop) (Hid : dsa_pointer -> Prop)
  : Prop :=
  VChainHashLookup pk (vchain_hash g) = Some d /\
  (exists ws, prev_view (dsa_vcluster g) d = Some (d, hd d ws) /\ W ws) /\
  (W [] -> Res RNotFound) /\
  (forall x ws, W (x :: ws) ->
     x <> d /\
     exists n, dsa_vcluster g !! x = Some n /\ dsap n = x /\
       (XidInMVCCSnapshot (xmin n) s = false -> Res (RFound x)) /\
       (XidInMVCCSnapshot (xmin n) s = true -> Hid x) /\
       (Hid x -> exists ws', dsap_prev n = hd d ws' /\ W ws')).

(** The snapshot [s] does not see the node at [x], by the creator stamp the
    node carried in [g0]. *)
Definition hidden_from (g0 : Shared) (s : Snapshot) (x : dsa_pointer) : Prop :=
  visible g0 s x = false.

(** A walk over the versions [vs] has [ws] ahead of it: the versions
    before [ws] are hidden from the snapshot. *)
Definition walking (g0 : Shared) (s : Snapshot) (vs ws : list dsa_pointer) : Prop :=
  exists pre, vs = pre ++ ws /\ Forall (hidden_from g0 s) pre.

(** One writer changes the chain from the versions [old] to the versions
    [new]; [p] tells whether it has done so.  A reader walks over [old], or,
    once the change is made, over [new]; it returns what a lookup returns
    on [old], or, once the change is made, on [new]. *)
Definition reads (g0 : Shared) (s : Snapshot) (old new : list dsa_pointer) (p : bool)
    (ws : list dsa_pointer) : Prop :=
  walking g0 s old ws \/ (p = true /\ walking g0 s new ws).

Definition results (g0 : Shared) (s : Snapshot) (old new : list dsa_pointer) (p : bool)
    (r : Result) : Prop :=
  r = first_visible g0 s old \/ (p = true /\ r = first_visible g0 s new).

(** Backend 0 is the writer, standing at a program point that satisfies
    [WI]; backends 1, 2, ... are calls of VChainLookupLocator for the key,
    one for each of the snapshots [snaps]. *)
Definition readers_inv (pk : PrimaryKey) (d : dsa_pointer) (g0 : Shared)
    (old new : list dsa_pointer) (WI : Shared -> Thread -> Prop) (past : Thread -> bool)
    (snaps : list Snapshot) (c : Config) : Prop :=
  keeps_nodes g0 (shared c) /\
  length (threads c) = S (length snaps) /\
  exists tW, threads c !! 0%nat = Some tW /\ WI (shared c) tW /\
    forall i s, snaps !! i = Some s ->
      exists t, threads c !! S i = Some t /\
        reader_inv pk s d (results g0 s old new (past tW)) (reads g0 s old new (past tW))
          (hidden_from g0 s) t.

(** Where a call VChainFixUpOne(mid) stands and what the prev links present
    there.  [P] is the older and [N] the newer neighbour of [mid] in the
    heap [h0] the call started in.  Up to the store of line 242 every node
    presents the prev it had; from then on [N] presents [P]. *)
Definition unlink_inv (h0 : gmap Z VLocator) (pk : PrimaryKey) (d mid P N : dsa_pointer)
    (g : Shared) (t : Thread) : Prop :=
  let before := forall q, prev_view (dsa_vcluster g) q = prev_view h0 q in
  let after :=
    prev_view (dsa_vcluster g) N = Some (N, P) /\
    forall q, q <> N -> prev_view (dsa_vcluster g) q = prev_view h0 q in
  VChainHashLookup pk (vchain_hash g) = Some d /\
  match t with
  | FxReadPrev m => m = mid /\ before /\ dsap_next <$> dsa_vcluster g !! mid = Some N
  | FxReadNext m p =>
      m = mid /\ p = P /\ before /\ dsap_next <$> dsa_vcluster g !! mid = Some N
  | FxStoreNext m p n | FxStorePrev m p n => m = mid /\ p = P /\ n = N /\ before
  | FxBarrier m | FxStamp m => m = mid /\ after
  | Ret _ | Done _ => after
  | _ => False
  end.

(** The program points after the store of line 242. *)
Definition unlinked (t : Thread) : bool :=
  match t with
  | FxBarrier _ | FxStamp _ | Ret _ | Done _ => true
  | _ => false
  end.

(** The anchor a call VChainAppendLocator(pk, _) started in [g] works on:
    the one the hash holds for the key, or else the one VChainHashInsert
    allocates; the nodes and the hash once the anchor is resolved. *)
Definition append_anchor (pk : PrimaryKey) (g : Shared) : dsa_pointer :=
  default (fresh (dom (dsa_vcluster g))) (VChainHashLookup pk (vchain_hash g)).

Definition append_base (pk : PrimaryKey) (g : Shared) : gmap Z VLocator :=
  match VChainHashLookup pk (vchain_hash g) with
  | Some _ => dsa_vcluster g
  | None => <[append_anchor pk g := dummy_node (append_anchor pk g)]> (dsa_vcluster g)
  end.

Definition append_hash (pk : PrimaryKey) (g : Shared) : list (PrimaryKey * dsa_pointer) :=
  match VChainHashLookup pk (vchain_hash g) with
  | Some _ => vchain_hash g
  | None => vchain_hash g ++ [(pk, append_anchor pk g)]
  end.

(** What a call VChainAppendLocator(pk, loc), started in [g] and run alone
    on a chain whose tail is not marked VL_DELETE, has done to the shared
    state when it stands at [t] in [g1]. *)
Definition append_frame_inv (pk : PrimaryKey) (loc : dsa_pointer) (g g1 : Shared)
    (t : Thread) : Prop :=
  let l := partition_lock pk in
  let d := append_anchor pk g in
  let h := append_base pk g in
  let free := lock_state g1 l = lock_state g l in
  let heldS :=
    lw_exclusive (lock_state g l) = false /\
    lock_state g1 l = {| lw_exclusive := false; lw_shared := S (lw_shared (lock_state g l)) |} in
  let heldX :=
    lock_state g l = lw_free /\
    lock_state g1 l = {| lw_exclusive := true; lw_shared := 0 |} in
  let before := dsa_vcluster g1 = dsa_vcluster g /\ vchain_hash g1 = vchain_hash g in
  let resolved := vchain_hash g1 = append_hash pk g in
  let marked tp :=
    dsap_prev <$> h !! d = Some tp /\
    (forall q, q <> loc -> q <> d -> q <> tp -> dsa_vcluster g1 !! q = h !! q) in
  thread_table g1 = thread_table g /\ clock g1 = clock g /\
  (forall l', l' <> l -> lock_state g1 l' = lock_state g l') /\
  match t with
  | ApAcquire k lc => k = pk /\ lc = loc /\ free /\ before
  | ApProbe k lc => k = pk /\ lc = loc /\ heldS /\ before
  | ApHitRelease k lc d' =>
      k = pk /\ lc = loc /\ d' = d /\ heldS /\ before /\
      is_Some (VChainHashLookup pk (vchain_hash g))
  | ApMissRelease k lc =>
      k = pk /\ lc = loc /\ heldS /\ before /\ VChainHashLookup pk (vchain_hash g) = None
  | ApAcquireExclusive k lc =>
      k = pk /\ lc = loc /\ free /\ before /\ VChainHashLookup pk (vchain_hash g) = None
  | ApInsert k lc =>
      k = pk /\ lc = loc /\ heldX /\ before /\ VChainHashLookup pk (vchain_hash g) = None
  | ApInsertRelease k lc d' =>
      k = pk /\ lc = loc /\ d' = d /\ heldX /\ resolved /\ dsa_vcluster g1 = h
  | ApRetry lc d' => lc = loc /\ d' = d /\ free /\ resolved /\ dsa_vcluster g1 = h
  | ApExchange lc d' tp =>
      lc = loc /\ d' = d /\ free /\ resolved /\ dsa_vcluster g1 = h /\
      dsap_prev <$> h !! d = Some tp
  | ApJudge lc d' tp f =>
      lc = loc /\ d' = d /\ free /\ resolved /\ marked tp /\
      flag_at g1 tp = Some VL_APPEND /\ f <> VL_DELETE
  | ApLink1 lc d' tp | ApLink2 lc d' tp | ApLink3 lc d' tp | ApLink4 lc d' tp =>
      lc = loc /\ d' = d /\ free /\ resolved /\ marked tp /\
      flag_at g1 tp = Some VL_APPEND
  | ApExchangeBack tp => free /\ resolved /\ marked tp /\ flag_at g1 tp = Some VL_APPEND
  | ApJudgeBack tp f => free /\ resolved /\ marked tp /\ f = VL_APPEND
  | Ret r | Done r => r = RVoid /\ free /\ resolved /\ exists tp, marked tp
  | Aborted | Faulted => True
  | _ => False
  end.

(** *** The cutter's visit *)

(** The state [g] with the flag of the node at [tp] set to [f]. *)
Definition reflag (f : VLocatorFlag) (tp : dsa_pointer) (g : Shared) : Shared :=
  match dsa_vcluster g !! tp with
  | Some n => poke tp (set_flag f n) g
  | None => g
  end.

(** The cutter is not a function of vchain.c; the comments of lines
    174-176 and 208-212 say what VChainAppendLocator expects of it, and
    that is what the environment does here.  To an appender that holds its
    mark on [tp] the cutter does one thing: it exchanges the flag of [tp]
    to VL_DELETE, finds VL_APPEND there and leaves the node to the
    appender. *)
Definition cutter_marks (tp : dsa_pointer) : Shared -> Shared -> Prop :=
  fun a b => flag_at a tp = Some VL_APPEND /\ b = reflag VL_DELETE tp a.

(** The program points at which VChainAppendLocator(_, loc) holds its mark
    on [tp], the tail of the chain anchored at [d]: after a winning
    exchange of line 187 and up to the exchange of line 209. *)
Definition holds_mark (loc d tp : dsa_pointer) (t : Thread) : Prop :=
  t = ApJudge loc d tp VL_WINNER \/ t = ApLink1 loc d tp \/ t = ApLink2 loc d tp \/
  t = ApLink3 loc d tp \/ t = ApLink4 loc d tp \/ t = ApExchangeBack tp.

(** The states a call reaches when it runs alone from [t0] in [g0]. *)
Definition solo_reach (me : nat) (g0 : Shared) (t0 : Thread) (g : Shared) (t : Thread)
  : Prop :=
  exists tr, exec alone me g0 t0 tr g t.

(** Once VChainAppendLocator has exchanged the flag of the tail back, the
    flag is idle. *)
Definition flag_phase (tp : dsa_pointer) (g : Shared) (t : Thread) : Prop :=
  match t with
  | ApJudgeBack _ _ | Ret _ | Done _ => flag_at g tp = Some VL_WINNER
  | _ => True
  end.

(** A call VChainAppendLocator(pk, loc) beside a cutter that may mark the
    tail [tp] while the call holds its mark: the call is where a call
    running alone would be, in the same state, or in that state with the
    tail marked VL_DELETE; or it has captured the cutter's mark at line 209,
    in the state in which a call running alone stands there; or it runs
    VChainFixUpOne(tp) from that state. *)
Definition visit_inv (me : nat) (pk : PrimaryKey) (loc d tp : dsa_pointer) (g0 : Shared)
    (g : Shared) (t : Thread) (tr : list Event) : Prop :=
  let solo := solo_reach me g0 (ApAcquire pk loc) in
  (solo g t /\ forall m, EvFixUp m ∉ tr)
  \/ (exists gs, solo gs t /\ holds_mark loc d tp t /\ g = reflag VL_DELETE tp gs /\
                 forall m, EvFixUp m ∉ tr)
  \/ (t = ApJudgeBack tp VL_DELETE /\ solo g (ApJudgeBack tp VL_APPEND) /\
      forall m, EvFixUp m ∉ tr)
  \/ (exists g6 trf, solo g6 (ApJudgeBack tp VL_APPEND) /\
        exec alone me g6 (FxReadPrev tp) trf g t /\ EvFixUp tp ∈ tr).

(** *** The partition lock *)

(** How a backend holds the partition lock of its key at each program
    point: in shared mode around the probe of the hash (lines 81-88 and
    154-163), in exclusive mode around the insert (lines 164-168), and not
    at all anywhere else. *)
Inductive LockUse := NotHeld | HeldShared | HeldExclusive.

Definition lock_use (t : Thread) : LockUse :=
  match t with
  | LkProbe _ _ | LkMissRelease _ | LkHitRelease _ _ _
  | ApProbe _ _ | ApHitRelease _ _ _ | ApMissRelease _ _ => HeldShared
  | ApInsert _ _ | ApInsertRelease _ _ _ => HeldExclusive
  | _ => NotHeld
  end.

(** The key of the call, where the program point still carries it. *)
Definition key_of (t : Thread) : option PrimaryKey :=
  match t with
  | LkAcquire k _ | LkProbe k _ | LkMissRelease k | LkHitRelease k _ _
  | ApAcquire k _ | ApProbe k _ | ApHitRelease k _ _ | ApMissRelease k _
  | ApAcquireExclusive k _ | ApInsert k _ | ApInsertRelease k _ _ => Some k
  | _ => None
  end.

(** The locks of [g1] when a call for key [pk] started in [g] stands at
    [t]. *)
Definition lock_inv (pk : PrimaryKey) (g g1 : Shared) (t : Thread) : Prop :=
  let l := partition_lock pk in
  (forall k, key_of t = Some k -> k = pk) /\
  (forall l', l' <> l -> lock_state g1 l' = lock_state g l') /\
  match lock_use t with
  | NotHeld => lock_state g1 l = lock_state g l
  | HeldShared =>
      lw_exclusive (lock_state g l) = false /\
      lock_state g1 l
      = {| lw_exclusive := false; lw_shared := S (lw_shared (lock_state g l)) |}
  | HeldExclusive =>
      lock_state g l = lw_free /\
      lock_state g1 l = {| lw_exclusive := true; lw_shared := 0 |}
  end.

(** *** Appending a node that is already the newest version *)

(** A lookup of key [pk] with snapshot [s] that goes round the node at
    [loc]: the anchor [d] has [loc] as its tail, [loc] is its own
    predecessor, and the snapshot does not see it. *)
Definition circling (pk : PrimaryKey) (s : Snapshot) (d loc : dsa_pointer)
    (g : Shared) (t : Thread) : Prop :=
  VChainHashLookup pk (vchain_hash g) = Some d /\
  loc <> d /\
  (exists c n, dsa_vcluster g !! d = Some c /\ dsap c = d /\ dsap_prev c = loc /\
               dsa_vcluster g !! loc = Some n /\ dsap n = loc /\ dsap_prev n = loc /\
               XidInMVCCSnapshot (xmin n) s = true) /\
  match t with
  | LkAcquire k s' | LkProbe k s' => k = pk /\ s' = s
  | LkHitRelease k s' d' => k = pk /\ s' = s /\ d' = d
  | LkSetEpoch s' d' | LkEmptyTest s' d' | LkLoadTail s' d' => s' = s /\ d' = d
  | LkLoopTest s' d' l | LkVisTest s' d' l | LkAdvance s' d' l =>
      s' = s /\ d' = d /\ l = loc
  | _ => False
  end.

(** *** Calls whose writes do not meet *)

(** The stores of the two functions, each a write of one field of one
    node. *)
Inductive Write :=
| WFlag (f : VLocatorFlag)
| WPrev (v : dsa_pointer)
| WNext (v : dsa_pointer)
| WStamp (v : TimestampTz).

Definition field_of (w : Write) : Field :=
  match w with
  | WFlag _ => F_flag
  | WPrev _ => F_prev
  | WNext _ => F_next
  | WStamp _ => F_timestamp
  end.

Definition apply_write (w : Write) (n : VLocator) : VLocator :=
  match w with
  | WFlag f => set_flag f n
  | WPrev v => set_dsap_prev v n
  | WNext v => set_dsap_next v n
  | WStamp v => set_timestamp v n
  end.

(** The node [n] of offset [q] after the writes [ws], in this order. *)
Definition written (ws : list (dsa_pointer * Write)) (q : dsa_pointer) (n : VLocator)
  : VLocator :=
  fold_left (fun n pw => if decide (pw.1 = q) then apply_write pw.2 n else n) ws n.

(** The writes of a winning VChainAppendLocator(_, loc) on the chain
    anchored at [d] with tail [tp]: lines 187, 203, 204, 205, 206, 209. *)
Definition append_writes (loc d tp : dsa_pointer) : list (dsa_pointer * Write) :=
  [(tp, WFlag VL_APPEND); (loc, WPrev tp); (loc, WNext d); (tp, WNext loc);
   (d, WPrev loc); (tp, WFlag VL_WINNER)].

(** The writes of VChainFixUpOne(mid), [P] and [N] being the prev and the
    next of [mid]: lines 241, 242, 248. *)
Definition fixup_writes (mid P N : dsa_pointer) (now : TimestampTz)
  : list (dsa_pointer * Write) :=
  [(P, WNext N); (N, WPrev P); (mid, WStamp now)].

(** VChainAppendLocator(pk, loc) stands at [t] and has done [i] of its
    writes. *)
Definition append_at (pk : PrimaryKey) (loc d tp : dsa_pointer) (t : Thread) (i : nat)
  : Prop :=
  match t with
  | ApAcquire k l | ApProbe k l => k = pk /\ l = loc /\ i = 0%nat
  | ApHitRelease k l d' => k = pk /\ l = loc /\ d' = d /\ i = 0%nat
  | ApRetry l d' => l = loc /\ d' = d /\ i = 0%nat
  | ApExchange l d' p => l = loc /\ d' = d /\ p = tp /\ i = 0%nat
  | ApJudge l d' p f => l = loc /\ d' = d /\ p = tp /\ f = VL_WINNER /\ i = 1%nat
  | ApLink1 l d' p => l = loc /\ d' = d /\ p = tp /\ i = 1%nat
  | ApLink2 l d' p => l = loc /\ d' = d /\ p = tp /\ i = 2%nat
  | ApLink3 l d' p => l = loc /\ d' = d /\ p = tp /\ i = 3%nat
  | ApLink4 l d' p => l = loc /\ d' = d /\ p = tp /\ i = 4%nat
  | ApExchangeBack p => p = tp /\ i = 5%nat
  | ApJudgeBack p f => p = tp /\ f = VL_APPEND /\ i = 6%nat
  | Ret r | Done r => r = RVoid /\ i = 6%nat
  | _ => False
  end.

(** VChainFixUpOne(mid) stands at [t] and has done [j] of its writes. *)
Definition fixup_at (mid P N : dsa_pointer) (t : Thread) (j : nat) : Prop :=
  match t with
  | FxReadPrev m => m = mid /\ j = 0%nat
  | FxReadNext m p => m = mid /\ p = P /\ j = 0%nat
  | FxStoreNext m p n => m = mid /\ p = P /\ n = N /\ j = 0%nat
  | FxStorePrev m p n => m = mid /\ p = P /\ n = N /\ j = 1%nat
  | FxBarrier m | FxStamp m => m = mid /\ j = 2%nat
  | Ret r | Done r => r = RVoid /\ j = 3%nat
  | _ => False
  end.

(** The state when, from [g0], the first [i] of the writes [aw] and the
    first [j] of the writes [fw] have been done, in whatever order. *)
Definition interleaved (g0 : Shared) (aw fw : list (dsa_pointer * Write)) (i j : nat)
    (g : Shared) : Prop :=
  vchain_hash g = vchain_hash g0 /\
  forall q, dsa_vcluster g !! q
            = (fun n => written (take j fw) q (written (take i aw) q n))
                <$> dsa_vcluster g0 !! q.

(** The loop of lines 191-194. *)
Definition in_spin (t : Thread) : bool :=
  match t with
  | ApSpin _ _ _ => true
  | _ => false
  end.

(** The body of VChainFixUpOne, lines 234-248. *)
Definition fixing (t : Thread) : bool :=
  match t with
  | FxReadPrev _ | FxReadNext _ _ | FxStoreNext _ _ _ | FxStorePrev _ _ _
  | FxBarrier _ | FxStamp _ => true
  | _ => false
  end.

(** Where the writes [ws] and [ws'] go to the same node, they go to
    different fields of it. *)
Definition apart (ws ws' : list (dsa_pointer * Write)) : Prop :=
  forall p w p' w', (p, w) ∈ ws -> (p', w') ∈ ws' -> p' = p -> field_of w <> field_of w'.

(** Two backends: backend 0 stands at a point that [at1] relates to the
    number of its writes done, backend 1 at one that [at2] does. *)
Definition paired (g0 : Shared) (at1 at2 : Thread -> nat -> Prop)
    (ws1 ws2 : list (dsa_pointer * Write)) (c : Config) : Prop :=
  exists tA tB i j,
    threads c = [tA; tB] /\ at1 tA i /\ at2 tB j /\
    clock (shared c) = clock g0 /\
    interleaved g0 ws1 ws2 i j (shared c).

(** VChainAppendLocator(pk, loc) on the chain anchored at [d] with tail
    [tp], started in [g0], stands at [t] in [g], nothing else having
    written a node. *)
Definition appending_alone (g0 : Shared) (pk : PrimaryKey) (loc d tp : dsa_pointer)
    (g : Shared) (t : Thread) : Prop :=
  exists i, append_at pk loc d tp t i /\
            interleaved g0 (append_writes loc d tp) [] i 0 g.

(** *** What the shared memory holds *)

(** The fields of the node at offset [q], read off the state; [None] when
    the offset names no node.  ([flag_at] is the same for the flag.) *)
Definition self_at (g : Shared) (q : dsa_pointer) : option dsa_pointer :=
  dsap <$> dsa_vcluster g !! q.

Definition prev_at (g : Shared) (q : dsa_pointer) : option dsa_pointer :=
  dsap_prev <$> dsa_vcluster g !! q.

Definition next_at (g : Shared) (q : dsa_pointer) : option dsa_pointer :=
  dsap_next <$> dsa_vcluster g !! q.

Definition xmin_at (g : Shared) (q : dsa_pointer) : option TransactionId :=
  xmin <$> dsa_vcluster g !! q.

Definition stamp_at (g : Shared) (q : dsa_pointer) : option TimestampTz :=
  timestamp <$> dsa_vcluster g !! q.

(** The environment writes no node, no hash entry and not the clock.  It
    may take and release locks and publish and retract epochs, which is
    what calls of VChainLookupLocator do. *)
Definition keeps_memory (rely : Shared -> Shared -> Prop) : Prop :=
  forall a b, rely a b ->
    dsa_vcluster b = dsa_vcluster a /\ vchain_hash b = vchain_hash a /\ clock b = clock a.

(** How many of its three stores VChainFixUpOne has done at a program
    point: none up to line 241, [prev->dsap_next] from line 242 on,
    [next->dsap_prev] as well from the barrier of line 245 on, the stamp of
    line 248 once it returns. *)
Definition fixup_stage (t : Thread) : nat :=
  match t with
  | FxStorePrev _ _ _ => 1
  | FxBarrier _ | FxStamp _ => 2
  | Ret _ | Done _ => 3
  | _ => 0
  end.

(** How many events of [fixup_trace] lie behind a program point of
    VChainFixUpOne. *)
Definition fixup_events (t : Thread) : nat :=
  match t with
  | FxReadNext _ _ => 1
  | FxStoreNext _ _ _ => 2
  | FxStorePrev _ _ _ => 3
  | FxBarrier _ => 4
  | FxStamp _ => 5
  | Ret _ => 7
  | Done _ => 8
  | _ => 0
  end.



(** Two states with the same nodes, the same hash and the same clock. *)
Definition same_memory (a b : Shared) : Prop :=
  dsa_vcluster b = dsa_vcluster a /\ vchain_hash b = vchain_hash a /\ clock b = clock a.



(** *** Calls of VChainAppendLocator that run at the same time *)












Section Invariant.
Variables (pk : PrimaryKey) (locs vs : list dsa_pointer).







End Invariant.

(** The environment leaves the epoch slot of backend [me] alone. *)
Definition keeps_slot (me : nat) (rely : Shared -> Shared -> Prop) : Prop :=
  forall a b, rely a b -> thread_table b !! me = thread_table a !! me.


Definition shared_lock_available (g : Shared) (pk : PrimaryKey) : Prop :=
  lw_exclusive (lock_state g (partition_lock pk)) = false.

End Vocabulary.

(** ** A concrete instance, used to run the machine *)

(** Snapshots are a bound: transactions at or above it are still running. *)
Definition toy : Collaborators := {|
  Snapshot := Z;
  XidInMVCCSnapshot := fun xid bound => bound <=? xid;
  VChainHashCode := fun pk => pk;
  VChainMappingPartitionLock := fun h => Z.to_nat (h mod 4);
|}.

Definition mk_node (self prev next xid : Z) (f : VLocatorFlag) : VLocator :=
  {| dsap := self; dsap_prev := prev; dsap_next := next; xmin := xid;
     flag := f; timestamp := 0 |}.

(** Key 7 anchored at offset 100 with two versions, 101 (xmin 10, older)
    and 102 (xmin 20, newer); 103 and 104 are nodes a writer has populated
    and not yet appended. *)
Definition two_versions : Shared :=
  {| vchain_hash := [(7, 100)];
     lwlocks := ∅;
     dsa_vcluster :=
       <[100 := mk_node 100 102 101 0 VL_WINNER]>
       (<[101 := mk_node 101 100 102 10 VL_WINNER]>
       (<[102 := mk_node 102 101 100 20 VL_WINNER]>
       (<[103 := mk_node 103 0 0 30 VL_WINNER]>
       (<[104 := mk_node 104 0 0 40 VL_WINNER]> ∅))));
     thread_table := ∅;
     clock := 1000 |}.

(** The same, after a remover has claimed the newest version 102. *)
Definition delete_marked : Shared :=
  with_dsa (<[102 := mk_node 102 101 100 20 VL_DELETE]> (dsa_vcluster two_versions))
    two_versions.

(** Key 7 anchored at offset 100 with an empty chain; 201 and 202 are
    populated nodes not yet appended. *)
Definition empty_chain : Shared :=
  {| vchain_hash := [(7, 100)];
     lwlocks := ∅;
     dsa_vcluster :=
       <[100 := mk_node 100 100 100 0 VL_WINNER]>
       (<[201 := mk_node 201 0 0 10 VL_WINNER]>
       (<[202 := mk_node 202 0 0 20 VL_WINNER]> ∅));
     thread_table := ∅;
     clock := 1000 |}.

(** No key has a chain yet; 201 and 202 are populated nodes. *)
Definition no_chain : Shared :=
  {| vchain_hash := [];
     lwlocks := ∅;
     dsa_vcluster :=
       <[201 := mk_node 201 0 0 10 VL_WINNER]>
       (<[202 := mk_node 202 0 0 20 VL_WINNER]> ∅);
     thread_table := ∅;
     clock := 1000 |}.

(** The empty chain of key 7 while a backend holds its mark on the anchor,
    which is its own tail. *)
Definition append_marked : Shared :=
  with_dsa (<[100 := mk_node 100 100 100 0 VL_APPEND]> (dsa_vcluster empty_chain))
    empty_chain.

Section Concrete.
#[local] Existing Instance toy.

(** Backends 0 and 1 both append to key 7. *)
Definition two_appenders : Config :=
  {| shared := empty_chain; threads := [ApAcquire 7 201; ApAcquire 7 202] |}.


(** Backend 1 reads [chain->dsap_prev] before backend 0 links, and
    exchanges after backend 0 has returned. *)
Definition stale_tail : list nat :=
  replicate 4 0%nat ++ replicate 4 1%nat ++ replicate 9 0%nat ++ replicate 9 1%nat.

(** Backend 1 exchanges while backend 0 holds its mark. *)
Definition both_mark : list nat := replicate 5 0%nat ++ replicate 6 1%nat.


(** Backend 0 appends node 103 to key 7 while backends 1 and 2 look the
    key up, with a snapshot that sees version 101 only and with one that
    sees every node. *)
Definition appender_and_readers : Config :=
  {| shared := two_versions;
     threads := ApAcquire 7 103 :: map (LkAcquire 7) [15; 35] |}.

(** Backend 0 unlinks version 101 of key 7 beside the same two readers. *)
Definition fixer_and_readers : Config :=
  {| shared := two_versions;
     threads := FxReadPrev 101 :: map (LkAcquire 7) [15; 35] |}.

(** Reader 1 walks up to the newest version, the writer runs to its end,
    reader 1 finishes its walk, then reader 2 runs. *)
Definition reader_overtaken : list nat :=
  replicate 7 1%nat ++ replicate 13 0%nat ++ replicate 6 1%nat ++ replicate 10 2%nat.

(** Reader 1 walks up to version 101, the fixer runs to its end, reader 1
    finishes its walk, then reader 2 runs. *)
Definition reader_on_unlinked : list nat :=
  replicate 10 1%nat ++ replicate 7 0%nat ++ replicate 3 1%nat ++ replicate 10 2%nat.

(** Key 7 as in [two_versions], and key 8 anchored at offset 300 with the
    single version 301 (xmin 5). *)
Definition two_keys : Shared :=
  {| vchain_hash := [(7, 100); (8, 300)];
     lwlocks := ∅;
     dsa_vcluster :=
       <[300 := mk_node 300 301 301 0 VL_WINNER]>
       (<[301 := mk_node 301 300 300 5 VL_WINNER]> (dsa_vcluster two_versions));
     thread_table := ∅;
     clock := 1000 |}.

(** Backend 0 appends node 103 to key 7 while backend 1 unlinks the older
    version 101. *)
Definition appender_and_fixer : Config :=
  {| shared := two_versions; threads := [ApAcquire 7 103; FxReadPrev 101] |}.

(** The appender runs up to its second store, the fixer makes its first
    store, the appender links the node in and exchanges the flag back, the
    fixer runs to its end, and the appender returns. *)
Definition unlink_amid_append : list nat :=
  replicate 8 0%nat ++ replicate 3 1%nat ++ replicate 3 0%nat ++ replicate 4 1%nat
  ++ replicate 2 0%nat.

(** Key 7 with the three versions 103, 102, 101 (xmin 30, 20, 10), newest
    first; 104 is a populated node outside the chain. *)
Definition three_versions : Shared :=
  {| vchain_hash := [(7, 100)];
     lwlocks := ∅;
     dsa_vcluster :=
       <[100 := mk_node 100 103 101 0 VL_WINNER]>
       (<[101 := mk_node 101 100 102 10 VL_WINNER]>
       (<[102 := mk_node 102 101 103 20 VL_WINNER]>
       (<[103 := mk_node 103 102 100 30 VL_WINNER]>
       (<[104 := mk_node 104 0 0 40 VL_WINNER]> ∅))));
     thread_table := ∅;
     clock := 1000 |}.

(** Backend 0 unlinks the newest version 103 while backend 1 unlinks the
    oldest version 101, step by step in turn. *)
Definition two_fixers : Config :=
  {| shared := three_versions; threads := [FxReadPrev 103; FxReadPrev 101] |}.

(** Backend 0 appends node 103 to key 7 while backend 1 appends node 104 to
    key 8. *)
Definition two_key_appenders : Config :=
  {| shared := two_keys; threads := [ApAcquire 7 103; ApAcquire 8 104] |}.

(** The two backends take [n] steps each, in turn. *)
Definition in_turn (n : nat) : list nat := concat (replicate n [0%nat; 1%nat]).

(** Backend 0 appends node 103 to key 7 while backends 1 and 2 look key 8
    up, with a snapshot that sees its version 301 and with one that does
    not. *)
Definition appender_and_other_readers : Config :=
  {| shared := two_keys;
     threads := ApAcquire 7 103 :: map (LkAcquire 8) [15; 3] |}.

(** The appender marks the tail, reader 1 runs, the appender links its
    node in, reader 2 runs, and the appender returns. *)
Definition readers_amid_append : list nat :=
  replicate 5 0%nat ++ replicate 10 1%nat ++ replicate 4 0%nat ++ replicate 12 2%nat
  ++ replicate 4 0%nat.

(** VChainAppendLocator(7, 103) on the chain of key 7 has linked 103 and
    stands before the exchange of line 209; the cutter has marked the
    former tail 102 in the meantime. *)
Definition linked_and_marked : Shared :=
  reflag VL_DELETE 102 (run 10 0%nat two_versions (ApAcquire 7 103)).1.2.





End Concrete.

(** ** The claims that fail, as the spec states them *)

Section Claims.
Context `{Collaborators}.

(** The exchange of line 187 captures VL_DELETE or VL_WINNER, never anything
    else, and the assertion of line 201 cannot fail. *)
Definition exchange_captures_delete_or_idle : Prop :=
  forall rely me g loc d tp tr g' t' f rest,
    exec rely me g (ApExchange loc d tp) tr g' t' ->
    tr = EvExchange tp VL_APPEND f :: rest ->
    f = VL_DELETE \/ f = VL_WINNER.

Definition assertion_cannot_fail : Prop :=
  forall rely me g pk loc tr g' t',
    exec rely me g (ApAcquire pk loc) tr g' t' -> t' <> Aborted.




End Claims.

(** * Properties *)

Section Properties.
Context `{Collaborators}.

Lemma run_exec fuel me g t :
  exec alone me g t (run fuel me g t).1.1 (run fuel me g t).1.2 (run fuel me g t).2.
Proof.
  revert g t. induction fuel as [|fuel IH]; intros g t; simpl.
  - constructor.
  - destruct (step me g t) as [[[evs g1] t1]|] eqn:E; [|constructor].
    specialize (IH g1 t1). destruct (run fuel me g1 t1) as [[tr g2] t2]. simpl in *.
    econstructor; eauto.
Qed.

Lemma run_returns fuel me g t tr g' r :
  run fuel me g t = (tr, g', Done r) -> returns me g t tr g' r.
Proof. intros E. pose proof (run_exec fuel me g t) as X. rewrite E in X. exact X. Qed.


Lemma exec_one rely me g t evs g1 t1 :
  step me g t = Some (evs, g1, t1) -> exec rely me g t evs g1 t1.
Proof.
  intros E. rewrite <- (app_nil_r evs). eapply exec_step; [exact E | constructor].
Qed.

Lemma exec_trans rely me g t tr1 g1 t1 tr2 g2 t2 :
  exec rely me g t tr1 g1 t1 -> exec rely me g1 t1 tr2 g2 t2 ->
  exec rely me g t (tr1 ++ tr2) g2 t2.
Proof.
  induction 1 as [| ? ? ? ? ? ? ? ? E X IH | ? ? ? ? ? ? R X IH]; intros Y; simpl.
  - exact Y.
  - rewrite <- app_assoc. eapply exec_step; [exact E | exact (IH Y)].
  - eapply exec_env; [exact R | exact (IH Y)].
Qed.

(** *** Lookup: the backward walk *)

Lemma first_visible_heap g g' s vs :
  dsa_vcluster g' = dsa_vcluster g -> first_visible g' s vs = first_visible g s vs.
Proof.
  intros E. induction vs as [|v vs IH]; simpl; [reflexivity|].
  unfold visible. rewrite E, IH. reflexivity.
Qed.

(** From the loop test, the walk ends at the first visible node. *)
Lemma walk_returns me s g d c vs p :
  dsa_vcluster g !! d = Some c -> dsap c = d ->
  prev_walk (dsa_vcluster g) d p vs ->
  exists tr, returns me g (LkLoopTest s d p) tr (ClearTimestamp me g) (first_visible g s vs).
Proof.
  intros Hc Hd. revert p. induction vs as [|v vs IH]; intros p W; simpl in W.
  - destruct W as (n & Hn & Hs). eexists. unfold returns.
    eapply exec_step.
    { unfold step, deref2. rewrite Hn, Hc. reflexivity. }
    replace (dsap n =? dsap c) with true by (symmetry; apply Z.eqb_eq; congruence).
    simpl. eapply exec_step; [reflexivity|]. apply exec_one. reflexivity.
  - destruct W as (-> & n & Hn & Hs & W).
    destruct (IH _ W) as (tr & X). simpl.
    assert (E : step me g (LkLoopTest s d v)
                = Some ([EvLoad v F_dsap (dsap n); EvLoad d F_dsap (dsap c)], g, LkVisTest s d v)).
    { unfold step, deref2. rewrite Hn, Hc.
      replace (dsap n =? dsap c) with false by (symmetry; apply Z.eqb_neq; congruence).
      reflexivity. }
    unfold visible. rewrite Hn.
    destruct (XidInMVCCSnapshot (xmin n) s) eqn:V; simpl.
    + eexists. eapply exec_step; [exact E|].
      eapply exec_step. { unfold step, deref. rewrite Hn, V. reflexivity. }
      simpl. eapply exec_step. { unfold step, deref. rewrite Hn. reflexivity. }
      exact X.
    + eexists. eapply exec_step; [exact E|].
      eapply exec_step. { unfold step, deref. rewrite Hn, V. reflexivity. }
      simpl. eapply exec_step; [reflexivity|]. apply exec_one. reflexivity.
Qed.

Lemma acquire_shared g pk :
  shared_lock_available g pk ->
  exists g1, LWLockAcquire (partition_lock pk) LW_SHARED g = Some g1 /\
             vchain_hash g1 = vchain_hash g /\ dsa_vcluster g1 = dsa_vcluster g.
Proof.
  unfold shared_lock_available, LWLockAcquire. intros ->. eexists. split; [reflexivity|].
  split; reflexivity.
Qed.

Lemma lookup_miss_returns me g pk s :
  shared_lock_available g pk ->
  VChainHashLookup pk (vchain_hash g) = None ->
  exists tr g', returns me g (LkAcquire pk s) tr g' RNotFound.
Proof.
  intros L M. destruct (acquire_shared g pk L) as (g1 & A & Eh & _).
  do 2 eexists. unfold returns.
  eapply exec_step. { unfold step. rewrite A. reflexivity. }
  eapply exec_step. { unfold step. rewrite Eh, M. reflexivity. }
  eapply exec_step; [reflexivity|]. apply exec_one. reflexivity.
Qed.

Lemma lookup_hit_returns me g pk s d vs :
  shared_lock_available g pk ->
  VChainHashLookup pk (vchain_hash g) = Some d ->
  chain_versions g d vs ->
  exists tr g', returns me g (LkAcquire pk s) tr g' (first_visible g s vs) /\
                dsa_vcluster g' = dsa_vcluster g.
Proof.
  intros L M (c & Hc & Hd & W). destruct (acquire_shared g pk L) as (g1 & A & Eh & Ed).
  set (g3 := SetTimestamp me (LWLockRelease (partition_lock pk) LW_SHARED g1)).
  assert (E3 : dsa_vcluster g3 = dsa_vcluster g) by exact Ed.
  assert (P : exists tr, returns me g3 (LkEmptyTest s d) tr (ClearTimestamp me g3)
                           (first_visible g3 s vs)).
  { clearbody g3. rewrite <- E3 in Hc, W.
    destruct (Z.eq_dec (dsap_prev c) d) as [Ee|Ne].
    - assert (vs = []) as ->.
      { destruct vs as [|v vs]; [reflexivity|]. simpl in W.
        destruct W as (Ev & n & Hn & Hs & _). exfalso. apply Hs.
        rewrite <- Ev, Ee, Hc in Hn. congruence. }
      eexists. unfold returns. eapply exec_step.
      { unfold step, deref. rewrite Hc.
        replace (dsap_prev c =? dsap c) with true by (symmetry; apply Z.eqb_eq; congruence).
        reflexivity. }
      eapply exec_step; [reflexivity|]. apply exec_one. reflexivity.
    - destruct (walk_returns me s g3 d c vs (dsap_prev c) Hc Hd W) as (tr & X).
      eexists. unfold returns. eapply exec_step.
      { unfold step, deref. rewrite Hc.
        replace (dsap_prev c =? dsap c) with false by (symmetry; apply Z.eqb_neq; congruence).
        reflexivity. }
      eapply exec_step. { unfold step, deref. rewrite Hc. reflexivity. }
      exact X. }
  destruct P as (tr & X). rewrite (first_visible_heap g g3 s vs E3) in X.
  eexists. exists (ClearTimestamp me g3). split; [|exact E3]. unfold returns.
  eapply exec_step. { unfold step. rewrite A. reflexivity. }
  eapply exec_step. { unfold step. rewrite Eh, M. reflexivity. }
  eapply exec_step; [reflexivity|].
  eapply exec_step; [reflexivity|].
  exact X.
Qed.

(** Line 94: the anchor's prev is the anchor's own offset. *)
Lemma lookup_empty_returns me g pk s d c :
  shared_lock_available g pk ->
  VChainHashLookup pk (vchain_hash g) = Some d ->
  dsa_vcluster g !! d = Some c -> dsap_prev c = dsap c ->
  exists tr g', returns me g (LkAcquire pk s) tr g' RNotFound.
Proof.
  intros L M Hc E. destruct (acquire_shared g pk L) as (g1 & A & Eh & Ed).
  do 2 eexists. unfold returns.
  eapply exec_step. { unfold step. rewrite A. reflexivity. }
  eapply exec_step. { unfold step. rewrite Eh, M. reflexivity. }
  eapply exec_step; [reflexivity|].
  eapply exec_step; [reflexivity|].
  eapply exec_step.
  { unfold step, deref. cbn [dsa_vcluster SetTimestamp with_thread_table].
    change (dsa_vcluster (SetTimestamp me (LWLockRelease (partition_lock pk) LW_SHARED g1)))
      with (dsa_vcluster g1).
    rewrite Ed, Hc, E, Z.eqb_refl. reflexivity. }
  eapply exec_step; [reflexivity|]. apply exec_one. reflexivity.
Qed.

(** Which node is the first visible one when a snapshot hides exactly the
    newest [k] versions. *)
Lemma first_visible_skip g s vs k v :
  (forall i u, (i < k)%nat -> vs !! i = Some u -> visible g s u = false) ->
  vs !! k = Some v -> visible g s v = true ->
  first_visible g s vs = RFound v.
Proof.
  revert k. induction vs as [|u vs IH]; intros k Hk Hv V; [discriminate|].
  destruct k as [|k]; simpl in *.
  - injection Hv as ->. rewrite V. reflexivity.
  - rewrite (Hk 0%nat u) by (reflexivity || lia).
    apply (IH k); [|exact Hv|exact V].
    intros i w Hi Hw. apply (Hk (S i) w); [lia | exact Hw].
Qed.

Lemma first_visible_none g s vs :
  (forall i u, vs !! i = Some u -> visible g s u = false) ->
  first_visible g s vs = RNotFound.
Proof.
  induction vs as [|u vs IH]; intros Hk; simpl; [reflexivity|].
  rewrite (Hk 0%nat u) by reflexivity. apply IH.
  intros i w Hw. apply (Hk (S i) w). exact Hw.
Qed.


Lemma first_visible_newest_hidden g s ws k :
  (k <= length ws)%nat ->
  (forall j v, (length ws - k < j <= length ws)%nat -> version ws j = Some v ->
               visible g s v = false) ->
  (forall v, version ws (length ws - k) = Some v -> visible g s v = true) ->
  first_visible g s (reverse ws) = found (version ws (length ws - k)).
Proof.
  intros Hk Hid Vis.
  assert (R : forall i u, (i < k)%nat -> reverse ws !! i = Some u -> visible g s u = false).
  { intros i u Hi Hu. rewrite reverse_lookup in Hu by lia.
    apply (Hid (S (length ws - S i)) u); [lia | exact Hu]. }
  destruct (decide (k = length ws)) as [->|Hne].
  - rewrite Nat.sub_diag. simpl. apply first_visible_none.
    intros i u Hu. apply (R i u); [|exact Hu].
    apply lookup_lt_Some in Hu. rewrite length_reverse in Hu. exact Hu.
  - destruct (length ws - k)%nat as [|m] eqn:Em; [lia|]. simpl.
    destruct (lookup_lt_is_Some_2 ws m) as [v Hv]; [lia|].
    rewrite Hv. simpl. apply (first_visible_skip g s _ k v R).
    + rewrite reverse_lookup by lia. replace (length ws - S k)%nat with m by lia. exact Hv.
    + apply Vis. exact Hv.
Qed.

(** C1. Lookup(key, snapshot) walks the chain backward from the tail along
    the prev links and returns the first node whose creator stamp is visible
    under the snapshot.  It returns NotFound when the key has no anchor, when
    the chain is empty (for every snapshot), and when the walk comes back to
    the anchor without a visible node.  In particular, on a chain of N
    versions of which the snapshot hides exactly the newest k, it returns
    version N-k, and NotFound when k = N. *)
Theorem lookup_returns_first_visible me g pk s :
  shared_lock_available g pk ->
  (VChainHashLookup pk (vchain_hash g) = None ->
   exists tr g', returns me g (LkAcquire pk s) tr g' RNotFound)
  /\
  (forall d vs,
     VChainHashLookup pk (vchain_hash g) = Some d -> chain_versions g d vs ->
     exists tr g', returns me g (LkAcquire pk s) tr g' (first_visible g s vs))
  /\
  (forall d c,
     VChainHashLookup pk (vchain_hash g) = Some d ->
     dsa_vcluster g !! d = Some c -> dsap_prev c = dsap c ->
     forall s', exists tr g', returns me g (LkAcquire pk s') tr g' RNotFound)
  /\
  (forall d ws k,
     VChainHashLookup pk (vchain_hash g) = Some d -> chain_versions g d (reverse ws) ->
     (k <= length ws)%nat ->
     (forall j v, (length ws - k < j <= length ws)%nat -> version ws j = Some v ->
                  visible g s v = false) ->
     (forall v, version ws (length ws - k) = Some v -> visible g s v = true) ->
     exists tr g', returns me g (LkAcquire pk s) tr g' (found (version ws (length ws - k)))).
Proof.
  intros L. split; [|split; [|split]].
  - apply lookup_miss_returns. exact L.
  - intros d vs M C. destruct (lookup_hit_returns me g pk s d vs L M C) as (tr & g' & X & _).
    eauto.
  - intros d c M Hc E s'. eapply lookup_empty_returns; eauto.
  - intros d ws k M C Hk Hid Vis.
    destruct (lookup_hit_returns me g pk s d _ L M C) as (tr & g' & X & _).
    rewrite (first_visible_newest_hidden g s ws k Hk Hid Vis) in X. eauto.
Qed.

(** *** Invariants along executions *)

(** An invariant of the state and the trace so far that every own step and
    every step of the environment preserves holds along every execution. *)
Lemma exec_invariant rely me (I : Shared -> Thread -> list Event -> Prop) :
  (forall g t tr evs g1 t1,
     I g t tr -> step me g t = Some (evs, g1, t1) -> I g1 t1 (tr ++ evs)) ->
  (forall g g1 t tr, I g t tr -> rely g g1 -> I g1 t tr) ->
  forall g t tr g' t',
    exec rely me g t tr g' t' -> forall tr0, I g t tr0 -> I g' t' (tr0 ++ tr).
Proof.
  intros Hstep Henv g t tr g' t' X.
  induction X as [| ? ? ? ? ? ? ? ? E X IH | ? ? ? ? ? ? R X IH]; intros tr0 I0.
  - rewrite app_nil_r. exact I0.
  - rewrite app_assoc. apply IH. eapply Hstep; eauto.
  - apply IH. eapply Henv; eauto.
Qed.

Ltac step_cases H :=
  unfold step, deref, deref2 in H; simpl in H;
  repeat case_match; simplify_eq.

Section LookupInvariant.
Variables (me : nat) (pk : PrimaryKey) (A B C : Shared -> Prop).
Hypothesis A_acquire : forall g l m g1, LWLockAcquire l m g = Some g1 -> A g -> A g1.
Hypothesis A_release : forall g l m, A g -> A (LWLockRelease l m g).
Hypothesis A_publish : forall g, A g -> B (SetTimestamp me g).
Hypothesis B_retract : forall g, B g -> C (ClearTimestamp me g).

Lemma lookup_inv_step g t tr evs g1 t1 :
  lookup_inv pk (A g) (B g) (C g) t tr ->
  step me g t = Some (evs, g1, t1) ->
  lookup_inv pk (A g1) (B g1) (C g1) t1 (tr ++ evs).
Proof.
  intros I S. destruct t; simpl in I; try contradiction.
  all: try (destruct I as [(-> & -> & I) | ((d & loads & Fl & ->) & I)]).
  all: try (destruct I as (-> & -> & I)).
  all: try (destruct I as (-> & I)).
  all: try (destruct I as ((d & loads & Fl & ->) & I)).
  all: unfold step in S.
  all: unfold deref, deref2 in S; repeat case_match; simplify_option_eq.
  all: try done.
  all: try (by (repeat split; eauto)).
  all: try (by (left; repeat split; eauto)).
  all: try (right; split; [|by eauto]).
  all: try (split; [|by eauto]).
  all: rewrite <- ?app_assoc; simpl.
  all: do 2 eexists; (split; [|reflexivity]).
  all: try assumption.
  all: apply Forall_app; split; [assumption | repeat constructor].
Qed.

Lemma lookup_inv_weaken (P Q R P' Q' R' : Prop) t tr :
  (P -> P') -> (Q -> Q') -> (R -> R') ->
  lookup_inv pk P Q R t tr -> lookup_inv pk P' Q' R' t tr.
Proof.
  intros HP HQ HR. destruct t; simpl; try tauto.
  all: intros [(? & ? & ?)|(? & ?)]; [left|right]; tauto.
Qed.

End LookupInvariant.

Lemma lookup_trace_invariant rely me g pk s tr g' t' :
  exec rely me g (LkAcquire pk s) tr g' t' ->
  lookup_inv pk True True True t' tr.
Proof.
  intros X.
  apply (exec_invariant rely me (fun _ t tr => lookup_inv pk True True True t tr))
    with (tr0 := []) in X; [exact X | | | ].
  - intros g0 t0 tr0 evs g1 t1 I S.
    eapply (lookup_inv_step me pk (fun _ => True) (fun _ => True) (fun _ => True));
      [auto | auto | auto | auto | exact I | exact S].
  - auto.
  - simpl. auto.
Qed.

Lemma lock_keeps_slot_acquire me l m g g1 :
  LWLockAcquire l m g = Some g1 -> thread_table g1 !! me = thread_table g !! me.
Proof.
  unfold LWLockAcquire. destruct m; intros E; repeat case_match; simplify_eq; reflexivity.
Qed.

Lemma lock_keeps_slot_release me l m g :
  thread_table (LWLockRelease l m g) !! me = thread_table g !! me.
Proof. destruct m; reflexivity. Qed.

Lemma lookup_epoch_invariant rely me g pk s tr g' t' :
  keeps_slot me rely ->
  exec rely me g (LkAcquire pk s) tr g' t' ->
  lookup_inv pk (thread_table g' !! me = thread_table g !! me)
                (is_Some (thread_table g' !! me))
                (thread_table g' !! me = None) t' tr.
Proof.
  intros K X.
  set (slot0 := thread_table g !! me).
  apply (exec_invariant rely me
           (fun g0 t tr => lookup_inv pk (thread_table g0 !! me = slot0)
                                         (is_Some (thread_table g0 !! me))
                                         (thread_table g0 !! me = None) t tr))
    with (tr0 := []) in X; [exact X | | | ].
  - intros g0 t0 tr0 evs g1 t1 I S.
    eapply (lookup_inv_step me pk (fun g0 => thread_table g0 !! me = slot0)
             (fun g0 => is_Some (thread_table g0 !! me))
             (fun g0 => thread_table g0 !! me = None));
      [ | | | | exact I | exact S].
    + intros g2 l m g3 E <-. eapply lock_keeps_slot_acquire; eauto.
    + intros g2 l m <-. apply lock_keeps_slot_release.
    + intros g2 _. unfold SetTimestamp. simpl. rewrite lookup_insert_eq. eauto.
    + intros g2 _. unfold ClearTimestamp. simpl. apply lookup_delete_eq.
  - intros g0 g1 t0 tr0 I R. pose proof (K _ _ R) as E.
    revert I. apply lookup_inv_weaken; rewrite E; auto.
  - simpl. auto.
Qed.

(** C7. Lookup publishes its epoch before it dereferences any node reached
    through the chain, and on every exit path (found, empty chain, no
    visible version) the published epoch is retracted before the call
    returns.  The trace of a returned call is: lock, probe, unlock, and then
    either the return (no entry: nothing was published), or SetTimestamp,
    loads only, ClearTimestamp, return.  At every program point that reads a
    node the slot of the backend is published; once a call that published
    has returned, the slot is empty. *)
Theorem lookup_epoch_bracket rely me g pk s tr g' t' :
  exec rely me g (LkAcquire pk s) tr g' t' ->
  (forall r, t' = Done r -> lookup_trace pk r tr)
  /\
  (keeps_slot me rely ->
     (dereferences t' = true -> is_Some (thread_table g' !! me))
     /\ (forall r, t' = Done r -> EvSetTimestamp ∈ tr -> thread_table g' !! me = None)
     /\ (forall r, t' = Done r -> thread_table g !! me = None ->
                   thread_table g' !! me = None)).
Proof.
  intros X. split.
  - intros r ->. apply lookup_trace_invariant in X. simpl in X.
    destruct X as [(-> & -> & _) | ((d & loads & Fl & ->) & _)].
    + left. split; reflexivity.
    + right. exists d, loads. split; [exact Fl | reflexivity].
  - intros K. pose proof (lookup_epoch_invariant _ _ _ _ _ _ _ _ K X) as I.
    split; [|split].
    + intros D. destruct t'; simpl in D; try discriminate; simpl in I; tauto.
    + intros r -> Hin. simpl in I.
      destruct I as [(_ & -> & _) | (_ & I)]; [|exact I].
      exfalso. unfold lookup_prefix in Hin. simpl in Hin.
      repeat (apply elem_of_cons in Hin as [Hin|Hin]; [discriminate|]).
      inversion Hin.
    + intros r -> E0. simpl in I.
      destruct I as [(_ & _ & I) | (_ & I)]; congruence.
Qed.

(** C9. On the success path the epoch is retracted strictly before
    Lookup returns the node: the last event before the return statement is
    ClearTimestamp, so at the moment Lookup returns true the caller's epoch is
    no longer published and the returned node is not protected by the
    bracket. *)
Theorem lookup_found_retracts_before_return rely me g pk s tr g' t' v :
  exec rely me g (LkAcquire pk s) tr g' t' ->
  (t' = Ret (RFound v) -> exists tr0, tr = tr0 ++ [EvClearTimestamp])
  /\
  (t' = Done (RFound v) ->
   exists tr0, tr = tr0 ++ [EvClearTimestamp; EvReturn (RFound v)])
  /\
  (keeps_slot me rely -> t' = Ret (RFound v) \/ t' = Done (RFound v) ->
   published me g' = false).
Proof.
  intros X. split; [|split].
  - intros ->. apply lookup_trace_invariant in X. simpl in X.
    destruct X as [(? & _) | ((d & loads & _ & ->) & _)]; [discriminate|].
    exists (lookup_prefix pk (Some d) ++ [EvSetTimestamp] ++ loads).
    rewrite <- !app_assoc. reflexivity.
  - intros ->. apply lookup_trace_invariant in X. simpl in X.
    destruct X as [(? & _) | ((d & loads & _ & ->) & _)]; [discriminate|].
    exists (lookup_prefix pk (Some d) ++ [EvSetTimestamp] ++ loads).
    rewrite <- !app_assoc. reflexivity.
  - intros K Ht. pose proof (lookup_epoch_invariant _ _ _ _ _ _ _ _ K X) as I.
    unfold published. apply bool_decide_eq_false. intros [x Hx].
    destruct Ht as [-> | ->]; simpl in I.
    all: destruct I as [(? & _) | (_ & I)]; [discriminate | congruence].
Qed.


(** *** VChainFixUpOne and VChainAppendLocator: traces *)

Ltac trace_eq := rewrite <- ?app_assoc; simpl; reflexivity.

Lemma fixup_inv_step me mid base g t tr evs g1 t1 :
  fixup_inv mid base t tr ->
  step me g t = Some (evs, g1, t1) ->
  fixup_inv mid base t1 (tr ++ evs).
Proof.
  intros I S. destruct t; simpl in I; try contradiction.
  all: try (unfold step in S; discriminate S).
  all: destruct I as (-> & I).
  all: try (destruct I as (p & n & I)).
  all: try (destruct I as (ts & I)).
  all: subst tr.
  all: unfold step, deref in S; repeat case_match; simplify_eq; simpl.
  all: try done.
  all: split; [reflexivity|].
  all: try (do 3 eexists; trace_eq).
  all: try (do 2 eexists; trace_eq).
  all: try trace_eq.
Qed.

Lemma prelude_snoc tr e :
  Forall prelude_event tr -> prelude_event e -> Forall prelude_event (tr ++ [e]).
Proof. intros F P. apply Forall_app. split; [exact F | constructor; [exact P | constructor]]. Qed.

Lemma append_inv_step me loc g t tr evs g1 t1 :
  append_inv loc t tr ->
  step me g t = Some (evs, g1, t1) ->
  append_inv loc t1 (tr ++ evs).
Proof.
  intros I S.
  destruct t;
    (* VChainFixUpOne, called from line 213 *)
    try (destruct I as (base & tp & I & L);
         pose proof (fixup_inv_step _ _ _ _ _ _ _ _ _ I S) as I1;
         destruct t1; simpl in I1 |- *; try contradiction; try exact Logic.I;
         try (right); exists base, tp; (split; [exact I1 | exact L])).
  all: simpl in I; try contradiction.
  all: try (unfold step in S; discriminate S).
  (* the return statement *)
  18: { unfold step in S. simplify_eq. simpl.
        destruct I as [(-> & tp & f & Hf & L) | (base & tp & (-> & p & n & ts & ->) & L)].
        - left. split; [reflexivity|]. exists tp, f, tr. auto.
        - right. exists base, tp. split; [|exact L]. split; [reflexivity|].
          exists p, n, ts. trace_eq. }
  (* line 211 *)
  17: { unfold step in S. destruct flag0; simpl in S; simplify_eq; simpl; rewrite ?app_nil_r.
        - hnf. left. split; [reflexivity|]. eexists _, _. split; [|exact I]. discriminate.
        - hnf. left. split; [reflexivity|]. eexists _, _. split; [|exact I]. discriminate.
        - hnf. exists tr, tail_prev. auto. }
  all: unfold linked in *.
  all: repeat match goal with
         | X : ex _ |- _ => destruct X
         | X : _ /\ _ |- _ => destruct X
         end; subst.
  all: try match goal with f : VLocatorFlag |- _ => destruct f end.
  all: unfold step, deref, deref2 in S; simpl in S; repeat case_match; simplify_option_eq.
  all: try done.
  all: rewrite ?app_nil_r; rewrite <- ?app_assoc; simpl; unfold linked.
  all: repeat match goal with
         | |- _ /\ _ => split
         | |- ex _ => eexists
         end.
  all: try reflexivity.
  all: try assumption.
  all: try (apply prelude_snoc; [assumption | exact Logic.I]).
Qed.

Lemma append_trace_invariant rely me g pk loc tr g' t' :
  exec rely me g (ApAcquire pk loc) tr g' t' -> append_inv loc t' tr.
Proof.
  intros X.
  apply (exec_invariant rely me (fun _ t tr => append_inv loc t tr)) with (tr0 := []) in X;
    [exact X | | | ].
  - intros g0 t0 tr0 evs g1 t1 I S. eapply append_inv_step; eauto.
  - auto.
  - simpl. auto.
Qed.

Lemma fixup_trace_invariant rely me g mid tr g' t' :
  exec rely me g (FxReadPrev mid) tr g' t' -> fixup_inv mid [] t' tr.
Proof.
  intros X.
  apply (exec_invariant rely me (fun _ t tr => fixup_inv mid [] t tr)) with (tr0 := []) in X;
    [exact X | | | ].
  - intros g0 t0 tr0 evs g1 t1 I S. eapply fixup_inv_step; eauto.
  - auto.
  - simpl. auto.
Qed.

Lemma stores_prelude pre : Forall prelude_event pre -> stores pre = [].
Proof.
  induction 1 as [|e pre P _ IH]; [reflexivity|].
  unfold stores in *. simpl. rewrite IH. destruct e; simpl in *; tauto.
Qed.

Lemma stores_app a b : stores (a ++ b) = stores a ++ stores b.
Proof. apply List.filter_app. Qed.

Lemma prelude_no_fixup pre mid : Forall prelude_event pre -> EvFixUp mid ∉ pre.
Proof.
  intros F Hin. rewrite Forall_forall in F. apply F in Hin. exact Hin.
Qed.

(** A complete call of VChainAppendLocator: prelude, winning exchange, link
    stores, exchange back, and then either the return or VChainFixUpOne. *)
Lemma append_done_trace rely me g pk loc tr g' r :
  exec rely me g (ApAcquire pk loc) tr g' (Done r) ->
  exists pre tp d a l l' f post,
    tr = pre ++ [EvExchange tp VL_APPEND VL_WINNER] ++ link_trace loc d tp a l l'
         ++ [EvExchange tp VL_WINNER f] ++ post
    /\ Forall prelude_event pre
    /\ (f <> VL_DELETE -> post = [EvReturn RVoid])
    /\ (f = VL_DELETE -> exists p n ts, post = EvFixUp tp :: fixup_trace tp p n ts).
Proof.
  intros X. apply append_trace_invariant in X. simpl in X.
  destruct X as [(_ & tp & f & tr0 & -> & Hf & L) | (base & tp & (_ & p & n & ts & ->) & L)].
  - destruct L as (pre & d & a & l & l' & -> & F).
    exists pre, tp, d, a, l, l', f, [EvReturn RVoid].
    split; [trace_eq|]. split; [exact F|]. split; [auto|]. intros; contradiction.
  - destruct L as (pre & d & a & l & l' & -> & F).
    exists pre, tp, d, a, l, l', VL_DELETE, (EvFixUp tp :: fixup_trace tp p n ts).
    split; [trace_eq|]. split; [exact F|]. split; [intros; contradiction|].
    intros _. eauto.
Qed.


Lemma exec_alone_inv me g t tr g' t' :
  exec alone me g t tr g' t' ->
  (tr = [] /\ g' = g /\ t' = t) \/
  (exists evs g1 t1 tr1,
     step me g t = Some (evs, g1, t1) /\ exec alone me g1 t1 tr1 g' t' /\ tr = evs ++ tr1).
Proof.
  intros X. inversion X; subst.
  - left. auto.
  - right. eauto 8.
  - contradiction.
Qed.

Lemma alone_keeps (P : Shared -> Shared -> Prop) : forall a b, alone a b -> P a b.
Proof. intros a b []. Qed.

(** *** The mark on tail_prev *)

Lemma flag_at_poke g p n n' q :
  dsa_vcluster g !! p = Some n -> flag n' = flag n ->
  flag_at (poke p n' g) q = flag_at g q.
Proof.
  intros Hp Hf. unfold flag_at, poke. simpl.
  destruct (decide (p = q)) as [->|Ne].
  - rewrite lookup_insert_eq, Hp. simpl. congruence.
  - rewrite lookup_insert_ne by exact Ne. reflexivity.
Qed.

Lemma flag_at_poke_flag g p n f :
  flag_at (poke p (set_flag f n) g) p = Some f.
Proof. unfold flag_at, poke. simpl. rewrite lookup_insert_eq. reflexivity. Qed.

Lemma flag_at_locks g g1 l m p :
  LWLockAcquire l m g = Some g1 -> flag_at g1 p = flag_at g p.
Proof.
  unfold LWLockAcquire. destruct m; intros E; repeat case_match; simplify_eq; reflexivity.
Qed.

Lemma no_fixup_app a b : no_fixup a -> no_fixup b -> no_fixup (a ++ b).
Proof. intros Fa Fb. apply Forall_app. auto. Qed.

Lemma append_mark_step me g t tr evs g1 t1 :
  append_mark_inv g t tr ->
  step me g t = Some (evs, g1, t1) ->
  append_mark_inv g1 t1 (tr ++ evs).
Proof.
  intros (N & I) S. destruct t; try contradiction.
  all: try match goal with f : VLocatorFlag |- _ => destruct f end.
  all: unfold step, deref, deref2 in S; simpl in S; repeat case_match; simplify_option_eq.
  all: split; [apply no_fixup_app; [exact N | repeat constructor; simpl] | ].
  all: try exact Logic.I.
  all: try reflexivity.
  all: try assumption.
  all: try apply flag_at_poke_flag.
  all: try (erewrite flag_at_poke; [eassumption | eassumption | reflexivity]).
  all: unfold flag_at in *; simplify_option_eq; done.
Qed.


Lemma append_mark_invariant rely me g pk loc tr g' t' :
  (forall p, keeps_flag p rely) ->
  exec rely me g (ApAcquire pk loc) tr g' t' -> append_mark_inv g' t' tr.
Proof.
  intros K X.
  apply (exec_invariant rely me append_mark_inv) with (tr0 := []) in X; [exact X | | | ].
  - intros g0 t0 tr0 evs g1 t1 I S. eapply append_mark_step; eauto.
  - intros g0 g1 t0 tr0 (N & I) R. split; [exact N|].
    destruct t0; try exact I; rewrite (K _ _ _ R); exact I.
  - split; [constructor | exact Logic.I].
Qed.


(** *** VChainFixUpOne *)

Lemma exec_quiet_inv rely me g t tr g' t' :
  (forall a b, ~ rely a b) ->
  exec rely me g t tr g' t' ->
  (tr = [] /\ g' = g /\ t' = t) \/
  (exists evs g1 t1 tr1,
     step me g t = Some (evs, g1, t1) /\ exec rely me g1 t1 tr1 g' t' /\ tr = evs ++ tr1).
Proof.
  intros Q X. inversion X; subst.
  - left. auto.
  - right. eauto 8.
  - exfalso. eapply Q; eauto.
Qed.

Lemma same_frame_refl g : same_frame g g.
Proof. repeat split. Qed.

Lemma same_frame_trans a b c : same_frame a b -> same_frame b c -> same_frame a c.
Proof. unfold same_frame. intros (?&?&?&?&?) (?&?&?&?&?). repeat split; congruence. Qed.

Lemma same_frame_poke g p n n' :
  dsa_vcluster g !! p = Some n -> same_frame g (poke p n' g).
Proof.
  intros Hp. repeat split. unfold poke. simpl. apply dom_insert_lookup_L. eauto.
Qed.

Lemma fixup_frame_step me g t evs g1 t1 :
  in_fixup t = true ->
  step me g t = Some (evs, g1, t1) ->
  in_fixup t1 = true /\ same_frame g g1.
Proof.
  intros I S. destruct t; try discriminate I.
  all: try match goal with r : Result |- _ => destruct r; try discriminate I end.
  all: unfold step, deref in S; repeat case_match; simplify_eq.
  all: split; [reflexivity|].
  all: first [apply same_frame_refl | eapply same_frame_poke; eassumption].
Qed.

Lemma fixup_frame_invariant rely me g mid tr g' t' :
  (forall a b, rely a b -> same_frame a b) ->
  exec rely me g (FxReadPrev mid) tr g' t' -> same_frame g g'.
Proof.
  intros K X.
  apply (exec_invariant rely me (fun g0 t _ => in_fixup t = true /\ same_frame g g0))
    with (tr0 := []) in X; [tauto | | | ].
  - intros g0 t0 tr0 evs g1 t1 (I & Fr) S.
    destruct (fixup_frame_step _ _ _ _ _ _ I S) as (I1 & Fr1).
    split; [exact I1 | eapply same_frame_trans; eauto].
  - intros g0 g1 t0 tr0 (I & Fr) R. split; [exact I|].
    eapply same_frame_trans; eauto.
  - split; [reflexivity | apply same_frame_refl].
Qed.

Ltac exec_next Q X :=
  let S := fresh "S" in
  apply (exec_quiet_inv _ _ _ _ _ _ _ Q) in X;
  destruct X as [(? & ? & ?) | (? & ? & ? & ? & S & X & ->)]; [discriminate|];
  unfold step, deref, deref2 in S;
  repeat match type of S with
         | context [match ?x with _ => _ end] => destruct x eqn:?
         end;
  simplify_eq.

Ltac exec_stuck Q X :=
  apply (exec_quiet_inv _ _ _ _ _ _ _ Q) in X;
  destruct X as [(? & ? & ?) | (? & ? & ? & ? & ? & _)]; discriminate.

(** *** One round of the consensus protocol *)

Section Round.
Variables (me : nat) (loc d tp : dsa_pointer) (Fl : Shared -> Prop).
Hypothesis Fl_mark : forall g n,
  dsa_vcluster g !! tp = Some n -> Fl (poke tp (set_flag VL_APPEND n) g).
Hypothesis Fl_links : forall g p n n',
  dsa_vcluster g !! p = Some n -> flag n' = flag n -> Fl g -> Fl (poke p n' g).

Lemma round_inv_step g t tr evs g1 t1 :
  round_inv loc d tp (Fl g) t tr ->
  step me g t = Some (evs, g1, t1) ->
  round_inv loc d tp (Fl g1) t1 (tr ++ evs).
Proof.
  intros [-> | [(-> & ->) | (f & rest & -> & A)]] S.
  - discriminate S.
  - unfold step, deref in S. destruct (dsa_vcluster g !! tp) as [n|] eqn:Hn; simplify_eq.
    + right. right. exists (flag n), []. split; [reflexivity|].
      destruct (flag n); simpl; eauto 10.
    + left. reflexivity.
  - destruct f; simpl in A.
    + (* VL_WINNER *)
      destruct A as [(-> & [-> | ->]) | (rest' & ->)].
      * simpl in S. simplify_eq. right. right. exists VL_WINNER, []. split; [reflexivity|].
        simpl. auto.
      * unfold step, deref in S. case_match; simplify_eq.
        -- right. right. eexists VL_WINNER, _. split; [reflexivity|]. simpl. eauto.
        -- left. reflexivity.
      * right. right. eexists VL_WINNER, _. split; [reflexivity|]. simpl. eauto.
    + (* VL_APPEND *)
      destruct A as [(-> & ->) | (-> & ->)]; [|discriminate S].
      simpl in S. simplify_eq. right. right. exists VL_APPEND, [EvAssertFail].
      split; [reflexivity|]. simpl. auto.
    + (* VL_DELETE *)
      destruct A as (spins & Fs & [(-> & F & [(-> & ->) | ->])
                                  | [(old & Ho & -> & F & ->) | (old & v & rest' & Ho & ->)]]).
      * simpl in S. simplify_eq. right. right. exists VL_DELETE, []. split; [reflexivity|].
        unfold after_exchange. exists []. split; [constructor|]. left. auto.
      * unfold step, deref in S. destruct (dsa_vcluster g !! d) as [c|] eqn:Hc; simplify_eq;
          [|left; reflexivity].
        right. right. eexists VL_DELETE, (_ ++ _). split; [reflexivity|]. unfold after_exchange.
        assert (F1 : Fl (poke d (set_dsap_prev (wrap64 (dsap_prev c + 0)) c) g))
          by (eapply Fl_links; eauto).
        destruct (tp =? dsap_prev c) eqn:E.
        -- apply Z.eqb_eq in E. exists (spins ++ [EvFetchAdd d F_prev 0 tp]).
           split; [apply Forall_app; split; [exact Fs | repeat constructor]|].
           left. rewrite <- E in F1 |- *. split; [reflexivity|]. auto.
        -- apply Z.eqb_neq in E. exists spins. split; [exact Fs|].
           right. left. exists (dsap_prev c). auto.
      * unfold step, deref in S. destruct (dsa_vcluster g !! d) as [c|] eqn:Hc; simplify_eq;
          [|left; reflexivity].
        right. right. eexists VL_DELETE, (_ ++ _). split; [reflexivity|]. unfold after_exchange.
        exists spins. split; [exact Fs|]. right. right.
        exists old, (dsap_prev c), []. split; [exact Ho|]. rewrite <- app_assoc. reflexivity.
      * right. right. eexists VL_DELETE, (_ ++ _). split; [reflexivity|]. unfold after_exchange.
        exists spins. split; [exact Fs|]. right. right.
        exists old, v, (rest' ++ evs). split; [exact Ho|]. rewrite <- app_assoc. reflexivity.
Qed.

Lemma round_inv_weaken (P Q : Prop) t tr :
  (P -> Q) -> round_inv loc d tp P t tr -> round_inv loc d tp Q t tr.
Proof.
  intros PQ [-> | [(-> & ->) | (f & rest & -> & A)]]; [left; auto | right; left; auto |].
  right. right. exists f, rest. split; [reflexivity|].
  destruct f; simpl in *; try exact A.
  destruct A as (spins & Fs & [(-> & F & T) | [(old & Ho & -> & F & ->) | A]]);
    exists spins; (split; [exact Fs|]); [left | right; left | right; right]; eauto 10.
Qed.

End Round.


Lemma round_trace_invariant rely me g loc d tp tr g' t' :
  exec rely me g (ApExchange loc d tp) tr g' t' -> round_inv loc d tp True t' tr.
Proof.
  intros X.
  apply (exec_invariant rely me (fun _ t tr => round_inv loc d tp True t tr))
    with (tr0 := []) in X; [exact X | | | ].
  - intros g0 t0 tr0 evs g1 t1 I S.
    eapply (round_inv_step me loc d tp (fun _ => True)); [auto | auto | exact I | exact S].
  - auto.
  - right. left. auto.
Qed.

Lemma round_mark_invariant rely me g loc d tp tr g' t' :
  keeps_flag tp rely ->
  exec rely me g (ApExchange loc d tp) tr g' t' ->
  round_inv loc d tp (flag_at g' tp = Some VL_APPEND) t' tr.
Proof.
  intros K X.
  apply (exec_invariant rely me
           (fun g0 t tr => round_inv loc d tp (flag_at g0 tp = Some VL_APPEND) t tr))
    with (tr0 := []) in X; [exact X | | | ].
  - intros g0 t0 tr0 evs g1 t1 I S.
    eapply (round_inv_step me loc d tp (fun g0 => flag_at g0 tp = Some VL_APPEND));
      [ | | exact I | exact S].
    + intros g2 n _. apply flag_at_poke_flag.
    + intros g2 p n n' Hp Hf <-. eapply flag_at_poke; eauto.
  - intros g0 g1 t0 tr0 I R. revert I. apply round_inv_weaken. rewrite (K _ _ R). auto.
  - right. left. auto.
Qed.

(** C10. When Append loses the race (its exchange captures VL_DELETE), it
    leaves tailPrev's flag at VL_APPEND: from that exchange until it has
    restarted by reading anchor.prev again, the backend only reads
    anchor.prev atomically, it neither restores VL_DELETE nor writes the flag
    in any other way, and the flag reads VL_APPEND as long as nobody else
    writes it.  The restart comes after a read of anchor.prev that returned
    something other than tailPrev. *)
Theorem append_loser_leaves_append_mark rely me g loc d tp tr g' t' rest :
  exec rely me g (ApExchange loc d tp) tr g' t' ->
  tr = EvExchange tp VL_APPEND VL_DELETE :: rest ->
  t' <> Faulted ->
  (Forall (fun e => exists old, e = EvFetchAdd d F_prev 0 old) rest
   /\ (t' = ApJudge loc d tp VL_DELETE \/ t' = ApSpin loc d tp \/ t' = ApRetry loc d)
   /\ (keeps_flag tp rely -> flag_at g' tp = Some VL_APPEND))
  \/
  (exists spins old v rest',
     Forall (eq (EvFetchAdd d F_prev 0 tp)) spins /\ old <> tp /\
     rest = spins ++ EvFetchAdd d F_prev 0 old :: EvLoad d F_prev v :: rest').
Proof.
  intros X -> NF.
  assert (Sp : forall spins, Forall (eq (EvFetchAdd d F_prev 0 tp)) spins ->
                Forall (fun e => exists old, e = EvFetchAdd d F_prev 0 old) spins).
  { intros spins F. eapply Forall_impl; [exact F|]. intros e <-. eauto. }
  pose proof (round_trace_invariant _ _ _ _ _ _ _ _ _ X) as I.
  destruct I as [-> | [(_ & ?) | (f & rest0 & E & A)]]; [contradiction | discriminate |].
  injection E as <- <-. simpl in A.
  destruct A as (spins & Fs & [(-> & _ & T) | [(old & Ho & -> & _ & ->) | A]]).
  - left. split; [auto|]. split; [tauto|]. intros K.
    pose proof (round_mark_invariant _ _ _ _ _ _ _ _ _ K X) as I.
    destruct I as [-> | [(_ & ?) | (f & rest0 & E & A)]]; [contradiction | discriminate |].
    injection E as <- <-. simpl in A.
    destruct A as (spins' & _ & [(_ & F & _) | [(old & _ & _ & F & _) | (old & v & r' & _ & E)]]);
      [exact F | exact F |].
    exfalso. rewrite Forall_forall in Fs.
    assert (Hin : EvLoad d F_prev v ∈ spins).
    { rewrite E. rewrite elem_of_app. right. right. left. }
    apply Fs in Hin. discriminate.
  - left. split; [apply Forall_app; split; [auto | repeat constructor; eauto]|].
    split; [tauto|]. intros K.
    pose proof (round_mark_invariant _ _ _ _ _ _ _ _ _ K X) as I.
    destruct I as [? | [(? & _) | (f & rest0 & E & A)]]; [discriminate | discriminate |].
    injection E as <- <-. simpl in A.
    destruct A as (spins' & Fs' & [(_ & F & _) | [(old' & _ & _ & F & _) | (old' & v & r' & _ & E)]]);
      [exact F | exact F |].
    exfalso.
    assert (Hin : EvLoad d F_prev v ∈ spins ++ [EvFetchAdd d F_prev 0 old]).
    { rewrite E. rewrite elem_of_app. right. right. left. }
    rewrite elem_of_app in Hin. destruct Hin as [Hin | Hin].
    + rewrite Forall_forall in Fs. apply Fs in Hin. discriminate.
    + apply list_elem_of_singleton in Hin. discriminate.
  - right. destruct A as (old & v & rest' & Ho & ->). eauto 10.
Qed.


(** *** Resolving the anchor *)




Lemma hash_lookup_snoc pk tbl d :
  VChainHashLookup pk tbl = None -> VChainHashLookup pk (tbl ++ [(pk, d)]) = Some d.
Proof.
  induction tbl as [|[k x] tbl IH]; simpl.
  - rewrite Z.eqb_refl. reflexivity.
  - destruct (k =? pk); [discriminate | auto].
Qed.







(** *** Interleavings *)

Lemma sched_step_inv i c tr c' :
  sched_step i c = Some (tr, c') ->
  exists t evs g1 t1,
    threads c !! i = Some t /\ step i (shared c) t = Some (evs, g1, t1) /\
    tr = map (pair i) evs /\
    c' = {| shared := g1; threads := <[i := t1]> (threads c) |}.
Proof.
  unfold sched_step. intros E.
  destruct (threads c !! i) as [t|] eqn:Ht; [|discriminate]. simpl in E.
  destruct (step i (shared c) t) as [[[evs g1] t1]|] eqn:S; [|discriminate].
  simpl in E. injection E as <- <-. eauto 10.
Qed.

Lemma sched_run_cons i sch c tr c' :
  sched_run (i :: sch) c = Some (tr, c') ->
  exists tr1 c1 tr2,
    sched_step i c = Some (tr1, c1) /\ sched_run sch c1 = Some (tr2, c') /\
    tr = tr1 ++ tr2.
Proof.
  simpl. intros E.
  destruct (sched_step i c) as [[tr1 c1]|]; [|discriminate]. simpl in E.
  destruct (sched_run sch c1) as [[tr2 c2]|] eqn:E2; [|discriminate]. simpl in E.
  injection E as <- <-. exists tr1, c1, tr2. auto.
Qed.



(** *** Appending alone *)

Lemma set_links_idle T x :
  flag T = VL_WINNER ->
  set_flag VL_WINNER (set_dsap_next x (set_flag VL_APPEND T)) = set_dsap_next x T.
Proof. destruct T; simpl; intros ->; reflexivity. Qed.

Lemma set_links_idle_anchor c x :
  flag c = VL_WINNER ->
  set_flag VL_WINNER (set_dsap_prev x (set_dsap_next x (set_flag VL_APPEND c)))
  = set_dsap_prev x (set_dsap_next x c).
Proof. destruct c; simpl; intros ->; reflexivity. Qed.

Ltac heap_go :=
  unfold step, deref, deref2, poke; simpl;
  repeat first [ rewrite lookup_insert_eq
               | rewrite lookup_insert_ne by congruence ].

(** The consensus protocol and the linking, run alone on an idle tail. *)
Lemma append_protocol me g loc d c T L :
  dsa_vcluster g !! d = Some c -> dsap c = d ->
  dsa_vcluster g !! dsap_prev c = Some T -> flag T = VL_WINNER ->
  dsa_vcluster g !! loc = Some L -> dsap L = loc ->
  loc <> d -> loc <> dsap_prev c ->
  exists tr h',
    returns me g (ApRetry loc d) tr (with_dsa h' g) RVoid /\
    h' !! loc = Some (set_dsap_next d (set_dsap_prev (dsap_prev c) L)) /\
    (dsap_prev c <> d ->
       h' !! dsap_prev c = Some (set_dsap_next loc T) /\
       h' !! d = Some (set_dsap_prev loc c)) /\
    (dsap_prev c = d -> h' !! d = Some (set_dsap_prev loc (set_dsap_next loc c))) /\
    (forall q, q <> loc -> q <> d -> q <> dsap_prev c -> h' !! q = dsa_vcluster g !! q).
Proof.
  intros Hc Hd HT Tf HL Ld Nd Nt.
  remember (dsap_prev c) as tp eqn:Etp.
  destruct (decide (tp = d)) as [E | Ne].
  - (* empty chain: the anchor is its own tail *)
    rewrite E in *. clear E tp. assert (T = c) as -> by congruence.
    eexists _, _. split; [|split; [|split; [|split]]].
    + unfold returns.
      eapply exec_step. { heap_go. rewrite Hc. reflexivity. }
      rewrite <- Etp.
      eapply exec_step. { heap_go. rewrite Hc. reflexivity. }
      rewrite Tf.
      eapply exec_step. { reflexivity. }
      eapply exec_step. { heap_go. rewrite HL. reflexivity. }
      eapply exec_step. { heap_go. reflexivity. }
      eapply exec_step. { heap_go. reflexivity. }
      eapply exec_step. { heap_go. reflexivity. }
      eapply exec_step. { heap_go. reflexivity. }
      eapply exec_step. { reflexivity. }
      apply exec_one. reflexivity.
    + simpl. heap_go. rewrite Hd. reflexivity.
    + intros X. contradiction.
    + intros _. simpl. heap_go. rewrite Ld. f_equal. apply set_links_idle_anchor. exact Tf.
    + intros q Q1 Q2 Q3. simpl. heap_go. reflexivity.
  - eexists _, _. split; [|split; [|split; [|split]]].
    + unfold returns.
      eapply exec_step. { heap_go. rewrite Hc. reflexivity. }
      rewrite <- Etp.
      eapply exec_step. { heap_go. rewrite HT. reflexivity. }
      rewrite Tf.
      eapply exec_step. { reflexivity. }
      eapply exec_step. { heap_go. rewrite HL. reflexivity. }
      eapply exec_step. { heap_go. rewrite Hc. reflexivity. }
      eapply exec_step. { heap_go. reflexivity. }
      eapply exec_step. { heap_go. rewrite Hc. reflexivity. }
      eapply exec_step. { heap_go. reflexivity. }
      eapply exec_step. { reflexivity. }
      apply exec_one. reflexivity.
    + simpl. heap_go. rewrite Hd. reflexivity.
    + intros _. simpl. split.
      * heap_go. rewrite Ld. f_equal. apply set_links_idle. exact Tf.
      * heap_go. rewrite Ld. reflexivity.
    + intros X. contradiction.
    + intros q Q1 Q2 Q3. simpl. heap_go. reflexivity.
Qed.

Lemma dll_frame h h' nx vs a :
  (forall v, v ∈ vs -> h' !! v = h !! v) -> dll h nx vs a -> dll h' nx vs a.
Proof.
  revert nx. induction vs as [|v vs IH]; intros nx Fr D; simpl in *; [exact Logic.I|].
  destruct D as (n & Hn & D1 & D2 & D3 & D4 & D).
  exists n. rewrite (Fr v) by (left). repeat split; auto.
  apply IH; [|exact D]. intros u Hu. apply Fr. right. exact Hu.
Qed.

(** Lines 150-158 when the hash has the entry: the state is left as it was,
    up to the lock being free again. *)
Lemma append_resolve_hit me g pk loc d :
  shared_lock_available g pk ->
  VChainHashLookup pk (vchain_hash g) = Some d ->
  exists tr g2,
    exec alone me g (ApAcquire pk loc) tr g2 (ApRetry loc d) /\
    dsa_vcluster g2 = dsa_vcluster g /\ vchain_hash g2 = vchain_hash g /\
    shared_lock_available g2 pk.
Proof.
  intros L M. destruct (acquire_shared g pk L) as (g1 & A & Eh & Ed).
  exists [EvLWLockAcquire (partition_lock pk) LW_SHARED; EvHashLookup pk (Some d);
          EvLWLockRelease (partition_lock pk)],
         (LWLockRelease (partition_lock pk) LW_SHARED g1).
  split; [|split; [|split]].
  - eapply (exec_step _ _ _ _ [_]). { unfold step. rewrite A. reflexivity. }
    eapply (exec_step _ _ _ _ [_]). { unfold step. rewrite Eh, M. reflexivity. }
    apply exec_one. reflexivity.
  - exact Ed.
  - exact Eh.
  - unfold shared_lock_available, LWLockRelease, lock_state in *. simpl.
    rewrite lookup_insert_eq. simpl.
    unfold LWLockAcquire in A. unfold lock_state in A. rewrite L in A.
    injection A as <-. simpl. rewrite lookup_insert_eq. reflexivity.
Qed.

Lemma chain_ok_tail g d vs :
  chain_ok g d vs ->
  exists c T, dsa_vcluster g !! d = Some c /\ dsap c = d /\ dsap_prev c = hd d vs /\
              dsa_vcluster g !! hd d vs = Some T /\ flag T = VL_WINNER.
Proof.
  intros (_ & c & Hc & Hd & Hp & _ & Hf & D). exists c.
  destruct vs as [|v vs]; simpl in *.
  - exists c. auto.
  - destruct D as (n & Hn & _ & _ & _ & Fn & _). exists n. auto.
Qed.

(** One call of Append, alone, on a well-formed chain with idle flags:
    the node becomes the newest version. *)
Lemma append_one me g pk loc d vs :
  shared_lock_available g pk ->
  VChainHashLookup pk (vchain_hash g) = Some d ->
  chain_ok g d vs ->
  fresh_node g loc -> loc ∉ d :: vs ->
  exists tr g',
    returns me g (ApAcquire pk loc) tr g' RVoid /\
    chain_ok g' d (loc :: vs) /\
    shared_lock_available g' pk /\
    vchain_hash g' = vchain_hash g /\
    (forall q, q ∉ loc :: d :: vs -> dsa_vcluster g' !! q = dsa_vcluster g !! q).
Proof.
  intros Lk M Ok (L & HL & Ld & Lf) Nin.
  destruct (append_resolve_hit me g pk loc d Lk M) as (tr1 & g2 & X1 & Eh2 & Ehash & Lk2).
  destruct (chain_ok_tail _ _ _ Ok) as (c & T & Hc & Hd & Hp & HT & Tf).
  rewrite not_elem_of_cons in Nin. destruct Nin as (Nd & Nvs).
  assert (Nt : loc <> dsap_prev c).
  { rewrite Hp. destruct vs as [|v vs]; simpl; [exact Nd|].
    rewrite not_elem_of_cons in Nvs. tauto. }
  rewrite <- Eh2 in Hc, HT, HL. rewrite <- Hp in HT.
  destruct (append_protocol me g2 loc d c T L Hc Hd HT Tf HL Ld Nd Nt)
    as (tr2 & h' & X2 & Hloc & Hne & He & Fr).
  exists (tr1 ++ tr2), (with_dsa h' g2).
  split; [eapply exec_trans; eauto|].
  split; [|split; [exact Lk2 | split; [exact Ehash|]]].
  - destruct Ok as (ND & c0 & Hc0 & _ & _ & Hn & Cf & D).
    rewrite <- Eh2 in Hc0. assert (c0 = c) as -> by congruence.
    split.
    { rewrite NoDup_cons in ND. destruct ND as (Dvs & ND).
      rewrite !NoDup_cons, !not_elem_of_cons. repeat split; auto. }
    destruct vs as [|v vs]; simpl in *.
    + (* the chain was empty *)
      specialize (He Hp).
      eexists. split; [exact He|]. simpl.
      repeat split; auto.
      eexists. split; [exact Hloc|]. simpl. rewrite Hp. repeat split; auto.
    + assert (Nv : dsap_prev c <> d).
      { rewrite Hp. rewrite NoDup_cons, not_elem_of_cons in ND. intros ->. tauto. }
      destruct (Hne Nv) as (Htp & Hd').
      eexists. split; [exact Hd'|]. simpl. repeat split; auto.
      eexists. split; [exact Hloc|]. simpl. rewrite Hp. repeat split; auto.
      destruct D as (n & Hn' & D1 & D2 & D3 & D4 & D).
      rewrite <- Eh2, <- Hp in Hn'. assert (n = T) as -> by congruence.
      rewrite Hp in Htp. eexists. split; [exact Htp|]. simpl. repeat split; auto.
      eapply dll_frame; [|exact D]. intros u Hu. rewrite Fr, Eh2; [reflexivity| | |].
      * intros ->. rewrite not_elem_of_cons in Nvs. tauto.
      * intros ->. rewrite NoDup_cons, not_elem_of_cons in ND. tauto.
      * rewrite Hp. intros ->.
        rewrite NoDup_cons in ND. destruct ND as (_ & ND).
        rewrite NoDup_cons in ND. tauto.
  - intros q Hq. rewrite !not_elem_of_cons in Hq. destruct Hq as (Q1 & Q2 & Q3).
    simpl. rewrite Fr, Eh2; auto.
    rewrite Hp. destruct vs as [|v vs]; simpl; [exact Q2|].
    rewrite not_elem_of_cons in Q3. tauto.
Qed.


(** *** What a well-formed chain offers *)

Lemma dll_prev_walk h nx vs a :
  dll h nx vs a -> a ∉ vs -> (exists A, h !! a = Some A /\ dsap A = a) ->
  prev_walk h a (hd a vs) vs.
Proof.
  revert nx. induction vs as [|v vs IH]; intros nx D Na HA; simpl in *; [exact HA|].
  destruct D as (n & Hn & D1 & D2 & D3 & D4 & D).
  rewrite not_elem_of_cons in Na. destruct Na as (Nv & Na).
  split; [reflexivity|]. exists n. split; [exact Hn|]. split; [congruence|].
  rewrite D3. eapply IH; eauto.
Qed.

Lemma chain_ok_versions g d vs : chain_ok g d vs -> chain_versions g d vs.
Proof.
  intros (ND & c & Hc & Hd & Hp & _ & _ & D). exists c. split; [exact Hc|].
  split; [exact Hd|]. rewrite Hp. eapply dll_prev_walk; eauto.
  rewrite NoDup_cons in ND. tauto.
Qed.

Lemma dll_last h nx vs a w :
  dll h nx vs a -> last vs = Some w ->
  exists n, h !! w = Some n /\ dsap_prev n = a.
Proof.
  revert nx. induction vs as [|v vs IH]; intros nx D Lw; [discriminate|].
  simpl in D. destruct D as (n & Hn & D1 & D2 & D3 & D4 & D).
  destruct vs as [|u vs].
  - rewrite last_singleton in Lw. injection Lw as <-. exists n. auto.
  - eapply IH; eauto.
Qed.

Lemma dll_mutual g nx vs a N A :
  dll (dsa_vcluster g) nx vs a ->
  dsa_vcluster g !! nx = Some N -> dsap_prev N = hd a vs ->
  dsa_vcluster g !! a = Some A -> (vs <> [] -> dsap_next A = default a (last vs)) ->
  forall x, x ∈ vs -> mutual g x.
Proof.
  revert nx N. induction vs as [|v vs IH]; intros nx N D HN Np HA An x Hx;
    [inversion Hx|].
  simpl in D. destruct D as (n & Hn & D1 & D2 & D3 & D4 & D).
  apply elem_of_cons in Hx as [-> | Hx].
  - destruct vs as [|u vs]; simpl in *.
    + exists n, A, N. rewrite D3, D2. repeat split; auto.
    + destruct D as (m & Hm & E1 & E2 & E3 & E4 & D).
      exists n, m, N. rewrite D3, D2. repeat split; auto.
  - eapply (IH v n); eauto.
    intros Ne. rewrite An by discriminate. destruct vs; [contradiction | reflexivity].
Qed.

Lemma chain_ok_mutual g d vs :
  chain_ok g d vs -> forall x, x ∈ d :: vs -> mutual g x.
Proof.
  intros (ND & c & Hc & Hd & Hp & Hn & Hf & D) x Hx.
  apply elem_of_cons in Hx as [-> | Hx].
  - destruct vs as [|v vs]; simpl in *.
    + exists c, c, c. rewrite Hp, Hn. repeat split; auto.
    + destruct D as (n & Hv & D1 & D2 & D3 & D4 & D).
      destruct (last (v :: vs)) as [w|] eqn:Lw.
      * destruct (dll_last (dsa_vcluster g) d (v :: vs) d w) as (m & Hm & Pm); [|exact Lw|].
        { simpl. eauto 10. }
        exists c, n, m. rewrite Hp, Hn. simpl. repeat split; auto.
      * apply last_None in Lw. discriminate.
  - eapply (dll_mutual g d vs d c c); eauto.
Qed.

Lemma fresh_node_frame g g' l :
  dsa_vcluster g' !! l = dsa_vcluster g !! l -> fresh_node g l -> fresh_node g' l.
Proof. intros E (n & Hn & X). exists n. rewrite E. auto. Qed.



Lemma lock_state_set m g l s : lock_state (with_locks (<[l := s]> m) g) l = s.
Proof. unfold lock_state. simpl. rewrite lookup_insert_eq. reflexivity. Qed.

(** Lines 150-168 when the hash has no entry and the partition lock is
    free: the anchor is created, empty. *)
Lemma append_resolve_miss me g pk loc :
  lock_state g (partition_lock pk) = lw_free ->
  VChainHashLookup pk (vchain_hash g) = None ->
  exists tr g2,
    let d := fresh (dom (dsa_vcluster g)) in
    exec alone me g (ApAcquire pk loc) tr g2 (ApRetry loc d) /\
    dsa_vcluster g2 = <[d := dummy_node d]> (dsa_vcluster g) /\
    vchain_hash g2 = vchain_hash g ++ [(pk, d)] /\
    lock_state g2 (partition_lock pk) = lw_free.
Proof.
  intros Lf M. set (l := partition_lock pk). fold l in Lf.
  set (d := fresh (dom (dsa_vcluster g))).
  set (g1 := with_locks (<[l := {| lw_exclusive := false; lw_shared := 1 |}]> (lwlocks g)) g).
  set (g2 := with_locks (<[l := lw_free]> (lwlocks g1)) g1).
  set (g3 := with_locks (<[l := {| lw_exclusive := true; lw_shared := 0 |}]> (lwlocks g2)) g2).
  set (g4 := with_hash (vchain_hash g3 ++ [(pk, d)])
               (with_dsa (<[d := dummy_node d]> (dsa_vcluster g3)) g3)).
  set (g5 := with_locks (<[l := lw_free]> (lwlocks g4)) g4).
  assert (A1 : LWLockAcquire l LW_SHARED g = Some g1).
  { unfold LWLockAcquire. rewrite Lf. reflexivity. }
  assert (R1 : LWLockRelease l LW_SHARED g1 = g2).
  { unfold LWLockRelease, g1. rewrite lock_state_set. reflexivity. }
  assert (A2 : LWLockAcquire l LW_EXCLUSIVE g2 = Some g3).
  { unfold LWLockAcquire, g2. rewrite lock_state_set. reflexivity. }
  assert (I3 : VChainHashInsert pk g3 = (d, g4)).
  { unfold VChainHashInsert. simpl. rewrite M. reflexivity. }
  assert (R2 : LWLockRelease l LW_EXCLUSIVE g4 = g5).
  { unfold LWLockRelease. unfold g4 at 1, g3 at 1. unfold lock_state. simpl.
    rewrite lookup_insert_eq. reflexivity. }
  exists (resolve_miss pk d), g5. simpl. split; [|split; [|split]].
  - eapply (exec_step _ _ _ _ [_]). { unfold step. fold l. rewrite A1. reflexivity. }
    eapply (exec_step _ _ _ _ [_]). { unfold step. simpl. rewrite M. reflexivity. }
    eapply (exec_step _ _ _ _ [_]). { unfold step. fold l. rewrite R1. reflexivity. }
    eapply (exec_step _ _ _ _ [_]). { unfold step. fold l. rewrite A2. reflexivity. }
    eapply (exec_step _ _ _ _ [_]). { unfold step. rewrite I3. reflexivity. }
    apply exec_one. unfold step. fold l. rewrite R2. reflexivity.
  - reflexivity.
  - reflexivity.
  - unfold g5. apply lock_state_set.
Qed.

Lemma lock_free_available g pk :
  lock_state g (partition_lock pk) = lw_free -> shared_lock_available g pk.
Proof. unfold shared_lock_available. intros ->. reflexivity. Qed.

(** The first call of Append for a key creates the anchor and links the
    node as the only version. *)
Lemma append_first me g pk loc :
  lock_state g (partition_lock pk) = lw_free ->
  VChainHashLookup pk (vchain_hash g) = None ->
  fresh_node g loc ->
  exists tr g' d,
    returns me g (ApAcquire pk loc) tr g' RVoid /\
    VChainHashLookup pk (vchain_hash g') = Some d /\
    chain_ok g' d [loc] /\
    shared_lock_available g' pk /\
    (d ∉ dom (dsa_vcluster g)) /\
    (forall q, q <> loc -> q <> d -> dsa_vcluster g' !! q = dsa_vcluster g !! q).
Proof.
  intros Lf M (L & HL & Ld & Lfl).
  destruct (append_resolve_miss me g pk loc Lf M) as (tr1 & g2 & X1 & Eh & Ehash & Lf2).
  simpl in *. set (d := fresh (dom (dsa_vcluster g))) in *.
  assert (Fd : d ∉ dom (dsa_vcluster g)) by apply is_fresh.
  assert (Nd : loc <> d).
  { intros ->. apply Fd. apply elem_of_dom. eauto. }
  assert (Hc : dsa_vcluster g2 !! d = Some (dummy_node d)).
  { rewrite Eh. apply lookup_insert_eq. }
  assert (HL2 : dsa_vcluster g2 !! loc = Some L).
  { rewrite Eh, lookup_insert_ne by congruence. exact HL. }
  destruct (append_protocol me g2 loc d (dummy_node d) (dummy_node d) L)
    as (tr2 & h' & X2 & Hloc & _ & He & Fr); auto.
  exists (tr1 ++ tr2), (with_dsa h' g2), d.
  split; [eapply exec_trans; eauto|].
  split; [simpl; rewrite Ehash; apply hash_lookup_snoc; exact M|].
  split; [|split; [apply lock_free_available; exact Lf2 | split; [exact Fd|]]].
  - split.
    { rewrite !NoDup_cons, !not_elem_of_cons. repeat split; auto.
      - apply not_elem_of_nil.
      - apply not_elem_of_nil.
      - apply NoDup_nil_2. }
    specialize (He eq_refl). eexists. split; [exact He|]. simpl.
    repeat split; auto.
    eexists. split; [exact Hloc|]. simpl. repeat split; auto.
  - intros q Q1 Q2. simpl. rewrite Fr by auto. rewrite Eh, lookup_insert_ne by congruence.
    reflexivity.
Qed.


(** *** The store to [chain->dsap_prev] as linearization point *)

Lemma prev_view_Some h q a b :
  prev_view h q = Some (a, b) <-> exists n, h !! q = Some n /\ dsap n = a /\ dsap_prev n = b.
Proof.
  unfold prev_view. split.
  - destruct (h !! q) as [n|]; simpl; [|discriminate]. intros E. injection E as <- <-. eauto.
  - intros (n & -> & <- & <-). reflexivity.
Qed.

Lemma view_poke_ne g p n q :
  p <> q -> prev_view (dsa_vcluster (poke p n g)) q = prev_view (dsa_vcluster g) q.
Proof. intros Ne. unfold prev_view, poke. simpl. rewrite lookup_insert_ne by exact Ne. reflexivity. Qed.

Lemma view_poke_eq g p n :
  prev_view (dsa_vcluster (poke p n g)) p = Some (dsap n, dsap_prev n).
Proof. unfold prev_view, poke. simpl. rewrite lookup_insert_eq. reflexivity. Qed.

Lemma view_poke_keep g p n n' q :
  dsa_vcluster g !! p = Some n -> dsap n' = dsap n -> dsap_prev n' = dsap_prev n ->
  prev_view (dsa_vcluster (poke p n' g)) q = prev_view (dsa_vcluster g) q.
Proof.
  intros Hp E1 E2. destruct (decide (p = q)) as [->|Ne].
  - rewrite view_poke_eq. unfold prev_view. rewrite Hp. simpl. congruence.
  - apply view_poke_ne. exact Ne.
Qed.

Lemma back_ext h h' vs a :
  (forall q, q ∈ vs -> prev_view h' q = prev_view h q) -> back h vs a -> back h' vs a.
Proof.
  induction vs as [|v vs IH]; intros E B; simpl in *; [exact Logic.I|].
  destruct B as (Nv & Hv & B). split; [exact Nv|]. split.
  - rewrite E by left. exact Hv.
  - apply IH; [|exact B]. intros q Hq. apply E. right. exact Hq.
Qed.

Lemma back_prev_walk h vs a :
  back h vs a ->
  (exists A, h !! a = Some A /\ dsap A = a) ->
  prev_walk h a (hd a vs) vs.
Proof.
  intros B HA. induction vs as [|v vs IH]; simpl in *; [exact HA|].
  destruct B as (Nv & Hv & B). apply prev_view_Some in Hv as (n & Hn & D1 & D2).
  split; [reflexivity|]. exists n. split; [exact Hn|]. split; [congruence|].
  rewrite D2. apply IH. exact B.
Qed.

Lemma chain_back_versions g d vs : chain_back g d vs -> chain_versions g d vs.
Proof.
  intros (Hd & B). apply prev_view_Some in Hd as (c & Hc & D1 & D2).
  exists c. split; [exact Hc|]. split; [exact D1|]. rewrite D2.
  apply back_prev_walk; eauto.
Qed.

Lemma dll_back h nx vs a : dll h nx vs a -> a ∉ vs -> back h vs a.
Proof.
  revert nx. induction vs as [|v vs IH]; intros nx D Na; simpl in *; [exact Logic.I|].
  destruct D as (n & Hn & D1 & D2 & D3 & D4 & D).
  rewrite not_elem_of_cons in Na. destruct Na as (Nv & Na).
  split; [congruence|]. split; [apply prev_view_Some; eauto|]. eapply IH; eauto.
Qed.

Lemma chain_ok_back g d vs : chain_ok g d vs -> chain_back g d vs.
Proof.
  intros (ND & c & Hc & Hd & Hp & _ & _ & D). split.
  - apply prev_view_Some. eauto.
  - eapply dll_back; eauto. rewrite NoDup_cons in ND. tauto.
Qed.


Lemma lock_acquire_frame l m g g1 :
  LWLockAcquire l m g = Some g1 ->
  dsa_vcluster g1 = dsa_vcluster g /\ vchain_hash g1 = vchain_hash g.
Proof.
  unfold LWLockAcquire. destruct m; intros E; repeat case_match; simplify_eq; auto.
Qed.

Lemma lock_release_frame l m g :
  dsa_vcluster (LWLockRelease l m g) = dsa_vcluster g /\
  vchain_hash (LWLockRelease l m g) = vchain_hash g.
Proof. destruct m; auto. Qed.

Lemma old_view_heap h0 loc g g1 :
  dsa_vcluster g1 = dsa_vcluster g -> old_view h0 loc g -> old_view h0 loc g1.
Proof. unfold old_view. intros ->. auto. Qed.

Lemma flag_at_heap g g1 p :
  dsa_vcluster g1 = dsa_vcluster g -> flag_at g1 p = flag_at g p.
Proof. unfold flag_at. intros ->. reflexivity. Qed.

Lemma flag_at_Some g p f :
  flag_at g p = Some f -> exists n, dsa_vcluster g !! p = Some n /\ flag n = f.
Proof.
  unfold flag_at. destruct (dsa_vcluster g !! p) as [n|]; simpl; [|discriminate].
  intros E. injection E as <-. eauto.
Qed.

Section Linearization.
Variables (me : nat) (h0 : gmap Z VLocator) (pk : PrimaryKey) (loc d tp0 : dsa_pointer).
Hypothesis anchor0 : prev_view h0 d = Some (d, tp0).
Hypothesis loc_not_anchor : d <> loc.
Hypothesis loc_not_tail : tp0 <> loc.

Lemma old_view_poke g p n n' :
  dsa_vcluster g !! p = Some n -> dsap n' = dsap n -> dsap_prev n' = dsap_prev n ->
  old_view h0 loc g -> old_view h0 loc (poke p n' g).
Proof.
  intros Hp E1 E2 (V & l & Hl & Dl). split.
  - intros q Hq. rewrite (view_poke_keep g p n n' q Hp E1 E2). apply V. exact Hq.
  - destruct (decide (p = loc)) as [->|Ne].
    + exists n'. unfold poke. simpl. rewrite lookup_insert_eq. split; [reflexivity|]. congruence.
    + exists l. unfold poke. simpl. rewrite lookup_insert_ne by exact Ne. auto.
Qed.

Lemma new_view_poke g p n n' :
  dsa_vcluster g !! p = Some n -> dsap n' = dsap n -> dsap_prev n' = dsap_prev n ->
  new_view h0 loc d tp0 g -> new_view h0 loc d tp0 (poke p n' g).
Proof.
  intros Hp E1 E2 (V1 & V2 & V). unfold new_view.
  rewrite !(view_poke_keep g p n n' _ Hp E1 E2). split; [exact V1|]. split; [exact V2|].
  intros q Q1 Q2. rewrite (view_poke_keep g p n n' q Hp E1 E2). auto.
Qed.

Ltac conj_split := repeat match goal with |- _ /\ _ => split end.

Lemma lin_inv_step g t evs g1 t1 :
  lin_inv h0 pk loc d tp0 g t ->
  step me g t = Some (evs, g1, t1) ->
  lin_inv h0 pk loc d tp0 g1 t1.
Proof.
  intros (Hh & I) S. destruct t; try contradiction.
  - (* lines 150-154 *)
    destruct I as (-> & -> & V & F). unfold step in S.
    destruct (LWLockAcquire _ _ g) as [g2|] eqn:A; [|discriminate]. simpl in S. simplify_eq.
    destruct (lock_acquire_frame _ _ _ _ A) as (Ed & Eh).
    split; [congruence|]. conj_split; auto.
    all: first [ eapply old_view_heap; eassumption
               | erewrite flag_at_heap; [exact F | exact Ed] ].
  - (* line 155 *)
    destruct I as (-> & -> & V & F). unfold step in S. rewrite Hh in S. simplify_eq.
    split; [exact Hh|]. conj_split; auto.
  - (* line 158 *)
    destruct I as (-> & -> & -> & V & F). unfold step in S. simplify_eq.
    destruct (lock_release_frame (partition_lock pk) LW_SHARED g) as (Ed & Eh).
    split; [congruence|]. conj_split; auto.
    all: first [ eapply old_view_heap; eassumption
               | erewrite flag_at_heap; [exact F | exact Ed] ].
  - (* lines 177-184 *)
    destruct I as (-> & -> & V & F). pose proof V as (V1 & _).
    pose proof (V1 d loc_not_anchor) as Vd. rewrite anchor0 in Vd.
    apply prev_view_Some in Vd as (c & Hc & D1 & D2).
    unfold step, deref in S. rewrite Hc in S. simplify_eq.
    split; [exact Hh|]. conj_split; auto.
  - (* line 187 *)
    destruct I as (-> & -> & -> & V & F).
    destruct (flag_at_Some _ _ _ F) as (T & HT & Tf).
    unfold step, deref in S. rewrite HT in S. simplify_eq.
    split; [exact Hh|]. conj_split; auto.
    all: first [ eapply old_view_poke; eauto; fail | apply flag_at_poke_flag ].
  - (* lines 189, 201 *)
    destruct I as (-> & -> & -> & -> & V & F). simpl in S. simplify_eq.
    split; [exact Hh|]. conj_split; auto.
  - (* line 203 *)
    destruct I as (-> & -> & -> & V & F). pose proof V as (V1 & l & Hl & Dl).
    unfold step, deref in S. rewrite Hl in S. simplify_eq.
    split; [exact Hh|]. conj_split; auto.
    + split.
      * intros q Hq. rewrite view_poke_ne by congruence. apply V1. exact Hq.
      * eexists. unfold poke. simpl. rewrite lookup_insert_eq. split; reflexivity.
    + erewrite flag_at_poke; [exact F | exact Hl | reflexivity].
    + rewrite view_poke_eq. reflexivity.
  - (* line 204 *)
    destruct I as (-> & -> & -> & V & F & Vl). pose proof V as (V1 & l & Hl & Dl).
    pose proof (V1 d loc_not_anchor) as Vd. rewrite anchor0 in Vd.
    apply prev_view_Some in Vd as (c & Hc & D1 & D2).
    unfold step, deref2 in S. rewrite Hc, Hl in S. injection S as <- <- <-.
    split; [exact Hh|]. conj_split; auto.
    + eapply old_view_poke; [exact Hl | reflexivity | reflexivity | exact V].
    + erewrite flag_at_poke; [exact F | exact Hl | reflexivity].
    + erewrite view_poke_keep; [exact Vl | exact Hl | reflexivity | reflexivity].
  - (* line 205 *)
    destruct I as (-> & -> & -> & V & F & Vl). pose proof V as (V1 & l & Hl & Dl).
    destruct (flag_at_Some _ _ _ F) as (T & HT & Tf).
    unfold step, deref2 in S. rewrite Hl, HT in S. injection S as <- <- <-.
    split; [exact Hh|]. conj_split; auto.
    + eapply old_view_poke; [exact HT | reflexivity | reflexivity | exact V].
    + erewrite flag_at_poke; [exact F | exact HT | reflexivity].
    + erewrite view_poke_keep; [exact Vl | exact HT | reflexivity | reflexivity].
  - (* line 206 *)
    destruct I as (-> & -> & -> & V & F & Vl). pose proof V as (V1 & l & Hl & Dl).
    pose proof (V1 d loc_not_anchor) as Vd. rewrite anchor0 in Vd.
    apply prev_view_Some in Vd as (c & Hc & D1 & D2).
    apply prev_view_Some in Vl as (l' & Hl' & E1 & E2).
    assert (l' = l) as -> by congruence.
    unfold step, deref2 in S. rewrite Hl, Hc in S. injection S as <- <- <-.
    split; [exact Hh|]. conj_split; auto.
    + split; [|split].
      * rewrite view_poke_eq. simpl. congruence.
      * rewrite view_poke_ne by congruence. unfold prev_view. rewrite Hl. simpl. congruence.
      * intros q Q1 Q2. rewrite view_poke_ne by congruence. apply V1. exact Q1.
    + erewrite flag_at_poke; [exact F | exact Hc | reflexivity].
  - (* line 209 *)
    destruct I as (-> & V & F).
    destruct (flag_at_Some _ _ _ F) as (T & HT & Tf).
    unfold step, deref in S. rewrite HT in S. simplify_eq.
    split; [exact Hh|]. split; [exact Tf|].
    eapply new_view_poke; eauto.
  - (* lines 211-217 *)
    destruct I as (-> & V). simpl in S. simplify_eq. split; [exact Hh | exact V].
  - simpl in S. simplify_eq. split; [exact Hh | exact I].
  - discriminate S.
Qed.

End Linearization.


(** Run alone, a call has one execution: every state it reaches lies on
    the way to its return. *)
Lemma exec_alone_prefix me g t tr1 g1 t1 tr g' r :
  exec alone me g t tr1 g1 t1 ->
  exec alone me g t tr g' (Done r) ->
  exists tr2, exec alone me g1 t1 tr2 g' (Done r).
Proof.
  intros X. revert tr. induction X as [| ? ? ? ? ? ? ? ? E X IH | ? ? ? ? ? ? R X IH]; intros tr0 Y.
  - eauto.
  - apply exec_alone_inv in Y as [(_ & _ & Et) | (evs' & g1' & t1' & tr1' & S' & Y' & _)].
    + subst t. discriminate E.
    + rewrite S' in E. injection E as <- <- <-. eapply IH. exact Y'.
  - destruct R.
Qed.

Lemma returns_det me g t tr g1 r tr' g2 r' :
  returns me g t tr g1 r -> returns me g t tr' g2 r' -> g2 = g1 /\ r' = r.
Proof.
  intros X Y. destruct (exec_alone_prefix _ _ _ _ _ _ _ _ _ X Y) as (tr2 & Z).
  apply exec_alone_inv in Z as [(_ & -> & E) | (evs & ? & ? & ? & S & _)].
  - injection E as ->. auto.
  - discriminate S.
Qed.

Lemma lin_inv_view h0 pk loc d tp0 g t :
  lin_inv h0 pk loc d tp0 g t ->
  if before_link4 t then old_view h0 loc g else new_view h0 loc d tp0 g.
Proof.
  intros (_ & I). destruct t; simpl in *; try contradiction; try tauto.
Qed.

Lemma lin_inv_exec me h0 pk loc d tp0 g t tr g1 t1 :
  prev_view h0 d = Some (d, tp0) -> d <> loc -> tp0 <> loc ->
  lin_inv h0 pk loc d tp0 g t ->
  exec alone me g t tr g1 t1 ->
  lin_inv h0 pk loc d tp0 g1 t1.
Proof.
  intros A0 Nd Nt I X.
  apply (exec_invariant alone me (fun g' t' _ => lin_inv h0 pk loc d tp0 g' t'))
    with (g := g) (t := t) (tr := tr) (tr0 := []).
  - intros ? ? ? ? ? ? J S. eapply lin_inv_step; eauto.
  - intros ? ? ? ? _ [].
  - exact X.
  - exact I.
Qed.

Lemma lin_inv_observes h0 pk loc d vs g t :
  prev_view h0 d = Some (d, hd d vs) -> back h0 vs d ->
  d <> loc -> loc ∉ vs -> d ∉ vs ->
  lin_inv h0 pk loc d (hd d vs) g t ->
  VChainHashLookup pk (vchain_hash g) = Some d /\
  chain_versions g d (if before_link4 t then vs else loc :: vs).
Proof.
  intros Bd B Nd Nvs Dvs I. split; [exact (proj1 I)|].
  apply lin_inv_view in I. apply chain_back_versions.
  destruct (before_link4 t).
  - destruct I as (V & _). split.
    + rewrite V by exact Nd. exact Bd.
    + eapply back_ext; [|exact B]. intros q Hq. apply V. intros ->. contradiction.
  - destruct I as (V1 & V2 & V). split; [exact V1|]. simpl. split; [congruence|].
    split; [exact V2|].
    eapply back_ext; [|exact B]. intros q Hq. apply V; intros ->; contradiction.
Qed.

(** A call of Append run alone on a well-formed chain: at each of its
    states the backward walk from the anchor meets the versions the chain
    had, with the new node before them once line 206 has been passed. *)
Lemma append_linearizes me g pk loc d vs tr g1 t1 :
  VChainHashLookup pk (vchain_hash g) = Some d ->
  chain_ok g d vs ->
  fresh_node g loc -> loc ∉ d :: vs ->
  exec alone me g (ApAcquire pk loc) tr g1 t1 ->
  VChainHashLookup pk (vchain_hash g1) = Some d /\
  chain_versions g1 d (if before_link4 t1 then vs else loc :: vs).
Proof.
  intros M Ok (L & HL & Ld & Lf) Nin X.
  pose proof (chain_ok_back _ _ _ Ok) as (Bd & B).
  destruct (chain_ok_tail _ _ _ Ok) as (c & T & Hc & Hd & Hp & HT & Tf).
  rewrite not_elem_of_cons in Nin. destruct Nin as (Nd & Nvs).
  assert (Nt : hd d vs <> loc).
  { destruct vs as [|v vs]; simpl; [congruence|].
    rewrite not_elem_of_cons in Nvs. intros ->. tauto. }
  assert (Nd' : d <> loc) by congruence.
  assert (Dvs : d ∉ vs).
  { destruct Ok as (ND & _). rewrite NoDup_cons in ND. tauto. }
  apply (lin_inv_observes (dsa_vcluster g)); auto.
  apply (lin_inv_exec me _ _ _ _ _ g (ApAcquire pk loc) tr); auto.
  split; [exact M|]. split; [reflexivity|]. split; [reflexivity|]. split.
  - split; [reflexivity|]. eauto.
  - unfold flag_at. rewrite HT. simpl. congruence.
Qed.

(** While calls that do not overlap run, the backward walk from the anchor
    always meets a whole chain. *)
Lemma appending_observes pk calls g d vs :
  shared_lock_available g pk ->
  VChainHashLookup pk (vchain_hash g) = Some d ->
  chain_ok g d vs ->
  NoDup calls.*2 ->
  (forall l, l ∈ calls.*2 -> fresh_node g l /\ l ∉ d :: vs) ->
  forall g1 seen, appending pk calls g g1 seen ->
    VChainHashLookup pk (vchain_hash g1) = Some d /\ chain_versions g1 d (seen ++ vs).
Proof.
  intros Lk M Ok ND Fr g1 seen A. revert vs Lk M Ok ND Fr.
  induction A as [me l calls g tr g1 t1 X | me l calls g tr g1 g2 seen R A IH];
    intros vs Lk M Ok ND Fr; simpl in ND, Fr; rewrite NoDup_cons in ND;
    destruct ND as (Nl & ND); (destruct (Fr l) as (Fl & Nin); [left|]).
  - pose proof (append_linearizes _ _ _ _ _ _ _ _ _ M Ok Fl Nin X) as V.
    destruct (before_link4 t1); exact V.
  - destruct (append_one me g pk l d vs Lk M Ok Fl Nin) as (tr' & g' & X & Ok1 & Lk1 & Eh & Frame).
    destruct (returns_det _ _ _ _ _ _ _ _ _ X R) as (-> & _).
    rewrite <- app_assoc. simpl. apply IH; auto.
    + congruence.
    + intros l' Hl'. destruct (Fr l') as (Fl' & Nin'); [right; exact Hl'|].
      assert (l' <> l) by (intros ->; contradiction).
      split.
      * eapply fresh_node_frame; [|exact Fl']. apply Frame.
        rewrite not_elem_of_cons. auto.
      * rewrite not_elem_of_cons in Nin'. rewrite !not_elem_of_cons. tauto.
Qed.

(** The first call for a key: until the anchor is entered in the hash
    nothing can be walked; from then on the walk meets the empty chain, and
    the node once line 206 has been passed. *)
Lemma append_first_linearizes me g pk loc tr g1 t1 :
  VChainHashLookup pk (vchain_hash g) = None ->
  fresh_node g loc ->
  exec alone me g (ApAcquire pk loc) tr g1 t1 ->
  match VChainHashLookup pk (vchain_hash g1) with
  | Some d => chain_versions g1 d (if before_link4 t1 then [] else [loc])
  | None => before_link4 t1 = true
  end.
Proof.
  intros M (L & HL & Ld & Lf) X.
  (* line 150-154 *)
  apply exec_alone_inv in X as [(_ & -> & ->) | (? & ? & ? & ? & S & X & _)];
    [rewrite M; reflexivity|].
  unfold step in S. destruct (LWLockAcquire _ _ g) as [g2|] eqn:A; [|discriminate].
  simpl in S. injection S as _ <- <-.
  destruct (lock_acquire_frame _ _ _ _ A) as (Ed & Eh). clear A.
  rewrite <- Eh in M. rewrite <- Ed in HL. clear Ed Eh g.
  (* line 155 *)
  apply exec_alone_inv in X as [(_ & -> & ->) | (? & ? & ? & ? & S & X & _)];
    [rewrite M; reflexivity|].
  unfold step in S. rewrite M in S. injection S as _ <- <-.
  (* line 163 *)
  apply exec_alone_inv in X as [(_ & -> & ->) | (? & ? & ? & ? & S & X & _)];
    [rewrite M; reflexivity|].
  unfold step in S. injection S as _ <- <-.
  destruct (lock_release_frame (partition_lock pk) LW_SHARED g2) as (Ed & Eh).
  rewrite <- Eh in M. rewrite <- Ed in HL. clear Ed Eh.
  set (g3 := LWLockRelease _ _ g2) in *. clearbody g3. clear g2.
  (* line 164 *)
  apply exec_alone_inv in X as [(_ & -> & ->) | (? & ? & ? & ? & S & X & _)];
    [rewrite M; reflexivity|].
  unfold step in S. destruct (LWLockAcquire _ _ g3) as [g4|] eqn:A; [|discriminate].
  simpl in S. injection S as _ <- <-.
  destruct (lock_acquire_frame _ _ _ _ A) as (Ed & Eh). clear A.
  rewrite <- Eh in M. rewrite <- Ed in HL. clear Ed Eh g3.
  (* line 167 *)
  apply exec_alone_inv in X as [(_ & -> & ->) | (? & ? & ? & ? & S & X & _)];
    [rewrite M; reflexivity|].
  unfold step, VChainHashInsert in S. rewrite M in S. injection S as _ <- <-.
  set (d := fresh (dom (dsa_vcluster g4))) in *.
  assert (Fd : d ∉ dom (dsa_vcluster g4)) by apply is_fresh.
  assert (Nd : d <> loc).
  { intros E. apply Fd. rewrite E. apply elem_of_dom. eauto. }
  set (g5 := with_hash _ _) in X.
  assert (M5 : VChainHashLookup pk (vchain_hash g5) = Some d).
  { apply hash_lookup_snoc. exact M. }
  assert (H5 : dsa_vcluster g5 = <[d := dummy_node d]> (dsa_vcluster g4)) by reflexivity.
  clearbody g5.
  assert (Hd5 : dsa_vcluster g5 !! d = Some (dummy_node d)).
  { rewrite H5. apply lookup_insert_eq. }
  assert (HL5 : dsa_vcluster g5 !! loc = Some L).
  { rewrite H5, lookup_insert_ne by exact Nd. exact HL. }
  clearbody d. clear H5 HL M Fd g4.
  assert (W : forall g, VChainHashLookup pk (vchain_hash g) = Some d ->
                dsa_vcluster g = dsa_vcluster g5 -> chain_versions g d []).
  { intros g Hg Eg. exists (dummy_node d). rewrite Eg. split; [exact Hd5|].
    split; [reflexivity|]. simpl. eauto. }
  (* line 168 *)
  apply exec_alone_inv in X as [(_ & -> & ->) | (? & ? & ? & ? & S & X & _)].
  { rewrite M5. apply W; auto. }
  unfold step in S. injection S as _ <- <-.
  destruct (lock_release_frame (partition_lock pk) LW_EXCLUSIVE g5) as (Ed & Eh).
  set (g6 := LWLockRelease _ _ g5) in *. clearbody g6.
  (* lines 177-217 *)
  assert (I : lin_inv (dsa_vcluster g5) pk loc d (hd d []) g1 t1).
  { eapply (lin_inv_exec me _ _ _ _ _ g6 (ApRetry loc d)); [| | | |exact X]; auto.
    - apply prev_view_Some. eauto.
    - split; [congruence|]. split; [reflexivity|]. split; [reflexivity|]. split.
      + split; [intros; rewrite Ed; reflexivity|]. rewrite Ed. eauto.
      + unfold flag_at. simpl. rewrite Ed, Hd5. reflexivity. }
  apply lin_inv_observes in I as (M1 & V).
  - rewrite M1. exact V.
  - apply prev_view_Some. eauto.
  - exact Logic.I.
  - exact Nd.
  - apply not_elem_of_nil.
  - apply not_elem_of_nil.
Qed.

(** While calls that do not overlap run on a key that had no chain. *)
Lemma appending_observes_first pk calls g :
  lock_state g (partition_lock pk) = lw_free ->
  VChainHashLookup pk (vchain_hash g) = None ->
  NoDup calls.*2 ->
  (forall l, l ∈ calls.*2 -> fresh_node g l) ->
  forall g1 seen, appending pk calls g g1 seen ->
    match VChainHashLookup pk (vchain_hash g1) with
    | Some d => chain_versions g1 d seen
    | None => seen = []
    end.
Proof.
  intros Lf M ND Fr g1 seen A.
  destruct A as [me l calls g tr g1 t1 X | me l calls g tr g1 g2 seen R A];
    simpl in ND, Fr; rewrite NoDup_cons in ND; destruct ND as (Nl & ND);
    (assert (Fl : fresh_node g l) by (apply Fr; left)).
  - pose proof (append_first_linearizes _ _ _ _ _ _ _ M Fl X) as V.
    destruct (VChainHashLookup pk (vchain_hash g1)); [exact V|]. rewrite V. reflexivity.
  - destruct (append_first me g pk l Lf M Fl) as (tr' & g' & d & X & M' & Ok & Lk & Fd & Frame).
    destruct (returns_det _ _ _ _ _ _ _ _ _ X R) as (-> & _).
    destruct (appending_observes pk calls g' d [l] Lk M' Ok ND) with (g1 := g2) (seen := seen)
      as (M2 & V); [|exact A|rewrite M2; exact V].
    intros l' Hl'.
    assert (l' <> l) by (intros ->; contradiction).
    assert (l' <> d).
    { intros ->. apply Fd. destruct (Fr d) as (n & Hn & _); [right; exact Hl'|].
      apply elem_of_dom. eauto. }
    split.
    + eapply fresh_node_frame; [|apply Fr; right; exact Hl']. apply Frame; auto.
    + rewrite !not_elem_of_cons. repeat split; auto. apply not_elem_of_nil.
Qed.


(** ** Further properties *)

Lemma keeps_nodes_refl g : keeps_nodes g g.
Proof. intros p n Hp. eauto. Qed.

Lemma keeps_nodes_trans a b c : keeps_nodes a b -> keeps_nodes b c -> keeps_nodes a c.
Proof.
  intros K1 K2 p n Hp. destruct (K1 p n Hp) as (n1 & H1 & D1 & X1).
  destruct (K2 p n1 H1) as (n2 & H2 & D2 & X2). exists n2. split; [exact H2|]. split; congruence.
Qed.

Lemma keeps_nodes_heap a b : dsa_vcluster b = dsa_vcluster a -> keeps_nodes a b.
Proof. intros E p n Hp. rewrite E. eauto. Qed.

Lemma keeps_nodes_poke g q m m' :
  dsa_vcluster g !! q = Some m -> dsap m' = dsap m -> xmin m' = xmin m ->
  keeps_nodes g (poke q m' g).
Proof.
  intros Hq D X p n Hp. unfold poke. simpl. destruct (decide (q = p)) as [->|Ne].
  - rewrite lookup_insert_eq. exists m'. split; [reflexivity|]. split; congruence.
  - rewrite lookup_insert_ne by exact Ne. eauto.
Qed.

Lemma step_keeps_nodes me g t evs g1 t1 :
  step me g t = Some (evs, g1, t1) -> keeps_nodes g g1.
Proof.
  intros S. destruct t.
  all: try (unfold step, deref, deref2 in S; simpl in S; repeat case_match;
            simplify_option_eq;
            first [ apply keeps_nodes_refl
                  | apply keeps_nodes_heap; reflexivity
                  | eapply keeps_nodes_poke; [eassumption | reflexivity | reflexivity] ]; fail).
  all: try (unfold step in S; simpl in S;
            match type of S with
            | context [LWLockAcquire ?l ?m ?g] =>
                destruct (LWLockAcquire l m g) as [g2|] eqn:A; [|discriminate];
                simpl in S; simplify_eq;
                apply keeps_nodes_heap; exact (proj1 (lock_acquire_frame _ _ _ _ A))
            end; fail).
  unfold step, VChainHashInsert in S.
  destruct (VChainHashLookup primary_key (vchain_hash g)) eqn:E; simplify_eq.
  - apply keeps_nodes_refl.
  - intros p n Hp. simpl. exists n. rewrite lookup_insert_ne; [auto|].
    intros <-. apply (is_fresh (dom (dsa_vcluster g))). apply elem_of_dom. eauto.
Qed.

(** X2.  Whatever the backends do in [vchain.c] and however their steps
    interleave, a node is never freed, and nothing ever writes the offset it
    carries or its creator stamp. *)
Theorem nodes_keep_identity sch c tr c' :
  sched_run sch c = Some (tr, c') -> keeps_nodes (shared c) (shared c').
Proof.
  revert c tr. induction sch as [|i sch IH]; intros c tr E.
  - simpl in E. injection E as <- <-. apply keeps_nodes_refl.
  - apply sched_run_cons in E as (tr1 & c1 & tr2 & E1 & E2 & ->).
    apply sched_step_inv in E1 as (t & evs & g1 & t1 & Ht & S & -> & ->).
    eapply keeps_nodes_trans; [eapply step_keeps_nodes; exact S|].
    apply (IH _ _ E2).
Qed.

Lemma lock_state_with_locks m g l s l' :
  lock_state (with_locks (<[l := s]> m) g) l'
  = if decide (l = l') then s else default lw_free (m !! l').
Proof.
  unfold lock_state. simpl. destruct (decide (l = l')) as [->|Ne].
  - rewrite lookup_insert_eq. reflexivity.
  - rewrite lookup_insert_ne by exact Ne. reflexivity.
Qed.

Lemma acquire_shared_inv l g g1 :
  LWLockAcquire l LW_SHARED g = Some g1 ->
  lw_exclusive (lock_state g l) = false /\
  lock_state g1 l = {| lw_exclusive := false; lw_shared := S (lw_shared (lock_state g l)) |} /\
  (forall l', l' <> l -> lock_state g1 l' = lock_state g l') /\
  thread_table g1 = thread_table g /\ clock g1 = clock g.
Proof.
  unfold LWLockAcquire. destruct (lw_exclusive (lock_state g l)) eqn:E; [discriminate|].
  intros S. injection S as <-. split; [reflexivity|]. split.
  - rewrite lock_state_with_locks, decide_True by reflexivity. reflexivity.
  - split; [|split; reflexivity]. intros l' Ne.
    rewrite lock_state_with_locks, decide_False by congruence. reflexivity.
Qed.

Lemma release_shared_inv l g :
  lock_state (LWLockRelease l LW_SHARED g) l
  = {| lw_exclusive := lw_exclusive (lock_state g l);
       lw_shared := Nat.pred (lw_shared (lock_state g l)) |} /\
  (forall l', l' <> l -> lock_state (LWLockRelease l LW_SHARED g) l' = lock_state g l') /\
  thread_table (LWLockRelease l LW_SHARED g) = thread_table g /\
  clock (LWLockRelease l LW_SHARED g) = clock g.
Proof.
  unfold LWLockRelease. split.
  - rewrite lock_state_with_locks, decide_True by reflexivity. reflexivity.
  - split; [|split; reflexivity]. intros l' Ne.
    rewrite lock_state_with_locks, decide_False by congruence. reflexivity.
Qed.

Lemma lw_eta s : {| lw_exclusive := lw_exclusive s; lw_shared := lw_shared s |} = s.
Proof. destruct s. reflexivity. Qed.

Ltac open_deref S :=
  unfold step, deref, deref2 in S;
  repeat match type of S with
         | context [match dsa_vcluster ?g !! ?p with _ => _ end] =>
             destruct (dsa_vcluster g !! p) eqn:?
         end;
  simplify_eq.

Lemma lookup_frame_step me pk g g1 t evs g2 t2 :
  lookup_frame_inv me pk g g1 t ->
  step me g1 t = Some (evs, g2, t2) ->
  lookup_frame_inv me pk g g2 t2.
Proof.
  intros (Ed & Eh & Ec & Lo & I) S. destruct t; try contradiction.
  - (* lines 77-81 *)
    destruct I as (-> & Fr & Tt). unfold step in S.
    destruct (LWLockAcquire _ _ g1) as [g3|] eqn:A; [|discriminate]. simpl in S. simplify_eq.
    destruct (lock_acquire_frame _ _ _ _ A) as (Ed' & Eh').
    destruct (acquire_shared_inv _ _ _ A) as (Ex & Ls & Lo' & Tt' & Ec').
    split; [congruence|]. split; [congruence|]. split; [congruence|]. split.
    { intros l' Ne. rewrite Lo' by exact Ne. auto. }
    split; [reflexivity|]. split; [|congruence].
    rewrite <- Fr. split; [exact Ex | exact Ls].
  - (* line 82 *)
    destruct I as (-> & Hd & Tt). unfold step in S. simplify_eq. rewrite Eh.
    split; [exact Ed|]. split; [exact Eh|]. split; [exact Ec|]. split; [exact Lo|].
    destruct (VChainHashLookup pk (vchain_hash g)) eqn:M; simpl; auto.
  - (* lines 85-86 *)
    destruct I as (-> & (Ex & Ls) & Tt & M). unfold step in S. simplify_eq.
    destruct (lock_release_frame (partition_lock pk) LW_SHARED g1) as (Ed' & Eh').
    destruct (release_shared_inv (partition_lock pk) g1) as (Lr & Lo' & Tt' & Ec').
    split; [congruence|]. split; [congruence|]. split; [congruence|]. split.
    { intros l' Ne. rewrite Lo' by exact Ne. auto. }
    rewrite M. split; [|congruence].
    rewrite Lr, Ls. simpl. rewrite <- Ex. apply lw_eta.
  - (* line 88 *)
    destruct I as (-> & (Ex & Ls) & Tt & M). unfold step in S. simplify_eq.
    destruct (lock_release_frame (partition_lock pk) LW_SHARED g1) as (Ed' & Eh').
    destruct (release_shared_inv (partition_lock pk) g1) as (Lr & Lo' & Tt' & Ec').
    split; [congruence|]. split; [congruence|]. split; [congruence|]. split.
    { intros l' Ne. rewrite Lo' by exact Ne. auto. }
    split; [|split; [congruence | exact M]].
    rewrite Lr, Ls. simpl. rewrite <- Ex. apply lw_eta.
  - (* line 91 *)
    destruct I as (Fr & Tt & M). unfold step in S. simplify_eq.
    split; [exact Ed|]. split; [exact Eh|]. split; [exact Ec|]. split; [exact Lo|].
    split; [exact Fr|]. split; [|exact M].
    unfold SetTimestamp. simpl. rewrite Tt, Ec. reflexivity.
  - (* lines 93-94 *)
    destruct I as (Fr & Tt & M). open_deref S.
    all: split; [exact Ed|]; split; [exact Eh|]; split; [exact Ec|]; split; [exact Lo|].
    all: repeat match goal with |- context [if ?b then _ else _] => destruct b end; auto.
  - (* lines 99-101 *)
    destruct I as (Fr & Tt & (d & M)). unfold step in S. simplify_eq.
    split; [exact Ed|]. split; [exact Eh|]. split; [exact Ec|]. split; [exact Lo|].
    split; [exact Fr|]. rewrite M. unfold ClearTimestamp. simpl. rewrite Tt.
    apply delete_insert_eq.
  - (* line 109 *)
    destruct I as (Fr & Tt & M). open_deref S.
    all: split; [exact Ed|]; split; [exact Eh|]; split; [exact Ec|]; split; [exact Lo|].
    all: repeat match goal with |- context [if ?b then _ else _] => destruct b end; auto.
  - (* line 110 *)
    destruct I as (Fr & Tt & M). open_deref S.
    all: split; [exact Ed|]; split; [exact Eh|]; split; [exact Ec|]; split; [exact Lo|].
    all: repeat match goal with |- context [if ?b then _ else _] => destruct b end; auto.
  - (* line 112 *)
    destruct I as (Fr & Tt & M). open_deref S.
    all: split; [exact Ed|]; split; [exact Eh|]; split; [exact Ec|]; split; [exact Lo|].
    all: repeat match goal with |- context [if ?b then _ else _] => destruct b end; auto.
  - (* lines 115-120 *)
    destruct I as (Fr & Tt & (d & M)). unfold step in S. simplify_eq.
    split; [exact Ed|]. split; [exact Eh|]. split; [exact Ec|]. split; [exact Lo|].
    split; [exact Fr|]. rewrite M. unfold ClearTimestamp. simpl. rewrite Tt.
    apply delete_insert_eq.
  - (* lines 122-123 *)
    destruct I as (Fr & Tt & M). open_deref S.
    all: split; [exact Ed|]; split; [exact Eh|]; split; [exact Ec|]; split; [exact Lo|].
    all: repeat match goal with |- context [if ?b then _ else _] => destruct b end; auto.
  - (* lines 128-130 *)
    destruct I as (Fr & Tt & (d & M)). unfold step in S. simplify_eq.
    split; [exact Ed|]. split; [exact Eh|]. split; [exact Ec|]. split; [exact Lo|].
    split; [exact Fr|]. rewrite M. unfold ClearTimestamp. simpl. rewrite Tt.
    apply delete_insert_eq.
  - (* return *)
    unfold step in S. simplify_eq.
    split; [exact Ed|]. split; [exact Eh|]. split; [exact Ec|]. split; [exact Lo|]. exact I.
  - discriminate S.
  - discriminate S.
Qed.

(** X1.  A call of VChainLookupLocator that has returned has left the shared
    state as it found it, but for the epoch slot of the calling backend: the
    nodes, the hash and the clock are unchanged, every partition lock is in
    the state it was in, and the slot is empty when the key had an anchor
    and untouched when it had none. *)
Theorem lookup_footprint me g pk s tr g' r :
  returns me g (LkAcquire pk s) tr g' r ->
  dsa_vcluster g' = dsa_vcluster g /\ vchain_hash g' = vchain_hash g /\
  clock g' = clock g /\
  (forall l, lock_state g' l = lock_state g l) /\
  thread_table g' = match VChainHashLookup pk (vchain_hash g) with
                    | Some _ => delete me (thread_table g)
                    | None => thread_table g
                    end.
Proof.
  intros X.
  assert (I : lookup_frame_inv me pk g g' (Done r)).
  { apply (exec_invariant alone me (fun g1 t _ => lookup_frame_inv me pk g g1 t))
      with (g := g) (t := LkAcquire pk s) (tr := tr) (tr0 := []).
    - intros ? ? ? ? ? ? I S. eapply lookup_frame_step; eauto.
    - intros ? ? ? ? _ [].
    - exact X.
    - repeat split; auto. }
  destruct I as (Ed & Eh & Ec & Lo & Fr & Tt).
  split; [exact Ed|]. split; [exact Eh|]. split; [exact Ec|]. split; [|exact Tt].
  intros l. destruct (decide (l = partition_lock pk)) as [->|Ne]; auto.
Qed.

Lemma exec_keeps_nodes me g t tr g1 t1 :
  exec alone me g t tr g1 t1 -> keeps_nodes g g1.
Proof.
  induction 1 as [| ? ? ? ? ? ? ? ? E X IH | ? ? ? ? ? ? R X IH].
  - apply keeps_nodes_refl.
  - eapply keeps_nodes_trans; [eapply step_keeps_nodes; exact E | exact IH].
  - destruct R.
Qed.

Lemma visible_keeps g g1 s v :
  keeps_nodes g g1 -> is_Some (dsa_vcluster g !! v) -> visible g1 s v = visible g s v.
Proof.
  intros K (n & Hn). destruct (K v n Hn) as (n1 & H1 & _ & X1).
  unfold visible. rewrite Hn, H1, X1. reflexivity.
Qed.

Lemma first_visible_keeps g g1 s vs :
  keeps_nodes g g1 -> (forall v, v ∈ vs -> is_Some (dsa_vcluster g !! v)) ->
  first_visible g1 s vs = first_visible g s vs.
Proof.
  intros K. induction vs as [|v vs IH]; intros A; simpl; [reflexivity|].
  rewrite (visible_keeps g g1 s v K) by (apply A; left).
  rewrite IH; [reflexivity|]. intros u Hu. apply A. right. exact Hu.
Qed.

Lemma dll_allocated h nx vs a v : dll h nx vs a -> v ∈ vs -> is_Some (h !! v).
Proof.
  revert nx. induction vs as [|u vs IH]; intros nx D Hv; [inversion Hv|].
  destruct D as (n & Hn & _ & _ & _ & _ & D).
  apply elem_of_cons in Hv as [-> | Hv]; [eauto | eapply IH; eauto].
Qed.

Lemma chain_ok_allocated g d vs v :
  chain_ok g d vs -> v ∈ vs -> is_Some (dsa_vcluster g !! v).
Proof. intros (_ & c & _ & _ & _ & _ & _ & D). eapply dll_allocated; eauto. Qed.

(** X3.  Append, then Lookup of the same key: the appended node is returned when
    the snapshot sees it, and otherwise the lookup returns what it returned
    before the node was appended.  On a key that had no chain the lookup
    returns the node or NotFound. *)
Theorem lookup_after_append me me' g pk loc s :
  fresh_node g loc ->
  (forall d vs,
     shared_lock_available g pk ->
     VChainHashLookup pk (vchain_hash g) = Some d ->
     chain_ok g d vs -> loc ∉ d :: vs ->
     exists tr g1 tr' g2,
       returns me g (ApAcquire pk loc) tr g1 RVoid /\
       returns me' g1 (LkAcquire pk s) tr' g2
         (if visible g s loc then RFound loc else first_visible g s vs))
  /\
  (lock_state g (partition_lock pk) = lw_free ->
   VChainHashLookup pk (vchain_hash g) = None ->
   exists tr g1 tr' g2,
     returns me g (ApAcquire pk loc) tr g1 RVoid /\
     returns me' g1 (LkAcquire pk s) tr' g2
       (if visible g s loc then RFound loc else RNotFound)).
Proof.
  intros Fl. pose proof Fl as (L & HL & _). split.
  - intros d vs Lk M Ok Nin.
    destruct (append_one me g pk loc d vs Lk M Ok Fl Nin) as (tr & g1 & X & Ok1 & Lk1 & Eh & _).
    pose proof (exec_keeps_nodes _ _ _ _ _ _ X) as K.
    destruct (lookup_hit_returns me' g1 pk s d (loc :: vs)) as (tr' & g2 & Y & _).
    + exact Lk1.
    + congruence.
    + apply chain_ok_versions. exact Ok1.
    + exists tr, g1, tr', g2. split; [exact X|].
      simpl in Y. rewrite (visible_keeps g g1 s loc K) in Y by eauto.
      rewrite (first_visible_keeps g g1 s vs K) in Y; [exact Y|].
      intros v Hv. eapply chain_ok_allocated; eauto.
  - intros Lf M.
    destruct (append_first me g pk loc Lf M Fl) as (tr & g1 & d & X & M1 & Ok1 & Lk1 & _).
    pose proof (exec_keeps_nodes _ _ _ _ _ _ X) as K.
    destruct (lookup_hit_returns me' g1 pk s d [loc]) as (tr' & g2 & Y & _).
    + exact Lk1.
    + exact M1.
    + apply chain_ok_versions. exact Ok1.
    + exists tr, g1, tr', g2. split; [exact X|].
      simpl in Y. rewrite (visible_keeps g g1 s loc K) in Y by eauto. exact Y.
Qed.

(** *** Unlinking a version *)

Lemma last_cons_cons_default {A} (x y : A) l d :
  default d (last (x :: y :: l)) = default x (last (y :: l)).
Proof.
  rewrite (last_cons x (y :: l)). destruct (last (y :: l)) eqn:E; [reflexivity|].
  apply last_None in E. discriminate.
Qed.

Lemma elem_of_app_skip {A} (q mid : A) xs ys : q ∈ xs ++ ys -> q ∈ xs ++ mid :: ys.
Proof. rewrite !elem_of_app, elem_of_cons. tauto. Qed.

(** The stretch [xs ++ mid :: ys] once the older neighbour of [mid] has
    taken [mid]'s next and the newer neighbour [mid]'s prev. *)
Lemma dll_unlink h h' nx xs mid ys a :
  dll h nx (xs ++ mid :: ys) a ->
  NoDup (xs ++ mid :: ys) ->
  (forall q, q ∈ xs ++ ys -> head ys <> Some q -> last xs <> Some q -> h' !! q = h !! q) ->
  (forall w, last xs = Some w ->
     exists n, h !! w = Some n /\ h' !! w = Some (set_dsap_prev (hd a ys) n)) ->
  (forall p ys', ys = p :: ys' ->
     exists pn, h !! p = Some pn /\
                h' !! p = Some (set_dsap_next (default nx (last xs)) pn)) ->
  dll h' nx (xs ++ ys) a.
Proof.
  revert nx. induction xs as [|x xs IH]; intros nx D ND Fr HN HP.
  - simpl in *. destruct D as (m & Hm & _ & _ & _ & _ & D).
    destruct ys as [|p ys']; [exact Logic.I|].
    destruct (HP p ys' eq_refl) as (pn & Hp & Hp').
    simpl in D. destruct D as (pn0 & Hp0 & D1 & D2 & D3 & D4 & D).
    assert (pn0 = pn) as -> by congruence.
    exists (set_dsap_next nx pn). split; [exact Hp'|]. simpl.
    split; [exact D1|]. split; [reflexivity|]. split; [exact D3|]. split; [exact D4|].
    apply (dll_frame h); [|exact D].
    intros v Hv. rewrite NoDup_cons in ND. destruct ND as (_ & ND).
    rewrite NoDup_cons in ND. destruct ND as (Np & _).
    apply Fr; [right; exact Hv | | discriminate].
    simpl. intros E. injection E as ->. contradiction.
  - simpl in D. destruct D as (n & Hn & D1 & D2 & D3 & D4 & D).
    simpl in ND. rewrite NoDup_cons in ND. destruct ND as (Nx & ND).
    rewrite elem_of_app, elem_of_cons in Nx.
    destruct xs as [|y xs].
    + (* [x] is the newer neighbour *)
      destruct (HN x eq_refl) as (n0 & Hn0 & Hn').
      assert (n0 = n) as -> by congruence.
      simpl. exists (set_dsap_prev (hd a ys) n). split; [exact Hn'|]. simpl.
      split; [exact D1|]. split; [exact D2|].
      split; [destruct ys; reflexivity|]. split; [exact D4|].
      apply (IH x); [exact D | exact ND | | | exact HP].
      * intros q Hq Q1 Q2. apply Fr; [right; exact Hq | exact Q1 |].
        simpl. intros E. injection E as ->. apply Nx. right. right. exact Hq.
      * intros w Hw. discriminate Hw.
    + assert (Lx : last (x :: y :: xs) = last (y :: xs)) by reflexivity.
      assert (Hx : h' !! x = h !! x).
      { apply Fr; [left | |].
        - intros E. apply Nx. right. right. destruct ys as [|p ys]; [discriminate|].
          injection E as ->. left.
        - rewrite Lx. intros E. apply Nx. left.
          destruct (last (y :: xs)) eqn:El; [|discriminate]. injection E as ->.
          apply last_Some_elem_of. exact El. }
      change ((x :: y :: xs) ++ ys) with (x :: (y :: xs) ++ ys).
      cbn [dll]. exists n. rewrite Hx. split; [exact Hn|].
      split; [exact D1|]. split; [exact D2|]. split; [exact D3|]. split; [exact D4|].
      apply (IH x); [exact D | exact ND | | |].
      * intros q Hq Q1 Q2. apply Fr; [right; exact Hq | exact Q1 | rewrite Lx; exact Q2].
      * intros w Hw. apply HN. rewrite Lx. exact Hw.
      * intros p ys' Ey. destruct (HP p ys' Ey) as (pn & Hp & Hp'). exists pn.
        split; [exact Hp|]. rewrite Hp'. f_equal. f_equal.
        apply last_cons_cons_default.
Qed.

Lemma dll_mid h nx xs mid ys a :
  dll h nx (xs ++ mid :: ys) a ->
  exists m, h !! mid = Some m /\ dsap m = mid /\
            dsap_next m = default nx (last xs) /\ dsap_prev m = hd a ys.
Proof.
  revert nx. induction xs as [|x xs IH]; intros nx D.
  - simpl in D. destruct D as (m & Hm & D1 & D2 & D3 & _). exists m. auto.
  - simpl in D. destruct D as (n & Hn & _ & _ & _ & _ & D).
    destruct (IH _ D) as (m & Hm & E1 & E2 & E3). exists m.
    split; [exact Hm|]. split; [exact E1|]. split; [|exact E3].
    rewrite E2. destruct xs as [|y xs]; [reflexivity|].
    symmetry. apply last_cons_cons_default.
Qed.

Lemma fixup_runs me g mid m Pn Nn :
  dsa_vcluster g !! mid = Some m ->
  dsa_vcluster g !! dsap_prev m = Some Pn ->
  dsa_vcluster (poke (dsap_prev m) (set_dsap_next (dsap_next m) Pn) g) !! dsap_next m
    = Some Nn ->
  mid <> dsap_prev m -> mid <> dsap_next m ->
  exists tr,
    returns me g (FxReadPrev mid) tr
      (poke mid (set_timestamp (clock g) m)
         (poke (dsap_next m) (set_dsap_prev (dsap_prev m) Nn)
            (poke (dsap_prev m) (set_dsap_next (dsap_next m) Pn) g))) RVoid.
Proof.
  intros Hm HP HN NP NN. eexists. unfold returns.
  eapply exec_step. { unfold step, deref. rewrite Hm. reflexivity. }
  eapply exec_step. { unfold step, deref. rewrite Hm. reflexivity. }
  eapply exec_step. { unfold step, deref. rewrite HP. reflexivity. }
  eapply exec_step. { unfold step, deref. rewrite HN. reflexivity. }
  eapply exec_step. { reflexivity. }
  eapply exec_step.
  { unfold step, deref. unfold poke at 1 2. simpl.
    rewrite !lookup_insert_ne by congruence. rewrite Hm. reflexivity. }
  apply exec_one. reflexivity.
Qed.

(** VChainFixUpOne(mid) on a well-formed chain, run alone: [mid] is
    unlinked from both directions and stamped with the clock; its own links
    are left as they were. *)
Lemma fixup_one me g d xs mid ys :
  chain_ok g d (xs ++ mid :: ys) ->
  exists tr g' m,
    returns me g (FxReadPrev mid) tr g' RVoid /\
    chain_ok g' d (xs ++ ys) /\
    dsa_vcluster g !! mid = Some m /\
    dsa_vcluster g' !! mid = Some (set_timestamp (clock g) m) /\
    (forall q, q ∉ d :: xs ++ mid :: ys -> dsa_vcluster g' !! q = dsa_vcluster g !! q) /\
    vchain_hash g' = vchain_hash g /\ lwlocks g' = lwlocks g.
Proof.
  intros (ND & c & Hc & Hd & Hp & Hn & Hf & D).
  pose proof D as D0.
  rewrite NoDup_cons in ND. destruct ND as (Nd & ND).
  pose proof (dll_mid _ _ _ _ _ _ D) as Dm.
  destruct Dm as (m & Hm & Md & Mn & Mp).
  assert (Nmid : (mid ∉ xs ++ ys) /\ mid <> d).
  { apply NoDup_app in ND as (_ & Dis & ND2). rewrite NoDup_cons in ND2.
    split.
    - rewrite elem_of_app. intros [Hx | Hy]; [apply (Dis mid Hx); left | exact (proj1 ND2 Hy)].
    - intros ->. apply Nd. rewrite elem_of_app. right. left. }
  destruct Nmid as (Nmid & Nmd).
  (* the older neighbour *)
  assert (HP : exists Pn, dsa_vcluster g !! hd d ys = Some Pn /\ hd d ys <> mid).
  { destruct ys as [|p ys]; simpl; [eauto|].
    destruct (dll_allocated _ _ _ _ p D) as (pn & Hpn).
    { rewrite elem_of_app. right. right. left. }
    exists pn. split; [exact Hpn|]. intros ->. apply Nmid. rewrite elem_of_app. right. left. }
  destruct HP as (Pn & HPn & NPm).
  (* the newer neighbour *)
  assert (HN : exists Nn, dsa_vcluster g !! default d (last xs) = Some Nn /\
                          default d (last xs) <> mid).
  { destruct (last xs) as [w|] eqn:Lw; simpl; [|eauto].
    apply last_Some_elem_of in Lw.
    destruct (dll_allocated _ _ _ _ w D) as (wn & Hwn).
    { rewrite elem_of_app. left. exact Lw. }
    exists wn. split; [exact Hwn|]. intros ->. apply Nmid. rewrite elem_of_app. left. exact Lw. }
  destruct HN as (Nn & HNn & NNm).
  set (P := hd d ys) in *. set (N := default d (last xs)) in *.
  set (g1 := poke P (set_dsap_next N Pn) g).
  assert (HN1 : exists Nn1, dsa_vcluster g1 !! N = Some Nn1 /\
                  Nn1 = if decide (P = N) then set_dsap_next N Pn else Nn).
  { unfold g1, poke. simpl. destruct (decide (P = N)) as [E|Ne].
    - rewrite E, lookup_insert_eq. eauto.
    - rewrite lookup_insert_ne by exact Ne. eauto. }
  destruct HN1 as (Nn1 & HNn1 & ENn1).
  destruct (fixup_runs me g mid m Pn Nn1) as (tr & X).
  { exact Hm. } { rewrite Mp. exact HPn. } { rewrite Mp, Mn. exact HNn1. }
  { rewrite Mp. congruence. } { rewrite Mn. congruence. }
  rewrite Mp, Mn in X. fold P N g1 in X.
  set (g2 := poke N (set_dsap_prev P Nn1) g1) in *.
  set (g3 := poke mid (set_timestamp (clock g) m) g2) in *.
  assert (L3 : forall q, q <> mid -> q <> N -> q <> P ->
                 dsa_vcluster g3 !! q = dsa_vcluster g !! q).
  { intros q Q1 Q2 Q3. unfold g3, g2, g1, poke. simpl.
    rewrite !lookup_insert_ne by congruence. reflexivity. }
  assert (LN : N <> P -> dsa_vcluster g3 !! N = Some (set_dsap_prev P Nn)).
  { intros Ne. unfold g3, g2, poke. simpl.
    rewrite lookup_insert_ne by congruence. rewrite lookup_insert_eq.
    rewrite ENn1, decide_False by congruence. reflexivity. }
  assert (LP : N <> P -> dsa_vcluster g3 !! P = Some (set_dsap_next N Pn)).
  { intros Ne. unfold g3, g2, g1, poke. simpl.
    rewrite !lookup_insert_ne by congruence. rewrite lookup_insert_eq. reflexivity. }
  assert (Pin : ys <> [] -> P ∈ ys) by (destruct ys; [congruence | left]).
  assert (Nin : xs <> [] -> N ∈ xs).
  { intros Ne. unfold N. destruct (last xs) as [w|] eqn:Lw.
    - apply last_Some_elem_of. exact Lw.
    - apply last_None in Lw. contradiction. }
  assert (Dis : forall q, q ∈ xs -> q ∈ ys -> False).
  { intros q Hx Hy. apply NoDup_app in ND as (_ & Dis & _). apply (Dis q Hx). right. exact Hy. }
  assert (NdP : ys <> [] -> P <> d).
  { intros Ne ->. apply Nd. rewrite elem_of_app. right. right. auto. }
  assert (NdN : xs <> [] -> N <> d).
  { intros Ne ->. apply Nd. rewrite elem_of_app. left. auto. }
  exists tr, g3, m. split; [exact X|]. split; [|split; [exact Hm|split; [|split; [|split]]]].
  - (* the chain without [mid] *)
    split.
    { rewrite NoDup_cons. split.
      - intros Hin. apply Nd. apply elem_of_app_skip. exact Hin.
      - apply NoDup_app in ND as (N1 & Dis' & N2). rewrite NoDup_cons in N2.
        apply NoDup_app. split; [exact N1|]. split; [|exact (proj2 N2)].
        intros q Hx Hy. apply (Dis' q Hx). right. exact Hy. }
    assert (DL : dll (dsa_vcluster g3) d (xs ++ ys) d).
    { apply (dll_unlink (dsa_vcluster g) _ d xs mid ys d D0 ND).
      - intros q Hq Q1 Q2. apply L3.
        + intros ->. contradiction.
        + unfold N. destruct (last xs) as [w|] eqn:Lw; simpl.
          * intros ->. apply Q2. reflexivity.
          * intros ->. apply Nd. apply elem_of_app_skip. exact Hq.
        + unfold P. destruct ys as [|p ys']; simpl.
          * intros ->. apply Nd. apply elem_of_app_skip. exact Hq.
          * intros ->. apply Q1. reflexivity.
      - intros w Lw. exists Nn.
        assert (N = w) as Ew by (unfold N; rewrite Lw; reflexivity).
        rewrite <- Ew. split; [exact HNn|]. apply LN.
        intros E. assert (xs <> []) as Hne by (intros ->; discriminate).
        destruct ys as [|p ys'].
        * apply (NdN Hne). rewrite E. reflexivity.
        * apply (Dis N); [apply Nin; exact Hne | rewrite E; left].
      - intros p ys' ->. exists Pn. split; [exact HPn|]. apply LP.
        intros E. destruct xs as [|x xs'].
        * apply (NdP ltac:(discriminate)). rewrite <- E. reflexivity.
        * apply (Dis N); [apply Nin; discriminate | rewrite E; left]. }
    destruct xs as [|x xs]; destruct ys as [|p ys].
    + (* [mid] was the only version *)
      exists (set_dsap_prev d (set_dsap_next d c)). split.
      { unfold g3, g2, g1, poke, P, N. simpl.
        rewrite lookup_insert_ne by congruence. rewrite lookup_insert_eq.
        rewrite ENn1. unfold P, N. simpl. rewrite decide_True by reflexivity.
        assert (Pn = c) as -> by (unfold P in HPn; simpl in HPn; congruence).
        reflexivity. }
      simpl. repeat split; auto.
    + (* [mid] was the newest version *)
      assert (Nn = c) as -> by (unfold N in HNn; simpl in HNn; congruence).
      exists (set_dsap_prev p c). split.
      { apply LN. unfold N, P. simpl. intros E.
        apply (NdP ltac:(discriminate)). unfold P. simpl. congruence. }
      simpl. split; [exact Hd|]. split; [reflexivity|]. split; [|split; [exact Hf | exact DL]].
      rewrite Hn. simpl. rewrite !last_cons. destruct (last ys); reflexivity.
    + (* [mid] was the oldest version *)
      assert (Pn = c) as -> by (unfold P in HPn; simpl in HPn; congruence).
      exists (set_dsap_next N c). split.
      { apply LP. unfold P. simpl. apply NdN. discriminate. }
      simpl. split; [exact Hd|]. split; [exact Hp|]. split; [|split; [exact Hf | exact DL]].
      rewrite app_nil_r. reflexivity.
    + exists c. split.
      { rewrite L3; [exact Hc | congruence | |].
        - intros E. apply (NdN ltac:(discriminate)). congruence.
        - intros E. apply (NdP ltac:(discriminate)). congruence. }
      split; [exact Hd|]. split; [exact Hp|]. split; [|split; [exact Hf | exact DL]].
      rewrite Hn. f_equal. rewrite !last_app. simpl. rewrite !last_cons.
      destruct (last ys); reflexivity.
  - unfold g3, poke. simpl. apply lookup_insert_eq.
  - intros q Hq. rewrite not_elem_of_cons, elem_of_app, elem_of_cons in Hq.
    destruct Hq as (Q1 & Q2). apply L3.
    + intros ->. apply Q2. right. left. reflexivity.
    + unfold N. destruct (last xs) as [w|] eqn:Lw; simpl; [|exact Q1].
      apply last_Some_elem_of in Lw. intros ->. apply Q2. left. exact Lw.
    + unfold P. destruct ys as [|p ys']; simpl; [exact Q1|].
      intros ->. apply Q2. right. right. left.
  - reflexivity.
  - reflexivity.
Qed.

(** X5.  VChainFixUpOne, then Lookup: the unlinked version is not returned any
    more; the lookup returns the newest visible one among the others. *)
Theorem lookup_after_fixup me me' g pk s d xs mid ys :
  shared_lock_available g pk ->
  VChainHashLookup pk (vchain_hash g) = Some d ->
  chain_ok g d (xs ++ mid :: ys) ->
  exists tr g1 tr' g2,
    returns me g (FxReadPrev mid) tr g1 RVoid /\
    returns me' g1 (LkAcquire pk s) tr' g2 (first_visible g s (xs ++ ys)).
Proof.
  intros Lk M Ok.
  destruct (fixup_one me g d xs mid ys Ok) as (tr & g1 & m & X & Ok' & _ & _ & _ & Eh & El).
  pose proof (exec_keeps_nodes _ _ _ _ _ _ X) as K.
  destruct (lookup_hit_returns me' g1 pk s d (xs ++ ys)) as (tr' & g2 & Y & _).
  - unfold shared_lock_available, lock_state in *. rewrite El. exact Lk.
  - rewrite Eh. exact M.
  - apply chain_ok_versions. exact Ok'.
  - exists tr, g1, tr', g2. split; [exact X|].
    rewrite (first_visible_keeps g g1 s (xs ++ ys) K) in Y; [exact Y|].
    intros v Hv. apply (chain_ok_allocated g d (xs ++ mid :: ys) v Ok).
    apply elem_of_app_skip. exact Hv.
Qed.

(** *** Waiting for the cutter *)

Lemma wrap64_id x : 0 <= x < 2 ^ 64 -> wrap64 (x + 0) = x.
Proof. intros R. unfold wrap64. rewrite Z.add_0_r. apply Z.mod_small. exact R. Qed.

Lemma stores_snoc_quiet tr evs : stores tr = [] -> stores evs = [] -> stores (tr ++ evs) = [].
Proof. intros A B. rewrite stores_app, A, B. reflexivity. Qed.

Lemma spin_inv_step me pk d tp g t tr evs g1 t1 :
  0 <= tp < 2 ^ 64 ->
  spin_inv pk d tp g t tr ->
  step me g t = Some (evs, g1, t1) ->
  spin_inv pk d tp g1 t1 (tr ++ evs).
Proof.
  intros R (St & M & V & I) S. destruct t; try contradiction.
  - (* lines 150-154 *)
    destruct I as (-> & F). unfold step in S.
    destruct (LWLockAcquire _ _ g) as [g2|] eqn:A; [|discriminate]. simpl in S. simplify_eq.
    destruct (lock_acquire_frame _ _ _ _ A) as (Ed & Eh).
    split; [apply stores_snoc_quiet; auto|]. split; [congruence|].
    split; [rewrite Ed; exact V|]. split; [reflexivity|].
    rewrite (flag_at_heap g g1) by exact Ed. exact F.
  - (* line 155 *)
    destruct I as (-> & F). unfold step in S. rewrite M in S. simplify_eq.
    split; [apply stores_snoc_quiet; auto|]. split; [exact M|]. split; [exact V|]. auto.
  - (* line 158 *)
    destruct I as (-> & -> & F). unfold step in S. simplify_eq.
    destruct (lock_release_frame (partition_lock pk) LW_SHARED g) as (Ed & Eh).
    split; [apply stores_snoc_quiet; auto|]. split; [congruence|].
    split; [rewrite Ed; exact V|]. split; [reflexivity|].
    rewrite (flag_at_heap g _) by exact Ed. exact F.
  - (* lines 177-184 *)
    destruct I as (-> & F). pose proof V as V'.
    apply prev_view_Some in V' as (c & Hc & D1 & D2).
    unfold step, deref in S. rewrite Hc in S. simplify_eq.
    split; [apply stores_snoc_quiet; auto|]. split; [exact M|]. split; [exact V|]. auto.
  - (* line 187 *)
    destruct I as (-> & -> & F).
    destruct (flag_at_Some _ _ _ F) as (T & HT & Tf).
    unfold step, deref in S. rewrite HT in S. simplify_eq.
    split; [apply stores_snoc_quiet; auto|]. split; [exact M|]. split.
    { erewrite view_poke_keep; [exact V | exact HT | reflexivity | reflexivity]. }
    auto.
  - (* lines 189, 201 *)
    destruct I as (-> & -> & ->). simpl in S. simplify_eq.
    split; [apply stores_snoc_quiet; auto|]. split; [exact M|]. split; [exact V|]. auto.
  - (* lines 191-197 *)
    destruct I as (-> & ->). pose proof V as V'.
    apply prev_view_Some in V' as (c & Hc & D1 & D2).
    unfold step, deref in S. rewrite Hc in S. rewrite D2 in S.
    rewrite wrap64_id in S by exact R. rewrite Z.eqb_refl in S. injection S as <- <- <-.
    split; [apply stores_snoc_quiet; auto|]. split; [exact M|]. split; [|auto].
    rewrite view_poke_eq. simpl. rewrite D1. reflexivity.
Qed.

(** X6.  Append on a chain whose tail is marked VL_DELETE depends on the
    cutter: run alone it never returns.  After its exchange it reads
    anchor.prev again and again (lines 191-194), which nobody moves, and it
    performs no store on the way. *)
Theorem append_waits_for_cutter me g pk loc d c T :
  VChainHashLookup pk (vchain_hash g) = Some d ->
  dsa_vcluster g !! d = Some c -> dsap c = d ->
  dsa_vcluster g !! dsap_prev c = Some T -> flag T = VL_DELETE ->
  0 <= dsap_prev c < 2 ^ 64 ->
  forall tr g' t',
    exec alone me g (ApAcquire pk loc) tr g' t' ->
    (forall r, t' <> Ret r /\ t' <> Done r) /\ t' <> Aborted /\ t' <> Faulted /\
    stores tr = [] /\
    prev_view (dsa_vcluster g') d = Some (d, dsap_prev c).
Proof.
  intros M Hc Hd HT Tf R tr g' t' X.
  assert (I : spin_inv pk d (dsap_prev c) g' t' tr).
  { apply (exec_invariant alone me (spin_inv pk d (dsap_prev c)))
      with (g := g) (t := ApAcquire pk loc) (tr := tr) (tr0 := []).
    - intros ? ? ? ? ? ? I S. eapply spin_inv_step; eauto.
    - intros ? ? ? ? _ [].
    - exact X.
    - split; [reflexivity|]. split; [exact M|]. split.
      + apply prev_view_Some. eauto.
      + split; [reflexivity|]. unfold flag_at. rewrite HT. simpl. congruence. }
  destruct I as (St & _ & V & I). simpl in St.
  repeat split; try exact St; try exact V; intros E; subst t'; exact I.
Qed.

Lemma reader_inv_weaken pk s d (Res Res' : Result -> Prop) (W W' : list dsa_pointer -> Prop)
    Hid t :
  (forall r, Res r -> Res' r) -> (forall ws, W ws -> W' ws) ->
  reader_inv pk s d Res W Hid t -> reader_inv pk s d Res' W' Hid t.
Proof.
  intros HR HW. destruct t; simpl; auto.
  - intros (? & ? & ws & ? & ?). eauto 8.
  - intros (? & ? & ws & ?). eauto 8.
  - intros (? & ? & ? & ws & ?). eauto 8.
Qed.

Lemma reader_inv_step me g pk s d Res W Hid t evs g1 t1 :
  presents g pk s d Res W Hid ->
  reader_inv pk s d Res W Hid t ->
  step me g t = Some (evs, g1, t1) ->
  reader_inv pk s d Res W Hid t1 /\
  dsa_vcluster g1 = dsa_vcluster g /\ vchain_hash g1 = vchain_hash g.
Proof.
  intros (M & (ws0 & Vd & W0) & Wnil & Wcons) I S.
  apply prev_view_Some in Vd as (c & Hc & Cd & Cp).
  destruct t; try contradiction.
  - (* lines 77-81 *)
    destruct I as (-> & ->). unfold step in S.
    destruct (LWLockAcquire _ _ g) as [g2|] eqn:A; [|discriminate]. simpl in S.
    injection S as <- <- <-. destruct (lock_acquire_frame _ _ _ _ A) as (Ed & Eh).
    split; [split; reflexivity|]. auto.
  - (* line 82 *)
    destruct I as (-> & ->). unfold step in S. rewrite M in S. injection S as <- <- <-.
    split; [repeat split|]. auto.
  - (* line 88 *)
    destruct I as (-> & -> & ->). unfold step in S. injection S as <- <- <-.
    destruct (lock_release_frame (partition_lock pk) LW_SHARED g) as (Ed & Eh).
    split; [split; reflexivity|]. auto.
  - (* line 91 *)
    destruct I as (-> & ->). unfold step in S. injection S as <- <- <-.
    split; [split; reflexivity|]. auto.
  - (* lines 93-94 *)
    destruct I as (-> & ->). unfold step, deref in S. rewrite Hc in S.
    injection S as <- <- <-. split; [|auto].
    destruct (dsap_prev c =? dsap c) eqn:E; [|split; reflexivity].
    apply Z.eqb_eq in E. simpl. apply Wnil.
    destruct ws0 as [|x ws]; [exact W0|].
    destruct (Wcons x ws W0) as (Nx & _). exfalso. apply Nx. simpl in Cp. congruence.
  - (* lines 99-101 *)
    unfold step in S. injection S as <- <- <-. split; [exact I|]. auto.
  - (* line 109 *)
    destruct I as (-> & ->). unfold step, deref in S. rewrite Hc in S.
    injection S as <- <- <-. split; [|auto]. simpl. eauto 6.
  - (* line 110 *)
    destruct I as (-> & -> & ws & -> & Ww). unfold step, deref2 in S.
    destruct ws as [|x ws]; simpl in S.
    + rewrite Hc in S. rewrite Z.eqb_refl in S. injection S as <- <- <-.
      split; [|auto]. simpl. auto.
    + destruct (Wcons x ws Ww) as (Nx & n & Hn & Dn & _). rewrite Hn, Hc in S.
      replace (dsap n =? dsap c) with false in S
        by (symmetry; apply Z.eqb_neq; congruence).
      injection S as <- <- <-. split; [|auto]. simpl. eauto.
  - (* line 112 *)
    destruct I as (-> & -> & ws & Ww).
    destruct (Wcons locator ws Ww) as (Nx & n & Hn & Dn & Vis & Hd & _).
    unfold step, deref in S. rewrite Hn in S. injection S as <- <- <-.
    split; [|auto].
    destruct (XidInMVCCSnapshot (xmin n) s) eqn:E; simpl; [|auto]. eauto 6.
  - (* lines 115-120 *)
    unfold step in S. injection S as <- <- <-. split; [exact I|]. auto.
  - (* lines 122-123 *)
    destruct I as (-> & -> & Hx & ws & Ww).
    destruct (Wcons locator ws Ww) as (Nx & n & Hn & Dn & _ & _ & Nxt).
    destruct (Nxt Hx) as (ws' & Ep & Ww').
    unfold step, deref in S. rewrite Hn in S. injection S as <- <- <-.
    split; [|auto]. simpl. eauto 6.
  - (* lines 128-130 *)
    unfold step in S. injection S as <- <- <-. split; [exact I|]. auto.
  - unfold step in S. injection S as <- <- <-. split; [exact I|]. auto.
  - discriminate S.
Qed.

Lemma first_visible_hidden g0 s pre ws :
  Forall (hidden_from g0 s) pre -> first_visible g0 s (pre ++ ws) = first_visible g0 s ws.
Proof.
  induction 1 as [|x pre Hx _ IH]; simpl; [reflexivity|]. rewrite Hx. exact IH.
Qed.

Lemma walking_result g0 s vs ws :
  walking g0 s vs ws -> first_visible g0 s vs = first_visible g0 s ws.
Proof. intros (pre & -> & Hp). apply first_visible_hidden. exact Hp. Qed.

Lemma walking_all g0 s vs : walking g0 s vs vs.
Proof. exists []. split; [reflexivity | constructor]. Qed.

Lemma walking_next g0 s vs x ws :
  walking g0 s vs (x :: ws) -> hidden_from g0 s x -> walking g0 s vs ws.
Proof.
  intros (pre & -> & Hp) Hx. exists (pre ++ [x]). split.
  - rewrite <- app_assoc. reflexivity.
  - apply Forall_app. split; [exact Hp | repeat constructor; exact Hx].
Qed.

Lemma back_at h pre x ws a :
  back h (pre ++ x :: ws) a -> x <> a /\ prev_view h x = Some (x, hd a ws).
Proof.
  induction pre as [|y pre IH]; simpl.
  - intros (? & ? & _). auto.
  - intros (_ & _ & B). apply IH. exact B.
Qed.

Lemma back_suffix h pre ws a : back h (pre ++ ws) a -> back h ws a.
Proof.
  induction pre as [|y pre IH]; simpl; [auto|]. intros (_ & _ & B). apply IH. exact B.
Qed.

Section ReadersAndWriter.
Variables (pk : PrimaryKey) (d : dsa_pointer) (g0 : Shared) (old new : list dsa_pointer).
Variables (WI : Shared -> Thread -> Prop) (past : Thread -> bool) (snaps : list Snapshot).
Hypothesis writer_step : forall g t evs g1 t1,
  WI g t -> step 0 g t = Some (evs, g1, t1) ->
  WI g1 t1 /\ (past t = true -> past t1 = true).
Hypothesis writer_frame : forall g g1 t,
  WI g t -> dsa_vcluster g1 = dsa_vcluster g -> vchain_hash g1 = vchain_hash g -> WI g1 t.
Hypothesis writer_presents : forall g t s,
  WI g t -> keeps_nodes g0 g ->
  presents g pk s d (results g0 s old new (past t)) (reads g0 s old new (past t))
    (hidden_from g0 s).

Lemma readers_inv_step j c tr c' :
  readers_inv pk d g0 old new WI past snaps c ->
  sched_step j c = Some (tr, c') ->
  readers_inv pk d g0 old new WI past snaps c'.
Proof.
  intros (K & Len & tW & HW & IW & IR) E.
  apply sched_step_inv in E as (t & evs & g1 & t1 & Ht & St & -> & ->).
  pose proof (step_keeps_nodes _ _ _ _ _ _ St) as K1.
  split; [eapply keeps_nodes_trans; eauto|].
  split; [simpl; rewrite length_insert; exact Len|]. simpl.
  destruct j as [|i].
  - (* the writer *)
    assert (t = tW) as -> by congruence.
    destruct (writer_step _ _ _ _ _ IW St) as (IW1 & Mono).
    exists t1. split; [apply list_lookup_insert_eq; lia|]. split; [exact IW1|].
    intros i s Hs. destruct (IR i s Hs) as (tr & Hr & Ir).
    exists tr. split; [rewrite list_lookup_insert_ne by lia; exact Hr|].
    revert Ir. apply reader_inv_weaken.
    + intros r [E | (P & E)]; [left; exact E | right; auto].
    + intros ws [E | (P & E)]; [left; exact E | right; auto].
  - (* a reader *)
    assert (Hi : (i < length snaps)%nat) by (apply lookup_lt_Some in Ht; lia).
    destruct (lookup_lt_is_Some_2 snaps i Hi) as (s & Hs).
    destruct (IR i s Hs) as (t' & Ht' & Ir).
    assert (t' = t) as -> by congruence.
    destruct (reader_inv_step (S i) _ _ _ _ _ _ _ _ _ _ _ (writer_presents _ _ s IW K) Ir St)
      as (Ir1 & Ed & Eh).
    exists tW. split; [rewrite list_lookup_insert_ne by lia; exact HW|].
    split; [eapply writer_frame; eauto|].
    intros i' s' Hs'. destruct (decide (i' = i)) as [->|Ne].
    + assert (s' = s) as -> by congruence.
      exists t1. split; [apply list_lookup_insert_eq; apply lookup_lt_Some in Ht; exact Ht|].
      exact Ir1.
    + destruct (IR i' s' Hs') as (t'' & Ht'' & Ir'').
      exists t''. split; [rewrite list_lookup_insert_ne by lia; exact Ht''|]. exact Ir''.
Qed.

Lemma readers_inv_run sch c tr c' :
  readers_inv pk d g0 old new WI past snaps c ->
  sched_run sch c = Some (tr, c') ->
  readers_inv pk d g0 old new WI past snaps c'.
Proof.
  revert c tr. induction sch as [|j sch IH]; intros c tr I E.
  - simpl in E. injection E as <- <-. exact I.
  - apply sched_run_cons in E as (tr1 & c1 & tr2 & E1 & E2 & ->).
    eapply IH; [|exact E2]. eapply readers_inv_step; eauto.
Qed.

Lemma readers_results tW0 sch tr c' :
  WI g0 tW0 ->
  sched_run sch {| shared := g0; threads := tW0 :: map (LkAcquire pk) snaps |}
    = Some (tr, c') ->
  exists tW, threads c' !! 0%nat = Some tW /\ WI (shared c') tW /\
    forall i s t, snaps !! i = Some s -> threads c' !! S i = Some t ->
      reader_inv pk s d (results g0 s old new (past tW)) (reads g0 s old new (past tW))
        (hidden_from g0 s) t.
Proof.
  intros I0 E.
  assert (I : readers_inv pk d g0 old new WI past snaps
                {| shared := g0; threads := tW0 :: map (LkAcquire pk) snaps |}).
  { split; [apply keeps_nodes_refl|]. split; [simpl; rewrite length_map; reflexivity|].
    exists tW0. split; [reflexivity|]. split; [exact I0|].
    intros i s Hs. exists (LkAcquire pk s). split.
    - simpl. change (map (LkAcquire pk) snaps) with (LkAcquire pk <$> snaps).
      rewrite list_lookup_fmap, Hs. reflexivity.
    - split; reflexivity. }
  destruct (readers_inv_run _ _ _ _ I E) as (_ & _ & tW & HW & IW & IR).
  exists tW. split; [exact HW|]. split; [exact IW|].
  intros i s t' Hs Hr. destruct (IR i s Hs) as (t & Ht & Ir).
  assert (t = t') as -> by congruence. exact Ir.
Qed.

End ReadersAndWriter.

(** What a walk over [L] finds at its next node when the prev links of the
    state present [L]. *)
Lemma walk_node g0 g s L d x ws :
  keeps_nodes g0 g -> back (dsa_vcluster g) L d ->
  (forall v, v ∈ L -> is_Some (dsa_vcluster g0 !! v)) ->
  walking g0 s L (x :: ws) ->
  x <> d /\
  exists n, dsa_vcluster g !! x = Some n /\ dsap n = x /\ dsap_prev n = hd d ws /\
            visible g0 s x = negb (XidInMVCCSnapshot (xmin n) s).
Proof.
  intros K B Al (pre & -> & Hp).
  destruct (back_at _ _ _ _ _ B) as (Nx & V).
  apply prev_view_Some in V as (n & Hn & D1 & D2).
  split; [exact Nx|]. exists n. split; [exact Hn|]. split; [exact D1|]. split; [exact D2|].
  rewrite <- (visible_keeps g0 g s x K).
  - unfold visible. rewrite Hn. reflexivity.
  - apply Al. rewrite elem_of_app. right. left.
Qed.

Lemma presents_of_walks g0 g pk s d old new (p : bool) :
  VChainHashLookup pk (vchain_hash g) = Some d ->
  prev_view (dsa_vcluster g) d = Some (d, hd d (if p then new else old)) ->
  (forall x ws, walking g0 s old (x :: ws) ->
     x <> d /\
     exists n, dsa_vcluster g !! x = Some n /\ dsap n = x /\
       visible g0 s x = negb (XidInMVCCSnapshot (xmin n) s) /\
       (hidden_from g0 s x ->
        exists ws', dsap_prev n = hd d ws' /\ reads g0 s old new p ws')) ->
  (p = true -> forall x ws, walking g0 s new (x :: ws) ->
     x <> d /\
     exists n, dsa_vcluster g !! x = Some n /\ dsap n = x /\
       visible g0 s x = negb (XidInMVCCSnapshot (xmin n) s) /\
       (hidden_from g0 s x ->
        exists ws', dsap_prev n = hd d ws' /\ reads g0 s old new p ws')) ->
  presents g pk s d (results g0 s old new p) (reads g0 s old new p) (hidden_from g0 s).
Proof.
  intros M Vd Hold Hnew. split; [exact M|]. split; [|split].
  - eexists. split; [exact Vd|]. destruct p.
    + right. split; [reflexivity | apply walking_all].
    + left. apply walking_all.
  - intros [Wk | (P & Wk)]; apply walking_result in Wk; [left | right]; auto.
  - intros x ws [Wk | (P & Wk)].
    + destruct (Hold x ws Wk) as (Nx & n & Hn & Dn & Vn & Nxt).
      split; [exact Nx|]. exists n. split; [exact Hn|]. split; [exact Dn|].
      split; [|split; [|exact Nxt]].
      * intros E. left. rewrite (walking_result _ _ _ _ Wk). simpl.
        rewrite Vn, E. reflexivity.
      * intros E. unfold hidden_from. rewrite Vn, E. reflexivity.
    + destruct (Hnew P x ws Wk) as (Nx & n & Hn & Dn & Vn & Nxt).
      split; [exact Nx|]. exists n. split; [exact Hn|]. split; [exact Dn|].
      split; [|split; [|exact Nxt]].
      * intros E. right. split; [exact P|]. rewrite (walking_result _ _ _ _ Wk). simpl.
        rewrite Vn, E. reflexivity.
      * intros E. unfold hidden_from. rewrite Vn, E. reflexivity.
Qed.

(** *** Readers beside an appender *)

Lemma lin_inv_frame h0 pk loc d tp0 g g1 t :
  dsa_vcluster g1 = dsa_vcluster g -> vchain_hash g1 = vchain_hash g ->
  lin_inv h0 pk loc d tp0 g t -> lin_inv h0 pk loc d tp0 g1 t.
Proof.
  intros Ed Eh (M & I). split; [congruence|].
  unfold old_view, new_view, flag_at in *. destruct t; rewrite ?Ed; exact I.
Qed.

Lemma lin_inv_past me h0 pk loc d tp0 g t evs g1 t1 :
  lin_inv h0 pk loc d tp0 g t -> lin_inv h0 pk loc d tp0 g1 t1 ->
  step me g t = Some (evs, g1, t1) ->
  before_link4 t = false -> before_link4 t1 = false.
Proof.
  intros (_ & I) (_ & I1) S P. destruct t; try discriminate P.
  - unfold step, deref in S. destruct (dsa_vcluster g !! tail_prev); simplify_eq; [reflexivity|].
    contradiction.
  - destruct I as (-> & _). simpl in S. simplify_eq. reflexivity.
  - simpl in S. simplify_eq. reflexivity.
  - discriminate S.
Qed.

Lemma append_presents g0 g pk loc d vs s t :
  chain_ok g0 d vs -> fresh_node g0 loc -> loc ∉ d :: vs ->
  lin_inv (dsa_vcluster g0) pk loc d (hd d vs) g t ->
  keeps_nodes g0 g ->
  presents g pk s d (results g0 s vs (loc :: vs) (negb (before_link4 t)))
    (reads g0 s vs (loc :: vs) (negb (before_link4 t))) (hidden_from g0 s).
Proof.
  intros Ok (L & HL & Ld & Lf) Nin I K.
  pose proof (chain_ok_back _ _ _ Ok) as (Bd & B).
  rewrite not_elem_of_cons in Nin. destruct Nin as (Nd & Nvs).
  assert (Dvs : d ∉ vs).
  { destruct Ok as (ND & _). rewrite NoDup_cons in ND. tauto. }
  pose proof (proj1 I) as M. apply lin_inv_view in I.
  assert (Bg : back (dsa_vcluster g) vs d).
  { eapply back_ext; [|exact B]. intros q Hq.
    destruct (before_link4 t).
    - destruct I as (V & _). apply V. intros ->. contradiction.
    - destruct I as (_ & _ & V). apply V; intros ->; contradiction. }
  assert (Al : forall v, v ∈ loc :: vs -> is_Some (dsa_vcluster g0 !! v)).
  { intros v Hv. apply elem_of_cons in Hv as [-> | Hv]; [eauto|].
    eapply chain_ok_allocated; eauto. }
  apply presents_of_walks.
  - exact M.
  - destruct (before_link4 t); simpl.
    + destruct I as (V & _). rewrite V by congruence. exact Bd.
    + destruct I as (V & _). exact V.
  - intros x ws Wk.
    destruct (walk_node g0 g s vs d x ws K Bg) as (Nx & n & Hn & Dn & Pn & Vn); auto.
    { intros v Hv. apply Al. right. exact Hv. }
    split; [exact Nx|]. exists n. split; [exact Hn|]. split; [exact Dn|]. split; [exact Vn|].
    intros Hx. exists ws. split; [exact Pn|]. left. eapply walking_next; eauto.
  - intros P x ws Wk. destruct (before_link4 t); [discriminate P|].
    destruct I as (V1 & V2 & V).
    assert (Bn : back (dsa_vcluster g) (loc :: vs) d).
    { simpl. split; [congruence|]. split; [exact V2 | exact Bg]. }
    destruct (walk_node g0 g s (loc :: vs) d x ws K Bn Al Wk) as (Nx & n & Hn & Dn & Pn & Vn).
    split; [exact Nx|]. exists n. split; [exact Hn|]. split; [exact Dn|]. split; [exact Vn|].
    intros Hx. exists ws. split; [exact Pn|]. right. split; [reflexivity|].
    eapply walking_next; eauto.
Qed.

(** X7.  Any number of lookups of a key beside one call of Append for it, in
    any interleaving of their steps: no lookup dereferences an offset that
    names no node, and a lookup that has returned has returned what it
    returns on the chain as it was, or, and then the appender has executed
    the store of line 206, what it returns on the chain with the new node. *)
Theorem lookups_during_append g pk loc d vs snaps sch tr c' :
  VChainHashLookup pk (vchain_hash g) = Some d ->
  chain_ok g d vs -> fresh_node g loc -> loc ∉ d :: vs ->
  sched_run sch {| shared := g; threads := ApAcquire pk loc :: map (LkAcquire pk) snaps |}
    = Some (tr, c') ->
  exists tA, threads c' !! 0%nat = Some tA /\
    chain_versions (shared c') d (if before_link4 tA then vs else loc :: vs) /\
    forall i s, snaps !! i = Some s ->
      threads c' !! S i <> Some Faulted /\
      forall r, threads c' !! S i = Some (Done r) ->
        r = first_visible g s vs \/
        (before_link4 tA = false /\ r = first_visible g s (loc :: vs)).
Proof.
  intros M Ok Fl Nin E.
  pose proof (chain_ok_back _ _ _ Ok) as (Bd & B).
  pose proof Nin as Nin'. rewrite not_elem_of_cons in Nin'. destruct Nin' as (Nd & Nvs).
  assert (Nt : hd d vs <> loc).
  { destruct vs as [|v vs]; simpl; [congruence|].
    rewrite not_elem_of_cons in Nvs. intros ->. tauto. }
  assert (Dvs : d ∉ vs).
  { destruct Ok as (ND & _). rewrite NoDup_cons in ND. tauto. }
  destruct (readers_results pk d g vs (loc :: vs)
              (fun g1 t => lin_inv (dsa_vcluster g) pk loc d (hd d vs) g1 t)
              (fun t => negb (before_link4 t)) snaps) with (tW0 := ApAcquire pk loc)
              (sch := sch) (tr := tr) (c' := c')
    as (tA & HA & IA & Rs).
  - intros g1 t evs g2 t2 I S.
    assert (I2 : lin_inv (dsa_vcluster g) pk loc d (hd d vs) g2 t2).
    { eapply lin_inv_step; eauto. }
    split; [exact I2|]. intros P.
    rewrite (lin_inv_past _ _ _ _ _ _ _ _ _ _ _ I I2 S); [reflexivity|].
    destruct (before_link4 t); [discriminate P | reflexivity].
  - intros g1 g2 t I Ed Eh. eapply lin_inv_frame; eauto.
  - intros g1 t s I K. eapply append_presents; eauto.
  - destruct Fl as (L & HL & Ld & Lf).
    destruct (chain_ok_tail _ _ _ Ok) as (c & T & Hc & Hd & Hp & HT & Tf).
    split; [exact M|]. split; [reflexivity|]. split; [reflexivity|]. split.
    + split; [reflexivity|]. eauto.
    + unfold flag_at. rewrite HT. simpl. congruence.
  - exact E.
  - exists tA. split; [exact HA|]. split.
    + apply (lin_inv_observes (dsa_vcluster g) pk); auto.
    + intros i s Hs. split.
      * intros Hf. exact (Rs i s _ Hs Hf).
      * intros r Hr. destruct (Rs i s _ Hs Hr) as [Er | (P & Er)]; [left; exact Er|].
        right. split; [|exact Er]. destruct (before_link4 tA); [discriminate P | reflexivity].
Qed.

Section Unlinking.
Variables (h0 : gmap Z VLocator) (pk : PrimaryKey) (d mid P N : dsa_pointer).
Hypothesis mid_view : prev_view h0 mid = Some (mid, P).
Hypothesis older : is_Some (prev_view h0 P).
Hypothesis newer : exists x, prev_view h0 N = Some (N, x).
Hypothesis mid_newer : mid <> N.

Lemma unlink_inv_step me g t evs g1 t1 :
  unlink_inv h0 pk d mid P N g t ->
  step me g t = Some (evs, g1, t1) ->
  unlink_inv h0 pk d mid P N g1 t1 /\ (unlinked t = true -> unlinked t1 = true).
Proof.
  intros (M & I) S. destruct t; try contradiction.
  - (* line 234 *)
    destruct I as (-> & V & Nx). pose proof (V mid) as Vm. rewrite mid_view in Vm.
    apply prev_view_Some in Vm as (m & Hm & D1 & D2).
    unfold step, deref in S. rewrite Hm in S. injection S as <- <- <-.
    split; [|discriminate]. split; [exact M|]. rewrite D2. auto.
  - (* line 235 *)
    destruct I as (-> & -> & V & Nx).
    destruct (dsa_vcluster g !! mid) as [m|] eqn:Hm; [|discriminate Nx].
    simpl in Nx. injection Nx as Nx.
    unfold step, deref in S. rewrite Hm in S. injection S as <- <- <-.
    split; [|discriminate]. split; [exact M|]. rewrite Nx. auto.
  - (* lines 237-241 *)
    destruct I as (-> & -> & -> & V).
    destruct older as (vp & Vp). rewrite <- V in Vp. destruct vp as [a b].
    apply prev_view_Some in Vp as (Pn & HPn & _).
    unfold step, deref in S. rewrite HPn in S. injection S as <- <- <-.
    split; [|discriminate]. split; [exact M|]. split; [reflexivity|].
    split; [reflexivity|]. split; [reflexivity|].
    intros q. erewrite view_poke_keep; [apply V | exact HPn | reflexivity | reflexivity].
  - (* line 242 *)
    destruct I as (-> & -> & -> & V).
    destruct newer as (x & Vn). rewrite <- V in Vn.
    apply prev_view_Some in Vn as (Nn & HNn & D1 & _).
    unfold step, deref in S. rewrite HNn in S. injection S as <- <- <-.
    split; [|reflexivity]. split; [exact M|]. split; [reflexivity|]. split.
    + rewrite view_poke_eq. simpl. rewrite D1. reflexivity.
    + intros q Hq. rewrite view_poke_ne by congruence. apply V.
  - (* line 245 *)
    destruct I as (-> & A). simpl in S. injection S as <- <- <-.
    split; [|reflexivity]. split; [exact M|]. auto.
  - (* line 248 *)
    destruct I as (-> & VN & V). pose proof (V mid mid_newer) as Vm. rewrite mid_view in Vm.
    apply prev_view_Some in Vm as (m & Hm & _).
    unfold step, deref in S. rewrite Hm in S. injection S as <- <- <-.
    split; [|reflexivity]. split; [exact M|]. split.
    + erewrite view_poke_keep; [exact VN | exact Hm | reflexivity | reflexivity].
    + intros q Hq. erewrite view_poke_keep; [apply V; exact Hq | exact Hm | reflexivity | reflexivity].
  - simpl in S. injection S as <- <- <-. split; [|reflexivity]. split; [exact M | exact I].
  - discriminate S.
Qed.

End Unlinking.

Lemma unlink_inv_frame h0 pk d mid P N g g1 t :
  dsa_vcluster g1 = dsa_vcluster g -> vchain_hash g1 = vchain_hash g ->
  unlink_inv h0 pk d mid P N g t -> unlink_inv h0 pk d mid P N g1 t.
Proof.
  intros Ed Eh (M & I). split; [congruence|]. destruct t; rewrite ?Ed; exact I.
Qed.

Lemma NoDup_split_inj {A} (l1 l2 k1 k2 : list A) x :
  NoDup (l1 ++ x :: l2) -> l1 ++ x :: l2 = k1 ++ x :: k2 -> l1 = k1 /\ l2 = k2.
Proof.
  revert k1. induction l1 as [|y l1 IH]; intros k1 ND E.
  - destruct k1 as [|z k1]; simpl in E.
    + injection E as <-. auto.
    + injection E as <- ->. simpl in ND. rewrite NoDup_cons in ND. destruct ND as (Nx & _).
      exfalso. apply Nx. rewrite elem_of_app. right. left.
  - simpl in ND. rewrite NoDup_cons in ND. destruct ND as (Ny & ND).
    destruct k1 as [|z k1]; simpl in E.
    + injection E as -> _. exfalso. apply Ny. rewrite elem_of_app. right. left.
    + injection E as <- E. destruct (IH k1 ND E) as (-> & ->). auto.
Qed.

Lemma back_unlink h h' xs mid ys a :
  NoDup (xs ++ mid :: ys) ->
  back h (xs ++ mid :: ys) a ->
  (forall q, q ∈ xs ++ ys -> last xs <> Some q -> prev_view h' q = prev_view h q) ->
  (forall w, last xs = Some w -> prev_view h' w = Some (w, hd a ys)) ->
  back h' (xs ++ ys) a.
Proof.
  induction xs as [|x xs IH]; intros ND B Fr HN.
  - simpl in *. destruct B as (_ & _ & B). eapply back_ext; [|exact B].
    intros q Hq. apply Fr; [exact Hq | discriminate].
  - simpl in B. destruct B as (Nx & Vx & B).
    simpl in ND. rewrite NoDup_cons in ND. destruct ND as (Nin & ND).
    destruct xs as [|y xs].
    + simpl. split; [exact Nx|]. split; [rewrite (HN x eq_refl); destruct ys; reflexivity|].
      apply IH; [exact ND | exact B | | discriminate].
      intros q Hq _. simpl in Hq. apply Fr; [right; exact Hq|].
      simpl. intros E. injection E as ->. apply Nin. simpl. right. exact Hq.
    + assert (Lx : last (x :: y :: xs) = last (y :: xs)) by reflexivity.
      change ((x :: y :: xs) ++ ys) with (x :: (y :: xs) ++ ys). cbn [back].
      split; [exact Nx|]. split.
      * rewrite Fr; [exact Vx | left |]. rewrite Lx. intros E.
        apply last_Some_elem_of in E. apply Nin. rewrite elem_of_app. left. exact E.
      * apply IH; [exact ND | exact B | |].
        -- intros q Hq Hl. apply Fr; [right; exact Hq | rewrite Lx; exact Hl].
        -- intros w Hw. apply HN. rewrite Lx. exact Hw.
Qed.

Lemma unlink_inv_view h0 pk d mid P N g t :
  unlink_inv h0 pk d mid P N g t ->
  if unlinked t
  then prev_view (dsa_vcluster g) N = Some (N, P) /\
       forall q, q <> N -> prev_view (dsa_vcluster g) q = prev_view h0 q
  else forall q, prev_view (dsa_vcluster g) q = prev_view h0 q.
Proof. intros (_ & I). destruct t; simpl in *; try contradiction; tauto. Qed.

Lemma fixup_presents g0 g pk d xs mid ys s t :
  chain_ok g0 d (xs ++ mid :: ys) ->
  unlink_inv (dsa_vcluster g0) pk d mid (hd d ys) (default d (last xs)) g t ->
  keeps_nodes g0 g ->
  presents g pk s d (results g0 s (xs ++ mid :: ys) (xs ++ ys) (unlinked t))
    (reads g0 s (xs ++ mid :: ys) (xs ++ ys) (unlinked t)) (hidden_from g0 s).
Proof.
  intros Ok I K.
  pose proof (chain_ok_back _ _ _ Ok) as (Bd & B).
  pose proof Ok as (ND & _). rewrite NoDup_cons in ND. destruct ND as (Nd & ND).
  pose proof (proj1 I) as M. apply unlink_inv_view in I.
  set (P := hd d ys) in *. set (N := default d (last xs)) in *.
  assert (Al : forall v, v ∈ xs ++ mid :: ys -> is_Some (dsa_vcluster g0 !! v)).
  { intros v Hv. eapply chain_ok_allocated; eauto. }
  assert (Al' : forall v, v ∈ xs ++ ys -> is_Some (dsa_vcluster g0 !! v)).
  { intros v Hv. apply Al. apply elem_of_app_skip. exact Hv. }
  destruct (unlinked t) eqn:Ph.
  - (* after line 242 *)
    destruct I as (VN & V).
    assert (NN : forall q, q ∈ xs ++ ys -> last xs <> Some q -> q <> N).
    { intros q Hq Hl ->. unfold N in *. destruct (last xs) as [w|]; simpl in *.
      - apply Hl. reflexivity.
      - apply Nd. apply elem_of_app_skip. exact Hq. }
    assert (Bn : back (dsa_vcluster g) (xs ++ ys) d).
    { apply (back_unlink (dsa_vcluster g0) _ xs mid ys d ND B).
      - intros q Hq Hl. apply V. apply NN; assumption.
      - intros w Hw. unfold N in VN. rewrite Hw in VN. exact VN. }
    apply presents_of_walks.
    + exact M.
    + destruct xs as [|x xs]; [exact VN|].
      rewrite V; [exact Bd|]. intros E. apply Nd. rewrite E. unfold N.
      destruct (last (x :: xs)) as [w|] eqn:Lw; cbn [default].
      * rewrite elem_of_app. left. apply last_Some_elem_of. exact Lw.
      * apply last_None in Lw. discriminate.
    + intros x ws Wk. pose proof Wk as (pre & Eo & Hp).
      rewrite Eo in B. destruct (back_at _ _ _ _ _ B) as (Nx & Vx).
      split; [exact Nx|].
      assert (Hx : is_Some (dsa_vcluster g0 !! x)).
      { apply Al. rewrite Eo. rewrite elem_of_app. right. left. }
      destruct (decide (x = N)) as [Ex | Ne].
      * (* the newer neighbour: its prev now skips [mid] *)
        apply prev_view_Some in VN as (n & Hn & D1 & D2). rewrite <- Ex in Hn, D1.
        exists n. split; [exact Hn|]. split; [exact D1|]. split.
        { rewrite <- (visible_keeps g0 g s x K Hx). unfold visible. rewrite Hn. reflexivity. }
        intros Hid. exists ys. split; [exact D2|]. right. split; [reflexivity|].
        assert (Lx : last xs = Some x).
        { unfold N in Ex. destruct (last xs) as [w|]; simpl in Ex; congruence. }
        apply last_Some in Lx as (xs' & ->).
        rewrite <- app_assoc in Eo. simpl in Eo.
        rewrite <- app_assoc in ND. simpl in ND.
        destruct (NoDup_split_inj _ _ _ _ _ ND Eo) as (<- & _).
        exists (xs' ++ [x]). split; [reflexivity|].
        apply Forall_app. split; [exact Hp | repeat constructor; exact Hid].
      * rewrite <- V in Vx by exact Ne.
        apply prev_view_Some in Vx as (n & Hn & D1 & D2).
        exists n. split; [exact Hn|]. split; [exact D1|]. split.
        { rewrite <- (visible_keeps g0 g s x K Hx). unfold visible. rewrite Hn. reflexivity. }
        intros Hid. exists ws. split; [exact D2|]. left. eapply walking_next; eauto.
    + intros _ x ws Wk.
      destruct (walk_node g0 g s (xs ++ ys) d x ws K Bn Al' Wk) as (Nx & n & Hn & Dn & Pn & Vn).
      split; [exact Nx|]. exists n. split; [exact Hn|]. split; [exact Dn|]. split; [exact Vn|].
      intros Hx. exists ws. split; [exact Pn|]. right. split; [reflexivity|].
      eapply walking_next; eauto.
  - (* up to line 242 *)
    assert (Bg : back (dsa_vcluster g) (xs ++ mid :: ys) d).
    { eapply back_ext; [|exact B]. intros q _. apply I. }
    apply presents_of_walks.
    + exact M.
    + rewrite I. exact Bd.
    + intros x ws Wk.
      destruct (walk_node g0 g s _ d x ws K Bg Al Wk) as (Nx & n & Hn & Dn & Pn & Vn).
      split; [exact Nx|]. exists n. split; [exact Hn|]. split; [exact Dn|]. split; [exact Vn|].
      intros Hx. exists ws. split; [exact Pn|]. left. eapply walking_next; eauto.
    + discriminate.
Qed.

(** X8.  Any number of lookups of a key beside one call of VChainFixUpOne for
    a version of its chain, in any interleaving of their steps: no lookup
    dereferences an offset that names no node, and a lookup that has
    returned has returned what it returns on the chain as it was, or, and
    then the store of line 242 has been executed, what it returns on the
    chain without the version. *)
Theorem lookups_during_fixup g pk d xs mid ys snaps sch tr c' :
  VChainHashLookup pk (vchain_hash g) = Some d ->
  chain_ok g d (xs ++ mid :: ys) ->
  sched_run sch {| shared := g; threads := FxReadPrev mid :: map (LkAcquire pk) snaps |}
    = Some (tr, c') ->
  exists tF, threads c' !! 0%nat = Some tF /\
    forall i s, snaps !! i = Some s ->
      threads c' !! S i <> Some Faulted /\
      forall r, threads c' !! S i = Some (Done r) ->
        r = first_visible g s (xs ++ mid :: ys) \/
        (unlinked tF = true /\ r = first_visible g s (xs ++ ys)).
Proof.
  intros M Ok E.
  pose proof (chain_ok_back _ _ _ Ok) as (Bd & B).
  pose proof Ok as (ND & c & Hc & Hd & Hp & Hn & Hf & D).
  rewrite NoDup_cons in ND. destruct ND as (Nd & ND).
  destruct (dll_mid _ _ _ _ _ _ D) as (m & Hm & Md & Mn & Mp).
  destruct (back_at _ _ _ _ _ B) as (Nmd & Vm).
  assert (Vp : is_Some (prev_view (dsa_vcluster g) (hd d ys))).
  { destruct ys as [|p ys]; simpl; [eauto|].
    change (xs ++ mid :: p :: ys) with (xs ++ [mid] ++ p :: ys) in B.
    rewrite app_assoc in B. destruct (back_at _ _ _ _ _ B) as (_ & V). eauto. }
  assert (Vn : exists x, prev_view (dsa_vcluster g) (default d (last xs))
                         = Some (default d (last xs), x)).
  { destruct (last xs) as [w|] eqn:Lw; simpl; [|eauto].
    apply last_Some in Lw as (xs' & ->). rewrite <- app_assoc in B.
    destruct (back_at _ _ _ _ _ B) as (_ & V). eauto. }
  assert (Nmn : mid <> default d (last xs)).
  { destruct (last xs) as [w|] eqn:Lw; simpl; [|exact Nmd].
    apply last_Some_elem_of in Lw. intros <-.
    apply NoDup_app in ND as (_ & Dis & _). apply (Dis mid Lw). left. }
  destruct (readers_results pk d g (xs ++ mid :: ys) (xs ++ ys)
              (unlink_inv (dsa_vcluster g) pk d mid (hd d ys) (default d (last xs)))
              unlinked snaps) with (tW0 := FxReadPrev mid) (sch := sch) (tr := tr) (c' := c')
    as (tF & HF & IF & Rs).
  - intros g1 t evs g2 t2 I S. eapply unlink_inv_step; eauto.
  - intros g1 g2 t I Ed Eh. eapply unlink_inv_frame; eauto.
  - intros g1 t s I K. eapply fixup_presents; eauto.
  - split; [exact M|]. split; [reflexivity|]. split; [reflexivity|].
    rewrite Hm. simpl. rewrite Mn. reflexivity.
  - exact E.
  - exists tF. split; [exact HF|]. intros i s Hs. split.
    + intros Hft. exact (Rs i s _ Hs Hft).
    + intros r Hr. exact (Rs i s _ Hs Hr).
Qed.

Lemma acquire_exclusive_inv l g g1 :
  LWLockAcquire l LW_EXCLUSIVE g = Some g1 ->
  lock_state g l = lw_free /\
  lock_state g1 l = {| lw_exclusive := true; lw_shared := 0 |} /\
  (forall l', l' <> l -> lock_state g1 l' = lock_state g l') /\
  thread_table g1 = thread_table g /\ clock g1 = clock g.
Proof.
  unfold LWLockAcquire. destruct (lock_state g l) as [x n] eqn:E. simpl.
  destruct x; [discriminate|]. destruct n; [|discriminate]. simpl.
  intros S. injection S as <-. split; [reflexivity|]. split.
  - rewrite lock_state_with_locks, decide_True by reflexivity. reflexivity.
  - split; [|split; reflexivity]. intros l' Ne.
    rewrite lock_state_with_locks, decide_False by congruence. reflexivity.
Qed.

Lemma release_exclusive_inv l g :
  lock_state (LWLockRelease l LW_EXCLUSIVE g) l
  = {| lw_exclusive := false; lw_shared := lw_shared (lock_state g l) |} /\
  (forall l', l' <> l -> lock_state (LWLockRelease l LW_EXCLUSIVE g) l' = lock_state g l') /\
  thread_table (LWLockRelease l LW_EXCLUSIVE g) = thread_table g /\
  clock (LWLockRelease l LW_EXCLUSIVE g) = clock g.
Proof.
  unfold LWLockRelease. split.
  - rewrite lock_state_with_locks, decide_True by reflexivity. reflexivity.
  - split; [|split; reflexivity]. intros l' Ne.
    rewrite lock_state_with_locks, decide_False by congruence. reflexivity.
Qed.

Lemma hash_lookup_snoc_ne pk pk' tbl d :
  pk' <> pk -> VChainHashLookup pk' (tbl ++ [(pk, d)]) = VChainHashLookup pk' tbl.
Proof.
  intros Ne. induction tbl as [|[k x] tbl IH]; simpl.
  - replace (pk =? pk') with false by (symmetry; apply Z.eqb_neq; congruence). reflexivity.
  - destruct (k =? pk'); auto.
Qed.

Lemma poke_off g p n (loc d tp q : dsa_pointer) (h : gmap Z VLocator) :
  (p = loc \/ p = d \/ p = tp) ->
  (forall q, q <> loc -> q <> d -> q <> tp -> dsa_vcluster g !! q = h !! q) ->
  q <> loc -> q <> d -> q <> tp -> dsa_vcluster (poke p n g) !! q = h !! q.
Proof.
  intros Hp Off Q1 Q2 Q3. unfold poke. simpl.
  rewrite lookup_insert_ne by (destruct Hp as [-> | [-> | ->]]; congruence). auto.
Qed.

Ltac open1 S c Hc :=
  unfold step, deref in S;
  match type of S with
  | context [dsa_vcluster ?g !! ?p] => destruct (dsa_vcluster g !! p) as [c|] eqn:Hc
  end;
  injection S as <- <- <-.

Ltac open2 S a Ha b Hb :=
  unfold step, deref2 in S;
  match type of S with
  | context [dsa_vcluster ?g !! ?p] => destruct (dsa_vcluster g !! p) as [a|] eqn:Ha
  end;
  [match type of S with
   | context [dsa_vcluster ?g !! ?p] => destruct (dsa_vcluster g !! p) as [b|] eqn:Hb
   end|];
  injection S as <- <- <-.

Section AppendFrame.
Variables (pk : PrimaryKey) (loc : dsa_pointer) (g : Shared).
Hypothesis tail_idle : forall tp T,
  dsap_prev <$> append_base pk g !! append_anchor pk g = Some tp ->
  append_base pk g !! tp = Some T -> flag T <> VL_DELETE.

Lemma append_frame_step me g1 t evs g2 t2 :
  append_frame_inv pk loc g g1 t ->
  step me g1 t = Some (evs, g2, t2) ->
  append_frame_inv pk loc g g2 t2.
Proof.
  intros (Tt & Ec & Lo & I) S. destruct t; try contradiction.
  - (* lines 150-154 *)
    destruct I as (-> & -> & Fr & Ed & Eh). unfold step in S.
    destruct (LWLockAcquire _ _ g1) as [g3|] eqn:A; [|discriminate]. simpl in S.
    injection S as <- <- <-.
    destruct (lock_acquire_frame _ _ _ _ A) as (Ed' & Eh').
    destruct (acquire_shared_inv _ _ _ A) as (Ex & Ls & Lo' & Tt' & Ec').
    split; [congruence|]. split; [congruence|]. split.
    { intros l' Ne. rewrite Lo' by exact Ne. auto. }
    split; [reflexivity|]. split; [reflexivity|]. split; [|split; congruence].
    rewrite <- Fr. auto.
  - (* line 155 *)
    destruct I as (-> & -> & Hd & Ed & Eh). unfold step in S. injection S as <- <- <-.
    split; [exact Tt|]. split; [exact Ec|]. split; [exact Lo|]. rewrite Eh.
    unfold append_anchor.
    destruct (VChainHashLookup pk (vchain_hash g)) eqn:M; simpl; repeat split; auto; tauto.
  - (* line 158 *)
    destruct I as (-> & -> & -> & (Ex & Ls) & (Ed & Eh) & (d & M)).
    unfold step in S. injection S as <- <- <-.
    destruct (lock_release_frame (partition_lock pk) LW_SHARED g1) as (Ed' & Eh').
    destruct (release_shared_inv (partition_lock pk) g1) as (Lr & Lo' & Tt' & Ec').
    split; [congruence|]. split; [congruence|]. split.
    { intros l' Ne. rewrite Lo' by exact Ne. auto. }
    split; [reflexivity|]. split; [reflexivity|]. split.
    { rewrite Lr, Ls. simpl. rewrite <- Ex. apply lw_eta. }
    unfold append_hash, append_base. rewrite M. split; congruence.
  - (* line 163 *)
    destruct I as (-> & -> & (Ex & Ls) & (Ed & Eh) & M).
    unfold step in S. injection S as <- <- <-.
    destruct (lock_release_frame (partition_lock pk) LW_SHARED g1) as (Ed' & Eh').
    destruct (release_shared_inv (partition_lock pk) g1) as (Lr & Lo' & Tt' & Ec').
    split; [congruence|]. split; [congruence|]. split.
    { intros l' Ne. rewrite Lo' by exact Ne. auto. }
    split; [reflexivity|]. split; [reflexivity|]. split.
    { rewrite Lr, Ls. simpl. rewrite <- Ex. apply lw_eta. }
    split; [split; congruence | exact M].
  - (* line 164 *)
    destruct I as (-> & -> & Fr & (Ed & Eh) & M). unfold step in S.
    destruct (LWLockAcquire _ _ g1) as [g3|] eqn:A; [|discriminate]. simpl in S.
    injection S as <- <- <-.
    destruct (lock_acquire_frame _ _ _ _ A) as (Ed' & Eh').
    destruct (acquire_exclusive_inv _ _ _ A) as (Lf & Ls & Lo' & Tt' & Ec').
    split; [congruence|]. split; [congruence|]. split.
    { intros l' Ne. rewrite Lo' by exact Ne. auto. }
    split; [reflexivity|]. split; [reflexivity|]. split; [split; congruence|].
    split; [split; congruence | exact M].
  - (* line 167 *)
    destruct I as (-> & -> & (Lf & Ls) & (Ed & Eh) & M).
    unfold step, VChainHashInsert in S. rewrite Eh, M, Ed in S. injection S as <- <- <-.
    split; [exact Tt|]. split; [exact Ec|]. split; [exact Lo|].
    split; [reflexivity|]. split; [reflexivity|].
    unfold append_hash, append_base, append_anchor. rewrite M. simpl. repeat split; auto.
  - (* line 168 *)
    destruct I as (-> & -> & -> & (Lf & Ls) & Eh & Ed).
    unfold step in S. injection S as <- <- <-.
    destruct (lock_release_frame (partition_lock pk) LW_EXCLUSIVE g1) as (Ed' & Eh').
    destruct (release_exclusive_inv (partition_lock pk) g1) as (Lr & Lo' & Tt' & Ec').
    split; [congruence|]. split; [congruence|]. split.
    { intros l' Ne. rewrite Lo' by exact Ne. auto. }
    split; [reflexivity|]. split; [reflexivity|]. split.
    { rewrite Lr, Ls, Lf. reflexivity. }
    split; congruence.
  - (* lines 177-184 *)
    destruct I as (-> & -> & Fr & Eh & Ed). open1 S c Hc.
    all: split; [exact Tt|]; split; [exact Ec|]; split; [exact Lo|]; try exact Logic.I.
    repeat split; auto. rewrite <- Ed, Hc. reflexivity.
  - (* line 187 *)
    destruct I as (-> & -> & Fr & Eh & Ed & Tl). open1 S T HT.
    all: split; [exact Tt|]; split; [exact Ec|]; split; [exact Lo|]; try exact Logic.I.
    split; [reflexivity|]. split; [reflexivity|]. split; [exact Fr|]. split; [exact Eh|].
    split; [split; [exact Tl|]|split].
    + intros q Q1 Q2 Q3. rewrite <- Ed. unfold poke. simpl.
      rewrite lookup_insert_ne by congruence. reflexivity.
    + apply flag_at_poke_flag.
    + apply (tail_idle _ _ Tl). rewrite <- Ed. exact HT.
  - (* lines 189, 201 *)
    destruct I as (-> & -> & Fr & Eh & Mk & Fl & Nf). simpl in S.
    match type of S with context [flag_eqb ?f _] => destruct f end;
      simpl in S; injection S as <- <- <-.
    all: split; [exact Tt|]; split; [exact Ec|]; split; [exact Lo|].
    + repeat split; auto; apply Mk.
    + exact Logic.I.
    + congruence.
  - (* line 203 *)
    destruct I as (-> & -> & Fr & Eh & (Tl & Off) & Fl). open1 S L HL.
    all: split; [exact Tt|]; split; [exact Ec|]; split; [exact Lo|]; try exact Logic.I.
    split; [reflexivity|]. split; [reflexivity|]. split; [exact Fr|]. split; [exact Eh|].
    split; [split; [exact Tl|]|].
    + intros q. apply poke_off; auto.
    + erewrite flag_at_poke; [exact Fl | exact HL | reflexivity].
  - (* line 204 *)
    destruct I as (-> & -> & Fr & Eh & (Tl & Off) & Fl). open2 S c Hc L HL.
    all: split; [exact Tt|]; split; [exact Ec|]; split; [exact Lo|]; try exact Logic.I.
    split; [reflexivity|]. split; [reflexivity|]. split; [exact Fr|]. split; [exact Eh|].
    split; [split; [exact Tl|]|].
    + intros q. apply poke_off; auto.
    + erewrite flag_at_poke; [exact Fl | exact HL | reflexivity].
  - (* line 205 *)
    destruct I as (-> & -> & Fr & Eh & (Tl & Off) & Fl). open2 S L HL T HT.
    all: split; [exact Tt|]; split; [exact Ec|]; split; [exact Lo|]; try exact Logic.I.
    split; [reflexivity|]. split; [reflexivity|]. split; [exact Fr|]. split; [exact Eh|].
    split; [split; [exact Tl|]|].
    + intros q. apply poke_off; auto.
    + erewrite flag_at_poke; [exact Fl | exact HT | reflexivity].
  - (* line 206 *)
    destruct I as (-> & -> & Fr & Eh & (Tl & Off) & Fl). open2 S L HL c Hc.
    all: split; [exact Tt|]; split; [exact Ec|]; split; [exact Lo|]; try exact Logic.I.
    split; [exact Fr|]. split; [exact Eh|].
    split; [split; [exact Tl|]|].
    + intros q. apply poke_off; auto.
    + erewrite flag_at_poke; [exact Fl | exact Hc | reflexivity].
  - (* line 209 *)
    destruct I as (Fr & Eh & (Tl & Off) & Fl).
    destruct (flag_at_Some _ _ _ Fl) as (T & HT & Tf).
    unfold step, deref in S. rewrite HT in S. injection S as <- <- <-.
    split; [exact Tt|]. split; [exact Ec|]. split; [exact Lo|].
    split; [exact Fr|]. split; [exact Eh|]. split; [|exact Tf].
    split; [exact Tl|]. intros q. apply poke_off; auto.
  - (* lines 211-217 *)
    destruct I as (Fr & Eh & Mk & ->). simpl in S. injection S as <- <- <-.
    split; [exact Tt|]. split; [exact Ec|]. split; [exact Lo|]. repeat split; eauto.
  - simpl in S. injection S as <- <- <-.
    split; [exact Tt|]. split; [exact Ec|]. split; [exact Lo|]. exact I.
  - discriminate S.
  - discriminate S.
  - discriminate S.
Qed.

Lemma append_frame_returns me tr g' r :
  returns me g (ApAcquire pk loc) tr g' r ->
  append_frame_inv pk loc g g' (Done r).
Proof.
  intros X.
  apply (exec_invariant alone me (fun g1 t _ => append_frame_inv pk loc g g1 t))
    with (g := g) (t := ApAcquire pk loc) (tr := tr) (tr0 := []).
  - intros ? ? ? ? ? ? I S. eapply append_frame_step; eauto.
  - intros ? ? ? ? _ [].
  - exact X.
  - repeat split; auto.
Qed.

End AppendFrame.

Lemma append_frame_hit me g pk loc d c T tr g' r :
  VChainHashLookup pk (vchain_hash g) = Some d ->
  dsa_vcluster g !! d = Some c -> dsa_vcluster g !! dsap_prev c = Some T ->
  flag T <> VL_DELETE ->
  returns me g (ApAcquire pk loc) tr g' r ->
  r = RVoid /\ thread_table g' = thread_table g /\ clock g' = clock g /\
  (forall l, lock_state g' l = lock_state g l) /\
  vchain_hash g' = vchain_hash g /\
  (forall q, q <> loc -> q <> d -> q <> dsap_prev c ->
             dsa_vcluster g' !! q = dsa_vcluster g !! q).
Proof.
  intros M Hc HT Tf X.
  assert (Eb : append_base pk g = dsa_vcluster g) by (unfold append_base; rewrite M; reflexivity).
  assert (Ea : append_anchor pk g = d) by (unfold append_anchor; rewrite M; reflexivity).
  destruct (append_frame_returns pk loc g) with (me := me) (tr := tr) (g' := g') (r := r)
    as (Tt & Ec & Lo & -> & Fr & Eh & tp & Tl & Off); [|exact X|].
  { intros tp T'. rewrite Eb, Ea, Hc. simpl. intros E. injection E as <-.
    rewrite HT. intros E. injection E as <-. exact Tf. }
  rewrite Eb, Ea, Hc in Tl. simpl in Tl. injection Tl as <-.
  split; [reflexivity|]. split; [exact Tt|]. split; [exact Ec|]. split.
  { intros l. destruct (decide (l = partition_lock pk)) as [->|Ne]; auto. }
  split.
  { rewrite Eh. unfold append_hash. rewrite M. reflexivity. }
  intros q Q1 Q2 Q3. rewrite <- Eb. apply Off; congruence.
Qed.

Lemma append_frame_miss me g pk loc tr g' r :
  VChainHashLookup pk (vchain_hash g) = None ->
  returns me g (ApAcquire pk loc) tr g' r ->
  r = RVoid /\ thread_table g' = thread_table g /\ clock g' = clock g /\
  (forall l, lock_state g' l = lock_state g l) /\
  exists d, (d ∉ dom (dsa_vcluster g)) /\
    vchain_hash g' = vchain_hash g ++ [(pk, d)] /\
    (forall q, q <> loc -> q <> d -> dsa_vcluster g' !! q = dsa_vcluster g !! q).
Proof.
  intros M X. set (d := fresh (dom (dsa_vcluster g))).
  assert (Eb : append_base pk g = <[d := dummy_node d]> (dsa_vcluster g))
    by (unfold append_base, append_anchor; rewrite M; reflexivity).
  assert (Ea : append_anchor pk g = d) by (unfold append_anchor; rewrite M; reflexivity).
  destruct (append_frame_returns pk loc g) with (me := me) (tr := tr) (g' := g') (r := r)
    as (Tt & Ec & Lo & -> & Fr & Eh & tp & Tl & Off); [|exact X|].
  { intros tp T'. rewrite Eb, Ea, lookup_insert_eq. simpl. intros E. injection E as <-.
    rewrite lookup_insert_eq. intros E. injection E as <-. discriminate. }
  rewrite Eb, Ea, lookup_insert_eq in Tl. simpl in Tl. injection Tl as <-.
  split; [reflexivity|]. split; [exact Tt|]. split; [exact Ec|]. split.
  { intros l. destruct (decide (l = partition_lock pk)) as [->|Ne]; auto. }
  exists d. split; [apply is_fresh|]. split.
  { rewrite Eh. unfold append_hash. rewrite M, Ea. reflexivity. }
  intros q Q1 Q2. rewrite Ea, Eb in Off. rewrite Off by congruence.
  apply lookup_insert_ne. congruence.
Qed.

(** X9.  A call of VChainAppendLocator that has returned, having run alone on a
    chain whose tail was not marked VL_DELETE, has written three nodes at
    most: its own, the anchor and the tail it linked after.  Every other
    node is as it was, and so are the epoch table, the clock and, once more,
    every partition lock.  The hash is unchanged when the key had an anchor;
    otherwise it holds one entry more, for this key, with an anchor at an
    offset that was not allocated. *)
Theorem append_footprint me g pk loc tr g' r :
  returns me g (ApAcquire pk loc) tr g' r ->
  (forall d c T,
     VChainHashLookup pk (vchain_hash g) = Some d ->
     dsa_vcluster g !! d = Some c -> dsa_vcluster g !! dsap_prev c = Some T ->
     flag T <> VL_DELETE ->
     r = RVoid /\ thread_table g' = thread_table g /\ clock g' = clock g /\
     (forall l, lock_state g' l = lock_state g l) /\
     vchain_hash g' = vchain_hash g /\
     (forall q, q <> loc -> q <> d -> q <> dsap_prev c ->
                dsa_vcluster g' !! q = dsa_vcluster g !! q))
  /\
  (VChainHashLookup pk (vchain_hash g) = None ->
   r = RVoid /\ thread_table g' = thread_table g /\ clock g' = clock g /\
   (forall l, lock_state g' l = lock_state g l) /\
   exists d, (d ∉ dom (dsa_vcluster g)) /\
     vchain_hash g' = vchain_hash g ++ [(pk, d)] /\
     (forall q, q <> loc -> q <> d -> dsa_vcluster g' !! q = dsa_vcluster g !! q)).
Proof.
  intros X. split.
  - intros d c T M Hc HT Tf. eapply append_frame_hit; eauto.
  - intros M. eapply append_frame_miss; eauto.
Qed.

Lemma chain_ok_frame g g' d vs :
  (forall q, q ∈ d :: vs -> dsa_vcluster g' !! q = dsa_vcluster g !! q) ->
  chain_ok g d vs -> chain_ok g' d vs.
Proof.
  intros Fr (ND & c & Hc & R). split; [exact ND|]. exists c.
  rewrite Fr by left. split; [exact Hc|].
  destruct R as (R1 & R2 & R3 & R4 & D). repeat split; auto.
  eapply dll_frame; [|exact D]. intros v Hv. apply Fr. right. exact Hv.
Qed.

Lemma lock_available_same g g' pk :
  (forall l, lock_state g' l = lock_state g l) ->
  shared_lock_available g pk -> shared_lock_available g' pk.
Proof. unfold shared_lock_available. intros E. rewrite E. auto. Qed.

(** X10.  Append for one key, then Lookup of another key: the lookup returns
    what it returned before the append, as long as the append wrote no node
    of the other key's chain (its own node, its anchor and its tail are not
    among them). *)
Theorem append_keeps_other_keys me me' g pk loc pk' s tr g1 r :
  pk' <> pk ->
  shared_lock_available g pk' ->
  (forall d, VChainHashLookup pk (vchain_hash g) = Some d ->
     exists c T, dsa_vcluster g !! d = Some c /\ dsa_vcluster g !! dsap_prev c = Some T /\
                 flag T <> VL_DELETE) ->
  returns me g (ApAcquire pk loc) tr g1 r ->
  (VChainHashLookup pk' (vchain_hash g) = None ->
   exists tr' g2, returns me' g1 (LkAcquire pk' s) tr' g2 RNotFound)
  /\
  (forall d' ws,
     VChainHashLookup pk' (vchain_hash g) = Some d' ->
     chain_ok g d' ws ->
     loc ∉ d' :: ws ->
     (forall d c, VChainHashLookup pk (vchain_hash g) = Some d ->
                  dsa_vcluster g !! d = Some c ->
                  (d ∉ d' :: ws) /\ (dsap_prev c ∉ d' :: ws)) ->
     exists tr' g2, returns me' g1 (LkAcquire pk' s) tr' g2 (first_visible g s ws)).
Proof.
  intros Ne Lk Idle X.
  pose proof (exec_keeps_nodes _ _ _ _ _ _ X) as K.
  assert (F : (forall l, lock_state g1 l = lock_state g l) /\
              VChainHashLookup pk' (vchain_hash g1) = VChainHashLookup pk' (vchain_hash g) /\
              forall d' ws, chain_ok g d' ws -> loc ∉ d' :: ws ->
                (forall d c, VChainHashLookup pk (vchain_hash g) = Some d ->
                             dsa_vcluster g !! d = Some c ->
                             (d ∉ d' :: ws) /\ (dsap_prev c ∉ d' :: ws)) ->
                chain_ok g1 d' ws).
  { destruct (VChainHashLookup pk (vchain_hash g)) as [d|] eqn:M.
    - destruct (Idle d eq_refl) as (c & T & Hc & HT & Tf).
      destruct (append_frame_hit me g pk loc d c T tr g1 r M Hc HT Tf X)
        as (_ & _ & _ & Lo & Eh & Fr).
      split; [exact Lo|]. split; [rewrite Eh; reflexivity|].
      intros d' ws Ok Nl Dis. destruct (Dis d c eq_refl Hc) as (N1 & N2).
      apply (chain_ok_frame g); [|exact Ok].
      intros q Hq. apply Fr; intros ->; contradiction.
    - destruct (append_frame_miss me g pk loc tr g1 r M X)
        as (_ & _ & _ & Lo & d & Fd & Eh & Fr).
      split; [exact Lo|]. split; [rewrite Eh; apply hash_lookup_snoc_ne; exact Ne|].
      intros d' ws Ok Nl _. apply (chain_ok_frame g); [|exact Ok].
      intros q Hq. apply Fr; [intros ->; contradiction|].
      intros ->. apply Fd. apply elem_of_dom.
      apply elem_of_cons in Hq as [-> | Hq].
      + destruct Ok as (_ & c & Hc & _). eauto.
      + eapply chain_ok_allocated; eauto. }
  destruct F as (Lo & Eh & Fr).
  pose proof (lock_available_same g g1 pk' Lo Lk) as Lk1.
  split.
  - intros M. apply lookup_miss_returns; [exact Lk1 | congruence].
  - intros d' ws M Ok Nl Dis.
    destruct (lookup_hit_returns me' g1 pk' s d' ws) as (tr' & g2 & Y & _).
    + exact Lk1.
    + congruence.
    + apply chain_ok_versions. apply Fr; auto.
    + exists tr', g2.
      rewrite (first_visible_keeps g g1 s ws K) in Y; [exact Y|].
      intros v Hv. eapply chain_ok_allocated; eauto.
Qed.

Lemma set_flag_set_flag f f' n : set_flag f (set_flag f' n) = set_flag f n.
Proof. reflexivity. Qed.

Lemma poke_poke_eq p n m g : poke p n (poke p m g) = poke p n g.
Proof. unfold poke, with_dsa. simpl. rewrite insert_insert_eq. reflexivity. Qed.

Lemma poke_poke_ne p q n m g : p <> q -> poke p n (poke q m g) = poke q m (poke p n g).
Proof. intros Ne. unfold poke, with_dsa. simpl. rewrite insert_insert_ne by exact Ne. reflexivity. Qed.

Lemma lookup_poke_eq p n g : dsa_vcluster (poke p n g) !! p = Some n.
Proof. unfold poke. simpl. apply lookup_insert_eq. Qed.

Lemma lookup_poke_ne p q n g : p <> q -> dsa_vcluster (poke p n g) !! q = dsa_vcluster g !! q.
Proof. intros Ne. unfold poke. simpl. apply lookup_insert_ne. exact Ne. Qed.

Lemma reflag_poke_ne f tp p n g :
  p <> tp -> reflag f tp (poke p n g) = poke p n (reflag f tp g).
Proof.
  intros Ne. unfold reflag. rewrite lookup_poke_ne by exact Ne.
  destruct (dsa_vcluster g !! tp) as [T|]; [|reflexivity].
  apply poke_poke_ne. congruence.
Qed.

Lemma lookup_reflag_ne f tp q g : q <> tp -> dsa_vcluster (reflag f tp g) !! q = dsa_vcluster g !! q.
Proof.
  intros Ne. unfold reflag. destruct (dsa_vcluster g !! tp); [|reflexivity].
  apply lookup_poke_ne. congruence.
Qed.

Lemma lookup_reflag_eq f tp g :
  dsa_vcluster (reflag f tp g) !! tp = set_flag f <$> dsa_vcluster g !! tp.
Proof.
  unfold reflag. destruct (dsa_vcluster g !! tp) as [T|] eqn:E; simpl.
  - apply lookup_poke_eq.
  - exact E.
Qed.

(** Between the two exchanges the appender does not look at the flag of the
    tail: its steps are the same whatever the flag is. *)
Lemma step_reflag me f loc d tp g t :
  loc <> tp -> d <> tp ->
  t = ApJudge loc d tp VL_WINNER \/ t = ApLink1 loc d tp \/ t = ApLink2 loc d tp \/
  t = ApLink3 loc d tp \/ t = ApLink4 loc d tp ->
  step me (reflag f tp g) t
  = match step me g t with
    | Some (evs, g2, t2) => Some (evs, reflag f tp g2, t2)
    | None => None
    end.
Proof.
  intros Nl Nd [-> | [-> | [-> | [-> | ->]]]].
  - reflexivity.
  - unfold step, deref. rewrite lookup_reflag_ne by exact Nl.
    destruct (dsa_vcluster g !! loc) as [l|]; [|reflexivity].
    rewrite reflag_poke_ne by exact Nl. reflexivity.
  - unfold step, deref2. rewrite !lookup_reflag_ne by assumption.
    destruct (dsa_vcluster g !! d) as [c|]; [|reflexivity].
    destruct (dsa_vcluster g !! loc) as [l|]; [|reflexivity].
    rewrite reflag_poke_ne by exact Nl. reflexivity.
  - unfold step, deref2. rewrite lookup_reflag_ne by exact Nl.
    destruct (dsa_vcluster g !! loc) as [l|]; [|reflexivity].
    rewrite lookup_reflag_eq.
    destruct (dsa_vcluster g !! tp) as [T|] eqn:HT; simpl; [|reflexivity].
    unfold reflag. rewrite HT, lookup_poke_eq, !poke_poke_eq. reflexivity.
  - unfold step, deref2. rewrite !lookup_reflag_ne by assumption.
    destruct (dsa_vcluster g !! loc) as [l|]; [|reflexivity].
    destruct (dsa_vcluster g !! d) as [c|]; [|reflexivity].
    rewrite reflag_poke_ne by exact Nd. reflexivity.
Qed.

Lemma step_reflag_back me f tp g T :
  dsa_vcluster g !! tp = Some T ->
  step me (reflag f tp g) (ApExchangeBack tp)
  = Some ([EvExchange tp VL_WINNER f], poke tp (set_flag VL_WINNER T) g, ApJudgeBack tp f).
Proof.
  intros HT. unfold step, deref. rewrite lookup_reflag_eq, HT. simpl.
  unfold reflag. rewrite HT, poke_poke_eq. reflexivity.
Qed.

Lemma solo_step me g0 t0 g t evs g1 t1 :
  solo_reach me g0 t0 g t -> step me g t = Some (evs, g1, t1) -> solo_reach me g0 t0 g1 t1.
Proof.
  intros (tr & X) S. exists (tr ++ evs). eapply exec_trans; [exact X|]. apply exec_one. exact S.
Qed.

Lemma step_fixup_event me g t evs g1 t1 m :
  step me g t = Some (evs, g1, t1) -> EvFixUp m ∈ evs -> t = ApJudgeBack m VL_DELETE.
Proof.
  intros S Hin. destruct t.
  all: try (unfold step, deref, deref2 in S; simpl in S; repeat case_match;
            simplify_option_eq;
            repeat (apply elem_of_cons in Hin as [Hin | Hin]; [discriminate|]);
            inversion Hin; fail).
  unfold step in S.
  match type of S with context [flag_eqb ?f _] => destruct f end; simpl in S; simplify_eq.
  - inversion Hin.
  - inversion Hin.
  - apply list_elem_of_singleton in Hin. injection Hin as ->. reflexivity.
Qed.

Lemma fixup_keeps_flags me g6 mid tr g t :
  exec alone me g6 (FxReadPrev mid) tr g t -> forall q, flag_at g q = flag_at g6 q.
Proof.
  intros X.
  apply (exec_invariant alone me
           (fun g1 t1 _ => in_fixup t1 = true /\ forall q, flag_at g1 q = flag_at g6 q))
    with (tr0 := []) in X; [tauto | | | ].
  - intros g1 t1 _ evs g2 t2 (I & F) S. destruct t1; try discriminate I.
    all: try match goal with r : Result |- _ => destruct r; try discriminate I end.
    all: unfold step, deref in S; repeat case_match; simplify_eq.
    all: split; [reflexivity|]; try exact F.
    all: intros q; rewrite <- F; eapply flag_at_poke; [eassumption | reflexivity].
  - intros ? ? ? ? _ [].
  - split; [reflexivity | reflexivity].
Qed.

Section CutterVisit.
Variables (me : nat) (pk : PrimaryKey) (loc d tp : dsa_pointer) (vs : list dsa_pointer).
Variable g0 : Shared.
Hypothesis key_anchor : VChainHashLookup pk (vchain_hash g0) = Some d.
Hypothesis chain0 : chain_ok g0 d (tp :: vs).
Hypothesis fresh0 : fresh_node g0 loc.
Hypothesis loc_new : loc ∉ d :: tp :: vs.

Lemma visit_distinct : d <> loc /\ tp <> loc /\ d <> tp.
Proof.
  rewrite !not_elem_of_cons in loc_new. destruct chain0 as (ND & _).
  rewrite NoDup_cons, not_elem_of_cons in ND. repeat split; intros E; subst; tauto.
Qed.

Lemma solo_facts g t :
  solo_reach me g0 (ApAcquire pk loc) g t ->
  lin_inv (dsa_vcluster g0) pk loc d tp g t /\ flag_phase tp g t.
Proof.
  intros (tr & X). destruct visit_distinct as (Nd & Nt & Ndt).
  pose proof (chain_ok_back _ _ _ chain0) as (Bd & B).
  apply (exec_invariant alone me
           (fun g1 t1 _ => lin_inv (dsa_vcluster g0) pk loc d tp g1 t1 /\ flag_phase tp g1 t1))
    with (tr0 := []) in X; [exact X | | | ].
  - intros g1 t1 _ evs g2 t2 (I & P) S.
    split; [eapply lin_inv_step; eauto|].
    destruct I as (_ & I). destruct t1; try contradiction.
    all: try (unfold step, deref, deref2 in S; simpl in S; repeat case_match;
              simplify_option_eq; exact Logic.I).
    + destruct I as (-> & _). unfold step, deref in S.
      destruct (dsa_vcluster g1 !! tp) as [T|]; simplify_eq; [|exact Logic.I].
      apply flag_at_poke_flag.
    + simpl in S.
      match type of S with context [flag_eqb ?f _] => destruct (flag_eqb f VL_DELETE) end;
      simplify_eq; [exact Logic.I | exact P].
    + simpl in S. simplify_eq. exact P.
  - intros ? ? ? ? _ [].
  - destruct fresh0 as (L & HL & Ld & Lf).
    destruct (chain_ok_tail _ _ _ chain0) as (c & T & Hc & Hd & Hp & HT & Tf).
    split; [|exact Logic.I].
    split; [exact key_anchor|]. split; [reflexivity|]. split; [reflexivity|]. split.
    + split; [reflexivity|]. eauto.
    + unfold flag_at. simpl in HT. rewrite HT. simpl. congruence.
Qed.

Lemma solo_marks g t :
  solo_reach me g0 (ApAcquire pk loc) g t -> flag_at g tp = Some VL_APPEND ->
  holds_mark loc d tp t.
Proof.
  intros So F. destruct (solo_facts g t So) as ((_ & I) & P). unfold holds_mark.
  destruct t; try contradiction; simpl in I, P;
    try (destruct I as (? & ? & ? & ? & F'); congruence);
    try (destruct I as (? & ? & ? & F'); congruence);
    try congruence.
  - destruct I as (-> & -> & -> & -> & _). auto.
  - destruct I as (-> & -> & -> & _). auto.
  - destruct I as (-> & -> & -> & _). auto.
  - destruct I as (-> & -> & -> & _). auto 6.
  - destruct I as (-> & -> & -> & _). auto 6.
  - destruct I as (-> & _). auto 7.
Qed.

Lemma visit_inv_step g t tr evs g1 t1 :
  visit_inv me pk loc d tp g0 g t tr ->
  step me g t = Some (evs, g1, t1) ->
  visit_inv me pk loc d tp g0 g1 t1 (tr ++ evs).
Proof.
  destruct visit_distinct as (Nd & Nt & Ndt).
  intros [(So & Nf) | [(gs & So & Hm & -> & Nf) | [(-> & So & Nf) | (g6 & trf & So & X & Hin)]]] S.
  - (* in step with a call that runs alone *)
    left. split; [eapply solo_step; eauto|].
    intros m Hm. apply elem_of_app in Hm as [Hm | Hm]; [exact (Nf m Hm)|].
    pose proof (step_fixup_event _ _ _ _ _ _ _ S Hm) as ->.
    destruct (solo_facts _ _ So) as ((_ & I) & _). simpl in I. destruct I as (I & _).
    discriminate I.
  - (* the tail carries the cutter's mark *)
    destruct (solo_facts _ _ So) as ((_ & I) & _).
    destruct Hm as [Ht | [Ht | [Ht | [Ht | [Ht | Ht]]]]].
    all: try (rewrite (step_reflag me VL_DELETE loc d tp gs t) in S by (subst t; auto 6);
              destruct (step me gs t) as [[[evs' g2] t2]|] eqn:Ss; [|discriminate];
              injection S as <- <- <-;
              pose proof (solo_step _ _ _ _ _ _ _ _ So Ss) as So2;
              right; left; exists g2; split; [exact So2|]; split;
              [|split; [reflexivity|];
                intros m Hm; apply elem_of_app in Hm as [Hm | Hm]; [exact (Nf m Hm)|];
                pose proof (step_fixup_event _ _ _ _ _ _ _ Ss Hm); subst t; discriminate];
              destruct (solo_facts _ _ So2) as ((_ & I2) & _);
              subst t; unfold step, deref, deref2 in Ss; simpl in Ss;
              repeat case_match; simplify_eq; try contradiction;
              unfold holds_mark; auto 7; fail).
    subst t. simpl in I. destruct I as (_ & _ & F).
    destruct (flag_at_Some _ _ _ F) as (T & HT & Tf).
    rewrite (step_reflag_back me VL_DELETE tp gs T HT) in S. injection S as <- <- <-.
    right. right. left. split; [reflexivity|]. split.
    + eapply solo_step; [exact So|]. unfold step, deref. rewrite HT, Tf. reflexivity.
    + intros m Hm. apply elem_of_app in Hm as [Hm | Hm]; [exact (Nf m Hm)|].
      apply list_elem_of_singleton in Hm. discriminate.
  - (* line 211: the cutter's mark is captured *)
    simpl in S. injection S as <- <- <-.
    right. right. right. exists g, []. split; [exact So|]. split; [constructor|].
    apply elem_of_app. right. left.
  - (* VChainFixUpOne *)
    right. right. right. exists g6, (trf ++ evs). split; [exact So|]. split.
    + eapply exec_trans; [exact X|]. apply exec_one. exact S.
    + apply elem_of_app. left. exact Hin.
Qed.

Lemma visit_inv_env g g1 t tr :
  visit_inv me pk loc d tp g0 g t tr -> cutter_marks tp g g1 ->
  visit_inv me pk loc d tp g0 g1 t tr.
Proof.
  intros [(So & Nf) | [(gs & So & Hm & -> & Nf) | [(-> & So & Nf) | (g6 & trf & So & X & Hin)]]]
    (F & ->).
  - right. left. exists g. split; [exact So|]. split; [eapply solo_marks; eauto|]. auto.
  - exfalso. unfold flag_at in F. rewrite lookup_reflag_eq in F.
    destruct (dsa_vcluster gs !! tp); discriminate F.
  - exfalso. destruct (solo_facts _ _ So) as (_ & P). simpl in P. congruence.
  - exfalso. destruct (solo_facts _ _ So) as (_ & P). simpl in P.
    rewrite (fixup_keeps_flags _ _ _ _ _ _ X) in F. congruence.
Qed.

Lemma visit_invariant tr g' t' :
  exec (cutter_marks tp) me g0 (ApAcquire pk loc) tr g' t' ->
  visit_inv me pk loc d tp g0 g' t' tr.
Proof.
  intros X.
  apply (exec_invariant (cutter_marks tp) me (visit_inv me pk loc d tp g0))
    with (tr0 := []) in X; [exact X | | | ].
  - intros ? ? ? ? ? ? I S. eapply visit_inv_step; eauto.
  - intros ? ? ? ? I R. eapply visit_inv_env; eauto.
  - left. split; [exists []; constructor|]. intros m Hm. inversion Hm.
Qed.

End CutterVisit.

Lemma step_keeps_clock me g t evs g1 t1 :
  step me g t = Some (evs, g1, t1) -> clock g1 = clock g.
Proof.
  intros S. destruct t.
  all: try (unfold step, deref, deref2 in S; simpl in S; repeat case_match;
            simplify_option_eq; reflexivity).
  all: try (unfold step, LWLockAcquire in S; simpl in S; repeat case_match;
            simplify_option_eq; reflexivity).
  unfold step, VChainHashInsert in S.
  destruct (VChainHashLookup primary_key (vchain_hash g)); simplify_eq; reflexivity.
Qed.

Lemma exec_keeps_clock me g t tr g1 t1 :
  exec alone me g t tr g1 t1 -> clock g1 = clock g.
Proof.
  induction 1 as [| ? ? ? ? ? ? ? ? E X IH | ? ? ? ? ? ? R X IH].
  - reflexivity.
  - rewrite IH. eapply step_keeps_clock. exact E.
  - destruct R.
Qed.

(** X11.  The cutter visits while Append holds its mark on the tail: Append
    finishes the removal itself.  One call VChainAppendLocator(pk, loc) on
    a well-formed chain whose newest version is [tp], beside a cutter that
    may switch the flag of [tp] from VL_APPEND to VL_DELETE at any moment:
    when the call has returned, either it never called VChainFixUpOne and
    the chain is the old one with [loc] as newest version, or it called
    VChainFixUpOne(tp) and the chain is well formed with [loc] as newest
    version and without [tp], which still points at its old neighbours and
    carries the clock as timestamp. *)
Theorem append_finishes_cutter_unlink me g pk loc d tp vs tr g' r :
  shared_lock_available g pk ->
  VChainHashLookup pk (vchain_hash g) = Some d ->
  chain_ok g d (tp :: vs) -> fresh_node g loc -> loc ∉ d :: tp :: vs ->
  exec (cutter_marks tp) me g (ApAcquire pk loc) tr g' (Done r) ->
  r = RVoid /\
  (((forall m, EvFixUp m ∉ tr) /\ chain_ok g' d (loc :: tp :: vs))
   \/
   (EvFixUp tp ∈ tr /\ chain_ok g' d (loc :: vs) /\
    exists T, dsa_vcluster g' !! tp = Some T /\ dsap_prev T = hd d vs /\
              dsap_next T = loc /\ timestamp T = clock g)).
Proof.
  intros Lk M Ok Fl Nin X.
  destruct (append_one me g pk loc d (tp :: vs) Lk M Ok Fl Nin)
    as (trs & gA & XA & OkA & _).
  pose proof (visit_invariant me pk loc d tp vs g M Ok Fl Nin tr g' (Done r) X) as I.
  destruct I as [((tr1 & So) & Nf) | [(gs & _ & Hm & _) | [(E & _) | (g6 & trf & So & Xf & Hin)]]].
  - destruct (returns_det _ _ _ _ _ _ _ _ _ XA So) as (-> & ->).
    split; [reflexivity|]. left. auto.
  - exfalso. destruct Hm as [E | [E | [E | [E | [E | E]]]]]; discriminate E.
  - discriminate E.
  - assert (So6 : solo_reach me g (ApAcquire pk loc) g6 (Done RVoid)).
    { eapply solo_step; [eapply solo_step; [exact So|]|]; reflexivity. }
    destruct So6 as (tr6 & X6).
    destruct (returns_det _ _ _ _ _ _ _ _ _ XA X6) as (-> & _).
    destruct (fixup_one me gA d [loc] tp vs OkA)
      as (trF & gF & m & XF & OkF & Hm & Hm' & _).
    destruct (returns_det _ _ _ _ _ _ _ _ _ XF Xf) as (-> & ->).
    split; [reflexivity|]. right. split; [exact Hin|]. split; [exact OkF|].
    destruct OkA as (_ & c & _ & _ & _ & _ & _ & D).
    destruct (dll_mid _ _ [loc] tp vs _ D) as (m' & Hm2 & _ & Mn & Mp).
    assert (m' = m) as -> by congruence.
    eexists. split; [exact Hm'|]. simpl. split; [exact Mp|]. split; [exact Mn|].
    apply (exec_keeps_clock _ _ _ _ _ _ XA).
Qed.

Lemma exec_alone_rely rely me g t tr g1 t1 :
  exec alone me g t tr g1 t1 -> exec rely me g t tr g1 t1.
Proof.
  induction 1 as [| ? ? ? ? ? ? ? ? E X IH | ? ? ? ? ? ? R X IH].
  - constructor.
  - eapply exec_step; eauto.
  - destruct R.
Qed.

Lemma lock_inv_step me pk g g1 t evs g2 t2 :
  lock_inv pk g g1 t ->
  step me g1 t = Some (evs, g2, t2) ->
  lock_inv pk g g2 t2.
Proof.
  intros (Hk & Lo & I) S. destruct t.
  (* the steps that leave the locks alone *)
  all: try (unfold step, deref, deref2 in S; simpl in S; repeat case_match; simplify_eq;
            (split; [intros k E; first [discriminate E | apply Hk; exact E]|]);
            (split; [exact Lo|]); exact I).
  all: try (unfold step in S; simpl in S; repeat case_match; simplify_eq;
            (split; [intros k E; first [discriminate E | apply Hk; exact E]|]);
            (split; [exact Lo|]); exact I).
  all: pose proof (Hk _ eq_refl) as ->; simpl in I.
  - (* lines 77-81 *)
    unfold step in S. destruct (LWLockAcquire _ _ g1) as [g3|] eqn:A; [|discriminate].
    simpl in S. injection S as <- <- <-.
    destruct (acquire_shared_inv _ _ _ A) as (Ex & Ls & Lo' & _).
    split; [intros k E; injection E as <-; reflexivity|]. split.
    { intros l' Ne. rewrite Lo' by exact Ne. auto. }
    simpl. rewrite <- I. auto.
  - (* lines 85-86 *)
    destruct I as (Ex & Ls). unfold step in S. injection S as <- <- <-.
    destruct (release_shared_inv (partition_lock pk) g1) as (Lr & Lo' & _).
    split; [discriminate|]. split.
    { intros l' Ne. rewrite Lo' by exact Ne. auto. }
    simpl. rewrite Lr, Ls. simpl. rewrite <- Ex. apply lw_eta.
  - (* line 88 *)
    destruct I as (Ex & Ls). unfold step in S. injection S as <- <- <-.
    destruct (release_shared_inv (partition_lock pk) g1) as (Lr & Lo' & _).
    split; [discriminate|]. split.
    { intros l' Ne. rewrite Lo' by exact Ne. auto. }
    simpl. rewrite Lr, Ls. simpl. rewrite <- Ex. apply lw_eta.
  - (* lines 150-154 *)
    unfold step in S. destruct (LWLockAcquire _ _ g1) as [g3|] eqn:A; [|discriminate].
    simpl in S. injection S as <- <- <-.
    destruct (acquire_shared_inv _ _ _ A) as (Ex & Ls & Lo' & _).
    split; [intros k E; injection E as <-; reflexivity|]. split.
    { intros l' Ne. rewrite Lo' by exact Ne. auto. }
    simpl. rewrite <- I. auto.
  - (* line 158 *)
    destruct I as (Ex & Ls). unfold step in S. injection S as <- <- <-.
    destruct (release_shared_inv (partition_lock pk) g1) as (Lr & Lo' & _).
    split; [discriminate|]. split.
    { intros l' Ne. rewrite Lo' by exact Ne. auto. }
    simpl. rewrite Lr, Ls. simpl. rewrite <- Ex. apply lw_eta.
  - (* line 163 *)
    destruct I as (Ex & Ls). unfold step in S. injection S as <- <- <-.
    destruct (release_shared_inv (partition_lock pk) g1) as (Lr & Lo' & _).
    split; [intros k E; injection E as <-; reflexivity|]. split.
    { intros l' Ne. rewrite Lo' by exact Ne. auto. }
    simpl. rewrite Lr, Ls. simpl. rewrite <- Ex. apply lw_eta.
  - (* line 164 *)
    unfold step in S. destruct (LWLockAcquire _ _ g1) as [g3|] eqn:A; [|discriminate].
    simpl in S. injection S as <- <- <-.
    destruct (acquire_exclusive_inv _ _ _ A) as (Lf & Ls & Lo' & _).
    split; [intros k E; injection E as <-; reflexivity|]. split.
    { intros l' Ne. rewrite Lo' by exact Ne. auto. }
    simpl. rewrite <- I. auto.
  - (* line 167 *)
    unfold step, VChainHashInsert in S.
    destruct (VChainHashLookup pk (vchain_hash g1)); injection S as <- <- <-.
    all: split; [intros k E; injection E as <-; reflexivity|]; split; [exact Lo | exact I].
  - (* line 168 *)
    destruct I as (Lf & Ls). unfold step in S. injection S as <- <- <-.
    destruct (release_exclusive_inv (partition_lock pk) g1) as (Lr & Lo' & _).
    split; [discriminate|]. split.
    { intros l' Ne. rewrite Lo' by exact Ne. auto. }
    simpl. rewrite Lr, Ls, Lf. reflexivity.
Qed.

(** X12.  The partition lock guards the hash only.  A call of
    VChainLookupLocator or VChainAppendLocator that runs alone holds the
    lock of its key in shared mode around the probe of the hash and in
    exclusive mode around the insert; at every other program point, so
    whenever it reads or writes a node of the chain, spins, or runs
    VChainFixUpOne, and when it has returned or failed, every partition
    lock is in the state the call found it in. *)
Theorem chain_access_without_lock me g pk t0 tr g1 t1 :
  (exists s, t0 = LkAcquire pk s) \/ (exists loc, t0 = ApAcquire pk loc) ->
  exec alone me g t0 tr g1 t1 ->
  let l := partition_lock pk in
  (forall l', l' <> l -> lock_state g1 l' = lock_state g l') /\
  match lock_use t1 with
  | NotHeld => lock_state g1 l = lock_state g l
  | HeldShared =>
      lw_exclusive (lock_state g l) = false /\
      lock_state g1 l
      = {| lw_exclusive := false; lw_shared := S (lw_shared (lock_state g l)) |}
  | HeldExclusive =>
      lock_state g l = lw_free /\
      lock_state g1 l = {| lw_exclusive := true; lw_shared := 0 |}
  end.
Proof.
  intros T0 X.
  assert (I : lock_inv pk g g1 t1).
  { apply (exec_invariant alone me (fun g2 t _ => lock_inv pk g g2 t))
      with (g := g) (t := t0) (tr := tr) (tr0 := []).
    - intros ? ? ? ? ? ? I S. eapply lock_inv_step; eauto.
    - intros ? ? ? ? _ [].
    - exact X.
    - destruct T0 as [(s & ->) | (loc & ->)].
      + split; [intros k E; injection E as <-; reflexivity|]. split; reflexivity.
      + split; [intros k E; injection E as <-; reflexivity|]. split; reflexivity. }
  destruct I as (_ & Lo & I). split; [exact Lo | exact I].
Qed.

Lemma circling_step me pk s d loc g t evs g1 t1 :
  circling pk s d loc g t ->
  step me g t = Some (evs, g1, t1) ->
  circling pk s d loc g1 t1.
Proof.
  intros (M & Ne & (c & n & Hc & Dc & Pc & Hn & Dn & Pn & Hid) & I) S.
  assert (K : forall g', vchain_hash g' = vchain_hash g ->
                         dsa_vcluster g' = dsa_vcluster g ->
                         forall t', match t' with
                                    | LkAcquire k s' | LkProbe k s' => k = pk /\ s' = s
                                    | LkHitRelease k s' d' => k = pk /\ s' = s /\ d' = d
                                    | LkSetEpoch s' d' | LkEmptyTest s' d' | LkLoadTail s' d' =>
                                        s' = s /\ d' = d
                                    | LkLoopTest s' d' l | LkVisTest s' d' l
                                    | LkAdvance s' d' l => s' = s /\ d' = d /\ l = loc
                                    | _ => False
                                    end -> circling pk s d loc g' t').
  { intros g' Eh Ed t' I'. split; [rewrite Eh; exact M|]. split; [exact Ne|].
    split; [|exact I']. exists c, n. rewrite Ed. auto 10. }
  destruct t; try contradiction.
  - destruct I as (-> & ->). unfold step in S.
    destruct (LWLockAcquire _ _ g) as [g3|] eqn:A; [|discriminate]. simpl in S.
    injection S as <- <- <-. destruct (lock_acquire_frame _ _ _ _ A) as (Ed & Eh).
    apply K; auto.
  - destruct I as (-> & ->). unfold step in S. rewrite M in S. injection S as <- <- <-.
    apply K; auto.
  - destruct I as (-> & -> & ->). unfold step in S. injection S as <- <- <-.
    destruct (lock_release_frame (partition_lock pk) LW_SHARED g) as (Ed & Eh).
    apply K; auto.
  - destruct I as (-> & ->). unfold step in S. injection S as <- <- <-.
    apply K; auto.
  - destruct I as (-> & ->). unfold step, deref in S. rewrite Hc in S.
    rewrite Pc, Dc in S. destruct (Z.eqb_spec loc d) as [E|_]; [contradiction|].
    injection S as <- <- <-. apply K; auto.
  - destruct I as (-> & ->). unfold step, deref in S. rewrite Hc in S.
    rewrite Pc in S. injection S as <- <- <-. apply K; auto.
  - destruct I as (-> & -> & ->). unfold step, deref2 in S. rewrite Hn, Hc in S.
    rewrite Dn, Dc in S. destruct (Z.eqb_spec loc d) as [E|_]; [contradiction|].
    simpl in S. injection S as <- <- <-. apply K; auto.
  - destruct I as (-> & -> & ->). unfold step, deref in S. rewrite Hn in S.
    rewrite Hid in S. simpl in S. injection S as <- <- <-. apply K; auto.
  - destruct I as (-> & -> & ->). unfold step, deref in S. rewrite Hn in S.
    rewrite Pn in S. injection S as <- <- <-. apply K; auto.
Qed.

Lemma circling_forever me pk s d loc g tr g1 t1 :
  circling pk s d loc g (LkAcquire pk s) ->
  exec alone me g (LkAcquire pk s) tr g1 t1 ->
  circling pk s d loc g1 t1.
Proof.
  intros C X.
  apply (exec_invariant alone me (fun g2 t _ => circling pk s d loc g2 t))
    with (g := g) (t := LkAcquire pk s) (tr := tr) (tr0 := []).
  - intros ? ? ? ? ? ? I S. eapply circling_step; eauto.
  - intros ? ? ? ? _ [].
  - exact X.
  - exact C.
Qed.

Lemma set_links_self L x y :
  flag L = VL_WINNER ->
  set_flag VL_WINNER
    (set_dsap_next x (set_dsap_next y (set_dsap_prev x (set_flag VL_APPEND L))))
  = set_dsap_next x (set_dsap_prev x L).
Proof. destruct L; simpl; intros ->; reflexivity. Qed.

Lemma set_prev_same c : set_dsap_prev (dsap_prev c) c = c.
Proof. destruct c; reflexivity. Qed.

Ltac heap_at :=
  unfold step, deref, deref2, poke; simpl;
  repeat first [ rewrite lookup_insert_eq
               | rewrite lookup_insert_ne by congruence ].

(** Lines 171-216 when the node handed in is the tail itself. *)
Lemma append_tail_protocol me g loc d c L :
  dsa_vcluster g !! d = Some c -> dsap c = d -> dsap_prev c = loc ->
  dsa_vcluster g !! loc = Some L -> dsap L = loc -> flag L = VL_WINNER ->
  loc <> d ->
  exists tr h',
    returns me g (ApRetry loc d) tr (with_dsa h' g) RVoid /\
    h' !! loc = Some (set_dsap_next loc (set_dsap_prev loc L)) /\
    h' !! d = Some c /\
    (forall q, q <> loc -> h' !! q = dsa_vcluster g !! q).
Proof.
  intros Hc Hd Hp HL Ld Lf Nd.
  eexists _, _. split; [|split; [|split]].
  - unfold returns.
    eapply exec_step. { heap_at. rewrite Hc. reflexivity. }
    rewrite Hp.
    eapply exec_step. { heap_at. rewrite HL. reflexivity. }
    rewrite Lf.
    eapply exec_step. { reflexivity. }
    eapply exec_step. { heap_at. reflexivity. }
    eapply exec_step. { heap_at. rewrite Hc. reflexivity. }
    eapply exec_step. { heap_at. reflexivity. }
    eapply exec_step. { heap_at. rewrite Hc. reflexivity. }
    eapply exec_step. { heap_at. reflexivity. }
    eapply exec_step. { reflexivity. }
    apply exec_one. reflexivity.
  - simpl. heap_at. rewrite Hd, Ld. f_equal. apply set_links_self. exact Lf.
  - simpl. heap_at. rewrite Ld, <- Hp, set_prev_same. reflexivity.
  - intros q Q. simpl. heap_at.
    destruct (decide (q = d)) as [->|Qd].
    + heap_at. rewrite Ld, <- Hp, set_prev_same. symmetry. exact Hc.
    + heap_at. reflexivity.
Qed.

Lemma self_loop_no_walk h stop loc n ws :
  h !! loc = Some n -> dsap n <> stop -> dsap_prev n = loc ->
  ~ prev_walk h stop loc ws.
Proof.
  intros Hn Ns Pn. induction ws as [|w ws IH]; simpl.
  - intros (m & Hm & E). congruence.
  - intros (-> & m & Hm & _ & W). apply IH. congruence.
Qed.

(** X13.  VChainAppendLocator does not test whether the node is in the chain
    already.  Handed the newest version of the chain a second time, a call
    that runs alone returns as usual, with every other node and the hash as
    they were; but it leaves the node as its own predecessor and successor.
    The older versions are cut off: no list of versions describes the chain
    any more, and a lookup whose snapshot does not see the node goes round
    it and never returns. *)
Theorem append_again_cuts_chain me g pk loc d vs :
  shared_lock_available g pk ->
  VChainHashLookup pk (vchain_hash g) = Some d ->
  chain_ok g d (loc :: vs) ->
  exists tr g',
    returns me g (ApAcquire pk loc) tr g' RVoid /\
    vchain_hash g' = vchain_hash g /\
    (forall q, q <> loc -> dsa_vcluster g' !! q = dsa_vcluster g !! q) /\
    (exists n, dsa_vcluster g' !! loc = Some n /\ dsap n = loc /\
               dsap_prev n = loc /\ dsap_next n = loc /\ flag n = VL_WINNER) /\
    (forall ws, ~ chain_versions g' d ws) /\
    (forall me' s tr' g2 t r,
       visible g s loc = false ->
       exec alone me' g' (LkAcquire pk s) tr' g2 t ->
       t <> Ret r /\ t <> Done r).
Proof.
  intros Lk M Ok.
  destruct (append_resolve_hit me g pk loc d Lk M) as (tr1 & g2 & X1 & Eh2 & Ehash & Lk2).
  destruct Ok as (ND & c & Hc & Hd & Hp & _ & Cf & D). simpl in Hp.
  destruct D as (L & HL & Ld & _ & _ & Lf & _).
  assert (Nd : loc <> d).
  { apply NoDup_cons in ND as (Nin & _). intros ->. apply Nin. left. }
  rewrite <- Eh2 in Hc, HL.
  destruct (append_tail_protocol me g2 loc d c L Hc Hd Hp HL Ld Lf Nd)
    as (tr2 & h' & X2 & Hloc & Hd' & Fr).
  exists (tr1 ++ tr2), (with_dsa h' g2).
  split; [eapply exec_trans; eassumption|].
  split; [exact Ehash|].
  split; [intros q Q; simpl; rewrite Fr by exact Q; rewrite Eh2; reflexivity|].
  split.
  { eexists. split; [exact Hloc|]. destruct L; simpl in *. auto. }
  split.
  { intros ws (c' & Hc' & _ & W). simpl in Hc'. rewrite Hd' in Hc'. injection Hc' as <-.
    rewrite Hp in W. revert W. eapply self_loop_no_walk; [exact Hloc| |].
    - destruct L; simpl in *. congruence.
    - destruct L; reflexivity. }
  intros me' s tr' g3 t r Hid X.
  assert (C : circling pk s d loc (with_dsa h' g2) (LkAcquire pk s)).
  { split; [simpl; rewrite Ehash; exact M|]. split; [exact Nd|]. split; [|auto].
    exists c, (set_dsap_next loc (set_dsap_prev loc L)). simpl.
    split; [exact Hd'|]. split; [exact Hd|]. split; [exact Hp|].
    split; [exact Hloc|].
    unfold visible in Hid. rewrite Eh2 in HL. rewrite HL in Hid.
    apply negb_false_iff in Hid.
    destruct L; simpl in *. auto. }
  pose proof (circling_forever _ _ _ _ _ _ _ _ _ C X) as (_ & _ & _ & I).
  split; intros ->; exact I.
Qed.

Lemma set_next_back T x y : dsap_next T = y -> set_dsap_next y (set_dsap_next x T) = T.
Proof. destruct T; simpl; intros ->; reflexivity. Qed.

Lemma set_prev_back c x y : dsap_prev c = y -> set_dsap_prev y (set_dsap_prev x c) = c.
Proof. destruct c; simpl; intros ->; reflexivity. Qed.

Lemma set_links_back c x y :
  dsap_prev c = y -> dsap_next c = y ->
  set_dsap_prev y (set_dsap_next y (set_dsap_prev x (set_dsap_next x c))) = c.
Proof. destruct c; simpl; intros -> ->; reflexivity. Qed.

(** Appending a node and fixing the same node up, run alone one after the
    other: the chains in between and at the end, and the nodes at the end. *)
Lemma append_fixup_nodes me me' g pk loc d vs :
  shared_lock_available g pk ->
  VChainHashLookup pk (vchain_hash g) = Some d ->
  chain_ok g d vs ->
  fresh_node g loc -> loc ∉ d :: vs ->
  exists tr1 g1 tr2 g2,
    returns me g (ApAcquire pk loc) tr1 g1 RVoid /\
    chain_ok g1 d (loc :: vs) /\
    returns me' g1 (FxReadPrev loc) tr2 g2 RVoid /\
    chain_ok g2 d vs /\
    (forall q, q <> loc -> dsa_vcluster g2 !! q = dsa_vcluster g !! q) /\
    (exists L, dsa_vcluster g !! loc = Some L /\
               dsa_vcluster g2 !! loc
               = Some (set_timestamp (clock g)
                         (set_dsap_next d (set_dsap_prev (hd d vs) L)))) /\
    vchain_hash g2 = vchain_hash g.
Proof.
  intros Lk M Ok Fresh Nin.
  destruct (append_one me g pk loc d vs Lk M Ok Fresh Nin)
    as (tr1 & g1 & R1 & Ok1 & _ & Eh1 & _).
  exists tr1, g1.
  pose proof (exec_keeps_clock _ _ _ _ _ _ R1) as Ck.
  destruct Fresh as (L & HL & Ld & Lf).
  destruct (append_resolve_hit me g pk loc d Lk M) as (tra & ga & Xa & Eha & Ehasha & Lka).
  destruct (chain_ok_tail _ _ _ Ok) as (c & T & Hc & Hd & Hp & HT & Tf).
  pose proof Nin as Nin0.
  rewrite not_elem_of_cons in Nin. destruct Nin as (Nd & Nvs).
  assert (Nt : loc <> dsap_prev c).
  { rewrite Hp. destruct vs as [|v vs]; simpl; [exact Nd|].
    rewrite not_elem_of_cons in Nvs. apply Nvs. }
  pose proof Hc as Hc0. pose proof HT as HT0. pose proof HL as HL0.
  rewrite <- Eha in Hc, HT, HL. rewrite <- Hp in HT.
  destruct (append_protocol me ga loc d c T L Hc Hd HT Tf HL Ld Nd Nt)
    as (trb & h' & Xb & Hloc & Hne & He & Fr).
  assert (R1' : returns me g (ApAcquire pk loc) (tra ++ trb) (with_dsa h' ga) RVoid).
  { eapply exec_trans; eassumption. }
  destruct (returns_det _ _ _ _ _ _ _ _ _ R1 R1') as (Eg & _). symmetry in Eg.
  set (m := set_dsap_next d (set_dsap_prev (dsap_prev c) L)) in *.
  assert (Hm : dsa_vcluster g1 !! loc = Some m) by (rewrite Eg; exact Hloc).
  assert (Other : forall q, q <> loc -> q <> d -> q <> dsap_prev c ->
                            dsa_vcluster g1 !! q = dsa_vcluster g !! q).
  { intros q Q1 Q2 Q3. rewrite Eg. simpl. rewrite Fr by assumption. rewrite Eha. reflexivity. }
  destruct Ok as (ND & c0 & Hc0' & _ & _ & Hn & Cf & D).
  assert (c0 = c) as -> by congruence.
  destruct (decide (dsap_prev c = d)) as [E | Ne].
  - (* the chain was empty *)
    assert (vs = []) as ->.
    { destruct vs as [|v vs]; [reflexivity|]. simpl in Hp. exfalso.
      apply NoDup_cons in ND as (X & _). apply X. rewrite <- Hp, E. left. }
    simpl in Hn.
    assert (Hd1 : dsa_vcluster g1 !! d
                  = Some (set_dsap_prev loc (set_dsap_next loc c))).
    { rewrite Eg. exact (He E). }
    destruct (fixup_runs me' g1 loc m (set_dsap_prev loc (set_dsap_next loc c))
                (set_dsap_next d (set_dsap_prev loc (set_dsap_next loc c)))) as (tr2 & R2).
    { exact Hm. }
    { simpl. rewrite E. exact Hd1. }
    { simpl. rewrite E. unfold poke. simpl. rewrite lookup_insert_eq. reflexivity. }
    { simpl. rewrite E. exact Nd. }
    { simpl. exact Nd. }
    simpl in R2. rewrite E in R2.
    eexists tr2, _. split; [exact R1|]. split; [exact Ok1|]. split; [exact R2|].
    assert (Same : forall q, q <> loc ->
              dsa_vcluster
                (poke loc (set_timestamp (clock g1) m)
                   (poke d (set_dsap_prev d
                              (set_dsap_next d (set_dsap_prev loc (set_dsap_next loc c))))
                      (poke d (set_dsap_next d (set_dsap_prev loc (set_dsap_next loc c))) g1)))
                !! q = dsa_vcluster g !! q).
    { intros q Q. unfold poke. simpl. rewrite lookup_insert_ne by congruence.
      destruct (decide (q = d)) as [->|Qd].
      - rewrite lookup_insert_eq, Hc0. f_equal. apply set_links_back; [exact E | exact Hn].
      - rewrite !lookup_insert_ne by congruence. apply Other; congruence. }
    split; [|split; [exact Same | split]].
    + split; [exact ND|]. exists c. rewrite Same by congruence.
      split; [exact Hc0|]. simpl. repeat split; auto.
    + exists L. split; [exact HL0|]. unfold poke. simpl. rewrite lookup_insert_eq.
      rewrite Ck. subst m. rewrite E. reflexivity.
    + simpl. exact Eh1.
  - (* the chain had a newest version *)
    assert (Htp : dsa_vcluster g1 !! dsap_prev c = Some (set_dsap_next loc T)).
    { rewrite Eg. exact (proj1 (Hne Ne)). }
    assert (Hd1 : dsa_vcluster g1 !! d = Some (set_dsap_prev loc c)).
    { rewrite Eg. exact (proj2 (Hne Ne)). }
    assert (Tn : dsap_next T = d).
    { destruct vs as [|v vs]; simpl in Hp; [congruence|].
      simpl in D. destruct D as (n & Hn' & _ & Dn & _).
      simpl in HT0. congruence. }
    destruct (fixup_runs me' g1 loc m (set_dsap_next loc T) (set_dsap_prev loc c))
      as (tr2 & R2).
    { exact Hm. }
    { simpl. exact Htp. }
    { simpl. unfold poke. simpl. rewrite lookup_insert_ne by congruence. exact Hd1. }
    { simpl. exact Nt. }
    { simpl. exact Nd. }
    simpl in R2.
    eexists tr2, _. split; [exact R1|]. split; [exact Ok1|]. split; [exact R2|].
    assert (Same : forall q, q <> loc ->
              dsa_vcluster
                (poke loc (set_timestamp (clock g1) m)
                   (poke d (set_dsap_prev (dsap_prev c) (set_dsap_prev loc c))
                      (poke (dsap_prev c) (set_dsap_next d (set_dsap_next loc T)) g1)))
                !! q = dsa_vcluster g !! q).
    { intros q Q. unfold poke. simpl. rewrite lookup_insert_ne by congruence.
      destruct (decide (q = d)) as [->|Qd].
      - rewrite lookup_insert_eq, Hc0. f_equal. apply set_prev_back. reflexivity.
      - rewrite lookup_insert_ne by congruence.
        destruct (decide (q = dsap_prev c)) as [->|Qt].
        + rewrite lookup_insert_eq. rewrite Hp, HT0. f_equal.
          apply set_next_back. exact Tn.
        + rewrite lookup_insert_ne by congruence. apply Other; congruence. }
    split; [|split; [exact Same | split]].
    + eapply chain_ok_frame with (g := g).
      * intros q Hq. apply Same. intros ->. exact (Nin0 Hq).
      * split; [exact ND|]. exists c. repeat split; auto.
    + exists L. split; [exact HL0|]. unfold poke. simpl. rewrite lookup_insert_eq.
      rewrite Ck. subst m. rewrite Hp. reflexivity.
    + simpl. exact Eh1.
Qed.

Lemma apply_write_comm w w' n :
  field_of w <> field_of w' ->
  apply_write w (apply_write w' n) = apply_write w' (apply_write w n).
Proof. destruct w, w'; simpl; intros Ne; try reflexivity; contradiction. Qed.

Lemma written_snoc ws p w q n :
  written (ws ++ [(p, w)]) q n
  = if decide (p = q) then apply_write w (written ws q n) else written ws q n.
Proof. unfold written. rewrite fold_left_app. reflexivity. Qed.

Lemma written_cons ws p w q n :
  written ((p, w) :: ws) q n
  = written ws q (if decide (p = q) then apply_write w n else n).
Proof. reflexivity. Qed.

Lemma written_comm ws p w n :
  (forall p' w', (p', w') ∈ ws -> p' = p -> field_of w <> field_of w') ->
  apply_write w (written ws p n) = written ws p (apply_write w n).
Proof.
  revert n. induction ws as [|[p' w'] ws IH]; intros n Ind; [reflexivity|].
  rewrite !written_cons. rewrite IH.
  - f_equal. destruct (decide (p' = p)) as [E|]; [|reflexivity].
    apply apply_write_comm. apply (Ind p' w'); [left | exact E].
  - intros p2 w2 Hin. apply Ind. right. exact Hin.
Qed.

Lemma written_none ws q n : (forall p w, (p, w) ∈ ws -> p <> q) -> written ws q n = n.
Proof.
  revert n. induction ws as [|[p w] ws IH]; intros n Hne; [reflexivity|].
  rewrite written_cons, decide_False by (apply (Hne p w); left).
  apply IH. intros p' w' Hin. apply (Hne p' w'). right. exact Hin.
Qed.

Lemma written_dsap ws q n : dsap (written ws q n) = dsap n.
Proof.
  revert n. induction ws as [|[p w] ws IH]; intros n; [reflexivity|].
  rewrite written_cons, IH. destruct (decide (p = q)); [|reflexivity].
  destruct w; reflexivity.
Qed.

Lemma written_xmin ws q n : xmin (written ws q n) = xmin n.
Proof.
  revert n. induction ws as [|[p w] ws IH]; intros n; [reflexivity|].
  rewrite written_cons, IH. destruct (decide (p = q)); [|reflexivity].
  destruct w; reflexivity.
Qed.

Lemma written_prev ws q n :
  (forall p w, (p, w) ∈ ws -> p = q -> field_of w <> F_prev) ->
  dsap_prev (written ws q n) = dsap_prev n.
Proof.
  revert n. induction ws as [|[p w] ws IH]; intros n Hne; [reflexivity|].
  rewrite written_cons, IH.
  - destruct (decide (p = q)) as [E|]; [|reflexivity].
    pose proof (Hne p w ltac:(left) E). destruct w; simpl in *; congruence.
  - intros p' w' Hin. apply (Hne p' w'). right. exact Hin.
Qed.

Lemma written_next ws q n :
  (forall p w, (p, w) ∈ ws -> p = q -> field_of w <> F_next) ->
  dsap_next (written ws q n) = dsap_next n.
Proof.
  revert n. induction ws as [|[p w] ws IH]; intros n Hne; [reflexivity|].
  rewrite written_cons, IH.
  - destruct (decide (p = q)) as [E|]; [|reflexivity].
    pose proof (Hne p w ltac:(left) E). destruct w; simpl in *; congruence.
  - intros p' w' Hin. apply (Hne p' w'). right. exact Hin.
Qed.

Lemma written_flag ws q n :
  (forall p w, (p, w) ∈ ws -> p = q -> field_of w <> F_flag) ->
  flag (written ws q n) = flag n.
Proof.
  revert n. induction ws as [|[p w] ws IH]; intros n Hne; [reflexivity|].
  rewrite written_cons, IH.
  - destruct (decide (p = q)) as [E|]; [|reflexivity].
    pose proof (Hne p w ltac:(left) E). destruct w; simpl in *; congruence.
  - intros p' w' Hin. apply (Hne p' w'). right. exact Hin.
Qed.

Lemma elem_of_take_list {A} (l : list A) k x : x ∈ take k l -> x ∈ l.
Proof. intros Hx. rewrite <- (take_drop k l). apply elem_of_app. left. exact Hx. Qed.

Lemma interleaved_lookup g0 aw fw i j g q n :
  interleaved g0 aw fw i j g -> dsa_vcluster g !! q = Some n ->
  exists n0, dsa_vcluster g0 !! q = Some n0 /\
             n = written (take j fw) q (written (take i aw) q n0).
Proof.
  intros (_ & Hq) Hn. rewrite Hq in Hn.
  destruct (dsa_vcluster g0 !! q) as [n0|]; [|discriminate].
  injection Hn as <-. eauto.
Qed.

Lemma interleaved_allocated g0 aw fw i j g q n0 :
  interleaved g0 aw fw i j g -> dsa_vcluster g0 !! q = Some n0 ->
  dsa_vcluster g !! q = Some (written (take j fw) q (written (take i aw) q n0)).
Proof. intros (_ & Hq) Hn. rewrite Hq, Hn. reflexivity. Qed.

Lemma interleaved_frame g0 aw fw i j g g1 :
  interleaved g0 aw fw i j g ->
  dsa_vcluster g1 = dsa_vcluster g -> vchain_hash g1 = vchain_hash g ->
  interleaved g0 aw fw i j g1.
Proof.
  intros (Eh & Hq) Ed Eh'. unfold interleaved. rewrite Ed, Eh'.
  split; [exact Eh | exact Hq].
Qed.

(** One more write of the first backend. *)
Lemma interleaved_append g0 aw fw i j g p w n :
  interleaved g0 aw fw i j g ->
  aw !! i = Some (p, w) ->
  dsa_vcluster g !! p = Some n ->
  (forall p' w', (p', w') ∈ fw -> p' = p -> field_of w <> field_of w') ->
  interleaved g0 aw fw (S i) j (poke p (apply_write w n) g).
Proof.
  intros I Hw Hn Ind. destruct (interleaved_lookup _ _ _ _ _ _ _ _ I Hn) as (n0 & Hn0 & ->).
  destruct I as (Eh & Hq). split; [exact Eh|].
  intros q. rewrite (take_S_r _ _ _ Hw). unfold poke. simpl.
  destruct (decide (q = p)) as [->|Ne].
  - rewrite lookup_insert_eq, Hn0. simpl. f_equal.
    rewrite written_snoc, decide_True by reflexivity.
    apply written_comm. intros p' w' Hin. apply Ind. eapply elem_of_take_list. exact Hin.
  - rewrite lookup_insert_ne by congruence. rewrite Hq.
    destruct (dsa_vcluster g0 !! q) as [m|]; [|reflexivity]. simpl.
    rewrite written_snoc, decide_False by congruence. reflexivity.
Qed.

Lemma apart_sym ws ws' : apart ws ws' -> apart ws' ws.
Proof.
  intros Ap p w p' w' Hin Hin' E Ef. symmetry in E, Ef.
  exact (Ap p' w' p w Hin' Hin E Ef).
Qed.

Lemma apart_take ws ws' i j : apart ws ws' -> apart (take i ws) (take j ws').
Proof.
  intros Ap p w p' w' Hin Hin'. apply Ap; eapply elem_of_take_list; eassumption.
Qed.

Lemma written_swap ws ws' q n :
  apart ws ws' -> written ws' q (written ws q n) = written ws q (written ws' q n).
Proof.
  revert n. induction ws as [|[p w] ws IH]; intros n Ap; [reflexivity|].
  rewrite !written_cons. rewrite IH.
  - f_equal. destruct (decide (p = q)) as [->|]; [|reflexivity].
    symmetry. apply written_comm. intros p' w' Hin E. apply (Ap q w p' w'); [left | exact Hin | exact E].
  - intros p1 w1 p2 w2 Hin. apply Ap. right. exact Hin.
Qed.

Lemma interleaved_swap g0 ws ws' i j g :
  apart ws ws' -> interleaved g0 ws ws' i j g -> interleaved g0 ws' ws j i g.
Proof.
  intros Ap (Eh & Hq). split; [exact Eh|].
  intros q. rewrite Hq. destruct (dsa_vcluster g0 !! q) as [n|]; [|reflexivity]. simpl.
  f_equal. apply written_swap. apply apart_take. exact Ap.
Qed.

Lemma interleaved_start g0 aw fw : interleaved g0 aw fw 0 0 g0.
Proof.
  split; [reflexivity|]. intros q. simpl.
  destruct (dsa_vcluster g0 !! q); reflexivity.
Qed.

Lemma interleaved_same g0 aw fw i j g g' :
  interleaved g0 aw fw i j g -> interleaved g0 aw fw i j g' ->
  forall q, dsa_vcluster g' !! q = dsa_vcluster g !! q.
Proof. intros (_ & Hq) (_ & Hq') q. rewrite Hq, Hq'. reflexivity. Qed.

Ltac pick Hin :=
  repeat (apply elem_of_cons in Hin as [Hin|Hin]; [injection Hin as -> ->|]);
  [.. | inversion Hin].

Lemma append_fixup_apart loc d tp mid P N now :
  P <> tp -> P <> loc -> N <> d -> N <> loc ->
  apart (append_writes loc d tp) (fixup_writes mid P N now).
Proof.
  intros D1 D2 D3 D4 p w p' w' Ha Hf E.
  unfold append_writes in Ha. unfold fixup_writes in Hf.
  pick Ha; pick Hf; simpl; try discriminate; congruence.
Qed.

Lemma fixup_fixup_apart m1 P1 N1 now1 m2 P2 N2 now2 :
  P1 <> P2 -> N1 <> N2 -> m1 <> m2 ->
  apart (fixup_writes m1 P1 N1 now1) (fixup_writes m2 P2 N2 now2).
Proof.
  intros D1 D2 D3 p w p' w' Ha Hf E. unfold fixup_writes in Ha, Hf.
  pick Ha; pick Hf; simpl; try discriminate; congruence.
Qed.

Lemma append_append_apart loc1 d1 tp1 loc2 d2 tp2 :
  (forall x, x ∈ [loc1; d1; tp1] -> x ∉ [loc2; d2; tp2]) ->
  apart (append_writes loc1 d1 tp1) (append_writes loc2 d2 tp2).
Proof.
  intros Dis p w p' w' Ha Hf E. exfalso. apply (Dis p).
  - unfold append_writes in Ha. pick Ha; rewrite !elem_of_cons; auto.
  - rewrite <- E. clear E Ha. unfold append_writes in Hf.
    pick Hf; rewrite !elem_of_cons; auto.
Qed.

Lemma aw_tail_marked loc d tp T :
  flag (written (take 5 (append_writes loc d tp)) tp T) = VL_APPEND.
Proof.
  unfold append_writes. simpl. unfold written. simpl.
  repeat case_decide; try congruence; reflexivity.
Qed.

(** A call of VChainAppendLocator beside writes that do not meet its
    own. *)
Section AppendSide.
Variables (g0 : Shared) (pk : PrimaryKey) (loc d tp : dsa_pointer).
Variables (c T L : VLocator) (other : list (dsa_pointer * Write)).
Hypothesis Hhash : VChainHashLookup pk (vchain_hash g0) = Some d.
Hypothesis Hc : dsa_vcluster g0 !! d = Some c.
Hypothesis Cd : dsap c = d.
Hypothesis Cp : dsap_prev c = tp.
Hypothesis HT : dsa_vcluster g0 !! tp = Some T.
Hypothesis Tf : flag T = VL_WINNER.
Hypothesis HL : dsa_vcluster g0 !! loc = Some L.
Hypothesis Ld : dsap L = loc.
Hypothesis Hapart : apart (append_writes loc d tp) other.

Lemma other_flag_tail j n : flag (written (take j other) tp n) = flag n.
Proof using Hapart.
  apply written_flag. intros p w Hin E Ef. apply elem_of_take_list in Hin.
  apply (Hapart tp (WFlag VL_APPEND) p w); [left | exact Hin | exact E |].
  simpl. symmetry. exact Ef.
Qed.

Lemma other_prev_anchor j n : dsap_prev (written (take j other) d n) = dsap_prev n.
Proof using Hapart.
  apply written_prev. intros p w Hin E Ef. apply elem_of_take_list in Hin.
  apply (Hapart d (WPrev loc) p w); [|exact Hin | exact E |].
  - unfold append_writes. rewrite !elem_of_cons. auto 10.
  - simpl. symmetry. exact Ef.
Qed.

Lemma append_side me i j g t evs g1 t1 :
  append_at pk loc d tp t i ->
  interleaved g0 (append_writes loc d tp) other i j g ->
  step me g t = Some (evs, g1, t1) ->
  exists i', append_at pk loc d tp t1 i' /\
             interleaved g0 (append_writes loc d tp) other i' j g1.
Proof using All.
  intros At I S.
  pose proof I as (Eh & _).
  assert (Apart : forall k p w, append_writes loc d tp !! k = Some (p, w) ->
            forall p' w', (p', w') ∈ other -> p' = p -> field_of w <> field_of w').
  { intros k p w Hk p' w' Hin E. apply (Hapart p w p' w'); [|exact Hin | exact E].
    eapply list_elem_of_lookup_2. exact Hk. }
  destruct t; try contradiction; simpl in At.
  - (* lines 150-154 *)
    destruct At as (-> & -> & ->). unfold step in S.
    destruct (LWLockAcquire _ _ g) as [g3|] eqn:A; [|discriminate]. simpl in S.
    injection S as <- <- <-. destruct (lock_acquire_frame _ _ _ _ A) as (Ed & Eh3).
    exists 0%nat. split; [simpl; auto|].
    eapply interleaved_frame; [exact I | exact Ed | exact Eh3].
  - (* line 155 *)
    destruct At as (-> & -> & ->). unfold step in S. rewrite Eh, Hhash in S.
    injection S as <- <- <-. exists 0%nat. split; [simpl; auto | exact I].
  - (* line 158 *)
    destruct At as (-> & -> & -> & ->). unfold step in S. injection S as <- <- <-.
    destruct (lock_release_frame (partition_lock pk) LW_SHARED g) as (Ed & Eh3).
    exists 0%nat. split; [simpl; auto|].
    eapply interleaved_frame; [exact I | exact Ed | exact Eh3].
  - (* lines 178, 183 *)
    destruct At as (-> & -> & ->). unfold step, deref in S.
    rewrite (interleaved_allocated _ _ _ _ _ _ _ _ I Hc) in S.
    injection S as <- <- <-. exists 0%nat. split; [|exact I].
    simpl. rewrite other_prev_anchor. simpl. auto.
  - (* line 187 *)
    destruct At as (-> & -> & -> & ->). unfold step, deref in S.
    pose proof (interleaved_allocated _ _ _ _ _ _ _ _ I HT) as Ht. rewrite Ht in S.
    injection S as <- <- <-. exists 1%nat. split.
    + simpl. rewrite other_flag_tail. simpl. auto.
    + apply (interleaved_append _ _ _ _ _ _ tp (WFlag VL_APPEND) _ I);
        [reflexivity | exact Ht | apply (Apart 0%nat); reflexivity].
  - (* lines 189, 201 *)
    destruct At as (-> & -> & -> & -> & ->). unfold step in S. simpl in S.
    injection S as <- <- <-. exists 1%nat. split; [simpl; auto | exact I].
  - (* line 203 *)
    destruct At as (-> & -> & -> & ->). unfold step, deref in S.
    pose proof (interleaved_allocated _ _ _ _ _ _ _ _ I HL) as Hl. rewrite Hl in S.
    injection S as <- <- <-. exists 2%nat. split; [simpl; auto|].
    apply (interleaved_append _ _ _ _ _ _ loc (WPrev tp) _ I);
      [reflexivity | exact Hl | apply (Apart 1%nat); reflexivity].
  - (* line 204 *)
    destruct At as (-> & -> & -> & ->). unfold step, deref2 in S.
    pose proof (interleaved_allocated _ _ _ _ _ _ _ _ I HL) as Hl.
    rewrite (interleaved_allocated _ _ _ _ _ _ _ _ I Hc), Hl in S.
    rewrite !written_dsap, Cd in S.
    injection S as <- <- <-. exists 3%nat. split; [simpl; auto|].
    apply (interleaved_append _ _ _ _ _ _ loc (WNext d) _ I);
      [reflexivity | exact Hl | apply (Apart 2%nat); reflexivity].
  - (* line 205 *)
    destruct At as (-> & -> & -> & ->). unfold step, deref2 in S.
    pose proof (interleaved_allocated _ _ _ _ _ _ _ _ I HT) as Ht.
    rewrite (interleaved_allocated _ _ _ _ _ _ _ _ I HL), Ht in S.
    rewrite !written_dsap, Ld in S.
    injection S as <- <- <-. exists 4%nat. split; [simpl; auto|].
    apply (interleaved_append _ _ _ _ _ _ tp (WNext loc) _ I);
      [reflexivity | exact Ht | apply (Apart 3%nat); reflexivity].
  - (* line 206 *)
    destruct At as (-> & -> & -> & ->). unfold step, deref2 in S.
    pose proof (interleaved_allocated _ _ _ _ _ _ _ _ I Hc) as Hd.
    rewrite (interleaved_allocated _ _ _ _ _ _ _ _ I HL), Hd in S.
    rewrite !written_dsap, Ld in S.
    injection S as <- <- <-. exists 5%nat. split; [simpl; auto|].
    apply (interleaved_append _ _ _ _ _ _ d (WPrev loc) _ I);
      [reflexivity | exact Hd | apply (Apart 4%nat); reflexivity].
  - (* line 209 *)
    destruct At as (-> & ->). unfold step, deref in S.
    pose proof (interleaved_allocated _ _ _ _ _ _ _ _ I HT) as Ht. rewrite Ht in S.
    injection S as <- <- <-. exists 6%nat. split.
    + split; [reflexivity|]. split; [|reflexivity].
      rewrite other_flag_tail. apply aw_tail_marked.
    + apply (interleaved_append _ _ _ _ _ _ tp (WFlag VL_WINNER) _ I);
        [reflexivity | exact Ht | apply (Apart 5%nat); reflexivity].
  - (* line 211: the flag read back is the appender's own mark *)
    destruct At as (-> & -> & ->). unfold step in S. simpl in S.
    injection S as <- <- <-. exists 6%nat. split; [simpl; auto | exact I].
  - (* the return *)
    destruct At as (-> & ->). unfold step in S. injection S as <- <- <-.
    exists 6%nat. split; [simpl; auto | exact I].
  - discriminate S.
Qed.

End AppendSide.

(** A call of VChainFixUpOne beside writes that do not meet its own and
    leave the links of [mid] alone. *)
Section FixupSide.
Variables (g0 : Shared) (mid P N : dsa_pointer) (m : VLocator).
Variable other : list (dsa_pointer * Write).
Hypothesis Hm : dsa_vcluster g0 !! mid = Some m.
Hypothesis Mp : dsap_prev m = P.
Hypothesis Mn : dsap_next m = N.
Hypothesis HP : is_Some (dsa_vcluster g0 !! P).
Hypothesis HN : is_Some (dsa_vcluster g0 !! N).
Hypothesis Hapart : apart (fixup_writes mid P N (clock g0)) other.
Hypothesis Hquiet : forall p w,
  (p, w) ∈ other -> p = mid -> field_of w <> F_prev /\ field_of w <> F_next.

Lemma other_links_mid j :
  dsap_prev (written (take j other) mid m) = P /\
  dsap_next (written (take j other) mid m) = N.
Proof using Hquiet Mp Mn.
  split.
  - rewrite written_prev; [exact Mp|]. intros p w Hin E. apply elem_of_take_list in Hin.
    exact (proj1 (Hquiet p w Hin E)).
  - rewrite written_next; [exact Mn|]. intros p w Hin E. apply elem_of_take_list in Hin.
    exact (proj2 (Hquiet p w Hin E)).
Qed.

Lemma fixup_side me i j g t evs g1 t1 :
  fixup_at mid P N t j ->
  interleaved g0 (fixup_writes mid P N (clock g0)) other j i g ->
  clock g = clock g0 ->
  step me g t = Some (evs, g1, t1) ->
  exists j', fixup_at mid P N t1 j' /\
             interleaved g0 (fixup_writes mid P N (clock g0)) other j' i g1.
Proof using All.
  intros At I Ec S.
  destruct HP as (Pn & HPn). destruct HN as (Nn & HNn).
  assert (Apart : forall k p w, fixup_writes mid P N (clock g0) !! k = Some (p, w) ->
            forall p' w', (p', w') ∈ other -> p' = p -> field_of w <> field_of w').
  { intros k p w Hk p' w' Hin E. apply (Hapart p w p' w'); [|exact Hin | exact E].
    eapply list_elem_of_lookup_2. exact Hk. }
  destruct t; try contradiction; simpl in At.
  - (* line 234 *)
    destruct At as (-> & ->). unfold step, deref in S.
    rewrite (interleaved_allocated _ _ _ _ _ _ _ _ I Hm) in S.
    injection S as <- <- <-. exists 0%nat. split; [|exact I].
    simpl. rewrite (proj1 (other_links_mid i)). auto.
  - (* line 235 *)
    destruct At as (-> & -> & ->). unfold step, deref in S.
    rewrite (interleaved_allocated _ _ _ _ _ _ _ _ I Hm) in S.
    injection S as <- <- <-. exists 0%nat. split; [|exact I].
    simpl. rewrite (proj2 (other_links_mid i)). auto.
  - (* line 241 *)
    destruct At as (-> & -> & -> & ->). unfold step, deref in S.
    pose proof (interleaved_allocated _ _ _ _ _ _ _ _ I HPn) as Hp. rewrite Hp in S.
    injection S as <- <- <-. exists 1%nat. split; [simpl; auto|].
    apply (interleaved_append _ _ _ _ _ _ P (WNext N) _ I);
      [reflexivity | exact Hp | apply (Apart 0%nat); reflexivity].
  - (* line 242 *)
    destruct At as (-> & -> & -> & ->). unfold step, deref in S.
    pose proof (interleaved_allocated _ _ _ _ _ _ _ _ I HNn) as Hn. rewrite Hn in S.
    injection S as <- <- <-. exists 2%nat. split; [simpl; auto|].
    apply (interleaved_append _ _ _ _ _ _ N (WPrev P) _ I);
      [reflexivity | exact Hn | apply (Apart 1%nat); reflexivity].
  - (* line 245 *)
    destruct At as (-> & ->). unfold step in S. injection S as <- <- <-.
    exists 2%nat. split; [simpl; auto | exact I].
  - (* line 248 *)
    destruct At as (-> & ->). unfold step, deref in S.
    pose proof (interleaved_allocated _ _ _ _ _ _ _ _ I Hm) as Hmid. rewrite Hmid in S.
    injection S as <- <- <-. exists 3%nat. split; [simpl; auto|]. rewrite Ec.
    apply (interleaved_append _ _ _ _ _ _ mid (WStamp (clock g0)) _ I);
      [reflexivity | exact Hmid | apply (Apart 2%nat); reflexivity].
  - (* the return *)
    destruct At as (-> & ->). unfold step in S. injection S as <- <- <-.
    exists 3%nat. split; [simpl; auto | exact I].
  - discriminate S.
Qed.

End FixupSide.

(** Two calls whose writes do not meet, in any interleaving. *)
Section TwoSides.
Variables (g0 : Shared) (at1 at2 : Thread -> nat -> Prop).
Variables (ws1 ws2 : list (dsa_pointer * Write)).
Hypothesis Hapart : apart ws1 ws2.
Hypothesis side1 : forall me i j g t evs g1 t1,
  at1 t i -> interleaved g0 ws1 ws2 i j g -> clock g = clock g0 ->
  step me g t = Some (evs, g1, t1) ->
  exists i', at1 t1 i' /\ interleaved g0 ws1 ws2 i' j g1.
Hypothesis side2 : forall me i j g t evs g1 t1,
  at2 t j -> interleaved g0 ws2 ws1 j i g -> clock g = clock g0 ->
  step me g t = Some (evs, g1, t1) ->
  exists j', at2 t1 j' /\ interleaved g0 ws2 ws1 j' i g1.

Lemma paired_step k cf tr cf' :
  paired g0 at1 at2 ws1 ws2 cf ->
  sched_step k cf = Some (tr, cf') ->
  paired g0 at1 at2 ws1 ws2 cf'.
Proof using All.
  intros (tA & tB & i & j & Ths & IA & IB & Ck & I) E.
  apply sched_step_inv in E as (t & evs & g1 & t1 & Ht & St & -> & ->).
  pose proof (step_keeps_clock _ _ _ _ _ _ St) as Ck1. rewrite Ck in Ck1.
  rewrite Ths in Ht |- *. destruct k as [|[|k]]; simpl in Ht.
  - injection Ht as <-.
    destruct (side1 _ _ _ _ _ _ _ _ IA I Ck St) as (i' & IA' & I').
    exists t1, tB, i', j. auto 10.
  - injection Ht as <-.
    apply (interleaved_swap _ _ _ _ _ _ Hapart) in I.
    destruct (side2 _ _ _ _ _ _ _ _ IB I Ck St) as (j' & IB' & I').
    apply (interleaved_swap _ _ _ _ _ _ (apart_sym _ _ Hapart)) in I'.
    exists tA, t1, i, j'. auto 10.
  - discriminate Ht.
Qed.

Lemma paired_run sch cf tr cf' :
  paired g0 at1 at2 ws1 ws2 cf ->
  sched_run sch cf = Some (tr, cf') ->
  paired g0 at1 at2 ws1 ws2 cf'.
Proof using All.
  revert cf tr. induction sch as [|k sch IH]; intros cf tr I E.
  - simpl in E. injection E as <- <-. exact I.
  - apply sched_run_cons in E as (tr1 & c1 & tr2 & E1 & E2 & _).
    eapply IH; [|exact E2]. eapply paired_step; eauto.
Qed.

End TwoSides.

Lemma exec_alone_sched k g t tr g' t' :
  exec alone k g t tr g' t' ->
  forall ths, ths !! k = Some t ->
  exists sch tr',
    sched_run sch {| shared := g; threads := ths |}
    = Some (tr', {| shared := g'; threads := <[k := t']> ths |}).
Proof.
  induction 1 as [g t | g t evs g1 t1 tr g2 t2 St X IH | g g1 t tr g2 t2 R X IH];
    intros ths Hk.
  - exists [], []. simpl. rewrite list_insert_id by exact Hk. reflexivity.
  - destruct (IH (<[k := t1]> ths)) as (sch & tr' & E).
    { apply list_lookup_insert_eq. eapply lookup_lt_Some. exact Hk. }
    exists (k :: sch), (map (pair k) evs ++ tr'). simpl. unfold sched_step. simpl.
    rewrite Hk. simpl. rewrite St. simpl. rewrite E. simpl.
    rewrite list_insert_insert_eq. reflexivity.
  - destruct R.
Qed.

Lemma last_cons_elem {A} (x : A) (l : list A) a : default a (last (x :: l)) ∈ x :: l.
Proof.
  destruct (last (x :: l)) as [z|] eqn:E; simpl.
  - apply last_Some_elem_of. exact E.
  - apply last_None in E. discriminate E.
Qed.

Lemma append_at_safe pk loc d tp t i :
  append_at pk loc d tp t i ->
  (t <> Faulted /\ t <> Aborted /\ in_spin t = false) /\ fixing t = false.
Proof.
  intros At. split; [split; [|split]|].
  - intros ->; exact At.
  - intros ->; exact At.
  - destruct t; try reflexivity; contradiction.
  - destruct t; try reflexivity; contradiction.
Qed.

Lemma fixup_at_safe mid P N t j :
  fixup_at mid P N t j -> t <> Faulted /\ t <> Aborted /\ in_spin t = false.
Proof.
  intros At. split; [|split].
  - intros ->; exact At.
  - intros ->; exact At.
  - destruct t; try reflexivity; contradiction.
Qed.

(** X15.  An appender beside a fix-up of a version that is not the tail need
    not know of each other.  Backend 0 runs VChainAppendLocator(pk, loc)
    and backend 1 runs VChainFixUpOne(mid) on a well-formed chain of which
    [mid] is a version other than the newest.  However their steps
    interleave, neither call faults or aborts, and the appender neither
    spins nor calls VChainFixUpOne itself; and once both have returned
    the chain is well formed, with [loc] as newest version and without
    [mid], and its nodes are exactly those that the two calls leave when one
    runs after the other. *)
Theorem append_beside_fixup sch g pk loc d tp xs mid ys tr c' :
  shared_lock_available g pk ->
  VChainHashLookup pk (vchain_hash g) = Some d ->
  chain_ok g d (tp :: xs ++ mid :: ys) ->
  fresh_node g loc -> loc ∉ d :: tp :: xs ++ mid :: ys ->
  sched_run sch {| shared := g; threads := [ApAcquire pk loc; FxReadPrev mid] |}
  = Some (tr, c') ->
  Forall (fun t => t <> Faulted /\ t <> Aborted /\ in_spin t = false) (threads c') /\
  (forall t, threads c' !! 0%nat = Some t -> fixing t = false) /\
  (all_done c' ->
   threads c' = [Done RVoid; Done RVoid] /\
   chain_ok (shared c') d (loc :: tp :: xs ++ ys) /\
   exists tr1 g1 tr2 g2,
     returns 0 g (ApAcquire pk loc) tr1 g1 RVoid /\
     returns 1 g1 (FxReadPrev mid) tr2 g2 RVoid /\
     dsa_vcluster (shared c') = dsa_vcluster g2).
Proof.
  intros Lk M Ok Fresh Nin Run.
  (* the two calls one after the other *)
  destruct (append_one 0%nat g pk loc d _ Lk M Ok Fresh Nin)
    as (tr1 & g1 & R1 & Ok1 & _).
  destruct (fixup_one 1%nat g1 d (loc :: tp :: xs) mid ys Ok1)
    as (tr2 & g2 & m1 & R2 & Ok2 & _).
  (* what the chain offers *)
  destruct (chain_ok_tail _ _ _ Ok) as (c & T & Hc & Cd & Cp & HT & Tf). simpl in Cp, HT.
  destruct Fresh as (L & HL & Ld & Lf).
  destruct Ok as (ND & c0 & Hc0 & _ & _ & _ & _ & D).
  destruct (dll_mid _ _ (tp :: xs) mid ys _ D) as (m & Hm & _ & Mn & Mp).
  set (N := default d (last (tp :: xs))) in *.
  set (P := hd d ys) in *.
  assert (HNin : N ∈ tp :: xs) by apply last_cons_elem.
  assert (HPin : P = d \/ P ∈ ys).
  { subst P. destruct ys as [|y ys]; simpl; [left; reflexivity | right; left]. }
  apply NoDup_cons in ND as (Nd & ND).
  change (tp :: xs ++ mid :: ys) with ((tp :: xs) ++ mid :: ys) in Nd, ND, Nin, D.
  apply NoDup_app in ND as (ND1 & Dis & ND2).
  apply NoDup_cons in ND2 as (Nmid & ND2).
  apply not_elem_of_cons in Nin as (Ld' & Nin).
  apply not_elem_of_app in Nin as (Lxs & Nin).
  apply not_elem_of_cons in Nin as (Lmid & Lys).
  apply not_elem_of_app in Nd as (Dxs & Nd).
  apply not_elem_of_cons in Nd as (Dmid & Dys).
  assert (Tin : tp ∈ tp :: xs) by left.
  assert (HP : is_Some (dsa_vcluster g !! P)).
  { destruct HPin as [-> | Hin]; [eauto|].
    eapply dll_allocated; [exact D|]. apply elem_of_app. right. right. exact Hin. }
  assert (HN : is_Some (dsa_vcluster g !! N)).
  { eapply dll_allocated; [exact D|]. apply elem_of_app. left. exact HNin. }
  assert (Dist : loc <> d /\ loc <> tp /\ loc <> mid /\ mid <> d /\ mid <> tp /\
                 P <> tp /\ P <> loc /\ N <> d /\ N <> loc).
  { split; [exact Ld'|]. split; [intros ->; exact (Lxs Tin)|].
    split; [exact Lmid|]. split; [congruence|].
    split; [intros E; apply (Dis tp Tin); rewrite <- E; left|].
    split; [|split; [|split]].
    - destruct HPin as [-> | Hin]; [intros E; apply Dxs; rewrite E; exact Tin|].
      intros E. apply (Dis tp Tin). right. rewrite <- E. exact Hin.
    - destruct HPin as [-> | Hin]; [congruence|]. intros E. apply Lys. rewrite <- E. exact Hin.
    - intros E. apply Dxs. rewrite <- E. exact HNin.
    - intros E. apply Lxs. rewrite <- E. exact HNin. }
  destruct Dist as (D1 & D2 & D3 & D4 & D5 & D6 & D7 & D8 & D9).
  set (aw := append_writes loc d tp).
  set (fw := fixup_writes mid P N (clock g)).
  assert (Ap : apart aw fw) by (apply append_fixup_apart; assumption).
  assert (Quiet : forall p w, (p, w) ∈ aw -> p = mid ->
            field_of w <> F_prev /\ field_of w <> F_next).
  { intros p w Hin E. exfalso. unfold aw, append_writes in Hin. pick Hin; congruence. }
  set (At1 := append_at pk loc d tp). set (At2 := fixup_at mid P N).
  assert (Start : paired g At1 At2 aw fw
                    {| shared := g; threads := [ApAcquire pk loc; FxReadPrev mid] |}).
  { exists (ApAcquire pk loc), (FxReadPrev mid), 0%nat, 0%nat.
    split; [reflexivity|]. split; [simpl; auto|]. split; [simpl; auto|].
    split; [reflexivity | apply interleaved_start]. }
  assert (Keep : forall s cf t cf',
            paired g At1 At2 aw fw cf -> sched_run s cf = Some (t, cf') ->
            paired g At1 At2 aw fw cf').
  { intros s cf t cf'. apply paired_run; [exact Ap | |].
    - intros me i j g0 t0 evs g3 t3 IA I _.
      apply (append_side g pk loc d tp c T L fw M Hc Cd Cp HT Tf HL Ld Ap me i j); assumption.
    - intros me. apply (fixup_side g mid P N m aw Hm Mp Mn HP HN (apart_sym _ _ Ap) Quiet). }
  pose proof (Keep _ _ _ _ Start Run) as (tA & tB & i & j & Ths & IA & IB & _ & I).
  split.
  { rewrite Ths. constructor; [exact (proj1 (append_at_safe _ _ _ _ _ _ IA))|].
    constructor; [exact (fixup_at_safe _ _ _ _ _ IB) | constructor]. }
  split.
  { rewrite Ths. intros t Ht. injection Ht as <-. eapply append_at_safe. exact IA. }
  intros AllDone. unfold all_done in AllDone. rewrite Ths in AllDone.
  apply Forall_cons in AllDone as ((rA & ->) & AllDone).
  apply Forall_cons in AllDone as ((rB & ->) & _).
  simpl in IA, IB. destruct IA as (-> & ->). destruct IB as (-> & ->).
  split; [exact Ths|].
  (* the same writes, one call after the other *)
  destruct (exec_alone_sched _ _ _ _ _ _ R1 [ApAcquire pk loc; FxReadPrev mid] eq_refl)
    as (s1 & t1 & E1). simpl in E1.
  pose proof (Keep _ _ _ _ Start E1) as Mid.
  destruct (exec_alone_sched _ _ _ _ _ _ R2 [Done RVoid; FxReadPrev mid] eq_refl)
    as (s2 & t2 & E2). simpl in E2.
  pose proof (Keep _ _ _ _ Mid E2) as (tA & tB & i & j & Ths2 & IA & IB & _ & I2).
  simpl in Ths2. injection Ths2 as <- <-. simpl in IA, IB, I2.
  destruct IA as (_ & ->). destruct IB as (_ & ->).
  pose proof (interleaved_same _ _ _ _ _ _ _ I2 I) as Same.
  split.
  - eapply chain_ok_frame; [|exact Ok2]. intros q _. apply Same.
  - exists tr1, g1, tr2, g2. split; [exact R1|]. split; [exact R2|].
    apply map_eq. exact Same.
Qed.

Lemma hd_elem (d : dsa_pointer) vs : hd d vs ∈ d :: vs.
Proof. destruct vs as [|v vs]; simpl; [left | right; left]. Qed.

Lemma interleaved_fst g0 ws1 ws2 i j j' g g' q :
  interleaved g0 ws1 ws2 i j g -> interleaved g0 ws1 ws2 i j' g' ->
  (forall p w, (p, w) ∈ ws2 -> p <> q) ->
  dsa_vcluster g !! q = dsa_vcluster g' !! q.
Proof.
  intros (_ & Hq) (_ & Hq') No. rewrite Hq, Hq'.
  destruct (dsa_vcluster g0 !! q) as [n|]; [|reflexivity]. simpl. f_equal.
  assert (K : forall k m, written (take k ws2) q m = m).
  { intros k m. apply written_none. intros p w Hin. apply elem_of_take_list in Hin.
    eapply No. exact Hin. }
  rewrite !K. reflexivity.
Qed.

Lemma interleaved_snd g0 ws1 ws2 i i' j g g' q :
  interleaved g0 ws1 ws2 i j g -> interleaved g0 ws1 ws2 i' j g' ->
  (forall p w, (p, w) ∈ ws1 -> p <> q) ->
  dsa_vcluster g !! q = dsa_vcluster g' !! q.
Proof.
  intros (_ & Hq) (_ & Hq') No. rewrite Hq, Hq'.
  destruct (dsa_vcluster g0 !! q) as [n|]; [|reflexivity]. simpl. f_equal.
  assert (K : forall k m, written (take k ws1) q m = m).
  { intros k m. apply written_none. intros p w Hin. apply elem_of_take_list in Hin.
    eapply No. exact Hin. }
  rewrite !K. reflexivity.
Qed.

Lemma append_writes_where loc d tp p w :
  (p, w) ∈ append_writes loc d tp -> p ∈ [loc; d; tp].
Proof. intros Hin. unfold append_writes in Hin. pick Hin; rewrite !elem_of_cons; auto. Qed.

(** X17.  Appends to two keys do not meet.  Backend 0 appends [loc1] to the
    chain of [pk1] and backend 1 appends [loc2] to the chain of [pk2], two
    well-formed chains that share no node.  However their steps interleave,
    neither call faults, aborts or spins; and once both have returned each
    chain is well formed with its new node as newest version. *)
Theorem appends_to_two_keys sch g pk1 loc1 d1 vs1 pk2 loc2 d2 vs2 tr c' :
  shared_lock_available g pk1 -> shared_lock_available g pk2 ->
  VChainHashLookup pk1 (vchain_hash g) = Some d1 ->
  VChainHashLookup pk2 (vchain_hash g) = Some d2 ->
  chain_ok g d1 vs1 -> chain_ok g d2 vs2 ->
  fresh_node g loc1 -> fresh_node g loc2 ->
  loc1 ∉ d1 :: vs1 -> loc2 ∉ d2 :: vs2 ->
  (forall x, x ∈ loc1 :: d1 :: vs1 -> x ∉ loc2 :: d2 :: vs2) ->
  sched_run sch {| shared := g; threads := [ApAcquire pk1 loc1; ApAcquire pk2 loc2] |}
  = Some (tr, c') ->
  Forall (fun t => t <> Faulted /\ t <> Aborted /\ in_spin t = false) (threads c') /\
  (all_done c' ->
   threads c' = [Done RVoid; Done RVoid] /\
   chain_ok (shared c') d1 (loc1 :: vs1) /\
   chain_ok (shared c') d2 (loc2 :: vs2)).
Proof.
  intros Lk1 Lk2 M1 M2 Ok1 Ok2 Fr1 Fr2 Nin1 Nin2 Dis Run.
  destruct (append_one 0%nat g pk1 loc1 d1 vs1 Lk1 M1 Ok1 Fr1 Nin1)
    as (tr1 & g1 & R1 & Ok1' & _).
  destruct (append_one 1%nat g pk2 loc2 d2 vs2 Lk2 M2 Ok2 Fr2 Nin2)
    as (tr2 & g2 & R2 & Ok2' & _).
  destruct (chain_ok_tail _ _ _ Ok1) as (c1 & T1 & Hc1 & Cd1 & Cp1 & HT1 & Tf1).
  destruct (chain_ok_tail _ _ _ Ok2) as (c2 & T2 & Hc2 & Cd2 & Cp2 & HT2 & Tf2).
  destruct Fr1 as (L1 & HL1 & Ld1 & _). destruct Fr2 as (L2 & HL2 & Ld2 & _).
  set (tp1 := hd d1 vs1) in *. set (tp2 := hd d2 vs2) in *.
  assert (In1 : forall x, x ∈ [loc1; d1; tp1] -> x ∈ loc1 :: d1 :: vs1).
  { intros x Hx. rewrite !elem_of_cons in Hx. destruct Hx as [-> | [-> | [-> | Hx]]].
    - left.
    - right. left.
    - right. apply hd_elem.
    - inversion Hx. }
  assert (In2 : forall x, x ∈ [loc2; d2; tp2] -> x ∈ loc2 :: d2 :: vs2).
  { intros x Hx. rewrite !elem_of_cons in Hx. destruct Hx as [-> | [-> | [-> | Hx]]].
    - left.
    - right. left.
    - right. apply hd_elem.
    - inversion Hx. }
  set (aw1 := append_writes loc1 d1 tp1). set (aw2 := append_writes loc2 d2 tp2).
  assert (Ap : apart aw1 aw2).
  { apply append_append_apart. intros x Hx Hx'. exact (Dis x (In1 x Hx) (In2 x Hx')). }
  set (At1 := append_at pk1 loc1 d1 tp1). set (At2 := append_at pk2 loc2 d2 tp2).
  assert (Start : paired g At1 At2 aw1 aw2
            {| shared := g; threads := [ApAcquire pk1 loc1; ApAcquire pk2 loc2] |}).
  { exists (ApAcquire pk1 loc1), (ApAcquire pk2 loc2), 0%nat, 0%nat.
    split; [reflexivity|]. split; [simpl; auto|]. split; [simpl; auto|].
    split; [reflexivity | apply interleaved_start]. }
  assert (Keep : forall s cf t cf',
            paired g At1 At2 aw1 aw2 cf -> sched_run s cf = Some (t, cf') ->
            paired g At1 At2 aw1 aw2 cf').
  { intros s cf t cf'. apply paired_run; [exact Ap | |].
    - intros me i j g0 t0 evs g3 t3 IA I _.
      apply (append_side g pk1 loc1 d1 tp1 c1 T1 L1 aw2 M1 Hc1 Cd1 Cp1 HT1 Tf1 HL1 Ld1 Ap
               me i j); assumption.
    - intros me i j g0 t0 evs g3 t3 IB I _.
      apply (append_side g pk2 loc2 d2 tp2 c2 T2 L2 aw1 M2 Hc2 Cd2 Cp2 HT2 Tf2 HL2 Ld2
               (apart_sym _ _ Ap) me j i); assumption. }
  pose proof (Keep _ _ _ _ Start Run) as (tA & tB & i & j & Ths & IA & IB & _ & I).
  split.
  { rewrite Ths. constructor; [exact (proj1 (append_at_safe _ _ _ _ _ _ IA))|].
    constructor; [exact (proj1 (append_at_safe _ _ _ _ _ _ IB)) | constructor]. }
  intros AllDone. unfold all_done in AllDone. rewrite Ths in AllDone.
  apply Forall_cons in AllDone as ((rA & ->) & AllDone).
  apply Forall_cons in AllDone as ((rB & ->) & _).
  simpl in IA, IB. destruct IA as (-> & ->). destruct IB as (-> & ->).
  split; [exact Ths|].
  destruct (exec_alone_sched _ _ _ _ _ _ R1 [ApAcquire pk1 loc1; ApAcquire pk2 loc2] eq_refl)
    as (s1 & t1 & E1). simpl in E1.
  pose proof (Keep _ _ _ _ Start E1) as (tA & tB & i & j & Ths1 & IA & IB & _ & I1).
  simpl in Ths1. injection Ths1 as <- <-. simpl in IA, IB, I1.
  destruct IA as (_ & ->). destruct IB as (_ & _ & ->).
  destruct (exec_alone_sched _ _ _ _ _ _ R2 [ApAcquire pk1 loc1; ApAcquire pk2 loc2] eq_refl)
    as (s2 & t2 & E2). simpl in E2.
  pose proof (Keep _ _ _ _ Start E2) as (tA & tB & i & j & Ths2 & IA & IB & _ & I2).
  simpl in Ths2. injection Ths2 as <- <-. simpl in IA, IB, I2.
  destruct IA as (_ & _ & ->). destruct IB as (_ & ->).
  split.
  - eapply chain_ok_frame; [|exact Ok1']. intros q Hq.
    apply (interleaved_fst _ _ _ _ _ _ _ _ _ I I1).
    intros p w Hin ->. apply append_writes_where in Hin.
    apply (Dis q); [|apply In2; exact Hin].
    rewrite !elem_of_cons in Hq |- *. tauto.
  - eapply chain_ok_frame; [|exact Ok2']. intros q Hq.
    apply (interleaved_snd _ _ _ _ _ _ _ _ _ I I2).
    intros p w Hin ->. apply append_writes_where in Hin.
    apply (Dis q); [apply In1; exact Hin|].
    rewrite !elem_of_cons in Hq |- *. tauto.
Qed.

Lemma fixup_quiet m1 m2 P2 N2 now p w :
  P2 <> m1 -> N2 <> m1 ->
  (p, w) ∈ fixup_writes m2 P2 N2 now -> p = m1 ->
  field_of w <> F_prev /\ field_of w <> F_next.
Proof.
  intros D1 D2 Hin E. unfold fixup_writes in Hin.
  pick Hin; simpl; try congruence. split; discriminate.
Qed.

(** X16.  Two fix-ups of versions that are not neighbours do not meet.  Backend
    0 runs VChainFixUpOne(m1) and backend 1 runs VChainFixUpOne(m2), [m1]
    and [m2] being versions of one well-formed chain with at least one
    version between them.  However their steps interleave, neither call
    faults; and once both have returned the chain is well formed without
    [m1] and [m2], its nodes being exactly those that the two calls leave
    when one runs after the other. *)
Theorem fixups_of_distant_versions sch g d xs m1 ys m2 zs tr c' :
  chain_ok g d (xs ++ m1 :: ys ++ m2 :: zs) -> ys <> [] ->
  sched_run sch {| shared := g; threads := [FxReadPrev m1; FxReadPrev m2] |}
  = Some (tr, c') ->
  Forall (fun t => t <> Faulted /\ t <> Aborted /\ in_spin t = false) (threads c') /\
  (all_done c' ->
   threads c' = [Done RVoid; Done RVoid] /\
   chain_ok (shared c') d (xs ++ ys ++ zs) /\
   exists tr1 g1 tr2 g2,
     returns 0 g (FxReadPrev m1) tr1 g1 RVoid /\
     returns 1 g1 (FxReadPrev m2) tr2 g2 RVoid /\
     dsa_vcluster (shared c') = dsa_vcluster g2).
Proof.
  intros Ok Hys Run.
  (* the two calls one after the other *)
  destruct (fixup_one 0%nat g d xs m1 (ys ++ m2 :: zs) Ok)
    as (tr1 & g1 & a1' & R1 & Ok1 & _).
  rewrite app_assoc in Ok1.
  destruct (fixup_one 1%nat g1 d (xs ++ ys) m2 zs Ok1)
    as (tr2 & g2 & a2' & R2 & Ok2 & _).
  rewrite <- app_assoc in Ok2.
  (* what the chain offers *)
  destruct Ok as (ND & c & Hc & _ & _ & _ & _ & D).
  destruct (dll_mid _ _ xs m1 (ys ++ m2 :: zs) _ D) as (a1 & Ha1 & _ & Mn1 & Mp1).
  pose proof D as D'.
  change (m1 :: ys ++ m2 :: zs) with ((m1 :: ys) ++ m2 :: zs) in D'.
  rewrite app_assoc in D'.
  destruct (dll_mid _ _ (xs ++ m1 :: ys) m2 zs _ D') as (a2 & Ha2 & _ & Mn2 & Mp2).
  destruct ys as [|y ys]; [contradiction|]. clear Hys.
  set (N1 := default d (last xs)) in *.
  set (P1 := hd d ((y :: ys) ++ m2 :: zs)) in *.
  set (N2 := default d (last (xs ++ m1 :: y :: ys))) in *.
  set (P2 := hd d zs) in *.
  assert (EP1 : P1 = y) by reflexivity.
  assert (HN2in : N2 ∈ y :: ys).
  { subst N2. rewrite last_app. change (m1 :: y :: ys) with ([m1] ++ y :: ys).
    rewrite last_app.
    destruct (last (y :: ys)) as [z|] eqn:E; simpl.
    - apply last_Some_elem_of. exact E.
    - apply last_None in E. discriminate E. }
  assert (HN1in : N1 = d \/ N1 ∈ xs).
  { subst N1. destruct (last xs) as [z|] eqn:E; simpl; [right | left; reflexivity].
    apply last_Some_elem_of. exact E. }
  assert (HP2in : P2 = d \/ P2 ∈ zs).
  { subst P2. destruct zs as [|z zs]; simpl; [left; reflexivity | right; left]. }
  apply NoDup_cons in ND as (Nd & ND).
  apply NoDup_app in ND as (_ & Dx & ND).
  apply NoDup_cons in ND as (Nm1 & ND).
  apply NoDup_app in ND as (_ & Dy & ND).
  apply NoDup_cons in ND as (Nm2 & _).
  apply not_elem_of_app in Nd as (Dxs & Nd).
  apply not_elem_of_cons in Nd as (Dm1 & Nd).
  apply not_elem_of_app in Nd as (Dys & Nd).
  apply not_elem_of_cons in Nd as (Dm2 & Dzs).
  apply not_elem_of_app in Nm1 as (M1ys & Nm1).
  apply not_elem_of_cons in Nm1 as (M12 & M1zs).
  assert (Yin : forall x, x ∈ y :: ys -> x ∈ m1 :: (y :: ys) ++ m2 :: zs).
  { intros x Hx. right. apply elem_of_app. left. exact Hx. }
  assert (Zin : forall x, x ∈ zs -> x ∈ m1 :: (y :: ys) ++ m2 :: zs).
  { intros x Hx. right. apply elem_of_app. right. right. exact Hx. }
  assert (Yd : forall x, x ∈ y :: ys -> x <> d).
  { intros x Hx ->. exact (Dys Hx). }
  assert (Yx : forall x, x ∈ y :: ys -> x ∉ xs).
  { intros x Hx Hx'. exact (Dx x Hx' (Yin x Hx)). }
  assert (Yz : forall x, x ∈ y :: ys -> x ∉ zs).
  { intros x Hx Hx'. apply (Dy x Hx). right. exact Hx'. }
  assert (Yin1 : y ∈ y :: ys) by left.
  assert (D1 : P1 <> P2).
  { rewrite EP1. destruct HP2in as [-> | Hin]; [exact (Yd y Yin1)|].
    intros E. apply (Yz y Yin1). rewrite E. exact Hin. }
  assert (D2 : N1 <> N2).
  { destruct HN1in as [-> | Hin]; [intros E; exact (Yd N2 HN2in (eq_sym E))|].
    intros E. apply (Yx N2 HN2in). rewrite <- E. exact Hin. }
  assert (D3 : P2 <> m1).
  { destruct HP2in as [-> | Hin]; [congruence|]. intros E. apply M1zs. rewrite <- E. exact Hin. }
  assert (D4 : N2 <> m1).
  { intros E. apply M1ys. rewrite <- E. exact HN2in. }
  assert (D5 : P1 <> m2).
  { rewrite EP1. intros E. apply (Dy y Yin1). rewrite E. left. }
  assert (D6 : N1 <> m2).
  { destruct HN1in as [-> | Hin]; [congruence|]. intros E.
    apply (Dx N1 Hin). rewrite E. right. apply elem_of_app. right. left. }
  assert (HP1 : is_Some (dsa_vcluster g !! P1)).
  { eapply dll_allocated; [exact D|]. apply elem_of_app. right. apply Yin.
    rewrite EP1. exact Yin1. }
  assert (HN1 : is_Some (dsa_vcluster g !! N1)).
  { destruct HN1in as [-> | Hin]; [eauto|].
    eapply dll_allocated; [exact D|]. apply elem_of_app. left. exact Hin. }
  assert (HP2 : is_Some (dsa_vcluster g !! P2)).
  { destruct HP2in as [-> | Hin]; [eauto|].
    eapply dll_allocated; [exact D|]. apply elem_of_app. right. apply Zin. exact Hin. }
  assert (HN2 : is_Some (dsa_vcluster g !! N2)).
  { eapply dll_allocated; [exact D|]. apply elem_of_app. right. apply Yin. exact HN2in. }
  set (fw1 := fixup_writes m1 P1 N1 (clock g)).
  set (fw2 := fixup_writes m2 P2 N2 (clock g)).
  assert (Ap : apart fw1 fw2) by (apply fixup_fixup_apart; assumption).
  set (At1 := fixup_at m1 P1 N1). set (At2 := fixup_at m2 P2 N2).
  assert (Start : paired g At1 At2 fw1 fw2
                    {| shared := g; threads := [FxReadPrev m1; FxReadPrev m2] |}).
  { exists (FxReadPrev m1), (FxReadPrev m2), 0%nat, 0%nat.
    split; [reflexivity|]. split; [simpl; auto|]. split; [simpl; auto|].
    split; [reflexivity | apply interleaved_start]. }
  assert (Keep : forall s cf t cf',
            paired g At1 At2 fw1 fw2 cf -> sched_run s cf = Some (t, cf') ->
            paired g At1 At2 fw1 fw2 cf').
  { intros s cf t cf'. apply paired_run; [exact Ap | |].
    - intros me i j.
      apply (fixup_side g m1 P1 N1 a1 fw2 Ha1 Mp1 Mn1 HP1 HN1 Ap
               (fun p w => fixup_quiet m1 m2 P2 N2 (clock g) p w D3 D4) me j i).
    - intros me.
      apply (fixup_side g m2 P2 N2 a2 fw1 Ha2 Mp2 Mn2 HP2 HN2 (apart_sym _ _ Ap)
               (fun p w => fixup_quiet m2 m1 P1 N1 (clock g) p w D5 D6)). }
  pose proof (Keep _ _ _ _ Start Run) as (tA & tB & i & j & Ths & IA & IB & _ & I).
  split.
  { rewrite Ths. constructor; [exact (fixup_at_safe _ _ _ _ _ IA)|].
    constructor; [exact (fixup_at_safe _ _ _ _ _ IB) | constructor]. }
  intros AllDone. unfold all_done in AllDone. rewrite Ths in AllDone.
  apply Forall_cons in AllDone as ((rA & ->) & AllDone).
  apply Forall_cons in AllDone as ((rB & ->) & _).
  simpl in IA, IB. destruct IA as (-> & ->). destruct IB as (-> & ->).
  split; [exact Ths|].
  destruct (exec_alone_sched _ _ _ _ _ _ R1 [FxReadPrev m1; FxReadPrev m2] eq_refl)
    as (s1 & t1 & E1). simpl in E1.
  pose proof (Keep _ _ _ _ Start E1) as Mid.
  destruct (exec_alone_sched _ _ _ _ _ _ R2 [Done RVoid; FxReadPrev m2] eq_refl)
    as (s2 & t2 & E2). simpl in E2.
  pose proof (Keep _ _ _ _ Mid E2) as (tA & tB & i & j & Ths2 & IA & IB & _ & I2).
  simpl in Ths2. injection Ths2 as <- <-. simpl in IA, IB, I2.
  destruct IA as (_ & ->). destruct IB as (_ & ->).
  pose proof (interleaved_same _ _ _ _ _ _ _ I2 I) as Same.
  split.
  - eapply chain_ok_frame; [|exact Ok2]. intros q _. apply Same.
  - exists tr1, g1, tr2, g2. split; [exact R1|]. split; [exact R2|].
    apply map_eq. exact Same.
Qed.

Lemma apart_nil ws : apart ws [].
Proof. intros p w p' w' _ Hin. inversion Hin. Qed.

Lemma appending_alone_heap g0 pk loc d tp g t q :
  appending_alone g0 pk loc d tp g t -> q ∉ [loc; d; tp] ->
  dsa_vcluster g !! q = dsa_vcluster g0 !! q.
Proof.
  intros (i & _ & _ & Hq) Nq. rewrite Hq.
  destruct (dsa_vcluster g0 !! q) as [n|]; [|reflexivity]. simpl. f_equal.
  apply written_none. intros p w Hin ->. apply elem_of_take_list in Hin.
  apply Nq. eapply append_writes_where. exact Hin.
Qed.

(** X18.  Any number of lookups of one key beside a call of Append for another
    key, in any interleaving of their steps: no lookup dereferences an
    offset that names no node, every lookup that has returned has returned
    what a lookup returns on its chain when nobody else runs, that chain is
    well formed at every moment, and when the appender has returned its own
    chain is well formed with the new node as newest version. *)
Theorem lookups_beside_other_append g pk1 loc d1 vs1 pk2 d2 vs2 snaps sch tr c' :
  shared_lock_available g pk1 ->
  VChainHashLookup pk1 (vchain_hash g) = Some d1 ->
  chain_ok g d1 vs1 -> fresh_node g loc -> loc ∉ d1 :: vs1 ->
  VChainHashLookup pk2 (vchain_hash g) = Some d2 ->
  chain_ok g d2 vs2 ->
  (forall x, x ∈ loc :: d1 :: vs1 -> x ∉ d2 :: vs2) ->
  sched_run sch {| shared := g; threads := ApAcquire pk1 loc :: map (LkAcquire pk2) snaps |}
  = Some (tr, c') ->
  (forall r, threads c' !! 0%nat = Some (Done r) -> chain_ok (shared c') d1 (loc :: vs1)) /\
  chain_ok (shared c') d2 vs2 /\
  forall i s, snaps !! i = Some s ->
    threads c' !! S i <> Some Faulted /\
    forall r, threads c' !! S i = Some (Done r) -> r = first_visible g s vs2.
Proof.
  intros Lk M1 Ok1 Fresh Nin M2 Ok2 Dis Run.
  destruct (append_one 0%nat g pk1 loc d1 vs1 Lk M1 Ok1 Fresh Nin)
    as (tr1 & g1 & R1 & Ok1' & _).
  destruct (chain_ok_tail _ _ _ Ok1) as (c1 & T1 & Hc1 & Cd1 & Cp1 & HT1 & Tf1).
  destruct Fresh as (L & HL & Ld & _).
  set (tp := hd d1 vs1) in *.
  set (aw := append_writes loc d1 tp).
  set (WI := appending_alone g pk1 loc d1 tp).
  assert (Far : forall q, q ∈ d2 :: vs2 -> q ∉ [loc; d1; tp]).
  { intros q Hq Hin. apply (Dis q); [|exact Hq].
    rewrite !elem_of_cons in Hin. destruct Hin as [-> | [-> | [-> | Hin]]].
    - left.
    - right. left.
    - right. apply hd_elem.
    - inversion Hin. }
  assert (Step : forall me g2 t evs g3 t3,
            WI g2 t -> step me g2 t = Some (evs, g3, t3) -> WI g3 t3).
  { intros me g2 t evs g3 t3 (i & At & I) St.
    destruct (append_side g pk1 loc d1 tp c1 T1 L [] M1 Hc1 Cd1 Cp1 HT1 Tf1 HL Ld
                (apart_nil _) me i 0%nat g2 t evs g3 t3 At I St) as (i' & At' & I').
    exists i'. auto. }
  assert (W0 : WI g (ApAcquire pk1 loc)).
  { exists 0%nat. split; [simpl; auto | apply interleaved_start]. }
  pose proof (chain_ok_back _ _ _ Ok2) as (Bd & B).
  assert (Al : forall v, v ∈ vs2 -> is_Some (dsa_vcluster g !! v)).
  { intros v Hv. eapply chain_ok_allocated; eauto. }
  destruct (readers_results pk2 d2 g vs2 vs2 WI (fun _ => false) snaps)
    with (tW0 := ApAcquire pk1 loc) (sch := sch) (tr := tr) (c' := c')
    as (tA & HA & IA & Rs).
  - intros g2 t evs g3 t3 I St. split; [eapply Step; eauto | auto].
  - intros g2 g3 t (i & At & I) Ed Eh. exists i. split; [exact At|].
    eapply interleaved_frame; eauto.
  - intros g2 t s I K. apply presents_of_walks.
    + destruct I as (i & _ & Eh & _). rewrite Eh. exact M2.
    + unfold prev_view. rewrite (appending_alone_heap _ _ _ _ _ _ _ d2 I) by (apply Far; left).
      exact Bd.
    + intros x ws Wk.
      assert (B2 : back (dsa_vcluster g2) vs2 d2).
      { eapply back_ext; [|exact B]. intros q Hq. unfold prev_view.
        rewrite (appending_alone_heap _ _ _ _ _ _ _ q I) by (apply Far; right; exact Hq).
        reflexivity. }
      destruct (walk_node g g2 s vs2 d2 x ws K B2 Al Wk) as (Nx & n & Hn & Dn & Pn & Vn).
      split; [exact Nx|]. exists n. split; [exact Hn|]. split; [exact Dn|].
      split; [exact Vn|]. intros Hx. exists ws. split; [exact Pn|]. left.
      eapply walking_next; eauto.
    + intros P. discriminate P.
  - exact W0.
  - exact Run.
  - split; [|split].
    + (* the appender has returned *)
      intros r Hr. assert (tA = Done r) as -> by congruence.
      destruct IA as (i & At & I). simpl in At. destruct At as (_ & ->).
      assert (I1 : WI g1 (Done RVoid)).
      { apply (exec_invariant alone 0%nat (fun g2 t _ => WI g2 t))
          with (g := g) (t := ApAcquire pk1 loc) (tr := tr1) (tr0 := []).
        - intros ? ? ? ? ? ? I' S. eapply Step; eauto.
        - intros ? ? ? ? _ [].
        - exact R1.
        - exact W0. }
      destruct I1 as (i & At & I1). simpl in At. destruct At as (_ & ->).
      eapply chain_ok_frame; [|exact Ok1']. intros q _.
      apply (interleaved_same _ _ _ _ _ _ _ I1 I).
    + eapply chain_ok_frame; [|exact Ok2]. intros q Hq.
      apply (appending_alone_heap _ _ _ _ _ _ _ q IA). apply Far. exact Hq.
    + intros i s Hs. split.
      * intros Hf. exact (Rs i s _ Hs Hf).
      * intros r Hr. destruct (Rs i s _ Hs Hr) as [Er | (P & _)]; [exact Er | discriminate P].
Qed.

Lemma apart_none ws : apart ws [].
Proof. intros p w p' w' _ Hin. inversion Hin. Qed.

Lemma poke_is_Some p n g q :
  is_Some (dsa_vcluster g !! q) -> is_Some (dsa_vcluster (poke p n g) !! q).
Proof.
  intros Hq. unfold poke. simpl. destruct (decide (q = p)) as [->|Ne].
  - rewrite lookup_insert_eq. eauto.
  - rewrite lookup_insert_ne by congruence. exact Hq.
Qed.

(** VChainFixUpOne returns when [mid] and the two nodes its links name are
    allocated. *)
Lemma fixup_returns me g mid m :
  dsa_vcluster g !! mid = Some m ->
  is_Some (dsa_vcluster g !! dsap_prev m) ->
  is_Some (dsa_vcluster g !! dsap_next m) ->
  exists tr g', returns me g (FxReadPrev mid) tr g' RVoid.
Proof.
  intros Hm (Pn & HP) HN.
  destruct (poke_is_Some (dsap_prev m) (set_dsap_next (dsap_next m) Pn) g _ HN) as (Nn & HN').
  assert (Hmid : is_Some (dsa_vcluster g !! mid)) by eauto.
  apply (poke_is_Some (dsap_prev m) (set_dsap_next (dsap_next m) Pn)) in Hmid.
  apply (poke_is_Some (dsap_next m) (set_dsap_prev (dsap_prev m) Nn)) in Hmid.
  destruct Hmid as (M & HM).
  eexists _, _. unfold returns.
  eapply exec_step. { unfold step, deref. rewrite Hm. reflexivity. }
  eapply exec_step. { unfold step, deref. rewrite Hm. reflexivity. }
  eapply exec_step. { unfold step, deref. rewrite HP. reflexivity. }
  eapply exec_step. { unfold step, deref. rewrite HN'. reflexivity. }
  eapply exec_step. { reflexivity. }
  eapply exec_step. { unfold step, deref. rewrite HM. reflexivity. }
  apply exec_one. reflexivity.
Qed.

(** The fields of a node after the first [j] stores of VChainFixUpOne. *)
Lemma fixup_written_fields mid P N now j q n :
  let n' := written (take j (fixup_writes mid P N now)) q n in
  dsap n' = dsap n /\ xmin n' = xmin n /\ flag n' = flag n /\
  (q = P -> dsap_next n' = if (1 <=? j)%nat then N else dsap_next n) /\
  (q = N -> dsap_prev n' = if (2 <=? j)%nat then P else dsap_prev n) /\
  (q = mid -> timestamp n' = if (3 <=? j)%nat then now else timestamp n) /\
  (q <> P -> dsap_next n' = dsap_next n) /\
  (q <> N -> dsap_prev n' = dsap_prev n) /\
  (q <> mid -> timestamp n' = timestamp n).
Proof.
  destruct j as [|[|[|j]]]; unfold fixup_writes, written; simpl;
    rewrite ?take_nil; simpl;
    repeat case_decide; subst; simpl; repeat split; intros; congruence.
Qed.

(** What a step of VChainFixUpOne emits. *)
Lemma fixup_step_events me g t evs g1 t1 :
  step me g t = Some (evs, g1, t1) -> t1 <> Faulted ->
  match t with
  | FxReadPrev m => exists p, t1 = FxReadNext m p /\ evs = [EvLoad m F_prev p]
  | FxReadNext m p => exists n, t1 = FxStoreNext m p n /\ evs = [EvLoad m F_next n]
  | FxStoreNext m p n => t1 = FxStorePrev m p n /\ evs = [EvStore p F_next n]
  | FxStorePrev m p n => t1 = FxBarrier m /\ evs = [EvStore n F_prev p]
  | FxBarrier m => t1 = FxStamp m /\ evs = [EvBarrier]
  | FxStamp m =>
      t1 = Ret RVoid /\
      evs = [EvGetCurrentTimestamp (clock g); EvStore m F_timestamp (clock g)]
  | Ret r => t1 = Done r /\ evs = [EvReturn r]
  | _ => True
  end.
Proof.
  intros S Nf. destruct t; try exact Logic.I.
  all: unfold step, deref in S; repeat case_match; simplify_eq; eauto; congruence.
Qed.

(** The state and the trace at each program point of VChainFixUpOne(mid),
    beside an environment that writes no node. *)
Lemma fixup_state_invariant rely me g mid m tr g' t' :
  keeps_memory rely ->
  dsa_vcluster g !! mid = Some m ->
  is_Some (dsa_vcluster g !! dsap_prev m) ->
  is_Some (dsa_vcluster g !! dsap_next m) ->
  exec rely me g (FxReadPrev mid) tr g' t' ->
  clock g' = clock g /\
  tr = take (fixup_events t') (fixup_trace mid (dsap_prev m) (dsap_next m) (clock g)) /\
  exists j, fixup_at mid (dsap_prev m) (dsap_next m) t' j /\
            interleaved g (fixup_writes mid (dsap_prev m) (dsap_next m) (clock g)) [] j 0 g'.
Proof.
  intros K Hm HP HN X.
  apply (exec_invariant rely me
           (fun g1 t tr1 => clock g1 = clock g /\
              tr1 = take (fixup_events t)
                      (fixup_trace mid (dsap_prev m) (dsap_next m) (clock g)) /\
              exists j, fixup_at mid (dsap_prev m) (dsap_next m) t j /\
                interleaved g (fixup_writes mid (dsap_prev m) (dsap_next m) (clock g))
                  [] j 0 g1))
    with (g := g) (t := FxReadPrev mid) (tr := tr) (tr0 := []).
  - intros g1 t tr1 evs g2 t2 (Ck & Tr & j & At & I) S.
    destruct (fixup_side g mid (dsap_prev m) (dsap_next m) m [] Hm eq_refl eq_refl HP HN
                (apart_none _)
                (fun p w Hin => match elem_of_nil _ with conj f _ => False_ind _ (f Hin) end)
                me 0%nat j g1 t evs g2 t2 At I Ck S) as (j' & At' & I').
    split; [rewrite <- Ck; eapply step_keeps_clock; exact S|].
    split; [|eauto].
    assert (Nf : t2 <> Faulted) by (intros ->; exact At').
    pose proof (fixup_step_events _ _ _ _ _ _ S Nf) as Ev.
    rewrite Tr. clear - At At' Ev Ck S.
    destruct t; try contradiction; simpl in At, Ev.
    + destruct Ev as (p & -> & ->). simpl in At'. destruct At as (-> & _).
      destruct At' as (_ & -> & _). reflexivity.
    + destruct Ev as (n & -> & ->). simpl in At'. destruct At as (-> & -> & _).
      destruct At' as (_ & _ & -> & _). reflexivity.
    + destruct At as (-> & -> & -> & _). destruct Ev as (-> & ->). reflexivity.
    + destruct At as (-> & -> & -> & _). destruct Ev as (-> & ->). reflexivity.
    + destruct At as (-> & _). destruct Ev as (-> & ->). reflexivity.
    + destruct At as (-> & _). destruct Ev as (-> & ->). rewrite Ck. reflexivity.
    + destruct At as (-> & _). destruct Ev as (-> & ->). reflexivity.
    + discriminate S.
  - intros g1 g2 t tr1 (Ck & Tr & j & At & I) R. destruct (K _ _ R) as (Ed & Eh & Ec).
    split; [congruence|]. split; [exact Tr|]. exists j. split; [exact At|].
    eapply interleaved_frame; eauto.
  - exact X.
  - split; [reflexivity|]. split; [reflexivity|].
    exists 0%nat. split; [simpl; auto | apply interleaved_start].
Qed.

(** The fields of the state after the first [j] stores of
    VChainFixUpOne(mid). *)
Lemma fixup_fields_at g mid P N j g' q :
  interleaved g (fixup_writes mid P N (clock g)) [] j 0 g' ->
  self_at g' q = self_at g q /\ xmin_at g' q = xmin_at g q /\ flag_at g' q = flag_at g q /\
  (q = P -> is_Some (dsa_vcluster g !! P) ->
   next_at g' q = if (1 <=? j)%nat then Some N else next_at g q) /\
  (q = N -> is_Some (dsa_vcluster g !! N) ->
   prev_at g' q = if (2 <=? j)%nat then Some P else prev_at g q) /\
  (q = mid -> is_Some (dsa_vcluster g !! mid) ->
   stamp_at g' q = if (3 <=? j)%nat then Some (clock g) else stamp_at g q) /\
  (q <> N -> prev_at g' q = prev_at g q) /\
  (q <> P -> next_at g' q = next_at g q) /\
  (q <> mid -> stamp_at g' q = stamp_at g q).
Proof.
  intros (_ & Hq). unfold self_at, xmin_at, flag_at, next_at, prev_at, stamp_at.
  rewrite Hq. simpl.
  destruct (dsa_vcluster g !! q) as [n|] eqn:E; simpl.
  - destruct (fixup_written_fields mid P N (clock g) j q n)
      as (F1 & F2 & F3 & F4 & F5 & F6 & F7 & F8 & F9).
    rewrite F1, F2, F3. split; [reflexivity|]. split; [reflexivity|]. split; [reflexivity|].
    split; [intros Eq _; rewrite (F4 Eq); destruct j as [|[|[|?]]]; reflexivity|].
    split; [intros Eq _; rewrite (F5 Eq); destruct j as [|[|[|?]]]; reflexivity|].
    split; [intros Eq _; rewrite (F6 Eq); destruct j as [|[|[|?]]]; reflexivity|].
    split; [intros Ne; rewrite (F8 Ne); reflexivity|].
    split; [intros Ne; rewrite (F7 Ne); reflexivity|].
    intros Ne; rewrite (F9 Ne); reflexivity.
  - split; [reflexivity|]. split; [reflexivity|]. split; [reflexivity|].
    split; [intros -> (x & Hx); congruence|].
    split; [intros -> (x & Hx); congruence|].
    split; [intros -> (x & Hx); congruence|].
    auto.
Qed.

Lemma fixup_at_stage mid P N t j :
  fixup_at mid P N t j ->
  fixup_stage t = j /\ (fixing t = true \/ t = Ret RVoid \/ t = Done RVoid).
Proof.
  destruct t; simpl; try contradiction; intros At.
  all: repeat match goal with X : _ /\ _ |- _ => destruct X as (? & X) end; subst; auto.
Qed.

(** C5.  VChainFixUpOne(mid), beside an environment that writes no node:
    the stores are done in the order of the source, and each is seen in the
    state.  Up to line 241 nothing is written; from line 242 on
    prev->dsap_next is mid's next; from the barrier of line 245 on
    next->dsap_prev is mid's prev as well, while mid's timestamp is still
    the old one; only once the call returns does mid carry the clock value
    as its timestamp.  So the stamp never precedes an unlink store, and the
    barrier lies between the two.  No other field of any node changes, no
    node is freed, the hash is not touched, and neither are the locks and
    the epochs when the environment leaves them alone.  The call returns
    when mid and the two nodes its links name are allocated. *)
Theorem fixup_unlinks_then_stamps rely me g mid m tr g' t' :
  keeps_memory rely ->
  dsa_vcluster g !! mid = Some m ->
  is_Some (dsa_vcluster g !! dsap_prev m) ->
  is_Some (dsa_vcluster g !! dsap_next m) ->
  exec rely me g (FxReadPrev mid) tr g' t' ->
  (fixing t' = true \/ t' = Ret RVoid \/ t' = Done RVoid) /\
  tr = take (fixup_events t') (fixup_trace mid (dsap_prev m) (dsap_next m) (clock g)) /\
  next_at g' (dsap_prev m)
  = (if (1 <=? fixup_stage t')%nat then Some (dsap_next m) else next_at g (dsap_prev m)) /\
  prev_at g' (dsap_next m)
  = (if (2 <=? fixup_stage t')%nat then Some (dsap_prev m) else prev_at g (dsap_next m)) /\
  stamp_at g' mid
  = (if (3 <=? fixup_stage t')%nat then Some (clock g) else stamp_at g mid) /\
  (forall q,
     self_at g' q = self_at g q /\ xmin_at g' q = xmin_at g q /\
     flag_at g' q = flag_at g q /\
     (q <> dsap_next m -> prev_at g' q = prev_at g q) /\
     (q <> dsap_prev m -> next_at g' q = next_at g q) /\
     (q <> mid -> stamp_at g' q = stamp_at g q)) /\
  vchain_hash g' = vchain_hash g /\
  ((forall a b, rely a b -> same_frame a b) -> same_frame g g') /\
  exists tr1 g1, returns me g (FxReadPrev mid) tr1 g1 RVoid.
Proof.
  intros K Hm HP HN X.
  destruct (fixup_state_invariant _ _ _ _ _ _ _ _ K Hm HP HN X) as (Ck & Tr & j & At & I).
  destruct (fixup_at_stage _ _ _ _ _ At) as (-> & Where).
  split; [exact Where|]. split; [exact Tr|].
  pose proof (fun q => fixup_fields_at g mid (dsap_prev m) (dsap_next m) _ g' q I) as F.
  split; [exact (proj1 (proj2 (proj2 (proj2 (F (dsap_prev m))))) eq_refl HP)|].
  split; [exact (proj1 (proj2 (proj2 (proj2 (proj2 (F (dsap_next m)))))) eq_refl HN)|].
  split.
  { apply (proj1 (proj2 (proj2 (proj2 (proj2 (proj2 (F mid))))))); [reflexivity | eauto]. }
  split.
  { intros q. destruct (F q) as (F1 & F2 & F3 & _ & _ & _ & F7 & F8 & F9). auto 10. }
  split; [exact (proj1 I)|].
  split; [intros Fr; eapply fixup_frame_invariant; eauto|].
  eapply fixup_returns; eauto.
Qed.








(** An execution either has taken no step of its own, or it has a first
    one. *)
Lemma exec_first_step rely me g t tr g' t' :
  keeps_memory rely ->
  exec rely me g t tr g' t' ->
  (t' = t /\ tr = [] /\ same_memory g g') \/
  exists g1 evs g2 t2 tr',
    same_memory g g1 /\ step me g1 t = Some (evs, g2, t2) /\
    exec rely me g2 t2 tr' g' t' /\ tr = evs ++ tr'.
Proof.
  intros K X. induction X as [| ? ? ? ? ? ? ? ? E X IH | ? ? ? ? ? ? R X IH].
  - left. repeat split.
  - right. exists g, evs, g1, t1, tr. repeat split; auto.
  - destruct (K _ _ R) as (E1 & E2 & E3).
    destruct IH as [(-> & -> & (Ea & Eb & Ec)) | (ga & evs & gb & tb & tr' & (Ea & Eb & Ec) & S & Y & ->)].
    + left. repeat split; congruence.
    + right. exists ga, evs, gb, tb, tr'. repeat split; auto; congruence.
Qed.

(** Writing the flag of one node changes nothing else. *)
Lemma reflag_fields g g1 tp T f q :
  dsa_vcluster g !! tp = Some T ->
  dsa_vcluster g1 = <[tp := set_flag f T]> (dsa_vcluster g) ->
  self_at g1 q = self_at g q /\ prev_at g1 q = prev_at g q /\
  next_at g1 q = next_at g q /\ xmin_at g1 q = xmin_at g q /\
  stamp_at g1 q = stamp_at g q /\
  (q <> tp -> flag_at g1 q = flag_at g q) /\
  flag_at g1 tp = Some f.
Proof.
  intros HT E. unfold self_at, prev_at, next_at, xmin_at, stamp_at, flag_at. rewrite E.
  rewrite lookup_insert_eq. simpl.
  destruct (decide (q = tp)) as [->|Ne].
  - rewrite lookup_insert_eq, HT. simpl. repeat split. congruence.
  - rewrite lookup_insert_ne by congruence. repeat split.
Qed.

(** Lines 209-214, from the exchange back to the return. *)
Lemma exchange_back_done rely me g tp T tr g' r :
  keeps_memory rely ->
  dsa_vcluster g !! tp = Some T ->
  exec rely me g (ApExchangeBack tp) tr g' (Done r) ->
  r = RVoid /\
  exists g2,
    dsa_vcluster g2 = <[tp := set_flag VL_WINNER T]> (dsa_vcluster g) /\
    vchain_hash g2 = vchain_hash g /\ clock g2 = clock g /\
    ((flag T <> VL_DELETE /\ same_memory g2 g' /\
      tr = [EvExchange tp VL_WINNER (flag T); EvReturn RVoid])
     \/
     (flag T = VL_DELETE /\
      exists trf, exec rely me g2 (FxReadPrev tp) trf g' (Done r) /\
                  tr = EvExchange tp VL_WINNER VL_DELETE :: EvFixUp tp :: trf)).
Proof.
  intros K HT X.
  destruct (exec_first_step _ _ _ _ _ _ _ K X)
    as [(E & _) | (g1 & evs & g2 & t2 & tr1 & (Ea & Eb & Ec) & S & Y & ->)];
    [discriminate E|].
  unfold step, deref in S. rewrite Ea, HT in S. simplify_eq.
  destruct (exec_first_step _ _ _ _ _ _ _ K Y)
    as [(E & _) | (g3 & evs & g4 & t4 & tr2 & (Fa & Fb & Fc) & S & Z & ->)];
    [discriminate E|].
  unfold step in S.
  destruct (flag_eqb (flag T) VL_DELETE) eqn:Fl; simplify_eq.
  - (* line 211: the cutter has been here *)
    assert (Hf : flag T = VL_DELETE) by (destruct (flag T); (reflexivity || discriminate Fl)).
    assert (r = RVoid /\ True) as (-> & _).
    { assert (A : fixup_inv tp [] (Done r) tr2)
        by (eapply fixup_trace_invariant; exact Z).
      clear - A. simpl in A. destruct r; try contradiction; auto;
        try (destruct A as (? & ?); contradiction); try tauto. }
    split; [reflexivity|].
    exists g4. unfold poke in Fa. simpl in Fa, Fb, Fc.
    split; [rewrite Fa, Ea; reflexivity|]. split; [congruence|]. split; [congruence|].
    right. split; [exact Hf|]. exists tr2. split; [exact Z|]. rewrite Hf. reflexivity.
  - (* line 214 *)
    assert (Hf : flag T <> VL_DELETE) by (intros E; rewrite E in Fl; discriminate Fl).
    destruct (exec_first_step _ _ _ _ _ _ _ K Z)
      as [(E & _) | (g5 & evs & g6 & t6 & tr3 & (Ga & Gb & Gc) & S & W & ->)];
      [discriminate E|].
    simpl in S. simplify_eq.
    destruct (exec_first_step _ _ _ _ _ _ _ K W)
      as [(E & -> & (Ia & Ib & Ic)) | (g7 & evs & g8 & t8 & tr4 & _ & S & _)];
      [|discriminate S].
    injection E as ->. split; [reflexivity|].
    exists g4. unfold poke in Fa. simpl in Fa, Fb, Fc.
    split; [rewrite Fa, Ea; reflexivity|]. split; [congruence|]. split; [congruence|].
    left. split; [exact Hf|]. split; [|reflexivity].
    repeat split; congruence.
Qed.

(** C4.  Lines 209-214 of VChainAppendLocator, entered once the new node
    is linked: the exchange puts VL_WINNER into the flag of the tail, which
    the shared memory shows when the call has returned, and captures the
    flag it found there.  When the captured flag is VL_DELETE the call runs
    VChainFixUpOne on the tail, and the memory shows it: the neighbours of
    the tail name each other and the tail carries the clock as timestamp.
    When the captured flag is anything else the call returns at once: no
    VChainFixUpOne, and every link and timestamp is as it was at the
    exchange.  So VChainFixUpOne is called if and only if VL_DELETE was
    captured, and only ever on the tail.  The call returns in both cases. *)
Theorem append_fixup_iff_delete rely me g tp T tr g' r :
  keeps_memory rely ->
  dsa_vcluster g !! tp = Some T ->
  (flag T = VL_DELETE ->
   is_Some (dsa_vcluster g !! dsap_prev T) /\ is_Some (dsa_vcluster g !! dsap_next T)) ->
  exec rely me g (ApExchangeBack tp) tr g' (Done r) ->
  r = RVoid /\
  flag_at g' tp = Some VL_WINNER /\
  (exists post, tr = EvExchange tp VL_WINNER (flag T) :: post) /\
  (flag T = VL_DELETE <-> EvFixUp tp ∈ tr) /\
  (forall m, EvFixUp m ∈ tr -> m = tp) /\
  (flag T = VL_DELETE ->
   tr = EvExchange tp VL_WINNER VL_DELETE :: EvFixUp tp
          :: fixup_trace tp (dsap_prev T) (dsap_next T) (clock g) /\
   next_at g' (dsap_prev T) = Some (dsap_next T) /\
   prev_at g' (dsap_next T) = Some (dsap_prev T) /\
   stamp_at g' tp = Some (clock g) /\
   forall q, (q <> dsap_next T -> prev_at g' q = prev_at g q) /\
             (q <> dsap_prev T -> next_at g' q = next_at g q) /\
             (q <> tp -> stamp_at g' q = stamp_at g q)) /\
  (flag T <> VL_DELETE ->
   tr = [EvExchange tp VL_WINNER (flag T); EvReturn RVoid] /\
   forall q, prev_at g' q = prev_at g q /\ next_at g' q = next_at g q /\
             stamp_at g' q = stamp_at g q) /\
  (forall q, self_at g' q = self_at g q /\ xmin_at g' q = xmin_at g q /\
             (q <> tp -> flag_at g' q = flag_at g q)) /\
  vchain_hash g' = vchain_hash g /\
  exists tr1 g1, returns me g (ApExchangeBack tp) tr1 g1 RVoid.
Proof.
  intros K HT Al X.
  destruct (exchange_back_done _ _ _ _ _ _ _ _ K HT X)
    as (-> & g2 & E2 & Eh2 & Ec2 & Cases).
  pose proof (fun q => reflag_fields g g2 tp T VL_WINNER q HT E2) as R2.
  assert (HT2 : dsa_vcluster g2 !! tp = Some (set_flag VL_WINNER T))
    by (rewrite E2; apply lookup_insert_eq).
  assert (Total : exists tr1 g1, returns me g (ApExchangeBack tp) tr1 g1 RVoid).
  { destruct (flag_eqb (flag T) VL_DELETE) eqn:Fl.
    - assert (Hf : flag T = VL_DELETE) by (destruct (flag T); (reflexivity || discriminate Fl)).
      destruct (Al Hf) as (AP & AN).
      destruct (fixup_returns me (poke tp (set_flag VL_WINNER T) g) tp (set_flag VL_WINNER T))
        as (trf & gf & Xf).
      + unfold poke. simpl. apply lookup_insert_eq.
      + apply poke_is_Some. exact AP.
      + apply poke_is_Some. exact AN.
      + eexists _, gf. unfold returns.
        eapply exec_step; [unfold step, deref; rewrite HT; reflexivity|].
        eapply exec_step; [unfold step; rewrite Fl; reflexivity|]. exact Xf.
    - eexists _, _. unfold returns.
      eapply exec_step; [unfold step, deref; rewrite HT; reflexivity|].
      eapply exec_step; [unfold step; rewrite Fl; reflexivity|].
      eapply exec_step; [reflexivity|]. apply exec_here. }
  split; [reflexivity|].
  destruct Cases as [(Hf & (Ea & Eb & Ec) & ->) | (Hf & trf & Xf & ->)].
  - (* line 214 *)
    assert (Same : forall q, dsa_vcluster g' !! q = dsa_vcluster g2 !! q) by (intros q; rewrite Ea; reflexivity).
    assert (P : forall q, self_at g' q = self_at g2 q /\ prev_at g' q = prev_at g2 q /\
                          next_at g' q = next_at g2 q /\ xmin_at g' q = xmin_at g2 q /\
                          stamp_at g' q = stamp_at g2 q /\ flag_at g' q = flag_at g2 q).
    { intros q. unfold self_at, prev_at, next_at, xmin_at, stamp_at, flag_at.
      rewrite Same. repeat split. }
    split; [rewrite (proj2 (proj2 (proj2 (proj2 (proj2 (P tp)))))); apply (R2 tp)|].
    split; [eauto|].
    split.
    { split; [intros E; contradiction|].
      rewrite !elem_of_cons. intros [E | [E | E]]; [discriminate E | discriminate E | inversion E]. }
    split.
    { intros m. rewrite !elem_of_cons.
      intros [E | [E | E]]; [discriminate E | discriminate E | inversion E]. }
    split; [intros E; contradiction|].
    split.
    { intros _. split; [reflexivity|]. intros q.
      destruct (P q) as (_ & P2 & P3 & _ & P5 & _).
      destruct (R2 q) as (_ & Q2 & Q3 & _ & Q5 & _). repeat split; congruence. }
    split.
    { intros q. destruct (P q) as (P1 & _ & _ & P4 & _ & P6).
      destruct (R2 q) as (Q1 & _ & _ & Q4 & _ & Q6 & _).
      split; [congruence|]. split; [congruence|]. intros Ne. rewrite P6. auto. }
    split; [congruence | exact Total].
  - (* line 211 *)
    destruct (Al Hf) as (AP & AN).
    assert (AP2 : is_Some (dsa_vcluster g2 !! dsap_prev (set_flag VL_WINNER T))).
    { simpl. rewrite E2. apply (poke_is_Some tp (set_flag VL_WINNER T) g). exact AP. }
    assert (AN2 : is_Some (dsa_vcluster g2 !! dsap_next (set_flag VL_WINNER T))).
    { simpl. rewrite E2. apply (poke_is_Some tp (set_flag VL_WINNER T) g). exact AN. }
    destruct (fixup_state_invariant _ _ _ _ _ _ _ _ K HT2 AP2 AN2 Xf)
      as (Ck & Tr & j & At & I).
    simpl in At. destruct At as (_ & ->). simpl in Tr, I.
    pose proof (fun q => fixup_fields_at g2 tp (dsap_prev T) (dsap_next T) 3 g' q I) as F.
    rewrite Ec2 in Tr. subst trf.
    split.
    { destruct (F tp) as (_ & _ & F3 & _). rewrite F3. apply (R2 tp). }
    split; [rewrite Hf; eauto|].
    split.
    { split; [intros _; rewrite !elem_of_cons; auto|]. intros _. exact Hf. }
    split.
    { intros m. unfold fixup_trace. rewrite !elem_of_cons.
      intros [E | [E | Hin]]; [discriminate E | congruence |].
      repeat (destruct Hin as [E | Hin]; [discriminate E|]). inversion Hin. }
    split.
    { intros _. split; [reflexivity|].
      split.
      { destruct (F (dsap_prev T)) as (_ & _ & _ & F4 & _). apply F4; [reflexivity|].
        simpl in AP2. exact AP2. }
      split.
      { destruct (F (dsap_next T)) as (_ & _ & _ & _ & F5 & _). apply F5; [reflexivity|].
        simpl in AN2. exact AN2. }
      split.
      { destruct (F tp) as (_ & _ & _ & _ & _ & F6 & _). rewrite <- Ec2.
        apply F6; [reflexivity | eauto]. }
      intros q. destruct (F q) as (_ & _ & _ & _ & _ & _ & F7 & F8 & F9).
      destruct (R2 q) as (_ & Q2 & Q3 & _ & Q5 & _).
      split; [intros Ne; rewrite (F7 Ne); exact Q2|].
      split; [intros Ne; rewrite (F8 Ne); exact Q3|].
      intros Ne; rewrite (F9 Ne); exact Q5. }
    split; [intros Ne; contradiction|].
    split.
    { intros q. destruct (F q) as (F1 & F2 & F3 & _).
      destruct (R2 q) as (Q1 & _ & _ & Q4 & _ & Q6 & _).
      split; [congruence|]. split; [congruence|]. intros Ne. rewrite F3. auto. }
    split; [|exact Total]. rewrite (proj1 I). exact Eh2.
Qed.













(** X4.  VChainFixUpOne(mid) for a version [mid] of a well-formed chain, run
    alone, returns and leaves the chain well formed without [mid]: the
    neighbours of [mid] point at each other, in both directions, and the
    backward walk no longer meets [mid].  The node itself keeps its offset,
    both its links, its xmin and its flag, so that a reader standing on it
    can walk on, and its timestamp is the clock; no node outside the chain
    is touched. *)
Theorem fixup_unlinks_version me g d xs mid ys :
  chain_ok g d (xs ++ mid :: ys) ->
  exists tr g' m,
    returns me g (FxReadPrev mid) tr g' RVoid /\
    chain_ok g' d (xs ++ ys) /\
    chain_versions g' d (xs ++ ys) /\
    (forall x, x ∈ d :: xs ++ ys -> mutual g' x) /\
    dsa_vcluster g !! mid = Some m /\
    self_at g' mid = Some (dsap m) /\
    prev_at g' mid = Some (dsap_prev m) /\
    next_at g' mid = Some (dsap_next m) /\
    xmin_at g' mid = Some (xmin m) /\
    flag_at g' mid = Some (flag m) /\
    stamp_at g' mid = Some (clock g) /\
    (forall q, q ∉ d :: xs ++ mid :: ys -> dsa_vcluster g' !! q = dsa_vcluster g !! q).
Proof.
  intros Ok. destruct (fixup_one me g d xs mid ys Ok) as (tr & g' & m & X & Ok' & Hm & Hm' & Fr & _).
  exists tr, g', m. split; [exact X|]. split; [exact Ok'|].
  split; [apply chain_ok_versions; exact Ok'|].
  split; [apply chain_ok_mutual; exact Ok'|].
  split; [exact Hm|].
  unfold self_at, prev_at, next_at, xmin_at, flag_at, stamp_at. rewrite Hm'. simpl.
  repeat (split; [reflexivity|]). exact Fr.
Qed.

(** X14.  Appending a node and fixing the same node up is a round trip.  On a
    well-formed chain, VChainAppendLocator(pk, loc) run alone makes [loc]
    the newest version; VChainFixUpOne(loc) run alone after it returns the
    chain to the versions it had, and every node other than [loc], the
    anchor and the former newest version included, is exactly as it was
    before the two calls.  The node at [loc] keeps its offset, its xmin and
    its flag, has the links the append gave it, the former newest version
    (or the anchor) behind it and the anchor ahead, and its timestamp is
    the clock at the fix-up. *)
Theorem append_then_fixup_restores me me' g pk loc d vs :
  shared_lock_available g pk ->
  VChainHashLookup pk (vchain_hash g) = Some d ->
  chain_ok g d vs ->
  fresh_node g loc -> loc ∉ d :: vs ->
  exists tr1 g1 tr2 g2,
    returns me g (ApAcquire pk loc) tr1 g1 RVoid /\
    chain_ok g1 d (loc :: vs) /\
    returns me' g1 (FxReadPrev loc) tr2 g2 RVoid /\
    chain_ok g2 d vs /\
    (forall q, q <> loc -> dsa_vcluster g2 !! q = dsa_vcluster g !! q) /\
    self_at g2 loc = self_at g loc /\
    xmin_at g2 loc = xmin_at g loc /\
    flag_at g2 loc = flag_at g loc /\
    prev_at g2 loc = Some (hd d vs) /\
    next_at g2 loc = Some d /\
    stamp_at g2 loc = Some (clock g) /\
    vchain_hash g2 = vchain_hash g.
Proof.
  intros Lk M Ok Fresh Nin.
  destruct (append_fixup_nodes me me' g pk loc d vs Lk M Ok Fresh Nin)
    as (tr1 & g1 & tr2 & g2 & R1 & Ok1 & R2 & Ok2 & Fr & (L & HL & HL2) & Eh).
  exists tr1, g1, tr2, g2.
  split; [exact R1|]. split; [exact Ok1|]. split; [exact R2|]. split; [exact Ok2|].
  split; [exact Fr|].
  unfold self_at, prev_at, next_at, xmin_at, flag_at, stamp_at. rewrite HL, HL2. simpl.
  repeat (split; [reflexivity|]). exact Eh.
Qed.

(** *** Appends that take turns between lines 183 and 206 *)























Section Turns.
Variables (pk : PrimaryKey) (locs vs : list dsa_pointer).
Hypothesis locs_distinct : NoDup locs.

























End Turns.







(** *** Calls that take turns from entry to return *)













End Properties.

(** * The theorems at concrete inputs *)

Section Witnesses.
#[local] Existing Instance toy.

Lemma two_versions_ok : chain_ok two_versions 100 [102; 101].
Proof.
  split.
  - repeat (apply NoDup_cons; split; [rewrite ?not_elem_of_cons; repeat split;
                                       (discriminate || apply not_elem_of_nil)|]).
    apply NoDup_nil_2.
  - eexists. split; [vm_compute; reflexivity|]. repeat split.
    eexists. split; [vm_compute; reflexivity|]. repeat split.
    eexists. split; [vm_compute; reflexivity|]. repeat split.
Qed.


Lemma fresh_in_two_versions l : l ∈ [103; 104] -> fresh_node two_versions l.
Proof.
  intros Hl. repeat (apply elem_of_cons in Hl as [-> | Hl]);
    [| | inversion Hl]; (eexists; split; [vm_compute; reflexivity|]; split; reflexivity).
Qed.

Lemma lookup_returns_first_visible_witness :
  shared_lock_available two_versions 7 /\
  exists tr g', returns 0%nat two_versions (LkAcquire 7 15) tr g' (RFound 101).
Proof.
  split; [reflexivity|].
  destruct (lookup_returns_first_visible (H := toy) 0%nat two_versions 7 15 eq_refl)
    as (_ & Hit & _).
  apply (Hit 100 [102; 101]); [reflexivity|].
  apply chain_ok_versions. exact two_versions_ok.
Defined.


(** C2.  The assertion of line 201 can fail.  Two calls of
    VChainAppendLocator on key 7, whose chain is empty, backend 1 reaching
    its exchange of line 187 while backend 0 holds its mark on the anchor:
    the exchange of backend 1 captures VL_APPEND, a value of the tri-state
    that is neither VL_DELETE nor VL_WINNER, the assertion fails and the
    backend aborts.  So the exchange does not always capture VL_DELETE or
    VL_WINNER, and the assertion-failure branch is reachable. *)
Lemma exchange_can_capture_append :
  (exists tr c',
     sched_run both_mark two_appenders = Some (tr, c') /\
     (1%nat, EvExchange 100 VL_APPEND VL_APPEND) ∈ tr /\
     (1%nat, EvAssertFail) ∈ tr /\
     threads c' !! 1%nat = Some Aborted)
  /\ ~ exchange_captures_delete_or_idle
  /\ ~ assertion_cannot_fail.
Proof.
  split; [|split].
  - destruct (sched_run both_mark two_appenders) as [[tr c']|] eqn:E;
      [|vm_compute in E; discriminate].
    exists tr, c'. split; [reflexivity|].
    vm_compute in E. injection E as <- <-.
    split; [|split; [|reflexivity]].
    + apply list_elem_of_In. vm_compute. tauto.
    + apply list_elem_of_In. vm_compute. tauto.
  - intros C.
    pose proof (run_exec (H := toy) 1 1%nat append_marked (ApExchange 202 100 100)) as X.
    destruct (C _ _ _ _ _ _ _ _ _ VL_APPEND [] X) as [E | E]; [|discriminate E..].
    vm_compute. reflexivity.
  - intros C.
    pose proof (run_exec (H := toy) 10 1%nat append_marked (ApAcquire 7 202)) as X.
    apply C in X. apply X. vm_compute. reflexivity.
Qed.

Lemma lookup_epoch_bracket_witness :
  let o := run 30 0%nat two_versions (LkAcquire 7 15) in
  exec alone 0%nat two_versions (LkAcquire 7 15) o.1.1 o.1.2 o.2 /\
  lookup_trace 7 (RFound 101) o.1.1 /\
  thread_table o.1.2 !! 0%nat = None.
Proof.
  intros o.
  assert (X : exec alone 0%nat two_versions (LkAcquire 7 15) o.1.1 o.1.2 o.2)
    by apply run_exec.
  split; [exact X|].
  destruct (lookup_epoch_bracket (H := toy) alone 0%nat two_versions 7 15 _ _ _ X) as (T & S).
  assert (D : o.2 = Done (RFound 101)) by (vm_compute; reflexivity).
  split; [exact (T _ D)|].
  destruct S as (_ & _ & S); [intros a0 b0 []|].
  exact (S _ D eq_refl).
Defined.

Lemma lookup_found_retracts_before_return_witness :
  let o := run 30 0%nat two_versions (LkAcquire 7 15) in
  exec alone 0%nat two_versions (LkAcquire 7 15) o.1.1 o.1.2 o.2 /\
  (exists tr0, o.1.1 = tr0 ++ [EvClearTimestamp; EvReturn (RFound 101)]) /\
  published 0%nat o.1.2 = false.
Proof.
  intros o.
  assert (X : exec alone 0%nat two_versions (LkAcquire 7 15) o.1.1 o.1.2 o.2)
    by apply run_exec.
  split; [exact X|].
  destruct (lookup_found_retracts_before_return (H := toy) alone 0%nat two_versions 7 15 _ _ _ 101 X)
    as (_ & T & S).
  assert (D : o.2 = Done (RFound 101)) by (vm_compute; reflexivity).
  split; [exact (T D)|].
  apply S; [intros a0 b0 [] | right; exact D].
Defined.

Lemma append_loser_leaves_append_mark_witness :
  let o := run 6 0%nat delete_marked (ApExchange 103 100 102) in
  exec alone 0%nat delete_marked (ApExchange 103 100 102) o.1.1 o.1.2 o.2 /\
  o.1.1 = EvExchange 102 VL_APPEND VL_DELETE :: drop 1 o.1.1 /\
  o.2 <> Faulted /\
  Forall (fun e => exists old, e = EvFetchAdd 100 F_prev 0 old) (drop 1 o.1.1) /\
  flag_at o.1.2 102 = Some VL_APPEND.
Proof.
  intros o.
  assert (X : exec alone 0%nat delete_marked (ApExchange 103 100 102) o.1.1 o.1.2 o.2)
    by apply run_exec.
  assert (E : o.1.1 = EvExchange 102 VL_APPEND VL_DELETE :: drop 1 o.1.1)
    by (vm_compute; reflexivity).
  assert (NF : o.2 <> Faulted) by (vm_compute; discriminate).
  split; [exact X|]. split; [exact E|]. split; [exact NF|].
  destruct (append_loser_leaves_append_mark (H := toy) alone 0%nat delete_marked 103 100 102
              _ _ _ _ X E NF) as [(Fs & _ & K) | (spins & old & v & rest' & _ & _ & R)].
  - split; [exact Fs|]. apply K. intros a0 b0 [].
  - exfalso.
    assert (Hin : EvLoad 100 F_prev v ∈ drop 1 o.1.1).
    { rewrite R. apply list_elem_of_In, in_or_app. right. right. left. reflexivity. }
    vm_compute in Hin. apply list_elem_of_In in Hin. simpl in Hin.
    repeat (destruct Hin as [Hin | Hin]; [discriminate Hin|]). exact Hin.
Defined.


Lemma not_in_two_versions l : l ∈ [103; 104] -> l ∉ [100; 102; 101].
Proof.
  intros Hl. repeat (apply elem_of_cons in Hl as [-> | Hl]); [| | inversion Hl].
  all: rewrite !not_elem_of_cons; repeat split; (discriminate || apply not_elem_of_nil).
Qed.

Lemma lookup_footprint_witness :
  let o := run 30 0%nat two_versions (LkAcquire 7 15) in
  returns 0%nat two_versions (LkAcquire 7 15) o.1.1 o.1.2 (RFound 101) /\
  dsa_vcluster o.1.2 = dsa_vcluster two_versions /\
  (forall l, lock_state o.1.2 l = lock_state two_versions l) /\
  thread_table o.1.2 = delete 0%nat (thread_table two_versions).
Proof.
  intros o.
  assert (X : returns 0%nat two_versions (LkAcquire 7 15) o.1.1 o.1.2 (RFound 101)).
  { apply (run_returns 30). vm_compute. reflexivity. }
  split; [exact X|].
  destruct (lookup_footprint (H := toy) 0%nat two_versions 7 15 _ _ _ X)
    as (Ed & _ & _ & Lo & Tt).
  split; [exact Ed|]. split; [exact Lo | exact Tt].
Defined.

Lemma nodes_keep_identity_witness :
  exists tr c',
    sched_run stale_tail two_appenders = Some (tr, c') /\
    exists n', dsa_vcluster (shared c') !! 201 = Some n' /\ dsap n' = 201 /\ xmin n' = 10.
Proof.
  destruct (sched_run stale_tail two_appenders) as [[tr c']|] eqn:E;
    [|vm_compute in E; discriminate].
  exists tr, c'. split; [reflexivity|].
  apply (nodes_keep_identity (H := toy) stale_tail two_appenders tr c' E 201
           (mk_node 201 0 0 10 VL_WINNER)).
  vm_compute. reflexivity.
Defined.

Lemma lookup_after_append_witness :
  fresh_node two_versions 103 /\
  exists tr g1 tr' g2,
    returns 0%nat two_versions (ApAcquire 7 103) tr g1 RVoid /\
    returns 1%nat g1 (LkAcquire 7 35) tr' g2 (RFound 103).
Proof.
  assert (F : fresh_node two_versions 103) by (apply fresh_in_two_versions; left).
  split; [exact F|].
  destruct (lookup_after_append (H := toy) 0%nat 1%nat two_versions 7 103 35 F) as (Hit & _).
  apply (Hit 100 [102; 101]).
  - reflexivity.
  - reflexivity.
  - exact two_versions_ok.
  - apply not_in_two_versions. left.
Defined.

Lemma lookup_after_fixup_witness :
  shared_lock_available two_versions 7 /\
  exists tr g1 tr' g2,
    returns 0%nat two_versions (FxReadPrev 101) tr g1 RVoid /\
    returns 1%nat g1 (LkAcquire 7 15) tr' g2 RNotFound.
Proof.
  split; [reflexivity|].
  exact (lookup_after_fixup (H := toy) 0%nat 1%nat two_versions 7 15 100 [102] 101 []
           eq_refl eq_refl two_versions_ok).
Defined.

Lemma append_waits_for_cutter_witness :
  let o := run 40 0%nat delete_marked (ApAcquire 7 103) in
  exec alone 0%nat delete_marked (ApAcquire 7 103) o.1.1 o.1.2 o.2 /\
  (forall r, o.2 <> Ret r /\ o.2 <> Done r) /\ stores o.1.1 = [].
Proof.
  intros o.
  assert (X : exec alone 0%nat delete_marked (ApAcquire 7 103) o.1.1 o.1.2 o.2)
    by apply run_exec.
  split; [exact X|].
  destruct (append_waits_for_cutter (H := toy) 0%nat delete_marked 7 103 100
              (mk_node 100 102 101 0 VL_WINNER) (mk_node 102 101 100 20 VL_DELETE))
    with (tr := o.1.1) (g' := o.1.2) (t' := o.2) as (ND & _ & _ & St & _).
  - reflexivity.
  - vm_compute. reflexivity.
  - reflexivity.
  - vm_compute. reflexivity.
  - reflexivity.
  - simpl. lia.
  - exact X.
  - split; [exact ND | exact St].
Defined.

Lemma lookups_during_append_witness :
  exists tr c',
    sched_run reader_overtaken appender_and_readers = Some (tr, c') /\
    exists tA, threads c' !! 0%nat = Some tA /\
      chain_versions (shared c') 100 (if before_link4 tA then [102; 101] else [103; 102; 101]) /\
      forall i s, [15; 35] !! i = Some s ->
        threads c' !! S i <> Some Faulted /\
        forall r, threads c' !! S i = Some (Done r) ->
          r = first_visible two_versions s [102; 101] \/
          (before_link4 tA = false /\ r = first_visible two_versions s [103; 102; 101]).
Proof.
  destruct (sched_run reader_overtaken appender_and_readers) as [[tr c']|] eqn:E;
    [|vm_compute in E; discriminate].
  exists tr, c'. split; [reflexivity|].
  apply (lookups_during_append (H := toy) two_versions 7 103 100 [102; 101] [15; 35]
           reader_overtaken tr c' eq_refl two_versions_ok).
  - apply fresh_in_two_versions. left.
  - apply not_in_two_versions. left.
  - exact E.
Defined.

Lemma lookups_during_fixup_witness :
  exists tr c',
    sched_run reader_on_unlinked fixer_and_readers = Some (tr, c') /\
    exists tF, threads c' !! 0%nat = Some tF /\
      forall i s, [15; 35] !! i = Some s ->
        threads c' !! S i <> Some Faulted /\
        forall r, threads c' !! S i = Some (Done r) ->
          r = first_visible two_versions s [102; 101] \/
          (unlinked tF = true /\ r = first_visible two_versions s [102]).
Proof.
  destruct (sched_run reader_on_unlinked fixer_and_readers) as [[tr c']|] eqn:E;
    [|vm_compute in E; discriminate].
  exists tr, c'. split; [reflexivity|].
  exact (lookups_during_fixup (H := toy) two_versions 7 100 [102] 101 [] [15; 35]
           reader_on_unlinked tr c' eq_refl two_versions_ok E).
Defined.

Lemma append_footprint_witness :
  let o := run 20 0%nat two_versions (ApAcquire 7 103) in
  returns 0%nat two_versions (ApAcquire 7 103) o.1.1 o.1.2 RVoid /\
  (forall l, lock_state o.1.2 l = lock_state two_versions l) /\
  vchain_hash o.1.2 = vchain_hash two_versions /\
  dsa_vcluster o.1.2 !! 101 = dsa_vcluster two_versions !! 101.
Proof.
  intros o.
  assert (X : returns 0%nat two_versions (ApAcquire 7 103) o.1.1 o.1.2 RVoid).
  { apply (run_returns 20). vm_compute. reflexivity. }
  split; [exact X|].
  destruct (append_footprint (H := toy) 0%nat two_versions 7 103 _ _ _ X) as (Hit & _).
  destruct (Hit 100 (mk_node 100 102 101 0 VL_WINNER) (mk_node 102 101 100 20 VL_WINNER))
    as (_ & _ & _ & Lo & Eh & Fr).
  - reflexivity.
  - vm_compute. reflexivity.
  - vm_compute. reflexivity.
  - discriminate.
  - split; [exact Lo|]. split; [exact Eh|]. apply Fr; discriminate.
Defined.

Lemma other_chain_ok : chain_ok two_keys 300 [301].
Proof.
  split.
  - repeat (apply NoDup_cons; split; [rewrite ?not_elem_of_cons; repeat split;
                                       (discriminate || apply not_elem_of_nil)|]).
    apply NoDup_nil_2.
  - eexists. split; [vm_compute; reflexivity|]. repeat split.
    eexists. split; [vm_compute; reflexivity|]. repeat split.
Qed.

Lemma append_keeps_other_keys_witness :
  let o := run 20 0%nat two_keys (ApAcquire 7 103) in
  returns 0%nat two_keys (ApAcquire 7 103) o.1.1 o.1.2 RVoid /\
  exists tr' g2, returns 1%nat o.1.2 (LkAcquire 8 15) tr' g2 (RFound 301).
Proof.
  intros o.
  assert (X : returns 0%nat two_keys (ApAcquire 7 103) o.1.1 o.1.2 RVoid).
  { apply (run_returns 20). vm_compute. reflexivity. }
  split; [exact X|].
  assert (Idle : forall d, VChainHashLookup 7 (vchain_hash two_keys) = Some d ->
            exists c T, dsa_vcluster two_keys !! d = Some c /\
                        dsa_vcluster two_keys !! dsap_prev c = Some T /\ flag T <> VL_DELETE).
  { intros d Hd. injection Hd as <-.
    exists (mk_node 100 102 101 0 VL_WINNER), (mk_node 102 101 100 20 VL_WINNER).
    split; [vm_compute; reflexivity|]. split; [vm_compute; reflexivity | discriminate]. }
  destruct (append_keeps_other_keys (H := toy) 0%nat 1%nat two_keys 7 103 8 15 _ _ _
              ltac:(discriminate) eq_refl Idle X) as (_ & Hit).
  apply (Hit 300 [301] eq_refl other_chain_ok).
  - rewrite !not_elem_of_cons. repeat split; (discriminate || apply not_elem_of_nil).
  - intros d c Hd Hc. injection Hd as <-. vm_compute in Hc. injection Hc as <-.
    split; rewrite !not_elem_of_cons; repeat split; (discriminate || apply not_elem_of_nil).
Defined.

Lemma append_finishes_cutter_unlink_witness :
  let a := run 6 0%nat two_versions (ApAcquire 7 103) in
  let b := run 20 0%nat (reflag VL_DELETE 102 a.1.2) a.2 in
  exec (cutter_marks 102) 0%nat two_versions (ApAcquire 7 103) (a.1.1 ++ b.1.1) b.1.2
    (Done RVoid) /\
  (((forall m, EvFixUp m ∉ a.1.1 ++ b.1.1) /\ chain_ok b.1.2 100 [103; 102; 101])
   \/
   (EvFixUp 102 ∈ a.1.1 ++ b.1.1 /\ chain_ok b.1.2 100 [103; 101] /\
    exists T, dsa_vcluster b.1.2 !! 102 = Some T /\ dsap_prev T = 101 /\
              dsap_next T = 103 /\ timestamp T = 1000)).
Proof.
  intros a b.
  assert (X : exec (cutter_marks 102) 0%nat two_versions (ApAcquire 7 103)
                (a.1.1 ++ b.1.1) b.1.2 (Done RVoid)).
  { eapply exec_trans.
    - apply exec_alone_rely. apply run_exec.
    - eapply exec_env.
      + split; [vm_compute; reflexivity | reflexivity].
      + apply exec_alone_rely. apply (run_returns 20). vm_compute. reflexivity. }
  split; [exact X|].
  assert (F : fresh_node two_versions 103) by (apply fresh_in_two_versions; left).
  assert (N : 103 ∉ [100; 102; 101]) by (apply not_in_two_versions; left).
  exact (proj2 (append_finishes_cutter_unlink (H := toy) 0%nat two_versions 7 103 100 102
                  [101] _ _ RVoid eq_refl eq_refl two_versions_ok F N X)).
Defined.

Lemma chain_access_without_lock_witness :
  let a := run 4 0%nat no_chain (ApAcquire 7 201) in
  let b := run 8 0%nat no_chain (ApAcquire 7 201) in
  (lock_use a.2 = HeldExclusive /\
   lock_state a.1.2 (partition_lock 7) = {| lw_exclusive := true; lw_shared := 0 |}) /\
  (lock_use b.2 = NotHeld /\
   lock_state b.1.2 (partition_lock 7) = lock_state no_chain (partition_lock 7)).
Proof.
  intros a b. split.
  - split; [reflexivity|].
    exact (proj2 (proj2 (chain_access_without_lock (H := toy) 0%nat no_chain 7
                           (ApAcquire 7 201) a.1.1 a.1.2 a.2
                           (or_intror (ex_intro _ 201 eq_refl))
                           (run_exec 4 0%nat no_chain (ApAcquire 7 201))))).
  - split; [reflexivity|].
    exact (proj2 (chain_access_without_lock (H := toy) 0%nat no_chain 7
                    (ApAcquire 7 201) b.1.1 b.1.2 b.2
                    (or_intror (ex_intro _ 201 eq_refl))
                    (run_exec 8 0%nat no_chain (ApAcquire 7 201)))).
Defined.

Lemma append_again_cuts_chain_witness :
  chain_ok two_versions 100 [102; 101] /\
  exists tr g',
    returns 0%nat two_versions (ApAcquire 7 102) tr g' RVoid /\
    vchain_hash g' = vchain_hash two_versions /\
    (forall q, q <> 102 -> dsa_vcluster g' !! q = dsa_vcluster two_versions !! q) /\
    (exists n, dsa_vcluster g' !! 102 = Some n /\ dsap n = 102 /\
               dsap_prev n = 102 /\ dsap_next n = 102 /\ flag n = VL_WINNER) /\
    (forall ws, ~ chain_versions g' 100 ws) /\
    (forall me' s tr' g2 t r,
       visible two_versions s 102 = false ->
       exec alone me' g' (LkAcquire 7 s) tr' g2 t ->
       t <> Ret r /\ t <> Done r).
Proof.
  split; [exact two_versions_ok|].
  exact (append_again_cuts_chain (H := toy) 0%nat two_versions 7 102 100 [101]
           eq_refl eq_refl two_versions_ok).
Defined.

Lemma append_beside_fixup_witness :
  exists tr c',
    sched_run unlink_amid_append appender_and_fixer = Some (tr, c') /\
    all_done c' /\
    chain_ok (shared c') 100 [103; 102].
Proof.
  destruct (sched_run unlink_amid_append appender_and_fixer) as [[tr c']|] eqn:E;
    [|vm_compute in E; discriminate].
  assert (Th : threads c' = [Done RVoid; Done RVoid]).
  { assert (X : (fun o => threads o.2) <$> sched_run unlink_amid_append appender_and_fixer
                = Some [Done RVoid; Done RVoid]) by (vm_compute; reflexivity).
    rewrite E in X. injection X as X. exact X. }
  assert (AD : all_done c').
  { unfold all_done. rewrite Th. repeat constructor; eexists; reflexivity. }
  exists tr, c'. split; [reflexivity|]. split; [exact AD|].
  assert (F : fresh_node two_versions 103) by (apply fresh_in_two_versions; left).
  assert (N : 103 ∉ [100; 102; 101]) by (apply not_in_two_versions; left).
  exact (proj1 (proj2 (proj2 (proj2 (append_beside_fixup (H := toy) unlink_amid_append
                                       two_versions 7 103 100 102 [] 101 [] tr c'
                                       eq_refl eq_refl two_versions_ok F N E)) AD))).
Defined.

Lemma three_versions_ok : chain_ok three_versions 100 [103; 102; 101].
Proof.
  split.
  - repeat (apply NoDup_cons; split; [rewrite ?not_elem_of_cons; repeat split;
                                       (discriminate || apply not_elem_of_nil)|]).
    apply NoDup_nil_2.
  - eexists. split; [vm_compute; reflexivity|]. repeat split.
    eexists. split; [vm_compute; reflexivity|]. repeat split.
    eexists. split; [vm_compute; reflexivity|]. repeat split.
    eexists. split; [vm_compute; reflexivity|]. repeat split.
Qed.

Lemma fixups_of_distant_versions_witness :
  exists tr c',
    sched_run (in_turn 7) two_fixers = Some (tr, c') /\
    all_done c' /\
    chain_ok (shared c') 100 [102].
Proof.
  destruct (sched_run (in_turn 7) two_fixers) as [[tr c']|] eqn:E;
    [|vm_compute in E; discriminate].
  assert (Th : threads c' = [Done RVoid; Done RVoid]).
  { assert (X : (fun o => threads o.2) <$> sched_run (in_turn 7) two_fixers
                = Some [Done RVoid; Done RVoid]) by (vm_compute; reflexivity).
    rewrite E in X. injection X as X. exact X. }
  assert (AD : all_done c').
  { unfold all_done. rewrite Th. repeat constructor; eexists; reflexivity. }
  exists tr, c'. split; [reflexivity|]. split; [exact AD|].
  exact (proj1 (proj2 (proj2 (fixups_of_distant_versions (H := toy) (in_turn 7)
                                three_versions 100 [] 103 [102] 101 [] tr c'
                                three_versions_ok ltac:(intros X; discriminate X) E) AD))).
Defined.

Lemma first_chain_ok : chain_ok two_keys 100 [102; 101].
Proof.
  split.
  - repeat (apply NoDup_cons; split; [rewrite ?not_elem_of_cons; repeat split;
                                       (discriminate || apply not_elem_of_nil)|]).
    apply NoDup_nil_2.
  - eexists. split; [vm_compute; reflexivity|]. repeat split.
    eexists. split; [vm_compute; reflexivity|]. repeat split.
    eexists. split; [vm_compute; reflexivity|]. repeat split.
Qed.

Lemma two_keys_apart :
  (104 ∉ [300; 301]) /\
  forall x : dsa_pointer, x ∈ [103; 100; 102; 101] -> x ∉ [104; 300; 301].
Proof.
  split.
  - rewrite !not_elem_of_cons. repeat split; (discriminate || apply not_elem_of_nil).
  - intros x Hx. repeat (apply elem_of_cons in Hx as [-> | Hx]); [| | | | inversion Hx].
    all: rewrite !not_elem_of_cons; repeat split; (discriminate || apply not_elem_of_nil).
Qed.

Lemma appends_to_two_keys_witness :
  exists tr c',
    sched_run (in_turn 13) two_key_appenders = Some (tr, c') /\
    all_done c' /\
    chain_ok (shared c') 100 [103; 102; 101] /\
    chain_ok (shared c') 300 [104; 301].
Proof.
  destruct (sched_run (in_turn 13) two_key_appenders) as [[tr c']|] eqn:E;
    [|vm_compute in E; discriminate E].
  assert (Th : threads c' = [Done RVoid; Done RVoid]).
  { assert (X : (fun o => threads o.2) <$> sched_run (in_turn 13) two_key_appenders
                = Some [Done RVoid; Done RVoid]) by (vm_compute; reflexivity).
    rewrite E in X. injection X as X. exact X. }
  assert (AD : all_done c').
  { unfold all_done. rewrite Th. repeat constructor; eexists; reflexivity. }
  exists tr, c'. split; [reflexivity|]. split; [exact AD|].
  assert (F1 : fresh_node two_keys 103).
  { eexists. split; [vm_compute; reflexivity|]. split; reflexivity. }
  assert (F2 : fresh_node two_keys 104).
  { eexists. split; [vm_compute; reflexivity|]. split; reflexivity. }
  assert (N1 : 103 ∉ [100; 102; 101]) by (apply not_in_two_versions; left).
  exact (proj2 (proj2 (appends_to_two_keys (H := toy) (in_turn 13) two_keys
                         7 103 100 [102; 101] 8 104 300 [301] tr c'
                         eq_refl eq_refl eq_refl eq_refl first_chain_ok other_chain_ok
                         F1 F2 N1 (proj1 two_keys_apart) (proj2 two_keys_apart) E) AD)).
Defined.

Lemma lookups_beside_other_append_witness :
  exists tr c',
    sched_run readers_amid_append appender_and_other_readers = Some (tr, c') /\
    chain_ok (shared c') 100 [103; 102; 101] /\
    chain_ok (shared c') 300 [301] /\
    forall i s, [15; 3] !! i = Some s ->
      threads c' !! S i <> Some Faulted /\
      forall r, threads c' !! S i = Some (Done r) -> r = first_visible two_keys s [301].
Proof.
  assert (F1 : fresh_node two_keys 103).
  { eexists. split; [vm_compute; reflexivity|]. split; reflexivity. }
  assert (N1 : 103 ∉ [100; 102; 101]) by (apply not_in_two_versions; left).
  assert (Dis : forall x : dsa_pointer, x ∈ [103; 100; 102; 101] -> x ∉ [300; 301]).
  { intros x Hx. repeat (apply elem_of_cons in Hx as [-> | Hx]); [| | | | inversion Hx].
    all: rewrite !not_elem_of_cons; repeat split; (discriminate || apply not_elem_of_nil). }
  destruct (sched_run readers_amid_append appender_and_other_readers) as [[tr c']|] eqn:E;
    [|vm_compute in E; discriminate E].
  assert (Th : threads c' !! 0%nat = Some (Done RVoid)).
  { assert (X : (fun o => threads o.2 !! 0%nat)
                  <$> sched_run readers_amid_append appender_and_other_readers
                = Some (Some (Done RVoid))) by (vm_compute; reflexivity).
    rewrite E in X. injection X as X. exact X. }
  exists tr, c'. split; [reflexivity|].
  destruct (lookups_beside_other_append (H := toy) two_keys 7 103 100 [102; 101] 8 300 [301]
              [15; 3] readers_amid_append tr c' eq_refl eq_refl first_chain_ok F1 N1
              eq_refl other_chain_ok Dis E) as (A & B & C).
  split; [exact (A RVoid Th)|]. split; [exact B | exact C].
Defined.

Lemma fixup_unlinks_then_stamps_witness :
  let o := run 5 0%nat two_versions (FxReadPrev 101) in
  o.2 = FxStamp 101 /\
  next_at o.1.2 100 = Some 102 /\
  prev_at o.1.2 102 = Some 100 /\
  stamp_at o.1.2 101 = stamp_at two_versions 101 /\
  stamp_at two_versions 101 <> Some 1000 /\
  o.1.1 = take 5 (fixup_trace 101 100 102 1000).
Proof.
  intros o.
  assert (X : exec alone 0%nat two_versions (FxReadPrev 101) o.1.1 o.1.2 o.2)
    by apply run_exec.
  destruct (fixup_unlinks_then_stamps (H := toy) alone 0%nat two_versions 101
              (mk_node 101 100 102 10 VL_WINNER) o.1.1 o.1.2 o.2)
    as (_ & Tr & Nx & Pv & St & _).
  - intros a b [].
  - vm_compute. reflexivity.
  - vm_compute. eauto.
  - vm_compute. eauto.
  - exact X.
  - split; [reflexivity|]. split; [exact Nx|]. split; [exact Pv|].
    split; [exact St|]. split; [vm_compute; discriminate|]. exact Tr.
Defined.

Lemma fixup_unlinks_version_witness :
  chain_ok two_versions 100 ([102] ++ 101 :: []) /\
  exists tr g',
    returns 0%nat two_versions (FxReadPrev 101) tr g' RVoid /\
    chain_ok g' 100 [102] /\
    prev_at g' 101 = Some 100 /\ next_at g' 101 = Some 102 /\
    stamp_at g' 101 = Some 1000.
Proof.
  split; [exact two_versions_ok|].
  destruct (fixup_unlinks_version (H := toy) 0%nat two_versions 100 [102] 101 []
              two_versions_ok)
    as (tr & g' & m & X & Ok & _ & _ & Hm & _ & Pv & Nx & _ & _ & St & _).
  exists tr, g'. split; [exact X|]. split; [exact Ok|].
  vm_compute in Hm. injection Hm as <-. auto.
Defined.

Lemma append_then_fixup_restores_witness :
  exists tr1 g1 tr2 g2,
    returns 0%nat two_versions (ApAcquire 7 103) tr1 g1 RVoid /\
    chain_ok g1 100 [103; 102; 101] /\
    returns 1%nat g1 (FxReadPrev 103) tr2 g2 RVoid /\
    chain_ok g2 100 [102; 101] /\
    (forall q, q <> 103 -> dsa_vcluster g2 !! q = dsa_vcluster two_versions !! q) /\
    self_at g2 103 = Some 103 /\
    xmin_at g2 103 = Some 30 /\
    flag_at g2 103 = Some VL_WINNER /\
    prev_at g2 103 = Some 102 /\
    next_at g2 103 = Some 100 /\
    stamp_at g2 103 = Some 1000 /\
    vchain_hash g2 = vchain_hash two_versions.
Proof.
  assert (F : fresh_node two_versions 103) by (apply fresh_in_two_versions; left).
  assert (N : 103 ∉ [100; 102; 101]) by (apply not_in_two_versions; left).
  exact (append_then_fixup_restores (H := toy) 0%nat 1%nat two_versions 7 103 100
           [102; 101] eq_refl eq_refl two_versions_ok F N).
Defined.


Lemma append_fixup_iff_delete_witness :
  (run 10 0%nat two_versions (ApAcquire 7 103)).2 = ApExchangeBack 102 /\
  flag_at linked_and_marked 102 = Some VL_DELETE /\
  let o := run 20 0%nat linked_and_marked (ApExchangeBack 102) in
  o.2 = Done RVoid /\
  flag_at o.1.2 102 = Some VL_WINNER /\
  EvFixUp 102 ∈ o.1.1 /\
  next_at o.1.2 101 = Some 103 /\
  prev_at o.1.2 103 = Some 101 /\
  stamp_at o.1.2 102 = Some 1000.
Proof.
  split; [reflexivity|]. split; [reflexivity|]. intros o.
  assert (X : exec alone 0%nat linked_and_marked (ApExchangeBack 102) o.1.1 o.1.2 (Done RVoid)).
  { apply (run_returns 20). vm_compute. reflexivity. }
  destruct (append_fixup_iff_delete (H := toy) alone 0%nat linked_and_marked 102
              (set_flag VL_DELETE (mk_node 102 101 103 20 VL_WINNER)) o.1.1 o.1.2 RVoid)
    as (_ & Fl & _ & Iff & _ & Del & _).
  - intros a b [].
  - vm_compute. reflexivity.
  - intros _. split; vm_compute; eauto.
  - exact X.
  - split; [reflexivity|]. split; [exact Fl|].
    split; [apply Iff; reflexivity|].
    destruct (Del eq_refl) as (_ & Nx & Pv & St & _).
    split; [exact Nx|]. split; [exact Pv|]. exact St.
Defined.









End Witnesses.
